(** * Bimap: an intrusive binary search tree and a two-sided pair store

    A shallow embedding of [intrusive_tree.h], the free functions
    [tree::next] / [tree::prev] and the [bimap] class template.

    The C++ objects live in one memory.  A [node_base] sub-object is a
    record of three pointers; the memory maps the address of every live
    [node_base] to its contents.  A pair record ([bimap::node]) consists of
    two [node_base] sub-objects, one per side, at a fixed distance of each
    other, together with the two key values. *)

From stdpp Require Import functions base option list gmap fin_maps countable sorting.
From Stdlib Require Import ZArith Lia.

(** ** Addresses and pointers *)

Inductive side := SLeft | SRight.

Definition other (s : side) : side :=
  match s with SLeft => SRight | SRight => SLeft end.

(** An address is either the sentinel [m_sentinel] of one of the two trees
    of the bimap object number [b], or one of the two [node_base]
    sub-objects of the pair record number [i]. *)
Inductive addr :=
| Sentinel (b : nat) (s : side)
| Sub (i : nat) (s : side).

#[global] Instance side_eq_dec : EqDecision side.
Proof. solve_decision. Defined.

#[global] Instance addr_eq_dec : EqDecision addr.
Proof. solve_decision. Defined.

Definition side_to_bool (s : side) : bool :=
  match s with SLeft => false | SRight => true end.

Definition side_of_bool (b : bool) : side :=
  if b then SRight else SLeft.

Definition addr_code (a : addr) : nat * bool + nat * bool :=
  match a with
  | Sentinel b s => inl (b, side_to_bool s)
  | Sub i s => inr (i, side_to_bool s)
  end.

Definition addr_decode (c : nat * bool + nat * bool) : addr :=
  match c with
  | inl (b, s) => Sentinel b (side_of_bool s)
  | inr (i, s) => Sub i (side_of_bool s)
  end.

#[global] Instance addr_countable : Countable addr.
Proof.
  apply (inj_countable' addr_code addr_decode).
  by intros [b []|i []].
Defined.

(** [nullptr] is [None]. *)
Abbreviation ptr := (option addr).

(** ** Outcomes of a call *)

Inductive outcome (A : Type) :=
| Ret (a : A)      (* the call returns [a] *)
| OutOfRange       (* the call throws [std::out_of_range] *)
| Undefined        (* access through a null or dangling pointer *)
| Diverge.         (* a walk over the links that does not end *)
Arguments Ret {A} a.
Arguments OutOfRange {A}.
Arguments Undefined {A}.
Arguments Diverge {A}.

#[global] Instance outcome_ret : MRet outcome := @Ret.
#[global] Instance outcome_bind : MBind outcome := λ A B f x,
  match x with
  | Ret a => f a
  | OutOfRange => OutOfRange
  | Undefined => Undefined
  | Diverge => Diverge
  end.
#[global] Instance outcome_fmap : FMap outcome := λ A B f x,
  match x with
  | Ret a => Ret (f a)
  | OutOfRange => OutOfRange
  | Undefined => Undefined
  | Diverge => Diverge
  end.

(** ** [struct node_base] *)

Record node_base := NodeBase { parent : ptr; left : ptr; right : ptr }.

#[global] Instance node_base_eq_dec : EqDecision node_base.
Proof. solve_decision. Defined.

(** The default member initialisers: three null pointers. *)
Definition fresh_node : node_base := NodeBase None None None.

Abbreviation heap := (gmap addr node_base).

Definition set_parent (v : ptr) (n : node_base) : node_base :=
  NodeBase v (left n) (right n).
Definition set_left (v : ptr) (n : node_base) : node_base :=
  NodeBase (parent n) v (right n).
Definition set_right (v : ptr) (n : node_base) : node_base :=
  NodeBase (parent n) (left n) v.

(** Reading [p->...]: [p] has to point to a live [node_base]. *)
Definition load (h : heap) (p : ptr) : outcome node_base :=
  match p with
  | None => Undefined
  | Some a => match h !! a with Some n => Ret n | None => Undefined end
  end.

(** Writing [p->field = v], as an update [f] of the record at [p]. *)
Definition store (h : heap) (p : ptr) (f : node_base → node_base) : outcome heap :=
  n ← load h p;
  match p with
  | Some a => Ret (<[a := f n]> h)
  | None => Undefined
  end.

Arguments load : simpl never.
Arguments store : simpl never.

(** Every loop of the engine walks along the links without writing; a walk
    that takes more steps than there are [node_base] objects in memory
    comes back to an object it has left and so never ends. *)
Definition walk_bound (h : heap) : nat := S (size h).
Arguments walk_bound : simpl never.

(** ** [namespace tree]: the free functions and [node_base]'s private members *)

Module tree.

Definition is_left (h : heap) (this : addr) : outcome bool :=
  n ← load h (Some this);
  match parent n with
  | None => Ret false
  | Some p => pn ← load h (Some p); Ret (bool_decide (left pn = Some this))
  end.

Definition is_right (h : heap) (this : addr) : outcome bool :=
  n ← load h (Some this);
  match parent n with
  | None => Ret false
  | Some p => pn ← load h (Some p); Ret (bool_decide (right pn = Some this))
  end.

Definition set_new_child_for_parent (h : heap) (this : addr) (new_child : ptr)
  : outcome heap :=
  n ← load h (Some this);
  l ← is_left h this;
  h1 ← (if (l : bool) then store h (parent n) (set_left new_child)
         else store h (parent n) (set_right new_child));
  match new_child with
  | Some c => store h1 new_child (set_parent (parent n))
  | None => Ret h1
  end.

(** [while (node->left != nullptr) node = node->left;] *)
Fixpoint leftmost (fuel : nat) (h : heap) (node : addr) : outcome addr :=
  match fuel with
  | 0 => Diverge
  | S fuel =>
      n ← load h (Some node);
      match left n with
      | Some l => leftmost fuel h l
      | None => Ret node
      end
  end.

Fixpoint rightmost (fuel : nat) (h : heap) (node : addr) : outcome addr :=
  match fuel with
  | 0 => Diverge
  | S fuel =>
      n ← load h (Some node);
      match right n with
      | Some r => rightmost fuel h r
      | None => Ret node
      end
  end.

(** [while (node->is_right()) node = node->parent;] *)
Fixpoint climb_while_right (fuel : nat) (h : heap) (node : addr) : outcome addr :=
  match fuel with
  | 0 => Diverge
  | S fuel =>
      r ← is_right h node;
      if (r : bool) then
        n ← load h (Some node);
        match parent n with
        | Some p => climb_while_right fuel h p
        | None => Undefined
        end
      else Ret node
  end.

Fixpoint climb_while_left (fuel : nat) (h : heap) (node : addr) : outcome addr :=
  match fuel with
  | 0 => Diverge
  | S fuel =>
      l ← is_left h node;
      if (l : bool) then
        n ← load h (Some node);
        match parent n with
        | Some p => climb_while_left fuel h p
        | None => Undefined
        end
      else Ret node
  end.

Definition next (h : heap) (node : ptr) : outcome ptr :=
  n ← load h node;
  match right n with
  | Some r => Some <$> leftmost (walk_bound h) h r
  | None =>
      match node with
      | Some a =>
          top ← climb_while_right (walk_bound h) h a;
          tn ← load h (Some top);
          Ret (parent tn)
      | None => Undefined
      end
  end.

Definition prev (h : heap) (node : ptr) : outcome ptr :=
  n ← load h node;
  match left n with
  | Some l => Some <$> rightmost (walk_bound h) h l
  | None =>
      match node with
      | Some a =>
          top ← climb_while_left (walk_bound h) h a;
          tn ← load h (Some top);
          Ret (parent tn)
      | None => Undefined
      end
  end.

(** ** [struct intrusive_tree]

    An engine is its sentinel [m_sentinel] (at address [this]) and its
    comparator [cmp()] (the function [lt]).  [value p] reads
    [to_tree_node(p)->value]; it is [None] where [p] is not the address of
    a [node<T, Tag>]. *)

Section intrusive_tree.
Context {T : Type}.
Variable value : addr → option T.
Variable lt : T → T → bool.

Definition less (x y : T) : bool := lt x y.
Definition greater (x y : T) : bool := less y x.
Definition less_or_equal (x y : T) : bool := negb (greater x y).
Definition greater_or_equal (x y : T) : bool := negb (less x y).
Definition equal (x y : T) : bool :=
  less_or_equal x y && greater_or_equal x y.

Definition value_of (p : ptr) : outcome T :=
  match p with
  | Some a => match value a with Some v => Ret v | None => Undefined end
  | None => Undefined
  end.

Definition get_sentinel_ptr (this : addr) : ptr := Some this.

Definition empty (h : heap) (this : addr) : outcome bool :=
  s ← load h (Some this);
  Ret (bool_decide (left s = None)).

Definition begin (h : heap) (this : addr) : outcome ptr :=
  Some <$> leftmost (walk_bound h) h this.

Definition end_ (this : addr) : ptr := get_sentinel_ptr this.

Fixpoint find_nearest_loop (fuel : nat) (h : heap) (v : T) (root : addr)
  : outcome ptr :=
  match fuel with
  | 0 => Diverge
  | S fuel =>
      rv ← value_of (Some root);
      rn ← load h (Some root);
      if greater v rv then
        match right rn with
        | None => Ret (Some root)
        | Some r => find_nearest_loop fuel h v r
        end
      else if less v rv then
        match left rn with
        | None => Ret (Some root)
        | Some l => find_nearest_loop fuel h v l
        end
      else Ret (Some root)
  end.

Definition find_nearest (h : heap) (this : addr) (v : T) : outcome ptr :=
  e ← empty h this;
  if (e : bool) then Ret (end_ this)
  else
    s ← load h (Some this);
    match left s with
    | Some root => find_nearest_loop (walk_bound h) h v root
    | None => Undefined
    end.

Definition find (h : heap) (this : addr) (v : T) : outcome ptr :=
  result ← find_nearest h this v;
  if bool_decide (result = end_ this) then Ret (end_ this)
  else
    rv ← value_of result;
    if negb (equal rv v) then Ret (end_ this) else Ret result.

(** [insert] returns the memory after the call and the returned pointer. *)
Definition insert (h : heap) (this : addr) (node : ptr) : outcome (heap * ptr) :=
  nv ← value_of node;
  parent_ ← find_nearest h this nv;
  if bool_decide (parent_ = end_ this) then
    h1 ← store h (Some this) (set_left node);
    h2 ← store h1 node (set_parent parent_);
    Ret (h2, node)
  else
    pv ← value_of parent_;
    if greater nv pv then
      h1 ← store h parent_ (set_right node);
      h2 ← store h1 node (set_parent parent_);
      Ret (h2, node)
    else if less nv pv then
      h1 ← store h parent_ (set_left node);
      h2 ← store h1 node (set_parent parent_);
      Ret (h2, node)
    else Ret (h, end_ this).

Definition erase (h : heap) (node : ptr) : outcome (heap * ptr) :=
  match node with
  | None => Ret (h, None)
  | Some a =>
      n ← load h node;
      match left n, right n with
      | None, None =>
          h1 ← set_new_child_for_parent h a None; Ret (h1, node)
      | None, Some r =>
          h1 ← set_new_child_for_parent h a (Some r); Ret (h1, node)
      | Some l, None =>
          h1 ← set_new_child_for_parent h a (Some l); Ret (h1, node)
      | Some _, Some _ =>
          new_root ← prev h node;
          match new_root with
          | None => Undefined
          | Some nr =>
              nrn ← load h new_root;
              h1 ← set_new_child_for_parent h nr (left nrn);
              n1 ← load h1 node;
              h2 ← store h1 new_root (set_left (left n1));
              n2 ← load h2 node;
              h3 ← store h2 new_root (set_right (right n2));
              n3 ← load h3 node;
              h4 ← (match left n3 with
                     | Some _ => store h3 (left n3) (set_parent new_root)
                     | None => Ret h3
                     end);
              n4 ← load h4 node;
              h5 ← store h4 (right n4) (set_parent new_root);
              h6 ← set_new_child_for_parent h5 a new_root;
              Ret (h6, node)
          end
      end
  end.

Definition upper_bound (h : heap) (this : addr) (v : T) : outcome ptr :=
  result ← find_nearest h this v;
  if bool_decide (result = end_ this) then Ret result
  else
    rv ← value_of result;
    if greater rv v then Ret result else next h result.

Definition lower_bound (h : heap) (this : addr) (v : T) : outcome ptr :=
  result ← find_nearest h this v;
  if bool_decide (result = end_ this) then Ret result
  else
    rv ← value_of result;
    if greater_or_equal rv v then Ret result else next h result.

End intrusive_tree.

(** [set_link_to_other_tree]: the sentinel's [right] holds the link. *)
Definition set_link_to_other_tree (h : heap) (this : addr) (other_sentinel : ptr)
  : outcome heap :=
  store h (Some this) (set_right other_sentinel).

(** [std::swap(a->parent, b->parent)] on two pointers read beforehand. *)
Definition swap_parent (h : heap) (a b : ptr) : outcome heap :=
  an ← load h a;
  bn ← load h b;
  h1 ← store h a (set_parent (parent bn));
  store h1 b (set_parent (parent an)).

(** [intrusive_tree::swap], apart from the exchange of the two comparators,
    which are not in [heap]: the caller exchanges them. *)
Definition swap (h : heap) (this that : addr) : outcome heap :=
  s ← load h (Some this);
  o ← load h (Some that);
  h1 ← swap_parent h (left s) (left o);
  s1 ← load h1 (Some this);
  o1 ← load h1 (Some that);
  h2 ← store h1 (Some this) (set_parent (parent o1));
  h3 ← store h2 (Some that) (set_parent (parent s1));
  s3 ← load h3 (Some this);
  o3 ← load h3 (Some that);
  h4 ← store h3 (Some this) (set_left (left o3));
  h5 ← store h4 (Some that) (set_left (left s3));
  s5 ← load h5 (Some this);
  o5 ← load h5 (Some that);
  h6 ← store h5 (Some this) (set_right (right o5));
  store h6 (Some that) (set_right (right s5)).

(** [intrusive_tree(intrusive_tree&& other)]: the sentinel is initialised
    from [other]'s, member by member, and the root, if there is one, gets
    the new sentinel as its parent.  [other]'s sentinel is left as it was.
    The comparator, which is not in [heap], is the caller's business. *)
Definition move_construct (h : heap) (this that : addr) : outcome heap :=
  o ← load h (Some that);
  let h1 := <[this := o]> h in
  match left o with
  | Some l => store h1 (Some l) (set_parent (Some this))
  | None => Ret h1
  end.

(** [operator=(intrusive_tree&& other)]: [std::swap] of the two sentinels,
    then the parent of each root, if there is one, is set to its new
    sentinel.  The comparators are not exchanged. *)
Definition move_assign (h : heap) (this that : addr) : outcome heap :=
  s ← load h (Some this);
  o ← load h (Some that);
  h1 ← store h (Some this) (λ _, o);
  h2 ← store h1 (Some that) (λ _, s);
  s2 ← load h2 (Some this);
  h3 ← match left s2 with
       | Some l => store h2 (Some l) (set_parent (Some this))
       | None => Ret h2
       end;
  o3 ← load h3 (Some that);
  match left o3 with
  | Some l => store h3 (Some l) (set_parent (Some that))
  | None => Ret h3
  end.

End tree.

(** ** [struct bimap]

    The memory of a program that uses bimaps over [L] and [R]: the
    [node_base] objects, the two values of every live pair record, and the
    members of every live bimap object other than its two sentinels. *)

Record bimap_obj (L R : Type) := BimapObj {
  m_size : nat;
  cmp_left : L → L → bool;
  cmp_right : R → R → bool
}.
Arguments BimapObj {L R}.
Arguments m_size {L R}.
Arguments cmp_left {L R}.
Arguments cmp_right {L R}.

(** [m_size] is a [std::size_t], an unsigned counter taken here to be 64 bits
    wide: [--m_size] at 0 gives the greatest value, [size_max], which is
    [2 ^ 64 - 1] ([size_max_eq]).  The number is kept behind a seal, so that
    evaluation never builds its [2 ^ 64 - 1] successors.  [++m_size] is
    written [S], which is exact below [size_max]. *)
Definition size_max_seal : seal (2 ^ 64 - 1).
Proof. by eexists. Qed.

Definition size_max : nat := unseal size_max_seal.

Definition size_max_eq : size_max = 2 ^ 64 - 1 := seal_eq size_max_seal.

Definition size_pred (n : nat) : nat :=
  match n with
  | 0 => size_max
  | S k => k
  end.

Record world (L R : Type) := World {
  links : heap;
  values : gmap nat (L * R);
  objs : gmap nat (bimap_obj L R);
  next_record : nat;      (* the number of the record a [new] returns *)
  next_obj : nat          (* the number of the next bimap object *)
}.
Arguments World {L R}.
Arguments links {L R}.
Arguments values {L R}.
Arguments objs {L R}.
Arguments next_record {L R}.
Arguments next_obj {L R}.

Module bimap.
Section bimap.
Context {L R : Type}.
(** [left_t()] and [right_t()] *)
Variable default_left : L.
Variable default_right : R.

Abbreviation world := (world L R).
(** An iterator is its member [m_node]. *)
Abbreviation left_iterator := ptr.
Abbreviation right_iterator := ptr.

Definition with_links (w : world) (h : heap) : world :=
  World h (values w) (objs w) (next_record w) (next_obj w).

Definition with_obj (w : world) (b : nat) (o : bimap_obj L R) : world :=
  World (links w) (values w) (<[b := o]> (objs w)) (next_record w) (next_obj w).

(** [this] has to be a live bimap. *)
Definition obj (w : world) (b : nat) : outcome (bimap_obj L R) :=
  match objs w !! b with Some o => Ret o | None => Undefined end.

(** [to_node<left_t, left_tag>(p)->value] *)
Definition value_left (w : world) (a : addr) : option L :=
  match a with
  | Sub i SLeft => fst <$> values w !! i
  | _ => None
  end.

Definition value_right (w : world) (a : addr) : option R :=
  match a with
  | Sub i SRight => snd <$> values w !! i
  | _ => None
  end.

(** *** [base_iterator] *)

Definition deref_left (w : world) (it : left_iterator) : outcome L :=
  tree.value_of (value_left w) it.
Definition deref_right (w : world) (it : right_iterator) : outcome R :=
  tree.value_of (value_right w) it.

(** [operator++] and [operator--] *)
Definition incr (w : world) (it : ptr) : outcome ptr := tree.next (links w) it.
Definition decr (w : world) (it : ptr) : outcome ptr := tree.prev (links w) it.

(** The two casts of [flip]: from the [tag] base sub-object of a pair
    record to the record, and on to its other base sub-object. *)
Definition cross_cast (tag : side) (a : addr) : outcome ptr :=
  match a with
  | Sub i s => if decide (s = tag) then Ret (Some (Sub i (other tag))) else Undefined
  | Sentinel _ _ => Undefined
  end.

(** [flip] of an iterator of side [tag] *)
Definition flip (tag : side) (w : world) (it : ptr) : outcome ptr :=
  match it with
  | None => Ret None
  | Some a =>
      n ← load (links w) it;
      match parent n with
      | None => Ret (right n)
      | Some _ => cross_cast tag a
      end
  end.

(** *** Positions and lookup *)

Definition begin_left (w : world) (b : nat) : outcome left_iterator :=
  tree.begin (links w) (Sentinel b SLeft).
Definition end_left (b : nat) : left_iterator := tree.end_ (Sentinel b SLeft).
Definition begin_right (w : world) (b : nat) : outcome right_iterator :=
  tree.begin (links w) (Sentinel b SRight).
Definition end_right (b : nat) : right_iterator := tree.end_ (Sentinel b SRight).

Definition find_left (w : world) (b : nat) (k : L) : outcome left_iterator :=
  o ← obj w b;
  tree.find (value_left w) (cmp_left o) (links w) (Sentinel b SLeft) k.
Definition find_right (w : world) (b : nat) (k : R) : outcome right_iterator :=
  o ← obj w b;
  tree.find (value_right w) (cmp_right o) (links w) (Sentinel b SRight) k.

Definition lower_bound_left (w : world) (b : nat) (k : L) : outcome left_iterator :=
  o ← obj w b;
  tree.lower_bound (value_left w) (cmp_left o) (links w) (Sentinel b SLeft) k.
Definition upper_bound_left (w : world) (b : nat) (k : L) : outcome left_iterator :=
  o ← obj w b;
  tree.upper_bound (value_left w) (cmp_left o) (links w) (Sentinel b SLeft) k.
Definition lower_bound_right (w : world) (b : nat) (k : R) : outcome right_iterator :=
  o ← obj w b;
  tree.lower_bound (value_right w) (cmp_right o) (links w) (Sentinel b SRight) k.
Definition upper_bound_right (w : world) (b : nat) (k : R) : outcome right_iterator :=
  o ← obj w b;
  tree.upper_bound (value_right w) (cmp_right o) (links w) (Sentinel b SRight) k.

Definition size (w : world) (b : nat) : outcome nat :=
  o ← obj w b; Ret (m_size o).
Definition empty (w : world) (b : nat) : outcome bool :=
  o ← obj w b; Ret (bool_decide (m_size o = 0)).

Definition at_left (w : world) (b : nat) (key : L) : outcome R :=
  result ← find_left w b key;
  if bool_decide (result = end_left b) then OutOfRange
  else it ← flip SLeft w result; deref_right w it.

Definition at_right (w : world) (b : nat) (key : R) : outcome L :=
  result ← find_right w b key;
  if bool_decide (result = end_right b) then OutOfRange
  else it ← flip SRight w result; deref_left w it.

(** *** Construction *)

Definition link_trees (w : world) (b : nat) : outcome world :=
  h1 ← tree.set_link_to_other_tree (links w) (Sentinel b SLeft)
         (tree.get_sentinel_ptr (Sentinel b SRight));
  h2 ← tree.set_link_to_other_tree h1 (Sentinel b SRight)
         (tree.get_sentinel_ptr (Sentinel b SLeft));
  Ret (with_links w h2).

(** [bimap(compare_left, compare_right)]: a new object, two engines with
    default-initialised sentinels, [m_size = 0], then [link_trees()]. *)
Definition construct (w : world) (compare_left : L → L → bool)
    (compare_right : R → R → bool) : outcome (world * nat) :=
  let b := next_obj w in
  let h := <[Sentinel b SRight := fresh_node]>
             (<[Sentinel b SLeft := fresh_node]> (links w)) in
  let w1 := World h (values w)
              (<[b := BimapObj 0 compare_left compare_right]> (objs w))
              (next_record w) (S b) in
  w2 ← link_trees w1 b;
  Ret (w2, b).

(** *** Insertion *)

(** [new node_t(left, right)] *)
Definition new_node (w : world) (l : L) (r : R) : world * nat :=
  let i := next_record w in
  (World (<[Sub i SRight := fresh_node]> (<[Sub i SLeft := fresh_node]> (links w)))
         (<[i := (l, r)]> (values w)) (objs w) (S i) (next_obj w), i).

Definition base_insert (w : world) (b : nat) (l : L) (r : R)
  : outcome (world * left_iterator) :=
  fl ← find_left w b l;
  if negb (bool_decide (fl = end_left b)) then Ret (w, end_left b)
  else
    fr ← find_right w b r;
    if negb (bool_decide (fr = end_right b)) then Ret (w, end_left b)
    else
      let '(w1, i) := new_node w l r in
      o ← obj w1 b;
      '(h2, result) ← tree.insert (value_left w1) (cmp_left o) (links w1)
                         (Sentinel b SLeft) (Some (Sub i SLeft));
      '(h3, _) ← tree.insert (value_right w1) (cmp_right o) h2
                    (Sentinel b SRight) (Some (Sub i SRight));
      let w3 := with_links w1 h3 in
      o3 ← obj w3 b;
      Ret (with_obj w3 b (BimapObj (S (m_size o3)) (cmp_left o3) (cmp_right o3)),
           result).

Definition insert := base_insert.

(** *** Erasure *)

(** [delete] of the record whose [tag] base sub-object is at [p] *)
Definition delete_node (w : world) (tag : side) (p : ptr) : outcome world :=
  match p with
  | Some (Sub i s) =>
      if decide (s = tag) then
        match values w !! i with
        | Some _ =>
            Ret (World (delete (Sub i SRight) (delete (Sub i SLeft) (links w)))
                       (delete i (values w)) (objs w) (next_record w) (next_obj w))
        | None => Undefined
        end
      else Undefined
  | _ => Undefined
  end.

(** [--m_size].  [m_size] is a [std::size_t]: decrementing it at 0 wraps
    round to [size_max]. *)
Definition decr_size (w : world) (b : nat) : outcome world :=
  o ← obj w b;
  Ret (with_obj w b (BimapObj (size_pred (m_size o)) (cmp_left o) (cmp_right o))).

Definition erase_left (w : world) (b : nat) (it : left_iterator)
  : outcome (world * left_iterator) :=
  if bool_decide (it = end_left b) || bool_decide (it = None) then Ret (w, None)
  else
    res ← incr w it;
    '(h1, _) ← tree.erase (links w) it;
    fit ← flip SLeft (with_links w h1) it;
    '(h2, _) ← tree.erase h1 fit;
    w3 ← delete_node (with_links w h2) SLeft it;
    w4 ← decr_size w3 b;
    Ret (w4, res).

Definition erase_right (w : world) (b : nat) (it : right_iterator)
  : outcome (world * right_iterator) :=
  if bool_decide (it = end_right b) || bool_decide (it = None) then Ret (w, None)
  else
    res ← incr w it;
    '(h1, _) ← tree.erase (links w) it;
    fit ← flip SRight (with_links w h1) it;
    '(h2, _) ← tree.erase h1 fit;
    w3 ← delete_node (with_links w h2) SRight it;
    w4 ← decr_size w3 b;
    Ret (w4, res).

Definition erase_left_key (w : world) (b : nat) (k : L) : outcome (world * bool) :=
  it ← find_left w b k;
  '(w1, res) ← erase_left w b it;
  Ret (w1, negb (bool_decide (res = None))).

Definition erase_right_key (w : world) (b : nat) (k : R) : outcome (world * bool) :=
  it ← find_right w b k;
  '(w1, res) ← erase_right w b it;
  Ret (w1, negb (bool_decide (res = None))).

(** [while (first != last) erase_left(first++);] *)
Fixpoint erase_left_loop (fuel : nat) (w : world) (b : nat)
    (first last : left_iterator) : outcome (world * left_iterator) :=
  if bool_decide (first = last) then Ret (w, last)
  else
    match fuel with
    | 0 => Diverge
    | S fuel =>
        nxt ← incr w first;
        '(w1, _) ← erase_left w b first;
        erase_left_loop fuel w1 b nxt last
    end.

Fixpoint erase_right_loop (fuel : nat) (w : world) (b : nat)
    (first last : right_iterator) : outcome (world * right_iterator) :=
  if bool_decide (first = last) then Ret (w, last)
  else
    match fuel with
    | 0 => Diverge
    | S fuel =>
        nxt ← incr w first;
        '(w1, _) ← erase_right w b first;
        erase_right_loop fuel w1 b nxt last
    end.

Definition erase_left_range (w : world) (b : nat) (first last : left_iterator) :=
  erase_left_loop (walk_bound (links w)) w b first last.
Definition erase_right_range (w : world) (b : nat) (first last : right_iterator) :=
  erase_right_loop (walk_bound (links w)) w b first last.

(** *** [at_left_or_default], [at_right_or_default] *)

Definition at_left_or_default (w : world) (b : nat) (key : L) : outcome (world * R) :=
  fl ← find_left w b key;
  if bool_decide (fl = end_left b) then
    '(w1, _) ← erase_right_key w b default_right;
    '(w2, it) ← insert w1 b key default_right;
    fit ← flip SLeft w2 it;
    v ← deref_right w2 fit;
    Ret (w2, v)
  else
    v ← at_left w b key; Ret (w, v).

Definition at_right_or_default (w : world) (b : nat) (key : R) : outcome (world * L) :=
  fr ← find_right w b key;
  if bool_decide (fr = end_right b) then
    '(w1, _) ← erase_left_key w b default_left;
    '(w2, it) ← insert w1 b default_left key;
    v ← deref_left w2 it;
    Ret (w2, v)
  else
    v ← at_right w b key; Ret (w, v).

(** *** Copy construction and [swap] *)

(** The body of the copy constructor's [for] loop, [it] walking [other]. *)
Fixpoint copy_loop (fuel : nat) (w : world) (b other_ : nat) (it : left_iterator)
  : outcome world :=
  if bool_decide (it = end_left other_) then Ret w
  else
    match fuel with
    | 0 => Diverge
    | S fuel =>
        l ← deref_left w it;
        fit ← flip SLeft w it;
        r ← deref_right w fit;
        '(w1, _) ← insert w b l r;
        nxt ← incr w1 it;
        copy_loop fuel w1 b other_ nxt
    end.

(** [bimap(bimap const& other)] *)
Definition copy_construct (w : world) (other_ : nat) : outcome (world * nat) :=
  oo ← obj w other_;
  '(w1, b) ← construct w (cmp_left oo) (cmp_right oo);
  it ← begin_left w1 other_;
  w2 ← copy_loop (walk_bound (links w1)) w1 b other_ it;
  Ret (w2, b).

Definition swap_sizes (w : world) (b1 b2 : nat) : outcome world :=
  o1 ← obj w b1;
  o2 ← obj w b2;
  let w1 := with_obj w b1 (BimapObj (m_size o2) (cmp_left o1) (cmp_right o1)) in
  o2' ← obj w1 b2;
  Ret (with_obj w1 b2 (BimapObj (m_size o1) (cmp_left o2') (cmp_right o2'))).

Definition swap_cmp (tag : side) (w : world) (b1 b2 : nat) : outcome world :=
  o1 ← obj w b1;
  o2 ← obj w b2;
  match tag with
  | SLeft =>
      let w1 := with_obj w b1 (BimapObj (m_size o1) (cmp_left o2) (cmp_right o1)) in
      o2' ← obj w1 b2;
      Ret (with_obj w1 b2 (BimapObj (m_size o2') (cmp_left o1) (cmp_right o2')))
  | SRight =>
      let w1 := with_obj w b1 (BimapObj (m_size o1) (cmp_left o1) (cmp_right o2)) in
      o2' ← obj w1 b2;
      Ret (with_obj w1 b2 (BimapObj (m_size o2') (cmp_left o2') (cmp_right o1)))
  end.

(** [m_left_tree.swap(other.m_left_tree)] for [tag = SLeft], and its
    mirror: the comparators first, then the links. *)
Definition tree_swap (tag : side) (w : world) (b1 b2 : nat) : outcome world :=
  w1 ← swap_cmp tag w b1 b2;
  h ← tree.swap (links w1) (Sentinel b1 tag) (Sentinel b2 tag);
  Ret (with_links w1 h).

Definition swap (w : world) (this other_ : nat) : outcome world :=
  w1 ← swap_sizes w this other_;
  w2 ← tree_swap SLeft w1 this other_;
  w3 ← tree_swap SRight w2 this other_;
  w4 ← link_trees w3 this;
  link_trees w4 other_.

(** *** Move construction, assignment, destruction and [operator==] *)

(** [bimap(bimap&& other)]: the two engines are move-constructed from
    [other]'s, [m_size] is not named and gets its default member
    initialiser [0], then [link_trees()].  The comparators of the new
    object are those [other] had. *)
Definition move_construct (w : world) (other_ : nat) : outcome (world * nat) :=
  oo ← obj w other_;
  let b := next_obj w in
  hl ← tree.move_construct (links w) (Sentinel b SLeft) (Sentinel other_ SLeft);
  hr ← tree.move_construct hl (Sentinel b SRight) (Sentinel other_ SRight);
  let w1 := World hr (values w)
              (<[b := BimapObj 0 (cmp_left oo) (cmp_right oo)]> (objs w))
              (next_record w) (S b) in
  w2 ← link_trees w1 b;
  Ret (w2, b).

(** [~bimap()]: [for (it = begin_left(); it != end_left();)
    erase_left(it++);], after which the members, the two sentinels among
    them, are gone. *)
Definition destroy (w : world) (b : nat) : outcome world :=
  it ← begin_left w b;
  '(w1, _) ← erase_left_loop (walk_bound (links w)) w b it (end_left b);
  _ ← obj w1 b;
  Ret (World (delete (Sentinel b SRight) (delete (Sentinel b SLeft) (links w1)))
             (values w1) (delete b (objs w1)) (next_record w1) (next_obj w1)).

(** [operator=(bimap&& other)] *)
Definition assign_move (w : world) (this other_ : nat) : outcome world :=
  if decide (this = other_) then Ret w else swap w this other_.

(** [operator=(bimap const& other)]: [auto tmp = other; swap(tmp);], and
    [tmp] is destroyed when the function returns. *)
Definition assign_copy (w : world) (this other_ : nat) : outcome world :=
  if decide (this = other_) then Ret w
  else
    '(w1, tmp) ← copy_construct w other_;
    w2 ← swap w1 this tmp;
    destroy w2 tmp.

(** The loop of [operator==]: [it_b] is advanced with [it_a] and is not
    compared with [b.end_left()]. *)
Fixpoint equal_loop (fuel : nat) (w : world) (a : nat) (oa : bimap_obj L R)
    (it_a it_b : left_iterator) : outcome bool :=
  if bool_decide (it_a = end_left a) then Ret true
  else
    match fuel with
    | 0 => Diverge
    | S fuel =>
        la ← deref_left w it_a;
        lb ← deref_left w it_b;
        if negb (tree.equal (cmp_left oa) la lb) then Ret false
        else
          fa ← flip SLeft w it_a;
          ra ← deref_right w fa;
          fb ← flip SLeft w it_b;
          rb ← deref_right w fb;
          if negb (tree.equal (cmp_right oa) ra rb) then Ret false
          else
            na ← incr w it_a;
            nb ← incr w it_b;
            equal_loop fuel w a oa na nb
    end.

(** [operator==(a, b)]: the keys are compared with the comparators of
    [a]. *)
Definition equal (w : world) (a b : nat) : outcome bool :=
  sa ← size w a;
  sb ← size w b;
  if negb (bool_decide (sa = sb)) then Ret false
  else
    oa ← obj w a;
    it_a ← begin_left w a;
    it_b ← begin_left w b;
    equal_loop (walk_bound (links w)) w a oa it_a it_b.

(** [operator!=] *)
Definition not_equal (w : world) (a b : nat) : outcome bool :=
  negb <$> equal w a b.

End bimap.
End bimap.

(** * Specification-level definitions *)

(** ** Comparators *)

(** What the engine asks of [cmp()]: a strict total order. *)
Record strict_total {T : Type} (lt : T → T → bool) : Prop := StrictTotal {
  lt_irrefl : ∀ x, lt x x = false;
  lt_trans : ∀ x y z, lt x y = true → lt y z = true → lt x z = true;
  lt_total : ∀ x y, lt x y = false → lt y x = false → x = y
}.

(** ** The shape the links of an engine spell out *)

Inductive shape :=
| Leaf
| Node (l : shape) (a : addr) (r : shape).

Fixpoint inorder (t : shape) : list addr :=
  match t with
  | Leaf => []
  | Node l a r => inorder l ++ a :: inorder r
  end.

Definition root (t : shape) : ptr :=
  match t with Leaf => None | Node _ a _ => Some a end.

(** [repr h par t]: in [h], the nodes of [t] are linked as [t] says, the
    root of [t] having [par] as its parent. *)
Fixpoint repr (h : heap) (par : addr) (t : shape) : Prop :=
  match t with
  | Leaf => True
  | Node l a r =>
      h !! a = Some (NodeBase (Some par) (root l) (root r))
      ∧ repr h a l ∧ repr h a r
  end.

Section order.
Context {T : Type}.
Variable value : addr → option T.
Variable lt : T → T → bool.

Definition key_lt (x y : addr) : Prop :=
  ∃ vx vy, value x = Some vx ∧ value y = Some vy ∧ lt vx vy = true.

(** The order invariant: everything in the left subtree of a node is
    strictly less than the node, everything in its right subtree
    strictly greater. *)
Fixpoint bst (t : shape) : Prop :=
  match t with
  | Leaf => True
  | Node l a r =>
      is_Some (value a)
      ∧ Forall (λ y, key_lt y a) (inorder l)
      ∧ Forall (λ y, key_lt a y) (inorder r)
      ∧ bst l ∧ bst r
  end.

(** An engine whose sentinel is at [this], whose nodes are linked as
    [t], and whose sentinel's [right] holds [link], which points to none
    of the nodes. *)
Definition engine_inv (h : heap) (this : addr) (t : shape) (link : ptr) : Prop :=
  h !! this = Some (NodeBase None (root t) link)
  ∧ repr h this t
  ∧ bst t
  ∧ value this = None
  ∧ (∀ a, link = Some a → a ∉ inorder t).

(** Where the descent of [find_nearest] for [k] ends in [t]. *)
Fixpoint nearest (t : shape) (k : T) : ptr :=
  match t with
  | Leaf => None
  | Node l a r =>
      match value a with
      | None => None
      | Some v =>
          if lt v k then
            match nearest r k with Some x => Some x | None => Some a end
          else if lt k v then
            match nearest l k with Some x => Some x | None => Some a end
          else Some a
      end
  end.

(** Insertion of the node [n] with key [k] at the leaf the descent
    for [k] falls off. *)
Fixpoint ins (n : addr) (k : T) (t : shape) : shape :=
  match t with
  | Leaf => Node Leaf n Leaf
  | Node l a r =>
      match value a with
      | None => t
      | Some v =>
          if lt v k then Node l a (ins n k r)
          else if lt k v then Node (ins n k l) a r
          else t
      end
  end.
End order.

(** The record of a parent after [set_new_child_for_parent(c)] on its
    child [a]. *)
Definition slot_set (a : addr) (c : ptr) (np : node_base) : node_base :=
  if bool_decide (left np = Some a) then set_left c np else set_right c np.

(** What [erase] does to the memory [h] around a node [n] with two
    children, [h'] being the memory after the call: the node [m] that
    [prev] returns is unlinked from its parent, and in the end [m] has the
    parent and the children [n] had, the parent of [n] points to [m] where
    it pointed to [n], and the children point to [m] as their parent. *)
Definition replaced_by_prev (h h' : heap) (n : addr) : Prop :=
  ∀ p cl cr, h !! n = Some (NodeBase (Some p) (Some cl) (Some cr)) →
  ∃ m nm np h1,
    tree.prev h (Some n) = Ret (Some m)
    ∧ h !! m = Some nm ∧ h !! p = Some np
    ∧ tree.set_new_child_for_parent h m (left nm) = Ret h1
    ∧ h' !! m = Some (NodeBase (Some p)
                        (if decide (m = cl) then left nm else Some cl) (Some cr))
    ∧ h' !! p = Some (slot_set n (Some m) np)
    ∧ (∃ ncr, h' !! cr = Some ncr ∧ parent ncr = Some m)
    ∧ (m ≠ cl → ∃ ncl, h' !! cl = Some ncl ∧ parent ncl = Some m)
    ∧ (∀ c, m = cl → left nm = Some c → ∃ nc, h' !! c = Some nc ∧ parent nc = Some m).

(** [erase] leaves the [parent] member of the erased node as it is. *)
Definition keeps_parent (h h' : heap) (n : addr) : Prop :=
  ∀ nn, h !! n = Some nn → ∃ nn', h' !! n = Some nn' ∧ parent nn' = parent nn.

(** The last node in order and the shape without it. *)
Fixpoint last_of (t : shape) (d : addr) : addr :=
  match t with
  | Leaf => d
  | Node _ a r => last_of r a
  end.

Fixpoint first_of (t : shape) (d : addr) : addr :=
  match t with
  | Leaf => d
  | Node l a _ => first_of l a
  end.

Fixpoint remove_last (t : shape) : shape :=
  match t with
  | Leaf => Leaf
  | Node l a Leaf => l
  | Node l a r => Node l a (remove_last r)
  end.

(** What [erase] leaves of a node with subtrees [l] and [r]. *)
Definition join (l r : shape) : shape :=
  match l, r with
  | Leaf, _ => r
  | _, Leaf => l
  | Node _ la _, Node _ _ _ => Node (remove_last l) (last_of l la) r
  end.

(** The shape after [erase] of the node [n]. *)
Fixpoint del (n : addr) (t : shape) : shape :=
  match t with
  | Leaf => Leaf
  | Node l a r =>
      if decide (a = n) then join l r
      else Node (del n l) a (del n r)
  end.

(** The list [l] without the node [n]. *)
Definition without (n : addr) (l : list addr) : list addr :=
  filter (λ y, y ≠ n) l.

(** The successor of [x] in the list [l], [d] after the last one. *)
Fixpoint succ_in (l : list addr) (x : addr) (d : addr) : addr :=
  match l with
  | [] => d
  | y :: l' => if decide (x = y) then hd d l' else succ_in l' x d
  end.

(** The first node of [l] that satisfies [P], [d] if there is none. *)
Fixpoint first_with (P : addr → bool) (l : list addr) (d : addr) : addr :=
  match l with
  | [] => d
  | y :: l' => if P y then y else first_with P l' d
  end.

Section bounds.
Context {T : Type}.
Variable value : addr → option T.
Variable lt : T → T → bool.

(** The key of [y] is not less than [v]. *)
Definition not_less (v : T) (y : addr) : bool :=
  match value y with Some vy => negb (lt vy v) | None => false end.

(** The key of [y] is greater than [v]. *)
Definition greater_than (v : T) (y : addr) : bool :=
  match value y with Some vy => lt v vy | None => false end.
End bounds.

(** ** What the engine computes, on shapes *)

Section engine_specs.
Context {T : Type}.
Variable value : addr → option T.
Variable lt : T → T → bool.

(** The descent for [v] ends at a node [x] such that every node before
    [x] in order is less than [v] and every node after [x] greater. *)
Definition below (y : addr) (v : T) : Prop :=
  ∃ vy, value y = Some vy ∧ lt vy v = true.
Definition above (y : addr) (v : T) : Prop :=
  ∃ vy, value y = Some vy ∧ lt v vy = true.

(** The key [v] is the key of the node [x] of [t]. *)
Definition holds (t : shape) (v : T) (x : addr) : Prop :=
  x ∈ inorder t ∧ value x = Some v.

(** The part of [insert] that hangs [node] under [parent_]. *)
Definition attach (h : heap) (this : addr) (node parent_ : ptr) (nv : T)
  : outcome (heap * ptr) :=
  pv ← tree.value_of value parent_;
  if tree.greater lt nv pv then
    h1 ← store h parent_ (set_right node);
    h2 ← store h1 node (set_parent parent_);
    Ret (h2, node)
  else if tree.less lt nv pv then
    h1 ← store h parent_ (set_left node);
    h2 ← store h1 node (set_parent parent_);
    Ret (h2, node)
  else Ret (h, tree.end_ this).
End engine_specs.

(** From [a], the loop of [next] climbs to a node whose parent is [nxt],
    in at most [n] steps. *)
Definition exits_right (h : heap) (n : nat) (a nxt : addr) : Prop :=
  ∃ top tn, h !! top = Some tn ∧ parent tn = Some nxt
    ∧ ∀ fuel, n < fuel → tree.climb_while_right fuel h a = Ret top.

(** ** Walking an engine from [begin()] to [end()] *)

(** [for (it = first; it != last; ++it)], collecting the positions *)
Fixpoint walk (fuel : nat) (h : heap) (it last : ptr) : outcome (list addr) :=
  if bool_decide (it = last) then Ret []
  else
    match fuel with
    | 0 => Diverge
    | S fuel =>
        match it with
        | None => Undefined
        | Some a =>
            nxt ← tree.next h it;
            rest ← walk fuel h nxt last;
            Ret (a :: rest)
        end
    end.

Definition nodes (h : heap) (this : addr) : outcome (list addr) :=
  first ← tree.begin h this;
  walk (walk_bound h) h first (tree.end_ this).

(** The nodes that can be reached from the sentinel along [left] and
    [right]. *)
Inductive linked (h : heap) (this : addr) : addr → Prop :=
| linked_root s a :
    h !! this = Some s → left s = Some a → linked h this a
| linked_left p np a :
    linked h this p → h !! p = Some np → left np = Some a → linked h this a
| linked_right p np a :
    linked h this p → h !! p = Some np → right np = Some a → linked h this a.

Section store_defs.
Context {L R : Type}.

(** The bimap object [b] of [w] has the members [o], and its two engines
    have the shapes [tl] and [tr]. *)
Definition store_inv (w : world L R) (b : nat) (o : bimap_obj L R)
    (tl tr : shape) : Prop :=
  objs w !! b = Some o
  ∧ strict_total (cmp_left o) ∧ strict_total (cmp_right o)
  ∧ engine_inv (bimap.value_left w) (cmp_left o) (links w)
      (Sentinel b SLeft) tl (Some (Sentinel b SRight))
  ∧ engine_inv (bimap.value_right w) (cmp_right o) (links w)
      (Sentinel b SRight) tr (Some (Sentinel b SLeft))
  ∧ (∀ i, Sub i SLeft ∈ inorder tl ↔ Sub i SRight ∈ inorder tr)
  ∧ m_size o = length (inorder tl)
  ∧ (∀ i, Sub i SLeft ∈ inorder tl → i < next_record w).

(** The addresses the bimap [b] with shapes [tl] and [tr] occupies. *)
Definition footprint (b : nat) (tl tr : shape) : list addr :=
  Sentinel b SLeft :: Sentinel b SRight :: inorder tl ++ inorder tr.
End store_defs.

Section world_defs.
Context {L R : Type}.

(** Every live bimap [b] satisfies its invariant with the shapes
    [sh b], and no two of them share a pair record. *)
Definition world_shapes (w : world L R) (sh : nat → shape * shape) : Prop :=
  (∀ b o, objs w !! b = Some o →
     store_inv w b o (sh b).1 (sh b).2 ∧ b < next_obj w)
  ∧ (∀ b b' a, is_Some (objs w !! b) → is_Some (objs w !! b') →
       a ∈ inorder (sh b).1 → a ∈ inorder (sh b').1 → b = b').

Definition world_inv (w : world L R) : Prop := ∃ sh, world_shapes w sh.
End world_defs.

(** [map f] over a list, for an [f] that may fail *)
Fixpoint collect {A B : Type} (f : A → outcome B) (l : list A) : outcome (list B) :=
  match l with
  | [] => Ret []
  | x :: l => y ← f x; ys ← collect f l; Ret (y :: ys)
  end.

Section contents_defs.
Context {L R : Type}.

Definition left_nodes (w : world L R) (b : nat) : outcome (list addr) :=
  nodes (links w) (Sentinel b SLeft).
Definition right_nodes (w : world L R) (b : nat) : outcome (list addr) :=
  nodes (links w) (Sentinel b SRight).

(** [( *it, *it.flip() )] for a left iterator at [a] *)
Definition pair_at_left (w : world L R) (a : addr) : outcome (L * R) :=
  l ← bimap.deref_left w (Some a);
  fit ← bimap.flip SLeft w (Some a);
  r ← bimap.deref_right w fit;
  Ret (l, r).

(** [( *it.flip(), *it )] for a right iterator at [a] *)
Definition pair_at_right (w : world L R) (a : addr) : outcome (L * R) :=
  r ← bimap.deref_right w (Some a);
  fit ← bimap.flip SRight w (Some a);
  l ← bimap.deref_left w fit;
  Ret (l, r).

(** The pairs of the bimap [b], read from [begin_left()] to
    [end_left()], and from [begin_right()] to [end_right()]. *)
Definition contents (w : world L R) (b : nat) : outcome (list (L * R)) :=
  ns ← left_nodes w b; collect (pair_at_left w) ns.
Definition contents_right (w : world L R) (b : nat) : outcome (list (L * R)) :=
  ns ← right_nodes w b; collect (pair_at_right w) ns.

(** The record of which [a] is a part. *)
Definition record_of (w : world L R) (a : addr) : option (L * R) :=
  match a with
  | Sub i _ => values w !! i
  | Sentinel _ _ => None
  end.

Definition records (w : world L R) (t : shape) : list (L * R) :=
  omap (record_of w) (inorder t).
End contents_defs.

Section evolves_defs.
Context {L R : Type}.

(** From [w] to [w'], only the bimap [b] has changed: its shapes went
    from [tl], [tr] to [tl'], [tr'], within its footprint and the
    records allocated in between. *)
Definition evolves (w w' : world L R) (b : nat) (tl tr tl' tr' : shape) : Prop :=
  (∃ o', objs w' = <[b := o']> (objs w))
  ∧ (∀ a, a ∈ inorder tl' →
       a ∈ inorder tl ∨ ∃ i, a = Sub i SLeft ∧ next_record w ≤ i)
  ∧ (∀ a, a ∈ inorder tr' →
       a ∈ inorder tr ∨ ∃ i, a = Sub i SRight ∧ next_record w ≤ i)
  ∧ (∀ y, y ∉ footprint b tl tr → (∀ i s, y = Sub i s → i < next_record w) →
       links w' !! y = links w !! y)
  ∧ (∀ i, i < next_record w → Sub i SLeft ∉ inorder tl →
       values w' !! i = values w !! i)
  ∧ next_record w ≤ next_record w' ∧ next_obj w = next_obj w'.
End evolves_defs.

Section world_start.
Context {L R : Type}.

(** The memory before any bimap is constructed. *)
Definition empty_world : world L R := World ∅ ∅ ∅ 0 0.
End world_start.

#[global] Instance shape_eq_dec : EqDecision shape.
Proof. solve_decision. Defined.

(** ** The worlds a program can reach *)

Section reachable_defs.
Context {L R : Type}.
Variable default_left : L.
Variable default_right : R.

(** A position the caller may pass to [erase_left]: a node of the left
    side, [end_left()], or a default-constructed iterator. *)
Definition valid_left (w : world L R) (b : nat) (it : ptr) : Prop :=
  it = None ∨ it = bimap.end_left b
  ∨ ∃ ns a, left_nodes w b = Ret ns ∧ a ∈ ns ∧ it = Some a.
Definition valid_right (w : world L R) (b : nat) (it : ptr) : Prop :=
  it = None ∨ it = bimap.end_right b
  ∨ ∃ ns a, right_nodes w b = Ret ns ∧ a ∈ ns ∧ it = Some a.

(** A range [first, last) of the left side: [first] is where [mid]
    starts and [last] is where it ends. *)
Definition valid_left_range (w : world L R) (b : nat) (first last : ptr) : Prop :=
  ∃ pre mid post, left_nodes w b = Ret (pre ++ mid ++ post)
    ∧ first = Some (hd (Sentinel b SLeft) (mid ++ post))
    ∧ last = Some (hd (Sentinel b SLeft) post).
Definition valid_right_range (w : world L R) (b : nat) (first last : ptr) : Prop :=
  ∃ pre mid post, right_nodes w b = Ret (pre ++ mid ++ post)
    ∧ first = Some (hd (Sentinel b SRight) (mid ++ post))
    ∧ last = Some (hd (Sentinel b SRight) post).

(** The worlds that come out of construction, copy construction,
    [insert], the erasures, [at_left_or_default], [at_right_or_default]
    and [swap], called on live bimaps with positions of their own, and
    that return.  The move constructor is not among them: it leaves two
    bimaps on the same nodes. *)
Inductive reachable : world L R → Prop :=
| reach_start : reachable empty_world
| reach_construct w cl cr w' b :
    reachable w → strict_total cl → strict_total cr →
    bimap.construct w cl cr = Ret (w', b) → reachable w'
| reach_copy w other_ w' b :
    reachable w → is_Some (objs w !! other_) →
    bimap.copy_construct w other_ = Ret (w', b) → reachable w'
| reach_insert w b l r w' it :
    reachable w → is_Some (objs w !! b) →
    bimap.insert w b l r = Ret (w', it) → reachable w'
| reach_erase_left w b it w' res :
    reachable w → is_Some (objs w !! b) → valid_left w b it →
    bimap.erase_left w b it = Ret (w', res) → reachable w'
| reach_erase_right w b it w' res :
    reachable w → is_Some (objs w !! b) → valid_right w b it →
    bimap.erase_right w b it = Ret (w', res) → reachable w'
| reach_erase_left_key w b k w' res :
    reachable w → is_Some (objs w !! b) →
    bimap.erase_left_key w b k = Ret (w', res) → reachable w'
| reach_erase_right_key w b k w' res :
    reachable w → is_Some (objs w !! b) →
    bimap.erase_right_key w b k = Ret (w', res) → reachable w'
| reach_erase_left_range w b first last w' res :
    reachable w → is_Some (objs w !! b) → valid_left_range w b first last →
    bimap.erase_left_range w b first last = Ret (w', res) → reachable w'
| reach_erase_right_range w b first last w' res :
    reachable w → is_Some (objs w !! b) → valid_right_range w b first last →
    bimap.erase_right_range w b first last = Ret (w', res) → reachable w'
| reach_at_left_or_default w b k w' v :
    reachable w → is_Some (objs w !! b) →
    bimap.at_left_or_default default_right w b k = Ret (w', v) → reachable w'
| reach_at_right_or_default w b k w' v :
    reachable w → is_Some (objs w !! b) →
    bimap.at_right_or_default default_left w b k = Ret (w', v) → reachable w'
| reach_swap w b1 b2 w' :
    reachable w → is_Some (objs w !! b1) → is_Some (objs w !! b2) →
    bimap.swap w b1 b2 = Ret w' → reachable w'.
End reachable_defs.

(** ** The bounds, in the specification's words *)

Section bound_rule.
Context {T : Type}.
Variable value : addr → option T.
Variable lt : T → T → bool.

(** The rule the specification gives for both bounds: the node
    [find_nearest] returns if that is [end()] or if its key [accept]s the
    key asked for, and its successor otherwise. *)
Definition bound_by (accept : T → T → bool) (h : heap) (this : addr) (v : T)
  : outcome ptr :=
  result ← tree.find_nearest value lt h this v;
  if bool_decide (result = tree.end_ this) then Ret result
  else
    rv ← tree.value_of value result;
    if accept rv v then Ret result else tree.next h result.
End bound_rule.

(** An engine with the single key [5]. *)
Definition one_node : heap :=
  <[Sub 0 SLeft := NodeBase (Some (Sentinel 0 SLeft)) None None]>
    (<[Sentinel 0 SLeft := NodeBase None (Some (Sub 0 SLeft)) None]> ∅).

Definition one_key (a : addr) : option nat :=
  match a with
  | Sub 0 SLeft => Some 5
  | _ => None
  end.

(** * Examples *)

(** The world after a call, and the world as it was if the call does not
    return. *)
Definition after {A B : Type} (d : A) (m : outcome (A * B)) : A :=
  match m with
  | Ret (x, _) => x
  | _ => d
  end.

(** [bimap<nat, nat> a; a.insert(5, 0); a.insert(7, 3);] *)
Definition demo0 : world nat nat :=
  after empty_world (bimap.construct empty_world Nat.ltb Nat.ltb).
Definition demo1 : world nat nat := after demo0 (bimap.insert demo0 0 5 0).
Definition demo2 : world nat nat := after demo1 (bimap.insert demo1 0 7 3).

Definition demo_obj : bimap_obj nat nat := BimapObj 2 Nat.ltb Nat.ltb.
Definition demo_pairs : list (nat * nat) := [(5, 0); (7, 3)].

(** [... bimap<nat, nat> b;] *)
Definition demo3 : world nat nat :=
  after demo2 (bimap.construct demo2 Nat.ltb Nat.ltb).

(** An engine with the keys [3], [5] and [7], [5] at the root. *)
Definition three_nodes : heap :=
  <[Sub 2 SLeft := NodeBase (Some (Sub 0 SLeft)) None None]>
    (<[Sub 1 SLeft := NodeBase (Some (Sub 0 SLeft)) None None]>
       (<[Sub 0 SLeft := NodeBase (Some (Sentinel 0 SLeft))
                           (Some (Sub 1 SLeft)) (Some (Sub 2 SLeft))]>
          (<[Sentinel 0 SLeft := NodeBase None (Some (Sub 0 SLeft)) None]> ∅))).

Definition three_keys (a : addr) : option nat :=
  match a with
  | Sub 0 SLeft => Some 5
  | Sub 1 SLeft => Some 3
  | Sub 2 SLeft => Some 7
  | _ => None
  end.

Definition three_shape : shape :=
  Node (Node Leaf (Sub 1 SLeft) Leaf) (Sub 0 SLeft) (Node Leaf (Sub 2 SLeft) Leaf).

(** ** A call that changes one bimap *)

Section mutation_defs.
Context {L R : Type}.
Variable default_left : L.
Variable default_right : R.

(** [mutates w b w']: a member function of the bimap [b] that may change
    it, called in [w] with positions of [b], returns in [w']. *)
Inductive mutates : world L R → nat → world L R → Prop :=
| mut_insert w b l r w' it :
    bimap.insert w b l r = Ret (w', it) → mutates w b w'
| mut_erase_left w b it w' res :
    valid_left w b it →
    bimap.erase_left w b it = Ret (w', res) → mutates w b w'
| mut_erase_right w b it w' res :
    valid_right w b it →
    bimap.erase_right w b it = Ret (w', res) → mutates w b w'
| mut_erase_left_key w b k w' res :
    bimap.erase_left_key w b k = Ret (w', res) → mutates w b w'
| mut_erase_right_key w b k w' res :
    bimap.erase_right_key w b k = Ret (w', res) → mutates w b w'
| mut_erase_left_range w b first last w' res :
    valid_left_range w b first last →
    bimap.erase_left_range w b first last = Ret (w', res) → mutates w b w'
| mut_erase_right_range w b first last w' res :
    valid_right_range w b first last →
    bimap.erase_right_range w b first last = Ret (w', res) → mutates w b w'
| mut_at_left_or_default w b k w' v :
    bimap.at_left_or_default default_right w b k = Ret (w', v) → mutates w b w'
| mut_at_right_or_default w b k w' v :
    bimap.at_right_or_default default_left w b k = Ret (w', v) → mutates w b w'.
End mutation_defs.

(** The node before [x] in [l]; [d] if [x] is the first one. *)
Fixpoint pred_in (l : list addr) (x : addr) (d : ptr) : ptr :=
  match l with
  | [] => d
  | y :: l' => if decide (x = y) then d else pred_in l' x (Some y)
  end.

(** From [a], the loop of [prev] climbs to a node whose parent is [prv],
    in at most [n] steps. *)
Definition exits_left (h : heap) (n : nat) (a : addr) (prv : ptr) : Prop :=
  ∃ top tn, h !! top = Some tn ∧ parent tn = prv
    ∧ ∀ fuel, n < fuel → tree.climb_while_left fuel h a = Ret top.

(** * More examples *)

(** [... b.insert(2, 9);]: two bimaps that hold pairs. *)
Definition demo4 : world nat nat := after demo3 (bimap.insert demo3 1 2 9).
(** [... a.insert(1, 1);] *)
Definition demo5 : world nat nat := after demo4 (bimap.insert demo4 0 1 1).

(** [... bimap<nat, nat> c(a);] after [demo2] *)
Definition demo6 : world nat nat := after demo2 (bimap.copy_construct demo2 0).

(** [... bimap<nat, nat> b(std::move(a));] after [demo2] *)
Definition demo7 : world nat nat := after demo2 (bimap.move_construct demo2 0).

Definition demo_obj1 : bimap_obj nat nat := BimapObj 1 Nat.ltb Nat.ltb.
Definition demo_obj0 : bimap_obj nat nat := BimapObj 0 Nat.ltb Nat.ltb.
Definition no_pairs : list (nat * nat) := [].

(** The engine [three_nodes] and a node with the key [4] that is in no
    engine. *)
Definition spare_node : heap := <[Sub 3 SLeft := fresh_node]> three_nodes.

Definition four_keys (a : addr) : option nat :=
  match a with
  | Sub 0 SLeft => Some 5
  | Sub 1 SLeft => Some 3
  | Sub 2 SLeft => Some 7
  | Sub 3 SLeft => Some 4
  | _ => None
  end.

(** The engine [three_nodes] and a second engine that holds the key [4]. *)
Definition two_engines : heap :=
  <[Sentinel 1 SLeft := NodeBase None (Some (Sub 3 SLeft)) None]>
    (<[Sub 3 SLeft := NodeBase (Some (Sentinel 1 SLeft)) None None]> three_nodes).

Definition four_shape : shape := Node Leaf (Sub 3 SLeft) Leaf.

(** * Proofs *)

(** ** Memory *)

Lemma load_Some (h : heap) a n : h !! a = Some n → load h (Some a) = Ret n.
Proof. intros H. unfold load. by rewrite H. Qed.

Lemma store_Some (h : heap) a n f :
  h !! a = Some n → store h (Some a) f = Ret (<[a := f n]> h).
Proof. intros H. unfold store. by rewrite (load_Some _ _ _ H). Qed.

Lemma bind_Ret {A B} (x : outcome A) (f : A → outcome B) b :
  x ≫= f = Ret b → ∃ a, x = Ret a ∧ f a = Ret b.
Proof. destruct x; try done. intros H. by exists a. Qed.

Lemma node_base_eta n : NodeBase (parent n) (left n) (right n) = n.
Proof. by destruct n. Qed.

(** ** Shapes *)

Lemma root_elem t a : root t = Some a → a ∈ inorder t.
Proof. destruct t; simpl; [done|]. intros [= ->]. set_solver. Qed.

Lemma root_None t : root t = None → t = Leaf.
Proof. by destruct t. Qed.

Lemma repr_ext h h' par t :
  (∀ a, a ∈ inorder t → h' !! a = h !! a) → repr h par t → repr h' par t.
Proof.
  revert par. induction t as [|l IHl a r IHr]; intros par Hag; simpl; [done|].
  intros (Ha & Hl & Hr). split_and!.
  - rewrite Hag; [done|]. set_solver.
  - apply IHl; [|done]. intros x Hx. apply Hag. set_solver.
  - apply IHr; [|done]. intros x Hx. apply Hag. set_solver.
Qed.

Lemma repr_live h par t a : repr h par t → a ∈ inorder t → is_Some (h !! a).
Proof.
  revert par. induction t as [|l IHl x r IHr]; intros par; simpl.
  - intros _ Hin. by apply elem_of_nil in Hin.
  - intros (Hx & Hl & Hr) Hin.
    apply elem_of_app in Hin as [Hin|Hin]; [by eapply IHl|].
    apply elem_of_cons in Hin as [->|Hin]; [by eexists|by eapply IHr].
Qed.

(** Moving the root of a shape under another parent. *)
Lemma repr_reparent h h' par par' l a r n :
  h !! a = Some n →
  repr h par (Node l a r) →
  h' !! a = Some (set_parent (Some par') n) →
  (∀ x, x ∈ inorder l ++ inorder r → h' !! x = h !! x) →
  repr h' par' (Node l a r).
Proof.
  simpl. intros Hn (Ha & Hl & Hr) Ha' Hag.
  rewrite Ha in Hn. injection Hn as <-. split_and!; [done|..].
  - eapply repr_ext; [|done]. intros x Hx. apply Hag. set_solver.
  - eapply repr_ext; [|done]. intros x Hx. apply Hag. set_solver.
Qed.

Lemma length_inorder_size (h : heap) (l : list addr) :
  NoDup l → (∀ a, a ∈ l → is_Some (h !! a)) → length l ≤ size h.
Proof.
  intros Hnd Hin.
  rewrite <-size_dom. unfold size, set_size. simpl.
  apply submseteq_length, NoDup_submseteq; [done|].
  intros a Ha. apply base.elem_of_elements, elem_of_dom. by apply Hin.
Qed.

Lemma walk_bound_eq h : walk_bound h = S (size h).
Proof. reflexivity. Qed.

Opaque walk_bound.

Ltac osimpl :=
  cbn [mbind outcome_bind mret outcome_ret fmap outcome_fmap
       parent left right set_parent set_left set_right root fst snd].

(** ** Walks down *)

Lemma first_of_hd t d : first_of t d = hd d (inorder t).
Proof.
  revert d. induction t as [|l IHl a r _]; intros d; simpl; [done|].
  rewrite IHl. by destruct (inorder l).
Qed.

Lemma first_of_elem l a r d : first_of (Node l a r) d ∈ inorder (Node l a r).
Proof.
  rewrite first_of_hd. simpl. destruct (inorder l); simpl; set_solver.
Qed.

Lemma last_of_elem l a r d : last_of (Node l a r) d ∈ inorder (Node l a r).
Proof.
  revert l a d. induction r as [|rl ? ra rr IH]; intros l a d; simpl.
  - set_solver.
  - specialize (IH rl ra a). simpl in IH. set_solver.
Qed.

Lemma leftmost_spec h par t a fuel :
  repr h par t → root t = Some a → length (inorder t) ≤ fuel →
  tree.leftmost fuel h a = Ret (first_of t a).
Proof.
  revert par a fuel. induction t as [|l IHl x r _]; intros par a fuel; [done|].
  simpl. intros (Hx & Hl & _) [= ->] Hlen.
  rewrite length_app in Hlen. simpl in Hlen.
  destruct fuel as [|fuel]; [lia|]. simpl.
  rewrite (load_Some _ _ _ Hx). simpl.
  destruct (root l) as [la|] eqn:Hrl.
  - rewrite (IHl a la fuel); [|done..|lia].
    destruct l; [done|]. by simpl.
  - by rewrite (root_None _ Hrl).
Qed.

Lemma rightmost_spec h par t a fuel :
  repr h par t → root t = Some a → length (inorder t) ≤ fuel →
  tree.rightmost fuel h a = Ret (last_of t a).
Proof.
  revert par a fuel. induction t as [|l _ x r IHr]; intros par a fuel; [done|].
  simpl. intros (Hx & _ & Hr) [= ->] Hlen.
  rewrite length_app in Hlen. simpl in Hlen.
  destruct fuel as [|fuel]; [lia|]. simpl.
  rewrite (load_Some _ _ _ Hx). simpl.
  destruct (root r) as [ra|] eqn:Hrr.
  - rewrite (IHr a ra fuel); [|done..|lia].
    destruct r; [done|]. by simpl.
  - by rewrite (root_None _ Hrr).
Qed.

Section engine_facts.
Context {T : Type}.
Variable value : addr → option T.
Variable lt : T → T → bool.
Hypothesis Hlt : strict_total lt.

Local Notation key_lt := (key_lt value lt).
Local Notation bst := (bst value lt).
Local Notation nearest := (nearest value lt).
Local Notation below := (below value lt).
Local Notation above := (above value lt).
Local Notation holds := (holds value).

Lemma key_lt_irrefl x : ¬ key_lt x x.
Proof.
  intros (vx & vy & Hx & Hy & Hxy). rewrite Hx in Hy. injection Hy as <-.
  by rewrite (lt_irrefl _ Hlt) in Hxy.
Qed.

Lemma key_lt_trans x y z : key_lt x y → key_lt y z → key_lt x z.
Proof.
  intros (vx & vy & Hx & Hy & Hxy) (vy' & vz & Hy' & Hz & Hyz).
  rewrite Hy in Hy'. injection Hy' as <-.
  exists vx, vz. split_and!; [done..|]. by eapply (lt_trans _ Hlt).
Qed.

Lemma lt_asym x y : lt x y = true → lt y x = false.
Proof.
  intros Hxy. destruct (lt y x) eqn:Hyx; [|done].
  by rewrite <-(lt_irrefl _ Hlt x), (lt_trans _ Hlt x y x).
Qed.

Lemma bst_values t a : bst t → a ∈ inorder t → is_Some (value a).
Proof.
  induction t as [|l IHl x r IHr]; simpl.
  - intros _ Hin. by apply elem_of_nil in Hin.
  - intros (Hx & _ & _ & Hl & Hr) Hin.
    apply elem_of_app in Hin as [Hin|Hin]; [by apply IHl|].
    apply elem_of_cons in Hin as [->|Hin]; [done|by apply IHr].
Qed.

Lemma bst_sorted t : bst t → StronglySorted key_lt (inorder t).
Proof.
  induction t as [|l IHl a r IHr]; simpl; [constructor|].
  intros (_ & Hla & Har & Hl & Hr).
  apply StronglySorted_app. split_and!; [|by apply IHl|].
  - intros x y Hx Hy. rewrite Forall_forall in Hla, Har.
    apply elem_of_cons in Hy as [->|Hy]; [by apply Hla|].
    eapply key_lt_trans; [by apply Hla|by apply Har].
  - apply StronglySorted_cons. split; [done|by apply IHr].
Qed.

Lemma sorted_NoDup (l : list addr) : StronglySorted key_lt l → NoDup l.
Proof.
  induction 1 as [|x l _ IH Hx]; constructor; [|done].
  intros Hin. rewrite Forall_forall in Hx. by eapply key_lt_irrefl, Hx.
Qed.

Lemma bst_NoDup t : bst t → NoDup (inorder t).
Proof. intros. by apply sorted_NoDup, bst_sorted. Qed.

(** *** [find_nearest] *)

(** *** [find_nearest] *)

Lemma nearest_Node l a r v :
  bst (Node l a r) → ∃ x, nearest (Node l a r) v = Some x.
Proof.
  intros ([vx Hvx] & _). simpl. rewrite Hvx.
  repeat case_match; by eexists.
Qed.

Lemma nearest_elem t v x : nearest t v = Some x → x ∈ inorder t.
Proof.
  induction t as [|l IHl a r IHr]; simpl; [done|].
  destruct (value a) as [va|]; [|done].
  destruct (lt va v).
  - destruct (nearest r v) as [y|]; intros [= <-]; [|set_solver].
    specialize (IHr eq_refl). set_solver.
  - destruct (lt v va); [|intros [= <-]; set_solver].
    destruct (nearest l v) as [y|]; intros [= <-]; [|set_solver].
    specialize (IHl eq_refl). set_solver.
Qed.

Lemma find_nearest_loop_spec h par t a v fuel :
  repr h par t → bst t → root t = Some a → length (inorder t) ≤ fuel →
  tree.find_nearest_loop value lt fuel h v a = Ret (nearest t v).
Proof.
  revert par a fuel. induction t as [|l IHl x r IHr]; intros par a fuel; [done|].
  simpl. intros (Hx & Hl & Hr) ([vx Hvx] & _ & _ & Hbl & Hbr) [= ->] Hlen.
  rewrite length_app in Hlen. simpl in Hlen.
  destruct fuel as [|fuel]; [lia|]. simpl.
  rewrite Hvx. simpl. rewrite (load_Some _ _ _ Hx). simpl.
  unfold tree.greater, tree.less.
  destruct (lt vx v) eqn:Hgt.
  - destruct r as [|rl ra rr]; [done|]. cbn [root].
    rewrite (IHr a ra fuel); [|done..|simpl in *; lia].
    by destruct (nearest_Node rl ra rr v Hbr) as [y ->].
  - destruct (lt v vx) eqn:Hlt'; [|done].
    destruct l as [|ll la lr]; [done|]. cbn [root].
    rewrite (IHl a la fuel); [|done..|simpl in *; lia].
    by destruct (nearest_Node ll la lr v Hbl) as [y ->].
Qed.

Lemma engine_inv_length h this t link :
  engine_inv value lt h this t link → S (length (inorder t)) ≤ size h.
Proof.
  intros (Hs & Hr & Hb & Hv & Hlk).
  apply (length_inorder_size h (this :: inorder t)).
  - constructor; [|by apply bst_NoDup].
    intros Hin. apply (bst_values _ _ Hb) in Hin. rewrite Hv in Hin.
    by destruct Hin.
  - intros a [->|Hin]%elem_of_cons; [by eexists|by eapply repr_live].
Qed.

Lemma find_nearest_spec h this t link v :
  engine_inv value lt h this t link →
  tree.find_nearest value lt h this v =
    Ret (match nearest t v with Some x => Some x | None => Some this end).
Proof.
  intros Hinv. pose proof (engine_inv_length _ _ _ _ Hinv) as Hlen.
  destruct Hinv as (Hs & Hr & Hb & Hv & Hlk).
  unfold tree.find_nearest, tree.empty. rewrite (load_Some _ _ _ Hs). osimpl.
  destruct t as [|l a r]; [done|]. osimpl.
  rewrite bool_decide_false by done.
  rewrite (find_nearest_loop_spec h this (Node l a r) a); [|done..|].
  - by destruct (nearest_Node l a r v Hb) as [y ->].
  - rewrite walk_bound_eq. lia.
Qed.

Lemma nearest_spec t v x :
  bst t → nearest t v = Some x →
  ∀ y, y ∈ inorder t → (key_lt y x → below y v) ∧ (key_lt x y → above y v).
Proof.
  revert x. induction t as [|l IHl a r IHr]; intros x; simpl; [done|].
  intros ([va Hva] & Hla & Har & Hbl & Hbr). rewrite Hva.
  rewrite Forall_forall in Hla, Har.
  assert (Hl_lt : lt va v = true → ∀ y, y ∈ inorder l ++ [a] → below y v).
  { intros Hlt' y [Hy|Hy]%elem_of_app.
    - destruct (Hla y Hy) as (vy & va' & Hvy & Hva' & Hlt'').
      exists vy. split; [done|]. eapply (lt_trans _ Hlt); [done|]. congruence.
    - apply list_elem_of_singleton in Hy as ->. by exists va. }
  assert (Hr_gt : lt v va = true → ∀ y, y ∈ a :: inorder r → above y v).
  { intros Hlt' y [->|Hy]%elem_of_cons; [by exists va|].
    destruct (Har y Hy) as (va' & vy & Hva' & Hvy & Hlt'').
    exists vy. split; [done|]. eapply (lt_trans _ Hlt); [done|]. congruence. }
  destruct (lt va v) eqn:Hgt; [|destruct (lt v va) eqn:Hlt'].
  - destruct (nearest r v) as [x'|] eqn:Hn; intros [= <-].
    + pose proof (nearest_elem _ _ _ Hn) as Hx'.
      intros y [Hy|[->|Hy]%elem_of_cons]%elem_of_app.
      * split; [intros _; apply Hl_lt; [done|set_solver]|].
        intros Hxy. exfalso. eapply key_lt_irrefl, key_lt_trans; [apply Hxy|].
        eapply key_lt_trans; [by apply Hla|by apply Har].
      * split; [intros _; apply Hl_lt; [done|set_solver]|].
        intros Hxy. exfalso. eapply key_lt_irrefl, key_lt_trans; [apply Hxy|].
        by apply Har.
      * by apply IHr.
    + destruct r as [|rl ra rr]; [|by destruct (nearest_Node _ _ _ v Hbr); congruence].
      intros y Hy. simpl in Hy. rewrite app_nil_r in Hy || idtac.
      split; [intros _; by apply Hl_lt|].
      intros Hxy. exfalso.
      apply elem_of_app in Hy as [Hy|Hy].
      * eapply key_lt_irrefl, key_lt_trans; [apply Hxy|by apply Hla].
      * apply list_elem_of_singleton in Hy as ->. by eapply key_lt_irrefl.
  - destruct (nearest l v) as [x'|] eqn:Hn; intros [= <-].
    + pose proof (nearest_elem _ _ _ Hn) as Hx'.
      intros y [Hy|[->|Hy]%elem_of_cons]%elem_of_app.
      * by apply IHl.
      * split; [|intros _; apply Hr_gt; [done|set_solver]].
        intros Hxy. exfalso. eapply key_lt_irrefl, key_lt_trans; [apply Hxy|].
        by apply Hla.
      * split; [|intros _; apply Hr_gt; [done|set_solver]].
        intros Hxy. exfalso. eapply key_lt_irrefl, key_lt_trans; [apply Hxy|].
        eapply key_lt_trans; [by apply Hla|by apply Har].
    + destruct l as [|ll la lr]; [|by destruct (nearest_Node _ _ _ v Hbl); congruence].
      intros y Hy. simpl in Hy.
      split; [|intros _; by apply Hr_gt].
      intros Hxy. exfalso.
      apply elem_of_cons in Hy as [->|Hy].
      * by eapply key_lt_irrefl.
      * eapply key_lt_irrefl, key_lt_trans; [apply Hxy|by apply Har].
  - intros [= <-]. pose proof (lt_total _ Hlt _ _ Hgt Hlt') as ->.
    intros y [Hy|[->|Hy]%elem_of_cons]%elem_of_app.
    + split; [|intros Hxy; exfalso; eapply key_lt_irrefl, key_lt_trans;
                [apply Hxy|by apply Hla]].
      intros (vy & va' & Hvy & Hva' & Hlt''). exists vy. split; congruence.
    + split; intros Hxy; exfalso; by eapply key_lt_irrefl.
    + split; [intros Hxy; exfalso; eapply key_lt_irrefl, key_lt_trans;
                [apply Hxy|by apply Har]|].
      intros (va' & vy & Hva' & Hvy & Hlt''). exists vy. split; congruence.
Qed.

Lemma sorted_related (l : list addr) x y :
  StronglySorted key_lt l → x ∈ l → y ∈ l → x = y ∨ key_lt x y ∨ key_lt y x.
Proof.
  induction 1 as [|z l Hs IH Hz]; [by intros ?%elem_of_nil|].
  rewrite Forall_forall in Hz.
  intros [->|Hx]%elem_of_cons [->|Hy]%elem_of_cons; auto.
Qed.

(** Two nodes of an engine with the same key are the same node. *)
Lemma bst_inj t x y v :
  bst t → x ∈ inorder t → y ∈ inorder t →
  value x = Some v → value y = Some v → x = y.
Proof.
  intros Hb Hx Hy Hvx Hvy.
  destruct (sorted_related _ x y (bst_sorted _ Hb) Hx Hy)
    as [?|[(v1 & v2 & H1 & H2 & H12)|(v1 & v2 & H1 & H2 & H12)]]; [done|..];
    exfalso; rewrite Hvx in *; rewrite Hvy in *;
    injection H1 as <-; injection H2 as <-;
    by rewrite (lt_irrefl _ Hlt) in H12.
Qed.

Lemma nearest_found t v y :
  bst t → y ∈ inorder t → value y = Some v → nearest t v = Some y.
Proof.
  intros Hb Hy Hvy.
  destruct t as [|l a r]; [by apply elem_of_nil in Hy|].
  destruct (nearest_Node _ _ _ v Hb) as [x Hx]. rewrite Hx. f_equal.
  pose proof (nearest_elem _ _ _ Hx) as Hin.
  destruct (nearest_spec _ _ _ Hb Hx y Hy) as [Hlo Hhi].
  destruct (sorted_related _ x y (bst_sorted _ Hb) Hin Hy) as [?|[Hxy|Hyx]];
    [done|exfalso..].
  - destruct (Hhi Hxy) as (vy & Hvy' & Hc).
    rewrite Hvy in Hvy'. injection Hvy' as <-.
    by rewrite (lt_irrefl _ Hlt) in Hc.
  - destruct (Hlo Hyx) as (vy & Hvy' & Hc).
    rewrite Hvy in Hvy'. injection Hvy' as <-.
    by rewrite (lt_irrefl _ Hlt) in Hc.
Qed.

Lemma equal_true x y : tree.equal lt x y = true ↔ x = y.
Proof.
  unfold tree.equal, tree.less_or_equal, tree.greater_or_equal,
    tree.greater, tree.less.
  rewrite andb_true_iff, !negb_true_iff. split.
  - intros [H1 H2]. by apply (lt_total _ Hlt).
  - intros ->. by rewrite (lt_irrefl _ Hlt).
Qed.

(** *** [find] *)

Lemma find_found h this t link v x :
  engine_inv value lt h this t link → holds t v x →
  tree.find value lt h this v = Ret (Some x).
Proof.
  intros Hinv [Hx Hvx]. unfold tree.find.
  rewrite (find_nearest_spec _ _ _ _ _ Hinv). osimpl.
  destruct Hinv as (Hs & Hr & Hb & Hv & Hlk).
  rewrite (nearest_found t v x); [|done..].
  unfold tree.end_, tree.get_sentinel_ptr.
  rewrite bool_decide_false by (intros [= ->]; congruence).
  cbn [tree.value_of]. rewrite Hvx. osimpl.
  by rewrite (proj2 (equal_true v v)).
Qed.

Lemma find_missing h this t link v :
  engine_inv value lt h this t link → (∀ x, ¬ holds t v x) →
  tree.find value lt h this v = Ret (tree.end_ this).
Proof.
  intros Hinv Hno. unfold tree.find.
  rewrite (find_nearest_spec _ _ _ _ _ Hinv). osimpl.
  destruct Hinv as (Hs & Hr & Hb & Hv & Hlk).
  unfold tree.end_, tree.get_sentinel_ptr.
  destruct (nearest t v) as [x|] eqn:Hn; [|by rewrite bool_decide_true].
  pose proof (nearest_elem _ _ _ Hn) as Hin.
  destruct (bst_values _ _ Hb Hin) as [vx Hvx].
  case_bool_decide; [done|].
  cbn [tree.value_of]. rewrite Hvx. osimpl.
  destruct (tree.equal lt vx v) eqn:Heq; [|done].
  apply equal_true in Heq as ->. by destruct (Hno x).
Qed.

End engine_facts.

(** ** Successors *)

Lemma succ_in_app_l l1 l2 x d :
  x ∈ l1 → succ_in (l1 ++ l2) x d = succ_in l1 x (hd d l2).
Proof.
  induction l1 as [|y l1 IH]; [by intros ?%elem_of_nil|].
  intros Hin. simpl. case_decide as Hxy.
  - by destruct l1.
  - apply IH. apply elem_of_cons in Hin as [?|?]; done.
Qed.

Lemma succ_in_app_r l1 l2 x d :
  x ∉ l1 → succ_in (l1 ++ l2) x d = succ_in l2 x d.
Proof.
  induction l1 as [|y l1 IH]; [done|].
  intros Hin. simpl. rewrite decide_False by set_solver. apply IH. set_solver.
Qed.

Lemma succ_in_split l1 l2 x d :
  x ∉ l1 → succ_in (l1 ++ x :: l2) x d = hd d l2.
Proof. intros. rewrite succ_in_app_r by done. simpl. by rewrite decide_True. Qed.

Lemma exits_right_left_child h a na la nla :
  h !! la = Some nla → parent nla = Some a →
  h !! a = Some na → right na ≠ Some la →
  exits_right h 0 la a.
Proof.
  intros Hla Hpar Ha Hne. exists la, nla. split_and!; [done..|].
  intros [|fuel] ?; [lia|]. simpl. unfold tree.is_right.
  rewrite (load_Some _ _ _ Hla). osimpl. rewrite Hpar.
  rewrite (load_Some _ _ _ Ha). osimpl. by rewrite bool_decide_false.
Qed.

Lemma exits_right_right_child h n a na ra nra nxt :
  h !! ra = Some nra → parent nra = Some a →
  h !! a = Some na → right na = Some ra →
  exits_right h n a nxt → exits_right h (S n) ra nxt.
Proof.
  intros Hra Hpar Ha Hr (top & tn & Htop & Hp & Hclimb).
  exists top, tn. split_and!; [done..|].
  intros [|fuel] ?; [lia|]. simpl. unfold tree.is_right.
  rewrite (load_Some _ _ _ Hra). osimpl. rewrite Hpar.
  rewrite (load_Some _ _ _ Ha). osimpl. rewrite bool_decide_true by done.
  apply Hclimb. lia.
Qed.

Lemma next_in_shape h par t n nxt x :
  repr h par t → NoDup (inorder t) → x ∈ inorder t →
  (∀ a, root t = Some a → exits_right h n a nxt) →
  n + length (inorder t) ≤ size h →
  tree.next h (Some x) = Ret (Some (succ_in (inorder t) x nxt)).
Proof.
  revert par n nxt. induction t as [|l IHl a r IHr]; intros par n nxt;
    [by intros _ _ ?%elem_of_nil|].
  cbn [repr inorder root]. intros (Ha & Hl & Hr) Hnd Hx Hexit Hlen.
  rewrite length_app in Hlen. cbn [length] in Hlen.
  apply NoDup_app in Hnd as (Hndl & Hdisj & Hndr).
  apply NoDup_cons in Hndr as [Har Hndr].
  apply elem_of_app in Hx as [Hx|Hx].
  - (* in the left subtree *)
    rewrite succ_in_app_l by done. cbn [hd].
    apply (IHl a 0); [done..| |lia].
    intros la Hla. destruct l as [|ll la' lr]; [done|].
    injection Hla as ->. destruct Hl as (Hla & _).
    eapply exits_right_left_child; [done..|]. cbn [right].
    intros Heq. apply root_elem in Heq.
    apply (Hdisj la); [set_solver|set_solver].
  - apply elem_of_cons in Hx as [->|Hx].
    + (* the root *)
      rewrite succ_in_split by (intros ?; eapply Hdisj; [done|set_solver]).
      unfold tree.next. rewrite (load_Some _ _ _ Ha). osimpl.
      destruct r as [|rl ra rr]; osimpl.
      * destruct (Hexit a eq_refl) as (top & tn & Htop & Hp & Hclimb).
        rewrite Hclimb by (rewrite walk_bound_eq; lia). osimpl.
        rewrite (load_Some _ _ _ Htop). osimpl. by rewrite Hp.
      * rewrite (leftmost_spec h a (Node rl ra rr) ra); [|done..|].
        -- osimpl. do 2 f_equal. rewrite first_of_hd.
           cbn [inorder]. by destruct (inorder rl).
        -- rewrite walk_bound_eq. lia.
    + (* in the right subtree *)
      rewrite succ_in_app_r by (intros ?; eapply Hdisj; [done|set_solver]).
      cbn [succ_in]. rewrite decide_False by (intros ->; done).
      apply (IHr a (S n)); [done..| |lia].
      intros ra Hra. destruct r as [|rl ra' rr]; [done|].
      injection Hra as ->. destruct Hr as (Hra & _).
      eapply exits_right_right_child; [done..|]. by apply Hexit.
Qed.

Section engine_walks.
Context {T : Type}.
Variable value : addr → option T.
Variable lt : T → T → bool.
Hypothesis Hlt : strict_total lt.

Lemma next_spec h this t link x :
  engine_inv value lt h this t link → x ∈ inorder t →
  tree.next h (Some x) = Ret (Some (succ_in (inorder t) x this)).
Proof.
  intros Hinv Hx. pose proof (engine_inv_length _ _ Hlt _ _ _ _ Hinv) as Hlen.
  destruct Hinv as (Hs & Hr & Hb & Hv & Hlk).
  apply (next_in_shape h this t 0); [done|by eapply bst_NoDup|done| |lia].
  intros a Ha. destruct t as [|l a' r]; [done|]. injection Ha as ->.
  destruct Hr as (Ha & _).
  eapply exits_right_left_child; [done..|]. cbn [right].
  intros ->. eapply Hlk; [done|]. set_solver.
Qed.

Lemma begin_spec h this t link :
  engine_inv value lt h this t link →
  tree.begin h this = Ret (Some (hd this (inorder t))).
Proof.
  intros Hinv. pose proof (engine_inv_length _ _ Hlt _ _ _ _ Hinv) as Hlen.
  destruct Hinv as (Hs & Hr & Hb & Hv & Hlk).
  unfold tree.begin. rewrite walk_bound_eq. cbn [tree.leftmost].
  rewrite (load_Some _ _ _ Hs). osimpl.
  destruct t as [|l a r]; [done|]. osimpl.
  rewrite (leftmost_spec h this (Node l a r) a); [|done..|lia].
  osimpl. rewrite first_of_hd. cbn [inorder]. by destruct (inorder l).
Qed.
End engine_walks.

(** ** Bounds *)

Lemma first_with_split P l1 x l2 d :
  (∀ y, y ∈ l1 → P y = false) → P x = true →
  first_with P (l1 ++ x :: l2) d = x.
Proof.
  intros Hl1 Hx. induction l1 as [|y l1 IH]; simpl; [by rewrite Hx|].
  rewrite Hl1 by set_solver. apply IH. intros z Hz. apply Hl1. set_solver.
Qed.

Lemma first_with_none P l d :
  (∀ y, y ∈ l → P y = false) → first_with P l d = d.
Proof.
  intros Hl. induction l as [|y l IH]; simpl; [done|].
  rewrite Hl by set_solver. apply IH. intros z Hz. apply Hl. set_solver.
Qed.

Section engine_bounds.
Context {T : Type}.
Variable value : addr → option T.
Variable lt : T → T → bool.
Hypothesis Hlt : strict_total lt.

Local Notation key_lt := (key_lt value lt).
Local Notation bst := (bst value lt).
Local Notation nearest := (nearest value lt).

(** What both bounds compute: the node the descent ends at when [P]
    holds of it, its successor otherwise, is the first node with [P]
    whenever [P] is false below [v] and true above. *)
Lemma bound_pick h this t link v x (P : addr → bool) :
  engine_inv value lt h this t link →
  nearest t v = Some x →
  (∀ y, below value lt y v → P y = false) →
  (∀ y, above value lt y v → P y = true) →
  (if P x then Ret (Some x) else tree.next h (Some x))
  = Ret (Some (first_with P (inorder t) this)).
Proof.
  intros Hinv Hn Hlo Hhi.
  pose proof (nearest_elem _ _ Hlt _ _ _ Hn) as Hin.
  pose proof (next_spec _ _ Hlt _ _ _ _ _ Hinv Hin) as Hnext.
  destruct Hinv as (Hs & Hr & Hb & Hv & Hlk).
  pose proof (bst_sorted _ _ Hlt _ Hb) as Hsort.
  pose proof (nearest_spec _ _ Hlt _ _ _ Hb Hn) as Hnear.
  destruct (list_elem_of_split_l _ _ Hin) as (l1 & l2 & Heq & Hnin).
  rewrite Heq in *.
  assert (Hl1 : ∀ y, y ∈ l1 → P y = false).
  { intros y Hy. apply Hlo, Hnear; [set_solver|].
    eapply StronglySorted_app_1_elem_of; [done..|set_solver]. }
  destruct (P x) eqn:HPx.
  - by rewrite first_with_split.
  - rewrite Hnext, succ_in_split by done. do 2 f_equal.
    destruct l2 as [|z l2]; cbn [hd].
    + rewrite first_with_none; [done|].
      intros y [Hy|Hy]%elem_of_app; [by apply Hl1|].
      by apply list_elem_of_singleton in Hy as ->.
    + rewrite (cons_middle x), app_assoc, first_with_split; [done| |].
      * intros y [Hy|Hy]%elem_of_app; [by apply Hl1|].
        by apply list_elem_of_singleton in Hy as ->.
      * apply Hhi, Hnear; [set_solver|].
        apply StronglySorted_app_1_r, StronglySorted_cons in Hsort as [Hx _].
        rewrite Forall_forall in Hx. apply Hx. set_solver.
Qed.

Lemma bound_empty t v (P : addr → bool) this :
  bst t → nearest t v = None → first_with P (inorder t) this = this.
Proof.
  intros Hb Hn. destruct t as [|l a r]; [done|].
  destruct (nearest_Node _ _ _ _ _ v Hb). congruence.
Qed.

Lemma lower_bound_spec h this t link v :
  engine_inv value lt h this t link →
  tree.lower_bound value lt h this v
  = Ret (Some (first_with (not_less value lt v) (inorder t) this)).
Proof.
  intros Hinv. unfold tree.lower_bound.
  rewrite (find_nearest_spec _ _ Hlt _ _ _ _ _ Hinv). osimpl.
  pose proof Hinv as (Hs & Hr & Hb & Hv & Hlk).
  unfold tree.end_, tree.get_sentinel_ptr.
  destruct (nearest t v) as [x|] eqn:Hn.
  - pose proof (nearest_elem _ _ Hlt _ _ _ Hn) as Hin.
    destruct (bst_values _ _ _ _ Hb Hin) as [vx Hvx].
    rewrite bool_decide_false by (intros [= ->]; congruence).
    cbn [tree.value_of]. rewrite Hvx. osimpl.
    rewrite <-(bound_pick h this t link v x (not_less value lt v)); try done.
    + unfold not_less, tree.greater_or_equal, tree.less. by rewrite Hvx.
    + intros y (vy & Hvy & Hy). unfold not_less. by rewrite Hvy, Hy.
    + intros y (vy & Hvy & Hy). unfold not_less.
      by rewrite Hvy, (lt_asym _ Hlt _ _ Hy).
  - rewrite bool_decide_true by done. by rewrite (bound_empty t v).
Qed.

Lemma upper_bound_spec h this t link v :
  engine_inv value lt h this t link →
  tree.upper_bound value lt h this v
  = Ret (Some (first_with (greater_than value lt v) (inorder t) this)).
Proof.
  intros Hinv. unfold tree.upper_bound.
  rewrite (find_nearest_spec _ _ Hlt _ _ _ _ _ Hinv). osimpl.
  pose proof Hinv as (Hs & Hr & Hb & Hv & Hlk).
  unfold tree.end_, tree.get_sentinel_ptr.
  destruct (nearest t v) as [x|] eqn:Hn.
  - pose proof (nearest_elem _ _ Hlt _ _ _ Hn) as Hin.
    destruct (bst_values _ _ _ _ Hb Hin) as [vx Hvx].
    rewrite bool_decide_false by (intros [= ->]; congruence).
    cbn [tree.value_of]. rewrite Hvx. osimpl.
    rewrite <-(bound_pick h this t link v x (greater_than value lt v)); try done.
    + unfold greater_than, tree.greater, tree.less. by rewrite Hvx.
    + intros y (vy & Hvy & Hy). unfold greater_than.
      by rewrite Hvy, (lt_asym _ Hlt _ _ Hy).
    + intros y (vy & Hvy & Hy). unfold greater_than. by rewrite Hvy, Hy.
  - rewrite bool_decide_true by done. by rewrite (bound_empty t v).
Qed.
End engine_bounds.

(** ** [insert] *)

Section engine_insert.
Context {T : Type}.
Variable value : addr → option T.
Variable lt : T → T → bool.
Hypothesis Hlt : strict_total lt.

Local Notation key_lt := (key_lt value lt).
Local Notation bst := (bst value lt).
Local Notation nearest := (nearest value lt).
Local Notation ins := (ins value lt).
Local Notation holds := (holds value).
Local Notation attach := (attach value lt).

Lemma ins_elem n v t y :
  bst t → (∀ x, ¬ holds t v x) →
  y ∈ inorder (ins n v t) ↔ y = n ∨ y ∈ inorder t.
Proof.
  induction t as [|l IHl a r IHr]; simpl.
  - intros _ _. set_solver.
  - intros ([va Hva] & Hla & Har & Hbl & Hbr) Hno. rewrite Hva.
    assert (Hnol : ∀ x, ¬ holds l v x).
    { intros x [Hx Hvx]. apply (Hno x). split; [set_solver|done]. }
    assert (Hnor : ∀ x, ¬ holds r v x).
    { intros x [Hx Hvx]. apply (Hno x). split; [set_solver|done]. }
    destruct (lt va v) eqn:Hgt; [|destruct (lt v va) eqn:Hlt'].
    + simpl. rewrite elem_of_app, elem_of_cons, IHr, elem_of_app, elem_of_cons by done.
      tauto.
    + simpl. rewrite elem_of_app, elem_of_cons, IHl, elem_of_app, elem_of_cons by done.
      tauto.
    + exfalso. apply (Hno a). split; [set_solver|].
      by rewrite (lt_total _ Hlt _ _ Hgt Hlt') in Hva.
Qed.

Lemma ins_bst n v t :
  bst t → value n = Some v → (∀ x, ¬ holds t v x) → bst (ins n v t).
Proof.
  intros Hb Hvn. induction t as [|l IHl a r IHr]; simpl.
  - intros _. split_and!; [by eexists|constructor..|done|done].
  - destruct Hb as ([va Hva] & Hla & Har & Hbl & Hbr). intros Hno.
    assert (Hnol : ∀ x, ¬ holds l v x).
    { intros x [Hx Hvx]. apply (Hno x). split; [set_solver|done]. }
    assert (Hnor : ∀ x, ¬ holds r v x).
    { intros x [Hx Hvx]. apply (Hno x). split; [set_solver|done]. }
    rewrite Hva.
    destruct (lt va v) eqn:Hgt; [|destruct (lt v va) eqn:Hlt'].
    + simpl. split_and!; [by eexists|done| |done|by apply IHr].
      rewrite Forall_forall in Har |- *. intros y Hy.
      apply ins_elem in Hy as [->|Hy]; [|by apply Har|done..].
      by exists va, v.
    + simpl. split_and!; [by eexists| |done|by apply IHl|done].
      rewrite Forall_forall in Hla |- *. intros y Hy.
      apply ins_elem in Hy as [->|Hy]; [|by apply Hla|done..].
      by exists v, va.
    + simpl. rewrite Hva. split_and!; [by eexists|done..].
Qed.

Lemma ins_root n v l a r : root (ins n v (Node l a r)) = Some a.
Proof. simpl. by repeat case_match. Qed.

Lemma attach_spec h this par t x n nn v :
  repr h par t → bst t → nearest t v = Some x →
  (∀ y, ¬ holds t v y) →
  n ∉ inorder t → h !! n = Some nn → left nn = None → right nn = None →
  ∃ h', attach h this (Some n) (Some x) v = Ret (h', Some n)
    ∧ repr h' par (ins n v t)
    ∧ h' !! n = Some (NodeBase (Some x) None None)
    ∧ ∀ y, y ∉ inorder t → y ≠ n → h' !! y = h !! y.
Proof.
  revert par. induction t as [|l IHl a r IHr]; intros par; [done|].
  intros Hr Hb Hn Hno Hnin Hnn Hnl Hnr.
  pose proof (bst_NoDup _ _ Hlt _ Hb) as Hnd.
  cbn [inorder] in Hnd, Hnin.
  apply NoDup_app in Hnd as (Hndl & Hdisj & Hndr).
  apply NoDup_cons in Hndr as [Har Hndr].
  destruct Hr as (Ha & Hl & Hr).
  destruct Hb as ([va Hva] & Hla & Har' & Hbl & Hbr).
  assert (Hnol : ∀ x, ¬ holds l v x).
  { intros y [Hy Hvy]. apply (Hno y). split; [set_solver|done]. }
  assert (Hnor : ∀ x, ¬ holds r v x).
  { intros y [Hy Hvy]. apply (Hno y). split; [set_solver|done]. }
  assert (Hna : n ≠ a) by set_solver.
  assert (Hal : a ∉ inorder l) by (intros ?; eapply Hdisj; [done|set_solver]).
  cbn [nearest ins] in *. rewrite Hva in *.
  destruct (lt va v) eqn:Hgt; [|destruct (lt v va) eqn:Hlt'].
  - destruct r as [|rl ra rr].
    + injection Hn as <-. unfold attach. cbn [tree.value_of]. rewrite Hva. osimpl.
      unfold tree.greater, tree.less. rewrite Hgt.
      rewrite (store_Some _ _ _ _ Ha). osimpl.
      rewrite (store_Some _ _ nn) by (by rewrite lookup_insert_ne).
      eexists. split; [done|]. destruct nn as [np nl nr]. simpl in Hnl, Hnr. subst.
      cbn [repr root set_parent set_right parent left right ins].
      rewrite lookup_insert_eq, lookup_insert_ne, lookup_insert_eq by done.
      split_and!; try done.
      * eapply repr_ext; [|done]. intros y Hy.
        rewrite !lookup_insert_ne; [done|set_solver..].
      * intros y Hy Hyn. rewrite !lookup_insert_ne; [done|set_solver..].
    + destruct (nearest_Node _ _ _ _ _ v Hbr) as [x' Hx']. rewrite Hx' in Hn.
      injection Hn as ->.
      destruct (IHr a) as (h' & Hatt & Hrep & Hn' & Hframe); try done; [set_solver|].
      exists h'. split; [done|]. cbn [repr]. split_and!; try done.
      * rewrite Hframe, Ha; [|done..]. by rewrite ins_root.
      * eapply repr_ext; [|done]. intros y Hy. apply Hframe; [|set_solver].
        intros ?. apply (Hdisj y); [done|set_solver].
      * intros y Hy Hyn. apply Hframe; [set_solver|done].
  - destruct l as [|ll la lr].
    + injection Hn as <-. unfold attach. cbn [tree.value_of]. rewrite Hva. osimpl.
      unfold tree.greater, tree.less. rewrite Hgt, Hlt'.
      rewrite (store_Some _ _ _ _ Ha). osimpl.
      rewrite (store_Some _ _ nn) by (by rewrite lookup_insert_ne).
      eexists. split; [done|]. destruct nn as [np nl nr]. simpl in Hnl, Hnr. subst.
      cbn [repr root set_parent set_left parent left right ins].
      rewrite lookup_insert_eq, lookup_insert_ne, lookup_insert_eq by done.
      split_and!; try done.
      * eapply repr_ext; [|done]. intros y Hy.
        rewrite !lookup_insert_ne; [done|set_solver..].
      * intros y Hy Hyn. rewrite !lookup_insert_ne; [done|set_solver..].
    + destruct (nearest_Node _ _ _ _ _ v Hbl) as [x' Hx']. rewrite Hx' in Hn.
      injection Hn as ->.
      destruct (IHl a) as (h' & Hatt & Hrep & Hn' & Hframe); try done; [set_solver|].
      exists h'. split; [done|]. cbn [repr]. split_and!; try done.
      * rewrite Hframe, Ha; [|done..]. by rewrite ins_root.
      * eapply repr_ext; [|done]. intros y Hy. apply Hframe; [|set_solver].
        intros ?. apply (Hdisj y); [done|set_solver].
      * intros y Hy Hyn. apply Hframe; [set_solver|done].
  - exfalso. apply (Hno a). split; [set_solver|].
    by rewrite (lt_total _ Hlt _ _ Hgt Hlt') in Hva.
Qed.

Lemma insert_spec h this t link n nn v :
  engine_inv value lt h this t link →
  value n = Some v → (∀ x, ¬ holds t v x) →
  n ∉ inorder t → link ≠ Some n →
  h !! n = Some nn → left nn = None → right nn = None →
  ∃ h', tree.insert value lt h this (Some n) = Ret (h', Some n)
    ∧ engine_inv value lt h' this (ins n v t) link
    ∧ is_Some (h' !! n)
    ∧ ∀ y, y ∉ inorder t → y ≠ n → y ≠ this → h' !! y = h !! y.
Proof.
  intros Hinv Hvn Hno Hnin Hlink Hnn Hnl Hnr.
  unfold tree.insert. cbn [tree.value_of]. rewrite Hvn. osimpl.
  rewrite (find_nearest_spec _ _ Hlt _ _ _ _ _ Hinv). osimpl.
  destruct Hinv as (Hs & Hr & Hb & Hv & Hlk).
  assert (Hnthis : n ≠ this) by congruence.
  unfold tree.end_, tree.get_sentinel_ptr.
  destruct (nearest t v) as [x|] eqn:Hn.
  - pose proof (nearest_elem _ _ Hlt _ _ _ Hn) as Hin.
    destruct (bst_values _ _ _ _ Hb Hin) as [vx Hvx].
    rewrite bool_decide_false by (intros [= ->]; congruence).
    destruct (attach_spec h this this t x n nn v) as (h' & Hatt & Hrep & Hn' & Hframe);
      try done.
    unfold attach, tree.end_, tree.get_sentinel_ptr in Hatt. rewrite Hatt.
    exists h'. split; [done|]. split; [|split; [by eexists|]].
    + split_and!.
      * rewrite Hframe, Hs; [|intros [? ?]%(bst_values _ _ _ _ Hb); congruence|done].
        destruct t; [done|]. by rewrite ins_root.
      * done.
      * by apply ins_bst.
      * done.
      * intros a -> Ha. apply ins_elem in Ha as [->|Ha]; try done. by eapply Hlk.
    + intros y ? ? ?. by apply Hframe.
  - destruct t as [|l a r]; [|destruct (nearest_Node _ _ _ _ _ v Hb); congruence].
    rewrite bool_decide_true by done.
    rewrite (store_Some _ _ _ _ Hs). osimpl.
    rewrite (store_Some _ _ nn) by (by rewrite lookup_insert_ne).
    eexists. split; [done|].
    destruct nn as [np nl nr]. simpl in Hnl, Hnr. subst.
    cbn [set_parent set_left parent left right].
    split; [|split].
    + split_and!.
      * by rewrite lookup_insert_ne, lookup_insert_eq.
      * cbn. by rewrite lookup_insert_eq.
      * cbn. split_and!; [by eexists|constructor..|done|done].
      * done.
      * intros a -> Ha. cbn in Ha. set_solver.
    + rewrite lookup_insert_eq. by eexists.
    + intros y _ ? ?. by rewrite !lookup_insert_ne.
Qed.

Lemma insert_key_taken h this t link n v x :
  engine_inv value lt h this t link →
  value n = Some v → holds t v x →
  tree.insert value lt h this (Some n) = Ret (h, tree.end_ this).
Proof.
  intros Hinv Hvn [Hx Hvx].
  unfold tree.insert. cbn [tree.value_of]. rewrite Hvn. osimpl.
  rewrite (find_nearest_spec _ _ Hlt _ _ _ _ _ Hinv). osimpl.
  destruct Hinv as (Hs & Hr & Hb & Hv & Hlk).
  rewrite (nearest_found _ _ Hlt t v x) by done.
  unfold tree.end_, tree.get_sentinel_ptr.
  rewrite bool_decide_false by (intros [= ->]; congruence).
  cbn [tree.value_of]. rewrite Hvx. osimpl. unfold tree.greater, tree.less.
  by rewrite (lt_irrefl _ Hlt).
Qed.
End engine_insert.

(** ** Shapes after [erase] *)

Lemma without_notin n l : n ∉ l → without n l = l.
Proof.
  unfold without. induction l as [|y l IH]; [done|].
  intros Hn. rewrite filter_cons_True by set_solver. f_equal. apply IH. set_solver.
Qed.

Lemma without_app n l1 l2 : without n (l1 ++ l2) = without n l1 ++ without n l2.
Proof. apply filter_app. Qed.

Lemma without_split n l1 l2 :
  n ∉ l1 → n ∉ l2 → without n (l1 ++ n :: l2) = l1 ++ l2.
Proof.
  intros H1 H2. rewrite without_app. unfold without at 2.
  rewrite filter_cons_False by (intros ?; done).
  fold (without n l2). by rewrite !without_notin.
Qed.

Lemma without_elem n l y : y ∈ without n l ↔ y ∈ l ∧ y ≠ n.
Proof. unfold without. rewrite list_elem_of_filter. tauto. Qed.

Lemma without_length n l : NoDup l → n ∈ l → S (length (without n l)) = length l.
Proof.
  intros Hnd Hn. destruct (list_elem_of_split _ _ Hn) as (l1 & l2 & ->).
  apply NoDup_app in Hnd as (_ & Hd & Hnd2). apply NoDup_cons in Hnd2 as [? _].
  rewrite without_split; [|intros ?; eapply Hd; [done|set_solver]|done].
  rewrite !length_app. simpl. lia.
Qed.

Lemma remove_last_inorder l a r d :
  inorder (Node l a r)
  = inorder (remove_last (Node l a r)) ++ [last_of (Node l a r) d].
Proof.
  revert l a d. induction r as [|rl _ ra rr IH]; intros l a d.
  - simpl. done.
  - specialize (IH rl ra a). cbn [inorder remove_last last_of] in *.
    rewrite IH at 1. by rewrite <-app_assoc.
Qed.

Lemma join_inorder l r : inorder (join l r) = inorder l ++ inorder r.
Proof.
  destruct l as [|ll la lr]; [done|]. destruct r as [|rl ra rr].
  - simpl. by rewrite app_nil_r.
  - cbn [join]. rewrite (remove_last_inorder ll la lr la).
    set (m := last_of _ _). set (l' := remove_last _).
    cbn [inorder]. by rewrite <-app_assoc.
Qed.

Lemma del_root n l r : del n (Node l n r) = join l r.
Proof. simpl. by rewrite decide_True. Qed.

Lemma del_inorder n t :
  NoDup (inorder t) → inorder (del n t) = without n (inorder t).
Proof.
  induction t as [|l IHl a r IHr]; [done|]. cbn [inorder del].
  intros Hnd. apply NoDup_app in Hnd as (Hndl & Hdisj & Hndr).
  apply NoDup_cons in Hndr as [Har Hndr].
  case_decide as Han.
  - subst a. rewrite join_inorder, without_split; [done| |done].
    intros ?. eapply Hdisj; [done|set_solver].
  - cbn [inorder]. rewrite IHl, IHr by done.
    rewrite without_app. f_equal. unfold without.
    by rewrite filter_cons_True.
Qed.

Lemma del_notin n t : n ∉ inorder t → del n t = t.
Proof.
  induction t as [|l IHl a r IHr]; [done|]. cbn [inorder del]. intros Hn.
  rewrite decide_False by set_solver. rewrite IHl, IHr by set_solver. done.
Qed.

Lemma del_elem n t y : y ∈ inorder (del n t) → y ∈ inorder t.
Proof.
  induction t as [|l IHl a r IHr]; [done|]. cbn [del inorder].
  case_decide.
  - rewrite join_inorder. set_solver.
  - cbn [inorder]. set_solver.
Qed.

Section shape_order.
Context {T : Type}.
Variable value : addr → option T.
Variable lt : T → T → bool.
Hypothesis Hlt : strict_total lt.

Local Notation key_lt := (key_lt value lt).
Local Notation bst := (bst value lt).

Lemma bst_remove_last t : bst t → bst (remove_last t).
Proof.
  induction t as [|l _ a r IHr]; [done|].
  intros (Hva & Hla & Har & Hbl & Hbr).
  destruct r as [|rl ra rr]; [done|].
  cbn [remove_last]. cbn [bst]. split_and!; [done..| |done|by apply IHr].
  rewrite (remove_last_inorder rl ra rr ra) in Har.
  by apply Forall_app in Har as [? _].
Qed.

Lemma bst_join l a r : bst (Node l a r) → bst (join l r).
Proof.
  intros Hb. pose proof (bst_sorted _ _ Hlt _ Hb) as Hsort.
  destruct Hb as (Hva & Hla & Har & Hbl & Hbr).
  destruct l as [|ll la lr]; [done|]. destruct r as [|rl ra rr]; [done|].
  cbn [join]. pose proof (last_of_elem ll la lr la) as Hm.
  set (r := Node rl ra rr) in *. set (l := Node ll la lr) in *.
  cbn [bst]. rewrite Forall_forall in Hla, Har.
  split_and!; [exact (bst_values _ _ _ _ Hbl Hm)| | |by apply bst_remove_last|done].
  - pose proof (bst_sorted _ _ Hlt _ Hbl) as Hsl.
    unfold l in Hsl. rewrite (remove_last_inorder ll la lr la) in Hsl.
    rewrite Forall_forall. intros y Hy.
    eapply StronglySorted_app_1_elem_of; [done..|set_solver].
  - rewrite Forall_forall. intros y Hy.
    eapply key_lt_trans; [done|by apply Hla|by apply Har].
Qed.

Lemma bst_del n t : bst t → bst (del n t).
Proof.
  induction t as [|l IHl a r IHr]; [done|]. intros Hb. cbn [del].
  case_decide; [by eapply bst_join|].
  destruct Hb as (Hva & Hla & Har & Hbl & Hbr). cbn [bst].
  rewrite Forall_forall in Hla, Har.
  split_and!; [done| | |by apply IHl|by apply IHr];
    rewrite Forall_forall; intros y Hy%del_elem; auto.
Qed.
End shape_order.

(** ** [set_new_child_for_parent] *)

Lemma is_left_spec h a na p np :
  h !! a = Some na → parent na = Some p → h !! p = Some np →
  tree.is_left h a = Ret (bool_decide (left np = Some a)).
Proof.
  intros Ha Hp Hnp. unfold tree.is_left.
  rewrite (load_Some _ _ _ Ha). osimpl. rewrite Hp.
  by rewrite (load_Some _ _ _ Hnp).
Qed.

Lemma snc_None h a na p np :
  h !! a = Some na → parent na = Some p → h !! p = Some np →
  tree.set_new_child_for_parent h a None = Ret (<[p := slot_set a None np]> h).
Proof.
  intros Ha Hp Hnp. unfold tree.set_new_child_for_parent.
  rewrite (load_Some _ _ _ Ha). osimpl.
  rewrite (is_left_spec _ _ _ _ _ Ha Hp Hnp). osimpl. rewrite Hp.
  unfold slot_set. case_bool_decide; by rewrite (store_Some _ _ _ _ Hnp).
Qed.

Lemma snc_Some h a na p np c nc :
  h !! a = Some na → parent na = Some p → h !! p = Some np →
  h !! c = Some nc → c ≠ p →
  tree.set_new_child_for_parent h a (Some c)
  = Ret (<[c := set_parent (Some p) nc]> (<[p := slot_set a (Some c) np]> h)).
Proof.
  intros Ha Hp Hnp Hc Hcp. unfold tree.set_new_child_for_parent.
  rewrite (load_Some _ _ _ Ha). osimpl.
  rewrite (is_left_spec _ _ _ _ _ Ha Hp Hnp). osimpl. rewrite Hp.
  unfold slot_set. case_bool_decide; rewrite (store_Some _ _ _ _ Hnp); osimpl;
    by rewrite (store_Some _ _ nc) by (by rewrite lookup_insert_ne).
Qed.

Lemma slot_set_same a np :
  left np = Some a ∨ right np = Some a → slot_set a (Some a) np = np.
Proof.
  intros Hs. unfold slot_set. destruct np as [pp pl pr]. simpl in *.
  case_bool_decide; unfold set_left, set_right; simpl; [congruence|].
  destruct Hs; congruence.
Qed.

Lemma slot_set_left a c pp pr : slot_set a c (NodeBase pp (Some a) pr) = NodeBase pp c pr.
Proof. unfold slot_set. by rewrite bool_decide_true. Qed.

Lemma slot_set_right a c pp pl pr :
  pl ≠ Some a → slot_set a c (NodeBase pp pl pr) = NodeBase pp pl c.
Proof. intros. unfold slot_set. by rewrite bool_decide_false. Qed.

(** ** Unlinking the last node of a shape *)

Lemma remove_last_heap h par np t a :
  repr h par t → root t = Some a → NoDup (par :: inorder t) →
  h !! par = Some np → left np = Some a ∨ right np = Some a →
  ∃ nm h1,
    h !! last_of t a = Some nm ∧ right nm = None
    ∧ tree.set_new_child_for_parent h (last_of t a) (left nm) = Ret h1
    ∧ repr h1 par (remove_last t)
    ∧ h1 !! par = Some (slot_set a (root (remove_last t)) np)
    ∧ h1 !! last_of t a = Some nm
    ∧ ∀ y, y ∉ par :: inorder t → h1 !! y = h !! y.
Proof.
  revert par np a. induction t as [|l _ x r IHr]; intros par np a; [done|].
  cbn [repr root inorder]. intros (Hx & Hl & Hr) [= ->] Hnd Hnp Hslot.
  apply NoDup_cons in Hnd as [Hpar Hnd].
  apply NoDup_app in Hnd as (Hndl & Hdisj & Hndr).
  apply NoDup_cons in Hndr as [Har Hndr].
  assert (Hal : a ∉ inorder l) by (intros ?; eapply Hdisj; [done|set_solver]).
  assert (Hpa : par ≠ a) by set_solver.
  destruct r as [|rl ra rr].
  - (* [a] is the last node *)
    cbn [last_of remove_last].
    destruct l as [|ll la lr]; (eexists _, _; split; [done|]; split; [done|]);
      cbn [left root].
    + rewrite (snc_None _ _ _ _ _ Hx eq_refl Hnp).
      split; [reflexivity|]. split; [by cbn|].
      split_and!; [by rewrite lookup_insert_eq| |].
      * by rewrite lookup_insert_ne.
      * intros y Hy. rewrite lookup_insert_ne; [done|set_solver].
    + destruct Hl as (Hla & Hll & Hlr).
      assert (Hla_par : la ≠ par) by set_solver.
      assert (Hla_a : la ≠ a) by set_solver.
      rewrite (snc_Some _ _ _ _ _ _ _ Hx eq_refl Hnp Hla Hla_par).
      split; [reflexivity|]. split_and!.
      * cbn [inorder] in Hndl.
        apply NoDup_app in Hndl as (? & Hd' & [? ?]%NoDup_cons).
        assert (Hla_in : la ∉ inorder ll ++ inorder lr).
        { intros [Hy|Hy]%elem_of_app; [apply (Hd' la); set_solver|done]. }
        eapply (repr_reparent h _ a par ll la lr); [done|by cbn|by rewrite lookup_insert_eq|].
        intros y Hy. rewrite !lookup_insert_ne; [done|set_solver|].
        intros Heq. by subst y.
      * by rewrite lookup_insert_ne, lookup_insert_eq.
      * by rewrite !lookup_insert_ne.
      * intros y Hy. rewrite !lookup_insert_ne; [done|set_solver..].
  - (* the last node is below *)
    assert (Hra : ra ∉ inorder l).
    { intros ?. apply (Hdisj ra); [done|set_solver]. }
    destruct (IHr a (NodeBase (Some par) (root l) (Some ra)) ra)
      as (nm & h1 & Hm & Hmr & Hsnc & Hrep & Hpar1 & Hm1 & Hframe); try done.
    { constructor; done. }
    { by right. }
    exists nm, h1. cbn [last_of]. split_and!; try done.
    + change (remove_last (Node l a (Node rl ra rr)))
        with (Node l a (remove_last (Node rl ra rr))).
      cbn [repr]. split_and!; [|eapply repr_ext; [|done]|done].
      * rewrite Hpar1, slot_set_right; [done|].
        intros Heq%root_elem. done.
      * intros y Hy. apply Hframe. intros [->|?]%elem_of_cons; [done|].
        by apply (Hdisj y); [|set_solver].
    + rewrite Hframe by set_solver. rewrite Hnp. f_equal.
      change (remove_last (Node l a (Node rl ra rr)))
        with (Node l a (remove_last (Node rl ra rr))).
      cbn [root]. by rewrite slot_set_same.
    + intros y Hy. apply Hframe. set_solver.
Qed.

(** ** [erase] *)

Ltac lk :=
  repeat first
    [ rewrite lookup_insert_eq
    | rewrite lookup_insert_ne by (done || congruence) ].

(** [set_solver], on the facts about lists alone. *)
Ltac list_solver :=
  repeat match goal with
         | H : _ !! _ = _ |- _ => clear H
         | H : repr _ _ _ |- _ => clear H
         | H : ∀ y, _ → _ !! y = _ |- _ => clear H
         | H : NoDup _ |- _ => clear H
         | H : (_ < _)%nat |- _ => clear H
         | H : tree.prev _ _ = _ |- _ => clear H
         | H : tree.set_new_child_for_parent _ _ _ = _ |- _ => clear H
         | H : (if _ then _ else _) = _ |- _ => clear H
         | H : remove_last _ = _ |- _ => clear H
         end;
  set_solver.

Lemma last_of_root ll la lr :
  NoDup (inorder (Node ll la lr)) →
  (last_of (Node ll la lr) la = la ↔ lr = Leaf).
Proof.
  intros Hnd. cbn [inorder] in Hnd.
  apply NoDup_app in Hnd as (_ & _ & [Hla _]%NoDup_cons).
  destruct lr as [|a b c]; [done|]. split; [|done].
  cbn [last_of]. intros Heq. exfalso. apply Hla. rewrite <-Heq at 1.
  exact (last_of_elem a b c la).
Qed.

Lemma erase_root h par np l n r :
  repr h par (Node l n r) → NoDup (par :: inorder (Node l n r)) →
  h !! par = Some np →
  ∃ h', tree.erase h (Some n) = Ret (h', Some n)
    ∧ repr h' par (join l r)
    ∧ h' !! par = Some (slot_set n (root (join l r)) np)
    ∧ (∀ y, y ∉ par :: inorder (Node l n r) → h' !! y = h !! y)
    ∧ replaced_by_prev h h' n
    ∧ keeps_parent h h' n.
Proof.
  intros Hrep Hnd Hnp.
  assert (Hsize : length (inorder (Node l n r)) < walk_bound h).
  { rewrite walk_bound_eq. apply Nat.lt_succ_r. apply length_inorder_size.
    - by apply NoDup_cons in Hnd as [_ ?].
    - intros a Ha. by eapply repr_live. }
  destruct Hrep as (Hn & Hl & Hr). cbn [inorder] in Hnd, Hsize.
  apply NoDup_cons in Hnd as [Hpar Hnd].
  pose proof Hnd as Hnd'.
  apply NoDup_app in Hnd as (Hndl & Hdisj & Hndr).
  apply NoDup_cons in Hndr as [Hnr Hndr].
  assert (Hnl : n ∉ inorder l) by (intros ?; eapply Hdisj; [done|list_solver]).
  assert (Hpn : par ≠ n) by list_solver.
  unfold tree.erase. rewrite (load_Some _ _ _ Hn).
  destruct l as [|ll la lr]; [destruct r as [|rl ra rr]|destruct r as [|rl ra rr]];
    osimpl.
  - (* no child *)
    rewrite (snc_None _ _ _ _ _ Hn eq_refl Hnp). osimpl.
    eexists. split; [reflexivity|]. cbn [join root].
    split; [by cbn|]. split_and!.
    + by lk.
    + intros y Hy. rewrite lookup_insert_ne; [done|list_solver].
    + intros p cl cr Hn'. rewrite Hn in Hn'. done.
    + intros nn Hnn. exists nn. by lk.
  - (* a right child *)
    destruct Hr as (Hra & Hrl & Hrr).
    assert (ra ≠ par) by list_solver.
    rewrite (snc_Some _ _ _ _ _ _ _ Hn eq_refl Hnp Hra) by done. osimpl.
    eexists. split; [reflexivity|]. cbn [join root]. split_and!.
    + cbn [inorder] in Hndr.
      apply NoDup_app in Hndr as (? & Hd' & [? ?]%NoDup_cons).
      assert (ra ∉ inorder rl ++ inorder rr).
      { intros [Hy|Hy]%elem_of_app; [apply (Hd' ra); list_solver|done]. }
      eapply (repr_reparent h _ n par rl ra rr); [done|by cbn|by lk|].
      intros y Hy. rewrite !lookup_insert_ne; [done|list_solver|].
      intros Heq. by subst y.
    + by lk.
    + intros y Hy. rewrite !lookup_insert_ne; [done|list_solver..].
    + intros p cl cr Hn'. rewrite Hn in Hn'. done.
    + intros nn Hnn. exists nn. assert (ra ≠ n) by list_solver. by lk.
  - (* a left child *)
    destruct Hl as (Hla & Hll & Hlr).
    assert (la ≠ par) by list_solver.
    rewrite (snc_Some _ _ _ _ _ _ _ Hn eq_refl Hnp Hla) by done. osimpl.
    eexists. split; [reflexivity|]. cbn [join root]. split_and!.
    + cbn [inorder] in Hndl.
      apply NoDup_app in Hndl as (? & Hd' & [? ?]%NoDup_cons).
      assert (la ∉ inorder ll ++ inorder lr).
      { intros [Hy|Hy]%elem_of_app; [apply (Hd' la); list_solver|done]. }
      eapply (repr_reparent h _ n par ll la lr); [done|by cbn|by lk|].
      intros y Hy. rewrite !lookup_insert_ne; [done|list_solver|].
      intros Heq. by subst y.
    + by lk.
    + intros y Hy. rewrite !lookup_insert_ne; [done|list_solver..].
    + intros p cl cr Hn'. rewrite Hn in Hn'. done.
    + intros nn Hnn. exists nn. assert (la ≠ n) by list_solver. by lk.
  - (* two children *)
    set (l := Node ll la lr) in *. set (r := Node rl ra rr) in *.
    set (m := last_of l la).
    assert (Hprev : tree.prev h (Some n) = Ret (Some m)).
    { unfold tree.prev. rewrite (load_Some _ _ _ Hn). cbn [left root l]. osimpl.
      rewrite (rightmost_spec h n (Node ll la lr) la); [done..|].
      fold l. rewrite length_app in Hsize. lia. }
    rewrite Hprev. osimpl.
    destruct (remove_last_heap h n (NodeBase (Some par) (Some la) (Some ra)) l la)
      as (nm & h1 & Hm & Hmr & Hsnc & Hrep1 & Hn1 & Hm1 & Hframe1); try done.
    { by constructor. }
    { by left. }
    fold m in Hm, Hsnc, Hm1. rewrite slot_set_left in Hn1.
    pose proof (remove_last_inorder ll la lr la) as Hsplit.
    fold l in Hsplit. fold m in Hsplit.
    assert (Hml : m ∈ inorder l) by exact (last_of_elem _ _ _ _).
    assert (Hml' : m ∉ inorder (remove_last l)).
    { rewrite Hsplit in Hndl. apply NoDup_app in Hndl as (_ & Hd & _).
      intros ?. eapply Hd; [done|list_solver]. }
    assert (Hsub : ∀ y, y ∈ inorder (remove_last l) → y ∈ inorder l).
    { intros y Hy. rewrite Hsplit. list_solver. }
    destruct Hr as (Hra & Hrl & Hrr).
    assert (Hmn : m ≠ n) by (intros ->; done).
    assert (Hmpar : m ≠ par) by (intros ->; list_solver).
    assert (Hmra : m ≠ ra).
    { intros Heq. apply (Hdisj m); [done|]. rewrite Heq. list_solver. }
    assert (Hran : ra ≠ n) by (intros ->; list_solver).
    assert (Hrapar : ra ≠ par) by (intros ->; list_solver).
    assert (Hral : ra ∉ inorder l).
    { intros ?. apply (Hdisj ra); [done|list_solver]. }
    assert (Hra1 : h1 !! ra = h !! ra).
    { apply Hframe1. list_solver. }
    assert (Hpar1 : h1 !! par = Some np).
    { rewrite Hframe1; [done|]. list_solver. }
    assert (Hndr' : ra ∉ inorder rl ++ inorder rr).
    { cbn [r inorder] in Hndr.
      apply NoDup_app in Hndr as (? & Hd' & [? ?]%NoDup_cons).
      intros [Hy|Hy]%elem_of_app; [apply (Hd' ra); list_solver|done]. }
    rewrite (load_Some _ _ _ Hm). osimpl. rewrite Hsnc. osimpl.
    rewrite (load_Some _ _ _ Hn1). osimpl.
    rewrite (store_Some _ _ _ _ Hm1). osimpl.
    rewrite (load_Some _ _ (NodeBase (Some par) (root (remove_last l)) (Some ra)))
      by (by lk).
    osimpl. rewrite (store_Some _ _ (set_left (root (remove_last l)) nm)) by (by lk).
    osimpl.
    rewrite (load_Some _ _ (NodeBase (Some par) (root (remove_last l)) (Some ra)))
      by (by lk).
    osimpl.
    assert (Hmroot : (if decide (m = la) then left nm else Some la)
                     = root (remove_last l)).
    { case_decide as Hmla.
      - apply (last_of_root ll la lr Hndl) in Hmla. subst lr.
        cbn [l remove_last]. destruct Hl as (Hla & _).
        unfold m, l in Hm. cbn [last_of] in Hm. rewrite Hla in Hm.
        by injection Hm as <-.
      - destruct lr as [|? ? ?]; [|done].
        exfalso. apply Hmla. by apply (last_of_root ll la Leaf Hndl). }
    destruct (remove_last l) as [|xl x xr] eqn:Hl'; cbn [root] in *.
    + (* the left subtree was the node [m] alone *)
      osimpl.
      rewrite (load_Some _ _ (NodeBase (Some par) None (Some ra))) by (by lk).
      osimpl. rewrite (store_Some _ _ (NodeBase (Some n) (root rl) (root rr)))
        by (lk; by rewrite Hra1).
      osimpl.
      rewrite (snc_Some _ _ (NodeBase (Some par) None (Some ra)) par np m
                 (set_right (Some ra) (set_left None nm))); [|by lk..|done].
      osimpl. eexists. split; [reflexivity|].
      destruct nm as [pm lm rm]. cbn [set_parent set_left set_right parent left right] in *.
      cbn [join l r]. fold l. rewrite Hl'. fold m.
      split; [|split; [|split; [|split]]].
      * cbn [repr root]. split; [by lk|]. split; [done|].
        eapply (repr_reparent h _ n m rl ra rr); [done|by cbn|by lk|].
        intros y Hy.
        assert (Hyr : y ∈ inorder r) by (cbn [r inorder]; clear -Hy; set_solver).
        assert (y ≠ m) by (intros ->; apply (Hdisj m); [done|clear -Hyr; set_solver]).
        assert (y ≠ par) by (intros ->; apply Hpar; clear -Hyr; set_solver).
        assert (y ≠ ra) by (intros ->; done).
        lk. apply Hframe1. intros [->|Hyl]%elem_of_cons; [done|].
        apply (Hdisj y); [done|clear -Hyr; set_solver].
      * cbn [root]. by lk.
      * intros y Hy.
        assert (y ≠ m) by (intros ->; apply Hy; clear -Hml; cbn [inorder]; set_solver).
        assert (y ≠ par) by (intros ->; apply Hy; clear; set_solver).
        assert (y ≠ ra) by (intros ->; apply Hy; clear; cbn [r inorder]; set_solver).
        lk. apply Hframe1. clear -Hy. cbn [inorder] in Hy. set_solver.
      * intros p cl cr Hn'. rewrite Hn in Hn'. injection Hn' as <- <- <-.
        exists m, (NodeBase pm lm rm), np, h1.
        split_and!; try done.
        -- lk. cbn [left]. by rewrite Hmroot.
        -- by lk.
        -- eexists. split; [by lk|done].
        -- intros Hne. rewrite decide_False in Hmroot by done. done.
        -- intros c Heq Hc. rewrite decide_True in Hmroot by done.
           cbn in Hmroot, Hc. congruence.
      * intros nn Hnn. eexists. split; [by lk|].
        rewrite Hn in Hnn. by injection Hnn as <-.
    + (* something is left of the left subtree *)
      destruct Hrep1 as (Hx1 & Hxl & Hxr).
      assert (Hxl' : x ∈ inorder l) by (apply Hsub; list_solver).
      assert (Hxm : x ≠ m) by (intros ->; list_solver).
      assert (Hxn : x ≠ n) by (intros ->; done).
      assert (Hxpar : x ≠ par) by (intros ->; list_solver).
      assert (Hxra : x ≠ ra) by (intros ->; done).
      rewrite (store_Some _ _ (NodeBase (Some n) (root xl) (root xr))) by (by lk).
      osimpl.
      rewrite (load_Some _ _ (NodeBase (Some par) (Some x) (Some ra))) by (by lk).
      osimpl. rewrite (store_Some _ _ (NodeBase (Some n) (root rl) (root rr)))
        by (lk; by rewrite Hra1).
      osimpl.
      rewrite (snc_Some _ _ (NodeBase (Some par) (Some x) (Some ra)) par np m
                 (set_right (Some ra) (set_left (Some x) nm))); [|by lk..|done].
      osimpl. eexists. split; [reflexivity|].
      destruct nm as [pm lm rm]. cbn [set_parent set_left set_right parent left right] in *.
      cbn [join l r]. fold l. rewrite Hl'. fold m.
      assert (Hndx : x ∉ inorder xl ++ inorder xr).
      { rewrite Hsplit in Hndl. cbn [inorder] in Hndl.
        apply NoDup_app in Hndl as (Hndl & _ & _).
        apply NoDup_app in Hndl as (? & Hd' & [? ?]%NoDup_cons).
        intros [Hy|Hy]%elem_of_app; [apply (Hd' x); list_solver|done]. }
      split; [|split; [|split; [|split]]].
      * cbn [repr root]. split; [by lk|]. split.
        -- eapply (repr_reparent h1 _ n m xl x xr); [done|by cbn|by lk|].
           intros y Hy.
           assert (Hyl : y ∈ inorder l) by (apply Hsub; cbn [inorder]; clear -Hy; set_solver).
           assert (y ≠ m) by (intros ->; apply Hml'; cbn [inorder]; clear -Hy; set_solver).
           assert (y ≠ par) by (intros ->; apply Hpar; clear -Hyl; set_solver).
           assert (y ≠ ra) by (intros ->; done).
           assert (y ≠ x) by (intros ->; done).
           by lk.
        -- eapply (repr_reparent h _ n m rl ra rr); [done|by cbn|by lk|].
           intros y Hy.
           assert (Hyr : y ∈ inorder r) by (cbn [r inorder]; clear -Hy; set_solver).
           assert (y ≠ m) by (intros ->; apply (Hdisj m); [done|clear -Hyr; set_solver]).
           assert (y ≠ par) by (intros ->; apply Hpar; clear -Hyr; set_solver).
           assert (y ≠ ra) by (intros ->; done).
           assert (y ≠ x) by (intros ->; apply (Hdisj x); [done|clear -Hyr; set_solver]).
           lk. apply Hframe1. intros [->|Hyl]%elem_of_cons; [done|].
           apply (Hdisj y); [done|clear -Hyr; set_solver].
      * cbn [root]. by lk.
      * intros y Hy.
        assert (y ≠ m) by (intros ->; apply Hy; clear -Hml; cbn [inorder]; set_solver).
        assert (y ≠ par) by (intros ->; apply Hy; clear; set_solver).
        assert (y ≠ ra) by (intros ->; apply Hy; clear; cbn [r inorder]; set_solver).
        assert (y ≠ x) by (intros ->; apply Hy; clear -Hxl'; cbn [inorder]; set_solver).
        lk. apply Hframe1. clear -Hy. cbn [inorder] in Hy. set_solver.
      * intros p cl cr Hn'. rewrite Hn in Hn'. injection Hn' as <- <- <-.
        exists m, (NodeBase pm lm rm), np, h1.
        split_and!; try done.
        -- lk. cbn [left]. by rewrite Hmroot.
        -- by lk.
        -- eexists. split; [by lk|done].
        -- intros Hne. rewrite decide_False in Hmroot by done.
           injection Hmroot as <-. eexists. split; [by lk|done].
        -- intros c Heq Hc. rewrite decide_True in Hmroot by done.
           cbn in Hmroot, Hc. rewrite Hc in Hmroot. injection Hmroot as ->.
           eexists. split; [by lk|done].
      * intros nn Hnn. eexists. split; [by lk|].
        rewrite Hn in Hnn. by injection Hnn as <-.
Qed.

Lemma erase_in_shape h par np t n :
  repr h par t → NoDup (par :: inorder t) → h !! par = Some np →
  (∀ a, root t = Some a → left np = Some a ∨ right np = Some a) →
  n ∈ inorder t →
  ∃ h', tree.erase h (Some n) = Ret (h', Some n)
    ∧ repr h' par (del n t)
    ∧ (∀ a, root t = Some a → h' !! par = Some (slot_set a (root (del n t)) np))
    ∧ (∀ y, y ∉ par :: inorder t → h' !! y = h !! y)
    ∧ replaced_by_prev h h' n
    ∧ keeps_parent h h' n.
Proof.
  revert par np. induction t as [|l IHl a r IHr]; intros par np;
    [by intros _ _ _ _ ?%elem_of_nil|].
  intros Hrep Hnd Hnp Hslot Hin.
  destruct (decide (a = n)) as [->|Han].
  { destruct (erase_root h par np l n r) as (h' & He & Hrep' & Hpar' & Hfr & Hrp & Hkp);
      [done..|].
    exists h'. rewrite del_root. split_and!; try done. by intros ? [= <-]. }
  pose proof Hnd as Hnd0.
  apply NoDup_cons in Hnd as [Hpar Hnd]. cbn [inorder] in *.
  apply NoDup_app in Hnd as (Hndl & Hdisj & Hndr).
  apply NoDup_cons in Hndr as [Har Hndr].
  assert (Hal : a ∉ inorder l) by (intros ?; eapply Hdisj; [done|set_solver]).
  assert (Hpa : par ≠ a) by set_solver.
  destruct Hrep as (Ha & Hl & Hr).
  specialize (Hslot a eq_refl).
  cbn [del]. rewrite decide_False by done.
  apply elem_of_app in Hin as [Hin|Hin].
  - (* in the left subtree *)
    destruct (IHl a (NodeBase (Some par) (root l) (root r)))
      as (h' & He & Hrep' & Ha' & Hfr & Hrp & Hkp); try done.
    { by constructor. }
    { intros la Hla. left. by rewrite <-Hla. }
    assert (Hnr : n ∉ inorder r).
    { intros ?. apply (Hdisj n); [done|set_solver]. }
    rewrite (del_notin n r) by done.
    exists h'. split; [done|]. split; [|split; [|split]]; [| | |done].
    + cbn [repr]. split_and!; [|done|].
      * destruct l as [|ll la lr]; [by apply elem_of_nil in Hin|].
        rewrite (Ha' la eq_refl). by rewrite slot_set_left.
      * eapply repr_ext; [|done]. intros y Hy. apply Hfr.
        intros [->|?]%elem_of_cons; [done|]. apply (Hdisj y); [done|set_solver].
    + intros ? [= <-]. cbn [root]. rewrite slot_set_same by done.
      rewrite Hfr; [done|set_solver].
    + intros y Hy. apply Hfr. set_solver.
  - (* in the right subtree *)
    apply elem_of_cons in Hin as [->|Hin]; [done|].
    destruct (IHr a (NodeBase (Some par) (root l) (root r)))
      as (h' & He & Hrep' & Ha' & Hfr & Hrp & Hkp); try done.
    { by constructor. }
    { intros ra Hra. right. by rewrite <-Hra. }
    assert (Hnl : n ∉ inorder l).
    { intros ?. apply (Hdisj n); [done|set_solver]. }
    rewrite (del_notin n l) by done.
    exists h'. split; [done|]. split; [|split; [|split]]; [| | |done].
    + cbn [repr]. split_and!; [| |done].
      * destruct r as [|rl ra rr]; [by apply elem_of_nil in Hin|].
        rewrite (Ha' ra eq_refl). rewrite slot_set_right; [done|].
        intros ?%root_elem. apply (Hdisj ra); [done|]. cbn [inorder]. set_solver.
      * eapply repr_ext; [|done]. intros y Hy. apply Hfr.
        intros [->|?]%elem_of_cons; [done|]. apply (Hdisj y); [done|set_solver].
    + intros ? [= <-]. cbn [root]. rewrite slot_set_same by done.
      rewrite Hfr; [done|set_solver].
    + intros y Hy. apply Hfr. set_solver.
Qed.

Section engine_erase.
Context {T : Type}.
Variable value : addr → option T.
Variable lt : T → T → bool.
Hypothesis Hlt : strict_total lt.

Lemma erase_spec h this t link n :
  engine_inv value lt h this t link → n ∈ inorder t →
  ∃ h', tree.erase h (Some n) = Ret (h', Some n)
    ∧ engine_inv value lt h' this (del n t) link
    ∧ (∀ y, y ≠ this → y ∉ inorder t → h' !! y = h !! y)
    ∧ replaced_by_prev h h' n
    ∧ keeps_parent h h' n.
Proof.
  intros (Hs & Hr & Hb & Hv & Hlk) Hin.
  assert (Hthis : this ∉ inorder t).
  { intros [? ?]%(bst_values _ _ _ _ Hb). congruence. }
  destruct (erase_in_shape h this (NodeBase None (root t) link) t n)
    as (h' & He & Hrep & Hs' & Hfr & Hrp & Hkp); try done.
  { constructor; [done|exact (bst_NoDup _ _ Hlt _ Hb)]. }
  { intros a Ha. by left. }
  exists h'. split; [done|]. split; [|split]; [| |done].
  - split_and!; [|done|by apply bst_del|done|].
    + destruct t as [|l a r]; [by apply elem_of_nil in Hin|].
      rewrite (Hs' a eq_refl). by rewrite slot_set_left.
    + intros a Ha Hd%del_elem. by eapply Hlk.
  - intros y ? ?. apply Hfr. set_solver.
Qed.

Lemma erase_null (h : heap) : tree.erase h None = Ret (h, None).
Proof. done. Qed.
End engine_erase.

(** ** Walking an engine from [begin()] to [end()] *)

Section engine_nodes.
Context {T : Type}.
Variable value : addr → option T.
Variable lt : T → T → bool.
Hypothesis Hlt : strict_total lt.

Lemma walk_spec h this t link pre post fuel :
  engine_inv value lt h this t link →
  inorder t = pre ++ post → length post ≤ fuel →
  walk fuel h (Some (hd this post)) (Some this) = Ret post.
Proof.
  intros Hinv. revert pre fuel.
  pose proof Hinv as (Hs & Hr & Hb & Hv & Hlk).
  pose proof (bst_NoDup _ _ Hlt _ Hb) as Hnd.
  induction post as [|x post IH]; intros pre fuel Heq Hlen.
  - cbn [hd]. destruct fuel; cbn [walk]; by rewrite bool_decide_true.
  - cbn [length] in Hlen. destruct fuel as [|fuel]; [lia|]. cbn [walk hd].
    assert (Hx : x ∈ inorder t) by (rewrite Heq; set_solver).
    rewrite bool_decide_false.
    2:{ intros [= ->]. apply (bst_values _ _ _ _ Hb) in Hx as [? ?]. congruence. }
    rewrite (next_spec _ _ Hlt _ _ _ _ _ Hinv Hx). osimpl.
    rewrite Heq, succ_in_split.
    2:{ rewrite Heq in Hnd. apply NoDup_app in Hnd as (_ & Hd & _).
        intros ?. eapply Hd; [done|set_solver]. }
    rewrite (IH (pre ++ [x])); [done| |lia].
    by rewrite <-app_assoc.
Qed.

Lemma nodes_spec h this t link :
  engine_inv value lt h this t link → nodes h this = Ret (inorder t).
Proof.
  intros Hinv. unfold nodes.
  rewrite (begin_spec _ _ Hlt _ _ _ _ Hinv). osimpl.
  apply (walk_spec h this t link []); [done..|].
  pose proof (engine_inv_length _ _ Hlt _ _ _ _ Hinv).
  rewrite walk_bound_eq. lia.
Qed.

Lemma repr_linked h this par t a :
  repr h par t → (∀ x, root t = Some x → linked h this x) →
  a ∈ inorder t → linked h this a.
Proof.
  revert par. induction t as [|l IHl x r IHr]; intros par;
    [by intros _ _ ?%elem_of_nil|].
  cbn [repr inorder root]. intros (Hx & Hl & Hr) Hroot Hin.
  specialize (Hroot x eq_refl).
  apply elem_of_app in Hin as [Hin|[->|Hin]%elem_of_cons]; [|done|].
  - apply (IHl x); [done| |done]. intros y Hy. by eapply linked_left.
  - apply (IHr x); [done| |done]. intros y Hy. by eapply linked_right.
Qed.

Lemma repr_closed h par t a na :
  repr h par t → a ∈ inorder t → h !! a = Some na →
  (∀ c, left na = Some c → c ∈ inorder t)
  ∧ (∀ c, right na = Some c → c ∈ inorder t)
  ∧ (∀ c, parent na = Some c → c = par ∨ c ∈ inorder t).
Proof.
  revert par. induction t as [|l IHl x r IHr]; intros par;
    [by intros _ ?%elem_of_nil|].
  cbn [repr inorder]. intros (Hx & Hl & Hr) Hin Ha.
  apply elem_of_app in Hin as [Hin|[->|Hin]%elem_of_cons].
  - destruct (IHl x Hl Hin Ha) as (H1 & H2 & H3). split_and!.
    + intros c Hc. specialize (H1 c Hc). set_solver.
    + intros c Hc. specialize (H2 c Hc). set_solver.
    + intros c Hc. right. destruct (H3 c Hc) as [->|?]; set_solver.
  - rewrite Hx in Ha. injection Ha as <-. cbn [left right parent]. split_and!.
    + intros c Hc%root_elem. set_solver.
    + intros c Hc%root_elem. set_solver.
    + intros c [= <-]. by left.
  - destruct (IHr x Hr Hin Ha) as (H1 & H2 & H3). split_and!.
    + intros c Hc. specialize (H1 c Hc). set_solver.
    + intros c Hc. specialize (H2 c Hc). set_solver.
    + intros c Hc. right. destruct (H3 c Hc) as [->|?]; set_solver.
Qed.

(** The nodes of the shape are the nodes linked into the engine. *)
Lemma linked_spec h this t link a :
  engine_inv value lt h this t link → linked h this a ↔ a ∈ inorder t.
Proof.
  intros (Hs & Hr & Hb & Hv & Hlk). split.
  - induction 1 as [s a Hs' Hl|p np a _ IH Hp Hl|p np a _ IH Hp Hl].
    + rewrite Hs in Hs'. injection Hs' as <-. by apply root_elem.
    + destruct (repr_closed _ _ _ _ _ Hr IH Hp) as (H1 & _ & _). by apply H1.
    + destruct (repr_closed _ _ _ _ _ Hr IH Hp) as (_ & H2 & _). by apply H2.
  - apply (repr_linked h this this t a Hr).
    intros x Hx. by eapply linked_root.
Qed.
End engine_nodes.

(** ** Two engines in one memory *)

Section ext.
Context {T : Type}.
Variable lt : T → T → bool.

Lemma bst_ext (value value' : addr → option T) t :
  (∀ a, a ∈ inorder t → value' a = value a) →
  bst value lt t → bst value' lt t.
Proof.
  induction t as [|l IHl a r IHr]; [done|]. cbn [bst inorder].
  intros Hag (Hva & Hla & Har & Hbl & Hbr).
  assert (Hk : ∀ x y, x ∈ inorder l ++ a :: inorder r →
                y ∈ inorder l ++ a :: inorder r →
                key_lt value lt x y → key_lt value' lt x y).
  { intros x y Hx Hy (vx & vy & ? & ? & ?). exists vx, vy.
    rewrite !Hag by done. done. }
  rewrite Forall_forall in Hla, Har.
  split_and!.
  - rewrite Hag; [done|set_solver].
  - rewrite Forall_forall. intros y Hy. apply Hk; [set_solver..|by apply Hla].
  - rewrite Forall_forall. intros y Hy. apply Hk; [set_solver..|by apply Har].
  - apply IHl; [|done]. intros x Hx. apply Hag. set_solver.
  - apply IHr; [|done]. intros x Hx. apply Hag. set_solver.
Qed.

Lemma engine_inv_ext (value value' : addr → option T) h h' this t link :
  engine_inv value lt h this t link →
  (∀ a, a ∈ this :: inorder t → h' !! a = h !! a) →
  (∀ a, a ∈ this :: inorder t → value' a = value a) →
  engine_inv value' lt h' this t link.
Proof.
  intros (Hs & Hr & Hb & Hv & Hlk) Hh Hval. split_and!.
  - rewrite Hh; [done|set_solver].
  - eapply repr_ext; [|done]. intros a Ha. apply Hh. set_solver.
  - eapply bst_ext; [|done]. intros a Ha. apply Hval. set_solver.
  - rewrite Hval; [done|set_solver].
  - done.
Qed.

Lemma holds_ext (value value' : addr → option T) t v x :
  (∀ a, a ∈ inorder t → value' a = value a) →
  holds value t v x ↔ holds value' t v x.
Proof. intros Hag. unfold holds. split; intros [Hx Hv]; split; try done.
  - by rewrite Hag.
  - by rewrite <-Hag.
Qed.

Lemma ins_ext (value value' : addr → option T) n v t :
  (∀ a, a ∈ inorder t → value' a = value a) →
  ins value' lt n v t = ins value lt n v t.
Proof.
  induction t as [|l IHl a r IHr]; [done|]. cbn [inorder ins]. intros Hag.
  rewrite Hag by set_solver. rewrite IHl, IHr; [done|intros; apply Hag; set_solver..].
Qed.
End ext.

Section ins_length.
Context {T : Type}.
Variable value : addr → option T.
Variable lt : T → T → bool.
Hypothesis Hlt : strict_total lt.

Lemma ins_length n v t :
  bst value lt t → (∀ x, ¬ holds value t v x) →
  length (inorder (ins value lt n v t)) = S (length (inorder t)).
Proof.
  induction t as [|l IHl a r IHr]; [done|]. cbn [bst inorder ins].
  intros ([va Hva] & Hla & Har & Hbl & Hbr) Hno. rewrite Hva.
  assert (Hnol : ∀ x, ¬ holds value l v x).
  { intros x [Hx Hvx]. apply (Hno x). split; [set_solver|done]. }
  assert (Hnor : ∀ x, ¬ holds value r v x).
  { intros x [Hx Hvx]. apply (Hno x). split; [set_solver|done]. }
  destruct (lt va v) eqn:Hgt; [|destruct (lt v va) eqn:Hlt'].
  - cbn [inorder]. rewrite !length_app. cbn [length]. rewrite IHr by done. lia.
  - cbn [inorder]. rewrite !length_app. cbn [length]. rewrite IHl by done. lia.
  - exfalso. apply (Hno a). split; [set_solver|].
    by rewrite (lt_total _ Hlt _ _ Hgt Hlt') in Hva.
Qed.
End ins_length.

Section dual.
Context {T1 T2 : Type}.
Variable v1 : addr → option T1.
Variable lt1 : T1 → T1 → bool.
Variable v2 : addr → option T2.
Variable lt2 : T2 → T2 → bool.
Hypothesis Hlt1 : strict_total lt1.
Hypothesis Hlt2 : strict_total lt2.

Lemma dual_erase h s1 s2 t1 t2 k1 k2 n1 n2 :
  engine_inv v1 lt1 h s1 t1 k1 → engine_inv v2 lt2 h s2 t2 k2 →
  (∀ a, a ∈ s1 :: inorder t1 → a ∉ s2 :: inorder t2) →
  n1 ∈ inorder t1 → n2 ∈ inorder t2 →
  ∃ h1 h2,
    tree.erase h (Some n1) = Ret (h1, Some n1)
    ∧ tree.erase h1 (Some n2) = Ret (h2, Some n2)
    ∧ engine_inv v1 lt1 h2 s1 (del n1 t1) k1
    ∧ engine_inv v2 lt2 h2 s2 (del n2 t2) k2
    ∧ keeps_parent h h1 n1
    ∧ replaced_by_prev h h1 n1
    ∧ (∀ y, y ∉ s1 :: inorder t1 → y ∉ s2 :: inorder t2 → h2 !! y = h !! y).
Proof.
  intros Hi1 Hi2 Hdisj Hn1 Hn2.
  destruct (erase_spec v1 lt1 Hlt1 h s1 t1 k1 n1 Hi1 Hn1)
    as (h1 & He1 & Hi1' & Hfr1 & Hrp1 & Hkp1).
  assert (Hi2' : engine_inv v2 lt2 h1 s2 t2 k2).
  { eapply engine_inv_ext; [done| |done].
    intros a Ha. apply Hfr1.
    - intros ->. apply (Hdisj s1); [set_solver|done].
    - intros ?. apply (Hdisj a); [set_solver|done]. }
  destruct (erase_spec v2 lt2 Hlt2 h1 s2 t2 k2 n2 Hi2' Hn2)
    as (h2 & He2 & Hi2'' & Hfr2 & Hrp2 & Hkp2).
  exists h1, h2. split_and!; try done.
  - eapply engine_inv_ext; [done| |done].
    intros a Ha.
    assert (Ha' : a ∈ s1 :: inorder t1).
    { apply elem_of_cons in Ha as [?|Ha%del_elem]; set_solver. }
    apply Hfr2.
    + intros Heq. subst a. apply (Hdisj s2); [done|set_solver].
    + intros ?. apply (Hdisj a); [done|set_solver].
  - intros y Hy1 Hy2. rewrite Hfr2, Hfr1; [done|set_solver..].
Qed.

Lemma dual_insert h s1 s2 t1 t2 k1 k2 n1 n2 x1 x2 :
  engine_inv v1 lt1 h s1 t1 k1 → engine_inv v2 lt2 h s2 t2 k2 →
  (∀ a, a ∈ s1 :: inorder t1 → a ∉ s2 :: inorder t2) →
  v1 n1 = Some x1 → v2 n2 = Some x2 →
  (∀ x, ¬ holds v1 t1 x1 x) → (∀ x, ¬ holds v2 t2 x2 x) →
  n1 ∉ s1 :: inorder t1 → n1 ∉ s2 :: inorder t2 →
  n2 ∉ s1 :: inorder t1 → n2 ∉ s2 :: inorder t2 → n1 ≠ n2 →
  k1 ≠ Some n1 → k2 ≠ Some n2 →
  h !! n1 = Some fresh_node → h !! n2 = Some fresh_node →
  ∃ h1 h2,
    tree.insert v1 lt1 h s1 (Some n1) = Ret (h1, Some n1)
    ∧ tree.insert v2 lt2 h1 s2 (Some n2) = Ret (h2, Some n2)
    ∧ engine_inv v1 lt1 h2 s1 (ins v1 lt1 n1 x1 t1) k1
    ∧ engine_inv v2 lt2 h2 s2 (ins v2 lt2 n2 x2 t2) k2
    ∧ (∀ y, y ∉ s1 :: inorder t1 → y ∉ s2 :: inorder t2 →
            y ≠ n1 → y ≠ n2 → h2 !! y = h !! y).
Proof.
  intros Hi1 Hi2 Hdisj Hv1 Hv2 Hno1 Hno2 Hn11 Hn12 Hn21 Hn22 Hne Hk1 Hk2 Hf1 Hf2.
  destruct (insert_spec v1 lt1 Hlt1 h s1 t1 k1 n1 fresh_node x1)
    as (h1 & He1 & Hi1' & Hl1 & Hfr1); try done; [set_solver|].
  assert (Hi2' : engine_inv v2 lt2 h1 s2 t2 k2).
  { eapply engine_inv_ext; [done| |done].
    intros a Ha. apply Hfr1.
    - intros ?. apply (Hdisj a); [set_solver|done].
    - intros ->. done.
    - intros ->. apply (Hdisj s1); [set_solver|done]. }
  destruct (insert_spec v2 lt2 Hlt2 h1 s2 t2 k2 n2 fresh_node x2)
    as (h2 & He2 & Hi2'' & Hl2 & Hfr2); try done; [set_solver| |].
  { rewrite Hfr1; [done|set_solver..]. }
  exists h1, h2. split_and!; try done.
  - pose proof Hi1 as (_ & _ & Hb1 & _).
    eapply engine_inv_ext; [done| |done].
    intros a Ha.
    assert (Ha' : a = n1 ∨ a ∈ s1 :: inorder t1).
    { apply elem_of_cons in Ha as [?|Ha]; [set_solver|].
      apply (ins_elem v1 lt1 Hlt1 n1 x1 t1 a Hb1 Hno1) in Ha. set_solver. }
    apply Hfr2.
    + intros ?. destruct Ha' as [Heq|Ha']; [subst a; set_solver|].
      apply (Hdisj a); [done|set_solver].
    + intros Heq. subst a. destruct Ha' as [?|Ha']; done.
    + intros Heq. subst a. destruct Ha' as [Heq|Ha']; [subst; set_solver|].
      apply (Hdisj s2); [done|set_solver].
  - intros y Hy1 Hy2 ? ?. rewrite Hfr2, Hfr1; [done|set_solver..].
Qed.
End dual.

(** ** The invariant of a bimap *)

Section store_facts.
Context {L R : Type}.
Implicit Types (w : world L R) (o : bimap_obj L R).

Lemma value_left_Some w a l :
  bimap.value_left w a = Some l →
  ∃ i r, a = Sub i SLeft ∧ values w !! i = Some (l, r).
Proof.
  destruct a as [|i []]; try done. cbn.
  destruct (values w !! i) as [[l' r]|] eqn:Hi; [|done].
  intros [= <-]. by exists i, r.
Qed.

Lemma value_right_Some w a r :
  bimap.value_right w a = Some r →
  ∃ i l, a = Sub i SRight ∧ values w !! i = Some (l, r).
Proof.
  destruct a as [|i []]; try done. cbn.
  destruct (values w !! i) as [[l r']|] eqn:Hi; [|done].
  intros [= <-]. by exists i, l.
Qed.

Lemma store_left_elem w b o tl tr a :
  store_inv w b o tl tr → a ∈ inorder tl →
  ∃ i l r, a = Sub i SLeft ∧ values w !! i = Some (l, r) ∧ i < next_record w.
Proof.
  intros (_ & _ & _ & (_ & _ & Hb & _) & _ & _ & _ & Hfr) Ha.
  destruct (bst_values _ _ _ _ Hb Ha) as [l Hl].
  destruct (value_left_Some _ _ _ Hl) as (i & r & -> & Hi).
  exists i, l, r. split_and!; [done..|by apply Hfr].
Qed.

Lemma store_right_elem w b o tl tr a :
  store_inv w b o tl tr → a ∈ inorder tr →
  ∃ i l r, a = Sub i SRight ∧ values w !! i = Some (l, r) ∧ i < next_record w.
Proof.
  intros (_ & _ & _ & _ & (_ & _ & Hb & _) & Hpair & _ & Hfr) Ha.
  destruct (bst_values _ _ _ _ Hb Ha) as [r Hr].
  destruct (value_right_Some _ _ _ Hr) as (i & l & -> & Hi).
  exists i, l, r. split_and!; [done..|by apply Hfr, Hpair].
Qed.

Lemma store_disjoint w b o tl tr a :
  store_inv w b o tl tr →
  a ∈ Sentinel b SLeft :: inorder tl → a ∉ Sentinel b SRight :: inorder tr.
Proof.
  intros Hinv [->|Ha]%elem_of_cons [Heq|Ha']%elem_of_cons; try done.
  - by destruct (store_right_elem _ _ _ _ _ _ Hinv Ha') as (? & ? & ? & ? & _).
  - subst. by destruct (store_left_elem _ _ _ _ _ _ Hinv Ha) as (? & ? & ? & ? & _).
  - destruct (store_left_elem _ _ _ _ _ _ Hinv Ha) as (? & ? & ? & -> & _).
    by destruct (store_right_elem _ _ _ _ _ _ Hinv Ha') as (? & ? & ? & ? & _).
Qed.

Lemma store_lengths w b o tl tr :
  store_inv w b o tl tr → length (inorder tr) = length (inorder tl).
Proof.
  intros Hinv. pose proof Hinv as (_ & Hl & Hr & (_ & _ & Hbl & _) & (_ & _ & Hbr & _)
                                    & Hpair & _).
  set (f := λ a, match a with Sub i _ => Sub i SRight | _ => a end).
  rewrite <-(length_fmap f (inorder tl)).
  apply Permutation_length, NoDup_Permutation.
  - exact (bst_NoDup _ _ Hr _ Hbr).
  - apply NoDup_fmap_2_strong; [|exact (bst_NoDup _ _ Hl _ Hbl)].
    intros x y Hx Hy.
    destruct (store_left_elem _ _ _ _ _ _ Hinv Hx) as (? & ? & ? & -> & _).
    destruct (store_left_elem _ _ _ _ _ _ Hinv Hy) as (? & ? & ? & -> & _).
    cbn. by intros [= ->].
  - intros a. rewrite list_elem_of_fmap. split.
    + intros Ha.
      destruct (store_right_elem _ _ _ _ _ _ Hinv Ha) as (i & ? & ? & -> & _).
      exists (Sub i SLeft). split; [done|]. by apply Hpair.
    + intros (x & -> & Hx).
      destruct (store_left_elem _ _ _ _ _ _ Hinv Hx) as (i & ? & ? & -> & _).
      cbn. by apply Hpair.
Qed.

(** A bimap is not affected by what happens outside its footprint. *)
Lemma store_inv_frame w w' b o tl tr :
  store_inv w b o tl tr →
  objs w' !! b = Some o →
  (∀ a, a ∈ footprint b tl tr → links w' !! a = links w !! a) →
  (∀ i, Sub i SLeft ∈ inorder tl → values w' !! i = values w !! i) →
  next_record w ≤ next_record w' →
  store_inv w' b o tl tr.
Proof.
  intros Hinv Ho Hlinks Hvals Hnext.
  pose proof Hinv as (_ & Hl & Hr & Hel & Her & Hpair & Hsz & Hfr).
  unfold footprint in Hlinks.
  split_and!; try done.
  - eapply engine_inv_ext; [done|..].
    + intros a Ha. apply Hlinks. set_solver.
    + intros a [->|Ha]%elem_of_cons; [done|].
      destruct (store_left_elem _ _ _ _ _ _ Hinv Ha) as (i & ? & ? & -> & _).
      cbn. by rewrite Hvals.
  - eapply engine_inv_ext; [done|..].
    + intros a Ha. apply Hlinks. set_solver.
    + intros a [->|Ha]%elem_of_cons; [done|].
      destruct (store_right_elem _ _ _ _ _ _ Hinv Ha) as (i & ? & ? & -> & _).
      cbn. rewrite Hvals; [done|]. by apply Hpair.
  - intros i Hi. specialize (Hfr i Hi). lia.
Qed.

(** *** Lookup *)

Lemma find_left_found w b o tl tr k x :
  store_inv w b o tl tr → holds (bimap.value_left w) tl k x →
  bimap.find_left w b k = Ret (Some x).
Proof.
  intros (Ho & Hl & _ & Hel & _) Hx. unfold bimap.find_left, bimap.obj.
  rewrite Ho. osimpl. by eapply find_found.
Qed.

Lemma find_left_missing w b o tl tr k :
  store_inv w b o tl tr → (∀ x, ¬ holds (bimap.value_left w) tl k x) →
  bimap.find_left w b k = Ret (bimap.end_left b).
Proof.
  intros (Ho & Hl & _ & Hel & _) Hx. unfold bimap.find_left, bimap.obj.
  rewrite Ho. osimpl. by eapply find_missing.
Qed.

Lemma find_right_found w b o tl tr k x :
  store_inv w b o tl tr → holds (bimap.value_right w) tr k x →
  bimap.find_right w b k = Ret (Some x).
Proof.
  intros (Ho & _ & Hr & _ & Her & _) Hx. unfold bimap.find_right, bimap.obj.
  rewrite Ho. osimpl. by eapply find_found.
Qed.

Lemma find_right_missing w b o tl tr k :
  store_inv w b o tl tr → (∀ x, ¬ holds (bimap.value_right w) tr k x) →
  bimap.find_right w b k = Ret (bimap.end_right b).
Proof.
  intros (Ho & _ & Hr & _ & Her & _) Hx. unfold bimap.find_right, bimap.obj.
  rewrite Ho. osimpl. by eapply find_missing.
Qed.
End store_facts.

(** ** [bimap::insert] *)

Section store_insert.
Context {L R : Type}.
Implicit Types (w : world L R) (o : bimap_obj L R).

Lemma insert_dup_left w b o tl tr l r x :
  store_inv w b o tl tr → holds (bimap.value_left w) tl l x →
  bimap.insert w b l r = Ret (w, bimap.end_left b).
Proof.
  intros Hinv Hx. unfold bimap.insert, bimap.base_insert.
  rewrite (find_left_found _ _ _ _ _ _ _ Hinv Hx). osimpl.
  destruct Hx as [Hx Hvx].
  destruct (store_left_elem _ _ _ _ _ _ Hinv Hx) as (i & ? & ? & -> & _).
  by rewrite bool_decide_false.
Qed.

Lemma insert_dup_right w b o tl tr l r x :
  store_inv w b o tl tr →
  (∀ y, ¬ holds (bimap.value_left w) tl l y) →
  holds (bimap.value_right w) tr r x →
  bimap.insert w b l r = Ret (w, bimap.end_left b).
Proof.
  intros Hinv Hno Hx. unfold bimap.insert, bimap.base_insert.
  rewrite (find_left_missing _ _ _ _ _ _ Hinv Hno). osimpl.
  rewrite bool_decide_true by done. cbn [negb].
  rewrite (find_right_found _ _ _ _ _ _ _ Hinv Hx). osimpl.
  destruct Hx as [Hx Hvx].
  destruct (store_right_elem _ _ _ _ _ _ Hinv Hx) as (i & ? & ? & -> & _).
  by rewrite bool_decide_false.
Qed.

Lemma insert_fresh w b o tl tr l r :
  store_inv w b o tl tr →
  (∀ x, ¬ holds (bimap.value_left w) tl l x) →
  (∀ x, ¬ holds (bimap.value_right w) tr r x) →
  ∃ w' tl' tr',
    let i := next_record w in
    let o' := BimapObj (S (m_size o)) (cmp_left o) (cmp_right o) in
    bimap.insert w b l r = Ret (w', Some (Sub i SLeft))
    ∧ store_inv w' b o' tl' tr'
    ∧ values w' = <[i := (l, r)]> (values w)
    ∧ objs w' = <[b := o']> (objs w)
    ∧ next_record w' = S i ∧ next_obj w' = next_obj w
    ∧ (∀ a, a ∈ inorder tl' ↔ a = Sub i SLeft ∨ a ∈ inorder tl)
    ∧ (∀ a, a ∈ inorder tr' ↔ a = Sub i SRight ∨ a ∈ inorder tr)
    ∧ (∀ y, y ∉ footprint b tl tr → y ≠ Sub i SLeft → y ≠ Sub i SRight →
            links w' !! y = links w !! y).
Proof.
  intros Hinv Hnol Hnor. unfold bimap.insert, bimap.base_insert.
  rewrite (find_left_missing _ _ _ _ _ _ Hinv Hnol). osimpl.
  rewrite bool_decide_true by done. cbn [negb].
  rewrite (find_right_missing _ _ _ _ _ _ Hinv Hnor). osimpl.
  rewrite bool_decide_true by done. cbn [negb].
  pose proof Hinv as (Ho & Hl & Hr & Hel & Her & Hpair & Hsz & Hfr).
  set (i := next_record w).
  cbn [bimap.new_node]. fold i.
  set (w1 := World _ _ _ _ _).
  assert (Hfl : ∀ a, a ∈ Sentinel b SLeft :: inorder tl →
            a ≠ Sub i SLeft ∧ a ≠ Sub i SRight).
  { intros a [->|Ha]%elem_of_cons; [done|].
    destruct (store_left_elem _ _ _ _ _ _ Hinv Ha) as (j & ? & ? & -> & Hj).
    split; [|done]. intros [= ->]. unfold i in Hj. lia. }
  assert (Hfr' : ∀ a, a ∈ Sentinel b SRight :: inorder tr →
            a ≠ Sub i SLeft ∧ a ≠ Sub i SRight).
  { intros a [->|Ha]%elem_of_cons; [done|].
    destruct (store_right_elem _ _ _ _ _ _ Hinv Ha) as (j & ? & ? & -> & Hj).
    split; [done|]. intros [= ->]. unfold i in Hj. lia. }
  assert (Hvl : ∀ a, a ∈ Sentinel b SLeft :: inorder tl →
            bimap.value_left w1 a = bimap.value_left w a).
  { intros a Ha. destruct (Hfl a Ha) as [Hne _].
    destruct a as [|j []]; try done. cbn.
    rewrite lookup_insert_ne; [done|]. by intros ->. }
  assert (Hvr : ∀ a, a ∈ Sentinel b SRight :: inorder tr →
            bimap.value_right w1 a = bimap.value_right w a).
  { intros a Ha. destruct (Hfr' a Ha) as [_ Hne].
    destruct a as [|j []]; try done. cbn.
    rewrite lookup_insert_ne; [done|]. by intros ->. }
  assert (Hel1 : engine_inv (bimap.value_left w1) (cmp_left o) (links w1)
            (Sentinel b SLeft) tl (Some (Sentinel b SRight))).
  { eapply engine_inv_ext; [done| |done].
    intros a Ha. destruct (Hfl a Ha). cbn. by rewrite !lookup_insert_ne. }
  assert (Her1 : engine_inv (bimap.value_right w1) (cmp_right o) (links w1)
            (Sentinel b SRight) tr (Some (Sentinel b SLeft))).
  { eapply engine_inv_ext; [done| |done].
    intros a Ha. destruct (Hfr' a Ha). cbn. by rewrite !lookup_insert_ne. }
  destruct (dual_insert (bimap.value_left w1) (cmp_left o)
              (bimap.value_right w1) (cmp_right o) Hl Hr (links w1)
              (Sentinel b SLeft) (Sentinel b SRight) tl tr
              (Some (Sentinel b SRight)) (Some (Sentinel b SLeft))
              (Sub i SLeft) (Sub i SRight) l r)
    as (h2 & h3 & Hi1 & Hi2 & Hel3 & Her3 & Hframe); try done.
  { intros a Ha. by eapply store_disjoint. }
  { cbn. by rewrite lookup_insert_eq. }
  { cbn. by rewrite lookup_insert_eq. }
  { intros x Hx. apply (Hnol x).
    apply (holds_ext (bimap.value_left w) (bimap.value_left w1)); [|done].
    intros a Ha. apply Hvl. set_solver. }
  { intros x Hx. apply (Hnor x).
    apply (holds_ext (bimap.value_right w) (bimap.value_right w1)); [|done].
    intros a Ha. apply Hvr. set_solver. }
  { intros Ha. by destruct (Hfl _ Ha). }
  { intros Ha. by destruct (Hfr' _ Ha). }
  { intros Ha. by destruct (Hfl _ Ha). }
  { intros Ha. by destruct (Hfr' _ Ha). }
  { cbn. by rewrite lookup_insert_ne, lookup_insert_eq. }
  { cbn. by rewrite lookup_insert_eq. }
  unfold bimap.obj. change (objs w1) with (objs w). rewrite Ho. osimpl.
  rewrite Hi1. osimpl. rewrite Hi2. osimpl.
  cbn [bimap.with_links objs]. change (objs w1) with (objs w). rewrite Ho. osimpl.
  pose proof Hel as (_ & _ & Hbl & _). pose proof Her as (_ & _ & Hbr & _).
  pose proof Hel1 as (_ & _ & Hbl1 & _). pose proof Her1 as (_ & _ & Hbr1 & _).
  assert (Hnol1 : ∀ x, ¬ holds (bimap.value_left w1) tl l x).
  { intros x Hx. apply (Hnol x).
    apply (holds_ext (bimap.value_left w) (bimap.value_left w1)); [|done].
    intros a Ha. apply Hvl. set_solver. }
  assert (Hnor1 : ∀ x, ¬ holds (bimap.value_right w1) tr r x).
  { intros x Hx. apply (Hnor x).
    apply (holds_ext (bimap.value_right w) (bimap.value_right w1)); [|done].
    intros a Ha. apply Hvr. set_solver. }
  eexists _, _, _. split; [reflexivity|].
  split; [|split_and!; try done].
  - split_and!; cbn [bimap.with_obj objs links values next_record cmp_left
                      cmp_right m_size w1 bimap.with_links]; try done.
    + by rewrite lookup_insert_eq.
    + intros j. rewrite (ins_elem _ _ Hl _ _ _ _ Hbl1 Hnol1).
      rewrite (ins_elem _ _ Hr _ _ _ _ Hbr1 Hnor1).
      rewrite <-Hpair. split; (intros [[= ->]|?]; [by left|by right]).
    + rewrite (ins_length _ _ Hl _ _ _ Hbl1 Hnol1). by rewrite Hsz.
    + intros j. rewrite (ins_elem _ _ Hl _ _ _ _ Hbl1 Hnol1).
      intros [[= ->]|Hj]; [lia|]. specialize (Hfr j Hj). fold i in Hfr. lia.
  - intros a. apply (ins_elem _ _ Hl _ _ _ _ Hbl1 Hnol1).
  - intros a. apply (ins_elem _ _ Hr _ _ _ _ Hbr1 Hnor1).
  - intros y Hy ? ?. cbn [bimap.with_obj links bimap.with_links].
    unfold footprint in Hy. rewrite Hframe; [|set_solver..].
    cbn. by rewrite !lookup_insert_ne.
Qed.
End store_insert.

(** ** [bimap::erase_left], [bimap::erase_right] *)

Lemma repr_parent h par t a :
  repr h par t → a ∈ inorder t →
  ∃ na p, h !! a = Some na ∧ parent na = Some p.
Proof.
  revert par. induction t as [|l IHl x r IHr]; intros par;
    [by intros _ ?%elem_of_nil|].
  cbn [repr inorder]. intros (Hx & Hl & Hr) Hin.
  apply elem_of_app in Hin as [Hin|[->|Hin]%elem_of_cons].
  - by eapply IHl.
  - by eexists _, _.
  - by eapply IHr.
Qed.

Lemma del_elem_iff n t y :
  NoDup (inorder t) → y ∈ inorder (del n t) ↔ y ∈ inorder t ∧ y ≠ n.
Proof. intros Hnd. rewrite del_inorder by done. apply without_elem. Qed.

Lemma del_length n t :
  NoDup (inorder t) → n ∈ inorder t →
  length (inorder (del n t)) = pred (length (inorder t)).
Proof.
  intros Hnd Hn. rewrite del_inorder by done.
  rewrite <-(without_length n (inorder t)) by done. done.
Qed.

Lemma size_pred_linked {A} n (l : list A) x :
  n = length l → x ∈ l → size_pred n = pred n.
Proof. intros -> Hx. destruct l; [by apply elem_of_nil in Hx|done]. Qed.

Section store_erase.
Context {L R : Type}.
Implicit Types (w : world L R) (o : bimap_obj L R).

Lemma erase_left_spec w b o tl tr i :
  store_inv w b o tl tr → Sub i SLeft ∈ inorder tl →
  ∃ w',
    let o' := BimapObj (pred (m_size o)) (cmp_left o) (cmp_right o) in
    bimap.erase_left w b (Some (Sub i SLeft))
    = Ret (w', Some (succ_in (inorder tl) (Sub i SLeft) (Sentinel b SLeft)))
    ∧ store_inv w' b o' (del (Sub i SLeft) tl) (del (Sub i SRight) tr)
    ∧ values w' = delete i (values w)
    ∧ objs w' = <[b := o']> (objs w)
    ∧ next_record w' = next_record w ∧ next_obj w' = next_obj w
    ∧ (∀ y, y ∉ footprint b tl tr → links w' !! y = links w !! y).
Proof.
  intros Hinv Hin.
  pose proof Hinv as (Ho & Hl & Hr & Hel & Her & Hpair & Hsz & Hfr).
  pose proof Hel as (_ & Hrepl & Hbl & _). pose proof Her as (_ & _ & Hbr & _).
  pose proof (bst_NoDup _ _ Hl _ Hbl) as Hndl.
  pose proof (bst_NoDup _ _ Hr _ Hbr) as Hndr.
  assert (Hin' : Sub i SRight ∈ inorder tr) by by apply Hpair.
  unfold bimap.erase_left, bimap.end_left, tree.end_, tree.get_sentinel_ptr.
  rewrite !bool_decide_false by done. cbn [orb].
  unfold bimap.incr. rewrite (next_spec _ _ Hl _ _ _ _ _ Hel Hin). osimpl.
  destruct (dual_erase (bimap.value_left w) (cmp_left o)
              (bimap.value_right w) (cmp_right o) Hl Hr (links w)
              (Sentinel b SLeft) (Sentinel b SRight) tl tr
              (Some (Sentinel b SRight)) (Some (Sentinel b SLeft))
              (Sub i SLeft) (Sub i SRight))
    as (h1 & h2 & He1 & He2 & Hel2 & Her2 & Hkp & _ & Hframe); try done.
  { intros a Ha. by eapply store_disjoint. }
  rewrite He1. osimpl.
  destruct (repr_parent _ _ _ _ Hrepl Hin) as (nn & p & Hnn & Hp).
  destruct (Hkp nn Hnn) as (nn' & Hnn' & Hp').
  unfold bimap.flip. cbn [bimap.with_links links].
  rewrite (load_Some _ _ _ Hnn'). osimpl. rewrite Hp', Hp.
  cbn [bimap.cross_cast other]. rewrite decide_True by done. osimpl.
  rewrite He2. osimpl.
  destruct (store_left_elem _ _ _ _ _ _ Hinv Hin) as (i' & l & r & [= <-] & Hi & _).
  unfold bimap.delete_node. rewrite decide_True by done.
  cbn [bimap.with_links values]. rewrite Hi. osimpl.
  unfold bimap.decr_size, bimap.obj. cbn [objs bimap.with_links]. rewrite Ho. osimpl.
  rewrite (size_pred_linked (m_size o) (inorder tl) (Sub i SLeft)) by done.
  eexists. split; [reflexivity|].
  split; [|split_and!; try done].
  - assert (Hsl : ∀ a, a ∈ Sentinel b SLeft :: inorder (del (Sub i SLeft) tl) →
              a ≠ Sub i SLeft ∧ a ≠ Sub i SRight
              ∧ ∀ j, a = Sub j SLeft → j ≠ i).
    { intros a [->|Ha]%elem_of_cons; [done|].
      apply del_elem_iff in Ha as [Ha Hne]; [|done].
      destruct (store_left_elem _ _ _ _ _ _ Hinv Ha) as (j & ? & ? & -> & _).
      split_and!; [done..|]. intros ? [= <-] ->. done. }
    assert (Hsr : ∀ a, a ∈ Sentinel b SRight :: inorder (del (Sub i SRight) tr) →
              a ≠ Sub i SLeft ∧ a ≠ Sub i SRight
              ∧ ∀ j, a = Sub j SRight → j ≠ i).
    { intros a [->|Ha]%elem_of_cons; [done|].
      apply del_elem_iff in Ha as [Ha Hne]; [|done].
      destruct (store_right_elem _ _ _ _ _ _ Hinv Ha) as (j & ? & ? & -> & _).
      split_and!; [done..|]. intros ? [= <-] ->. done. }
    split_and!; cbn [bimap.with_obj objs links values next_record cmp_left
                      cmp_right m_size bimap.with_links]; try done.
    + by rewrite lookup_insert_eq.
    + eapply engine_inv_ext; [done|..].
      * intros a Ha. destruct (Hsl a Ha) as (? & ? & _).
        by rewrite !lookup_delete_ne.
      * intros a Ha. destruct (Hsl a Ha) as (_ & _ & Hj).
        destruct a as [|j []]; try done. cbn.
        rewrite lookup_delete_ne; [done|]. intros <-. by apply (Hj i).
    + eapply engine_inv_ext; [done|..].
      * intros a Ha. destruct (Hsr a Ha) as (? & ? & _).
        by rewrite !lookup_delete_ne.
      * intros a Ha. destruct (Hsr a Ha) as (_ & _ & Hj).
        destruct a as [|j []]; try done. cbn.
        rewrite lookup_delete_ne; [done|]. intros <-. by apply (Hj i).
    + intros j. rewrite !del_elem_iff by done. rewrite Hpair.
      split; intros [? Hne]; (split; [done|]); intros [= ->]; done.
    + rewrite del_length by done. by rewrite Hsz.
    + intros j [Hj _]%del_elem_iff; [|done]. by apply Hfr.
  - intros y Hy. cbn [bimap.with_obj links bimap.with_links].
    unfold footprint in Hy.
    rewrite !lookup_delete_ne by set_solver.
    apply Hframe; set_solver.
Qed.

Lemma erase_right_spec w b o tl tr i :
  store_inv w b o tl tr → Sub i SRight ∈ inorder tr →
  ∃ w',
    let o' := BimapObj (pred (m_size o)) (cmp_left o) (cmp_right o) in
    bimap.erase_right w b (Some (Sub i SRight))
    = Ret (w', Some (succ_in (inorder tr) (Sub i SRight) (Sentinel b SRight)))
    ∧ store_inv w' b o' (del (Sub i SLeft) tl) (del (Sub i SRight) tr)
    ∧ values w' = delete i (values w)
    ∧ objs w' = <[b := o']> (objs w)
    ∧ next_record w' = next_record w ∧ next_obj w' = next_obj w
    ∧ (∀ y, y ∉ footprint b tl tr → links w' !! y = links w !! y).
Proof.
  intros Hinv Hin.
  pose proof Hinv as (Ho & Hl & Hr & Hel & Her & Hpair & Hsz & Hfr).
  pose proof Hel as (_ & _ & Hbl & _). pose proof Her as (_ & Hrepr & Hbr & _).
  pose proof (bst_NoDup _ _ Hl _ Hbl) as Hndl.
  pose proof (bst_NoDup _ _ Hr _ Hbr) as Hndr.
  assert (Hin' : Sub i SLeft ∈ inorder tl) by by apply Hpair.
  unfold bimap.erase_right, bimap.end_right, tree.end_, tree.get_sentinel_ptr.
  rewrite !bool_decide_false by done. cbn [orb].
  unfold bimap.incr. rewrite (next_spec _ _ Hr _ _ _ _ _ Her Hin). osimpl.
  destruct (dual_erase (bimap.value_right w) (cmp_right o)
              (bimap.value_left w) (cmp_left o) Hr Hl (links w)
              (Sentinel b SRight) (Sentinel b SLeft) tr tl
              (Some (Sentinel b SLeft)) (Some (Sentinel b SRight))
              (Sub i SRight) (Sub i SLeft))
    as (h1 & h2 & He1 & He2 & Her2 & Hel2 & Hkp & _ & Hframe); try done.
  { intros a Ha Ha'. by eapply store_disjoint. }
  rewrite He1. osimpl.
  destruct (repr_parent _ _ _ _ Hrepr Hin) as (nn & p & Hnn & Hp).
  destruct (Hkp nn Hnn) as (nn' & Hnn' & Hp').
  unfold bimap.flip. cbn [bimap.with_links links].
  rewrite (load_Some _ _ _ Hnn'). osimpl. rewrite Hp', Hp.
  cbn [bimap.cross_cast other]. rewrite decide_True by done. osimpl.
  rewrite He2. osimpl.
  destruct (store_right_elem _ _ _ _ _ _ Hinv Hin) as (i' & l & r & [= <-] & Hi & _).
  unfold bimap.delete_node. rewrite decide_True by done.
  cbn [bimap.with_links values]. rewrite Hi. osimpl.
  unfold bimap.decr_size, bimap.obj. cbn [objs bimap.with_links]. rewrite Ho. osimpl.
  rewrite (size_pred_linked (m_size o) (inorder tl) (Sub i SLeft)) by done.
  eexists. split; [reflexivity|].
  split; [|split_and!; try done].
  - assert (Hsl : ∀ a, a ∈ Sentinel b SLeft :: inorder (del (Sub i SLeft) tl) →
              a ≠ Sub i SLeft ∧ a ≠ Sub i SRight
              ∧ ∀ j, a = Sub j SLeft → j ≠ i).
    { intros a [->|Ha]%elem_of_cons; [done|].
      apply del_elem_iff in Ha as [Ha Hne]; [|done].
      destruct (store_left_elem _ _ _ _ _ _ Hinv Ha) as (j & ? & ? & -> & _).
      split_and!; [done..|]. intros ? [= <-] ->. done. }
    assert (Hsr : ∀ a, a ∈ Sentinel b SRight :: inorder (del (Sub i SRight) tr) →
              a ≠ Sub i SLeft ∧ a ≠ Sub i SRight
              ∧ ∀ j, a = Sub j SRight → j ≠ i).
    { intros a [->|Ha]%elem_of_cons; [done|].
      apply del_elem_iff in Ha as [Ha Hne]; [|done].
      destruct (store_right_elem _ _ _ _ _ _ Hinv Ha) as (j & ? & ? & -> & _).
      split_and!; [done..|]. intros ? [= <-] ->. done. }
    split_and!; cbn [bimap.with_obj objs links values next_record cmp_left
                      cmp_right m_size bimap.with_links]; try done.
    + by rewrite lookup_insert_eq.
    + eapply engine_inv_ext; [done|..].
      * intros a Ha. destruct (Hsl a Ha) as (? & ? & _).
        by rewrite !lookup_delete_ne.
      * intros a Ha. destruct (Hsl a Ha) as (_ & _ & Hj).
        destruct a as [|j []]; try done. cbn.
        rewrite lookup_delete_ne; [done|]. intros <-. by apply (Hj i).
    + eapply engine_inv_ext; [done|..].
      * intros a Ha. destruct (Hsr a Ha) as (? & ? & _).
        by rewrite !lookup_delete_ne.
      * intros a Ha. destruct (Hsr a Ha) as (_ & _ & Hj).
        destruct a as [|j []]; try done. cbn.
        rewrite lookup_delete_ne; [done|]. intros <-. by apply (Hj i).
    + intros j. rewrite !del_elem_iff by done. rewrite Hpair.
      split; intros [? Hne]; (split; [done|]); intros [= ->]; done.
    + rewrite del_length by done. by rewrite Hsz.
    + intros j [Hj _]%del_elem_iff; [|done]. by apply Hfr.
  - intros y Hy. cbn [bimap.with_obj links bimap.with_links].
    unfold footprint in Hy.
    rewrite !lookup_delete_ne by set_solver.
    apply Hframe; set_solver.
Qed.

(** [erase] of the end position or of a null iterator changes nothing. *)
Lemma erase_left_end w b : bimap.erase_left w b (bimap.end_left b) = Ret (w, None).
Proof. unfold bimap.erase_left. by rewrite bool_decide_true. Qed.

Lemma erase_left_null w b : bimap.erase_left w b None = Ret (w, None).
Proof. done. Qed.

Lemma erase_right_end w b : bimap.erase_right w b (bimap.end_right b) = Ret (w, None).
Proof. unfold bimap.erase_right. by rewrite bool_decide_true. Qed.

Lemma erase_right_null w b : bimap.erase_right w b None = Ret (w, None).
Proof. done. Qed.
End store_erase.

(** ** The invariant of a memory with several bimaps *)

Section world_facts.
Context {L R : Type}.
Implicit Types (w : world L R) (o : bimap_obj L R).

Lemma footprint_apart w b b' o o' tl tr tl' tr' a :
  store_inv w b o tl tr → store_inv w b' o' tl' tr' → b ≠ b' →
  (∀ x, x ∈ inorder tl → x ∈ inorder tl' → False) →
  a ∈ footprint b' tl' tr' → a ∉ footprint b tl tr.
Proof.
  intros Hinv Hinv' Hne Hdisj. unfold footprint.
  pose proof Hinv as (_ & _ & _ & _ & _ & Hpair & _).
  pose proof Hinv' as (_ & _ & _ & _ & _ & Hpair' & _).
  assert (Hl : ∀ x, x ∈ inorder tl → ∃ i, x = Sub i SLeft).
  { intros x Hx. destruct (store_left_elem _ _ _ _ _ _ Hinv Hx) as (i & ? & ? & ? & _).
    by exists i. }
  assert (Hr : ∀ x, x ∈ inorder tr → ∃ i, x = Sub i SRight).
  { intros x Hx. destruct (store_right_elem _ _ _ _ _ _ Hinv Hx) as (i & ? & ? & ? & _).
    by exists i. }
  assert (Hl' : ∀ x, x ∈ inorder tl' → ∃ i, x = Sub i SLeft).
  { intros x Hx. destruct (store_left_elem _ _ _ _ _ _ Hinv' Hx) as (i & ? & ? & ? & _).
    by exists i. }
  assert (Hr' : ∀ x, x ∈ inorder tr' → ∃ i, x = Sub i SRight).
  { intros x Hx. destruct (store_right_elem _ _ _ _ _ _ Hinv' Hx) as (i & ? & ? & ? & _).
    by exists i. }
  rewrite !elem_of_cons, !elem_of_app.
  intros [->|[->|[Ha|Ha]]] [Hb|[Hb|[Hb|Hb]]];
    try congruence;
    try (destruct (Hl _ Hb) as [? ?]; congruence);
    try (destruct (Hr _ Hb) as [? ?]; congruence);
    try (destruct (Hl' _ Ha) as [? ?]; congruence);
    try (destruct (Hr' _ Ha) as [? ?]; congruence).
  - exact (Hdisj a Hb Ha).
  - destruct (Hl' _ Ha) as [? ->]. destruct (Hr _ Hb) as [? ?]. congruence.
  - destruct (Hr' _ Ha) as [? ->]. destruct (Hl _ Hb) as [? ?]. congruence.
  - destruct (Hr' _ Ha) as [i ->].
    apply (Hdisj (Sub i SLeft)); [by apply Hpair|by apply Hpair'].
Qed.

Lemma footprint_old w b o tl tr a i s :
  store_inv w b o tl tr → a ∈ footprint b tl tr → a = Sub i s →
  i < next_record w.
Proof.
  intros Hinv. unfold footprint. rewrite !elem_of_cons, elem_of_app.
  intros [->|[->|[Ha|Ha]]] Heq; try done.
  - destruct (store_left_elem _ _ _ _ _ _ Hinv Ha) as (? & ? & ? & ? & ? & ?).
    by simplify_eq.
  - destruct (store_right_elem _ _ _ _ _ _ Hinv Ha) as (? & ? & ? & ? & ? & ?).
    by simplify_eq.
Qed.

(** An operation on the bimap [b] that stays within the footprint of
    [b] and the records it allocates keeps the invariant of the memory. *)
Lemma world_shapes_update w w' sh b o o' tl' tr' :
  world_shapes w sh →
  objs w !! b = Some o →
  store_inv w' b o' tl' tr' →
  objs w' = <[b := o']> (objs w) →
  (∀ a, a ∈ inorder tl' →
     a ∈ inorder (sh b).1 ∨ ∃ i, a = Sub i SLeft ∧ next_record w ≤ i) →
  (∀ y, y ∉ footprint b (sh b).1 (sh b).2 →
     (∀ i s, y = Sub i s → i < next_record w) →
     links w' !! y = links w !! y) →
  (∀ i, i < next_record w → Sub i SLeft ∉ inorder (sh b).1 →
     values w' !! i = values w !! i) →
  next_record w ≤ next_record w' → next_obj w = next_obj w' →
  world_shapes w' (<[b := (tl', tr')]> sh).
Proof.
  intros (Hall & Hdisj) Ho Hinv' Hobjs Hsub Hlinks Hvals Hnr Hno.
  destruct (Hall b o Ho) as [Hinv Hb].
  assert (Hother : ∀ b' o'', b' ≠ b → objs w !! b' = Some o'' →
            store_inv w' b' o'' (sh b').1 (sh b').2).
  { intros b' o'' Hne Ho''. destruct (Hall b' o'' Ho'') as [Hinv'' _].
    assert (Hd : ∀ x, x ∈ inorder (sh b).1 → x ∈ inorder (sh b').1 → False).
    { intros x Hx Hx'. apply Hne. symmetry. by eapply (Hdisj b b' x). }
    eapply store_inv_frame; [done| | | |done].
    - by rewrite Hobjs, lookup_insert_ne.
    - intros a Ha. apply Hlinks.
      + by eapply footprint_apart.
      + intros i s Heq. by eapply footprint_old.
    - intros i Hi. apply Hvals.
      + by destruct (store_left_elem _ _ _ _ _ _ Hinv'' Hi)
          as (? & ? & ? & [= <-] & _ & ?).
      + intros Hi'. by apply (Hd _ Hi' Hi). }
  split.
  - intros b' o'' Ho''. rewrite Hobjs in Ho''.
    destruct (decide (b' = b)) as [->|Hne].
    + rewrite lookup_insert_eq in Ho''. injection Ho'' as <-.
      rewrite fn_lookup_insert. cbn. split; [done|lia].
    + rewrite lookup_insert_ne in Ho'' by done.
      rewrite fn_lookup_insert_ne by done.
      split; [by apply Hother|]. destruct (Hall b' o'' Ho''). lia.
  - assert (Hcross : ∀ b' a, b' ≠ b → is_Some (objs w !! b') →
              a ∈ inorder tl' → a ∈ inorder (sh b').1 → False).
    { intros b' a Hne Hlive Ha Ha'.
      destruct Hlive as [o'' Ho''].
      destruct (Hsub a Ha) as [Hold|(i & -> & Hi)].
      - apply Hne. symmetry. by eapply (Hdisj b b' a).
      - destruct (Hall b' o'' Ho'') as [Hinv'' _].
        destruct (store_left_elem _ _ _ _ _ _ Hinv'' Ha')
          as (? & ? & ? & [= <-] & _ & ?). lia. }
    intros b1 b2 a Hl1 Hl2. rewrite Hobjs in Hl1, Hl2.
    destruct (decide (b1 = b)) as [->|Hne1];
      destruct (decide (b2 = b)) as [->|Hne2]; [done|..].
    + rewrite fn_lookup_insert, fn_lookup_insert_ne by done. cbn.
      rewrite lookup_insert_ne in Hl2 by done.
      intros Ha Ha'. exfalso. by eapply (Hcross b2 a).
    + rewrite fn_lookup_insert, fn_lookup_insert_ne by done. cbn.
      rewrite lookup_insert_ne in Hl1 by done.
      intros Ha Ha'. exfalso. by eapply (Hcross b1 a).
    + rewrite !fn_lookup_insert_ne by done.
      rewrite lookup_insert_ne in Hl1, Hl2 by done. by apply Hdisj.
Qed.
End world_facts.

(** ** What a bimap holds *)

Section contents_facts.
Context {L R : Type}.
Implicit Types (w : world L R) (o : bimap_obj L R).

Lemma flip_left_node w b o tl tr i :
  store_inv w b o tl tr → Sub i SLeft ∈ inorder tl →
  bimap.flip SLeft w (Some (Sub i SLeft)) = Ret (Some (Sub i SRight)).
Proof.
  intros (_ & _ & _ & (_ & Hrep & _) & _) Hin.
  destruct (repr_parent _ _ _ _ Hrep Hin) as (nn & p & Hnn & Hp).
  unfold bimap.flip. rewrite (load_Some _ _ _ Hnn). osimpl. rewrite Hp.
  cbn. by rewrite decide_True.
Qed.

Lemma flip_right_node w b o tl tr i :
  store_inv w b o tl tr → Sub i SRight ∈ inorder tr →
  bimap.flip SRight w (Some (Sub i SRight)) = Ret (Some (Sub i SLeft)).
Proof.
  intros (_ & _ & _ & _ & (_ & Hrep & _) & _) Hin.
  destruct (repr_parent _ _ _ _ Hrep Hin) as (nn & p & Hnn & Hp).
  unfold bimap.flip. rewrite (load_Some _ _ _ Hnn). osimpl. rewrite Hp.
  cbn. by rewrite decide_True.
Qed.

Lemma flip_end_left w b o tl tr :
  store_inv w b o tl tr →
  bimap.flip SLeft w (bimap.end_left b) = Ret (bimap.end_right b).
Proof.
  intros (_ & _ & _ & (Hs & _) & _).
  unfold bimap.flip, bimap.end_left, tree.end_, tree.get_sentinel_ptr.
  by rewrite (load_Some _ _ _ Hs).
Qed.

Lemma flip_end_right w b o tl tr :
  store_inv w b o tl tr →
  bimap.flip SRight w (bimap.end_right b) = Ret (bimap.end_left b).
Proof.
  intros (_ & _ & _ & _ & (Hs & _) & _).
  unfold bimap.flip, bimap.end_right, tree.end_, tree.get_sentinel_ptr.
  by rewrite (load_Some _ _ _ Hs).
Qed.

Lemma pair_at_left_spec w b o tl tr i p :
  store_inv w b o tl tr → Sub i SLeft ∈ inorder tl →
  values w !! i = Some p →
  pair_at_left w (Sub i SLeft) = Ret p.
Proof.
  intros Hinv Hin Hp. unfold pair_at_left.
  rewrite (flip_left_node _ _ _ _ _ _ Hinv Hin).
  unfold bimap.deref_left, bimap.deref_right. cbn. rewrite Hp. cbn.
  by destruct p.
Qed.

Lemma pair_at_right_spec w b o tl tr i p :
  store_inv w b o tl tr → Sub i SRight ∈ inorder tr →
  values w !! i = Some p →
  pair_at_right w (Sub i SRight) = Ret p.
Proof.
  intros Hinv Hin Hp. unfold pair_at_right.
  rewrite (flip_right_node _ _ _ _ _ _ Hinv Hin).
  unfold bimap.deref_left, bimap.deref_right. cbn. rewrite Hp. cbn.
  by destruct p.
Qed.

Lemma collect_records w (f : addr → outcome (L * R)) (l : list addr) :
  (∀ a, a ∈ l → ∃ p, record_of w a = Some p ∧ f a = Ret p) →
  collect f l = Ret (omap (record_of w) l).
Proof.
  induction l as [|a l IH]; [done|]. intros Hl. cbn [collect omap list_omap].
  destruct (Hl a) as (p & Hp & Hf); [set_solver|].
  rewrite Hf, Hp. osimpl. rewrite IH; [done|].
  intros x Hx. apply Hl. set_solver.
Qed.

Lemma contents_spec w b o tl tr :
  store_inv w b o tl tr → contents w b = Ret (records w tl).
Proof.
  intros Hinv. pose proof Hinv as (_ & Hl & _ & Hel & _).
  unfold contents, left_nodes. rewrite (nodes_spec _ _ Hl _ _ _ _ Hel). osimpl.
  apply collect_records. intros a Ha.
  destruct (store_left_elem _ _ _ _ _ _ Hinv Ha) as (i & l & r & -> & Hi & _).
  exists (l, r). split; [done|]. by eapply pair_at_left_spec.
Qed.

Lemma contents_right_spec w b o tl tr :
  store_inv w b o tl tr → contents_right w b = Ret (records w tr).
Proof.
  intros Hinv. pose proof Hinv as (_ & _ & Hr & _ & Her & _).
  unfold contents_right, right_nodes.
  rewrite (nodes_spec _ _ Hr _ _ _ _ Her). osimpl.
  apply collect_records. intros a Ha.
  destruct (store_right_elem _ _ _ _ _ _ Hinv Ha) as (i & l & r & -> & Hi & _).
  exists (l, r). split; [done|]. by eapply pair_at_right_spec.
Qed.

Lemma records_elem w t p :
  p ∈ records w t ↔ ∃ a, a ∈ inorder t ∧ record_of w a = Some p.
Proof. unfold records. by rewrite list_elem_of_omap. Qed.

Lemma records_left w b o tl tr l r :
  store_inv w b o tl tr →
  (l, r) ∈ records w tl ↔
  ∃ i, Sub i SLeft ∈ inorder tl ∧ values w !! i = Some (l, r).
Proof.
  intros Hinv. rewrite records_elem. split.
  - intros (a & Ha & Hp).
    destruct (store_left_elem _ _ _ _ _ _ Hinv Ha) as (i & ? & ? & -> & _).
    by exists i.
  - intros (i & Hi & Hp). by exists (Sub i SLeft).
Qed.

Lemma records_right w b o tl tr l r :
  store_inv w b o tl tr →
  (l, r) ∈ records w tr ↔
  ∃ i, Sub i SRight ∈ inorder tr ∧ values w !! i = Some (l, r).
Proof.
  intros Hinv. rewrite records_elem. split.
  - intros (a & Ha & Hp).
    destruct (store_right_elem _ _ _ _ _ _ Hinv Ha) as (i & ? & ? & -> & _).
    by exists i.
  - intros (i & Hi & Hp). by exists (Sub i SRight).
Qed.

(** Both sides hold the same pairs. *)
Lemma records_sides w b o tl tr p :
  store_inv w b o tl tr → p ∈ records w tl ↔ p ∈ records w tr.
Proof.
  intros Hinv. destruct p as [l r].
  rewrite (records_left _ _ _ _ _ _ _ Hinv), (records_right _ _ _ _ _ _ _ Hinv).
  destruct Hinv as (_ & _ & _ & _ & _ & Hpair & _).
  split; intros (i & Hi & Hp); exists i; (split; [by apply Hpair|done]).
Qed.

Lemma holds_left_records w b o tl tr l :
  store_inv w b o tl tr →
  (∃ x, holds (bimap.value_left w) tl l x) ↔ ∃ r, (l, r) ∈ records w tl.
Proof.
  intros Hinv. split.
  - intros (x & Hx & Hv).
    destruct (store_left_elem _ _ _ _ _ _ Hinv Hx) as (i & l' & r & -> & Hi & _).
    cbn in Hv. rewrite Hi in Hv. injection Hv as ->.
    exists r. apply (records_left _ _ _ _ _ _ _ Hinv). by exists i.
  - intros (r & (i & Hi & Hp)%(records_left _ _ _ _ _ _ _ Hinv)).
    exists (Sub i SLeft). split; [done|]. cbn. by rewrite Hp.
Qed.

Lemma holds_right_records w b o tl tr r :
  store_inv w b o tl tr →
  (∃ x, holds (bimap.value_right w) tr r x) ↔ ∃ l, (l, r) ∈ records w tl.
Proof.
  intros Hinv. split.
  - intros (x & Hx & Hv).
    destruct (store_right_elem _ _ _ _ _ _ Hinv Hx) as (i & l & r' & -> & Hi & _).
    cbn in Hv. rewrite Hi in Hv. injection Hv as ->.
    exists l. apply (records_sides _ _ _ _ _ _ Hinv).
    apply (records_right _ _ _ _ _ _ _ Hinv). by exists i.
  - intros (l & Hp%(records_sides _ _ _ _ _ _ Hinv)).
    apply (records_right _ _ _ _ _ _ _ Hinv) in Hp as (i & Hi & Hp).
    exists (Sub i SRight). split; [done|]. cbn. by rewrite Hp.
Qed.

(** Two pairs of a bimap with the same left value, or with the same
    right value, are the same pair. *)
Lemma records_left_inj w b o tl tr l r r' :
  store_inv w b o tl tr →
  (l, r) ∈ records w tl → (l, r') ∈ records w tl → r = r'.
Proof.
  intros Hinv (i & Hi & Hp)%(records_left _ _ _ _ _ _ _ Hinv)
    (j & Hj & Hq)%(records_left _ _ _ _ _ _ _ Hinv).
  pose proof Hinv as (_ & Hl & _ & (_ & _ & Hb & _) & _).
  assert (Sub i SLeft = Sub j SLeft) as [= ->]; [|congruence].
  apply (bst_inj _ _ Hl _ _ _ l Hb Hi Hj); cbn; by rewrite ?Hp, ?Hq.
Qed.

Lemma records_right_inj w b o tl tr l l' r :
  store_inv w b o tl tr →
  (l, r) ∈ records w tl → (l', r) ∈ records w tl → l = l'.
Proof.
  intros Hinv Hp%(records_sides _ _ _ _ _ _ Hinv) Hq%(records_sides _ _ _ _ _ _ Hinv).
  apply (records_right _ _ _ _ _ _ _ Hinv) in Hp as (i & Hi & Hp).
  apply (records_right _ _ _ _ _ _ _ Hinv) in Hq as (j & Hj & Hq).
  pose proof Hinv as (_ & _ & Hr & _ & (_ & _ & Hb & _) & _).
  assert (Sub i SRight = Sub j SRight) as [= ->]; [|congruence].
  apply (bst_inj _ _ Hr _ _ _ r Hb Hi Hj); cbn; by rewrite ?Hp, ?Hq.
Qed.

Lemma records_length w b o tl tr :
  store_inv w b o tl tr → length (records w tl) = m_size o.
Proof.
  intros Hinv. pose proof Hinv as (_ & _ & _ & _ & _ & _ & -> & _).
  unfold records.
  assert (H : ∀ a, a ∈ inorder tl → is_Some (record_of w a)).
  { intros a Ha.
    destruct (store_left_elem _ _ _ _ _ _ Hinv Ha) as (i & l & r & -> & Hi & _).
    by eexists. }
  induction (inorder tl) as [|a l IH]; [done|]. cbn.
  destruct (H a) as [p ->]; [set_solver|]. cbn. f_equal. apply IH.
  intros x Hx. apply H. set_solver.
Qed.

(** *** [at_left], [at_right] *)

Lemma at_left_found w b o tl tr l r :
  store_inv w b o tl tr → (l, r) ∈ records w tl →
  bimap.at_left w b l = Ret r.
Proof.
  intros Hinv (i & Hi & Hp)%(records_left _ _ _ _ _ _ _ Hinv).
  unfold bimap.at_left.
  rewrite (find_left_found w b o tl tr l (Sub i SLeft) Hinv).
  2:{ split; [done|]. cbn. by rewrite Hp. }
  osimpl. rewrite bool_decide_false by done.
  rewrite (flip_left_node _ _ _ _ _ _ Hinv Hi). osimpl.
  unfold bimap.deref_right. cbn. by rewrite Hp.
Qed.

Lemma at_left_missing w b o tl tr l :
  store_inv w b o tl tr → (∀ r, (l, r) ∉ records w tl) →
  bimap.at_left w b l = OutOfRange.
Proof.
  intros Hinv Hno. unfold bimap.at_left.
  rewrite (find_left_missing w b o tl tr l Hinv).
  2:{ intros x Hx.
      destruct (proj1 (holds_left_records _ _ _ _ _ l Hinv)) as [r Hr];
        [by exists x|]. by apply (Hno r). }
  osimpl. by rewrite bool_decide_true.
Qed.

Lemma at_right_found w b o tl tr l r :
  store_inv w b o tl tr → (l, r) ∈ records w tl →
  bimap.at_right w b r = Ret l.
Proof.
  intros Hinv Hp%(records_sides _ _ _ _ _ _ Hinv).
  apply (records_right _ _ _ _ _ _ _ Hinv) in Hp as (i & Hi & Hp).
  unfold bimap.at_right.
  rewrite (find_right_found w b o tl tr r (Sub i SRight) Hinv).
  2:{ split; [done|]. cbn. by rewrite Hp. }
  osimpl. rewrite bool_decide_false by done.
  rewrite (flip_right_node _ _ _ _ _ _ Hinv Hi). osimpl.
  unfold bimap.deref_left. cbn. by rewrite Hp.
Qed.

Lemma at_right_missing w b o tl tr r :
  store_inv w b o tl tr → (∀ l, (l, r) ∉ records w tl) →
  bimap.at_right w b r = OutOfRange.
Proof.
  intros Hinv Hno. unfold bimap.at_right.
  rewrite (find_right_missing w b o tl tr r Hinv).
  2:{ intros x Hx.
      destruct (proj1 (holds_right_records _ _ _ _ _ r Hinv)) as [l Hl];
        [by exists x|]. by apply (Hno l). }
  osimpl. by rewrite bool_decide_true.
Qed.
End contents_facts.

Section holds_dec.
Context {T : Type}.
Variable value : addr → option T.
Variable lt : T → T → bool.
Hypothesis Hlt : strict_total lt.

(** Whether a key is in an engine can be told. *)
Lemma holds_dec t v :
  bst value lt t → (∃ x, holds value t v x) ∨ (∀ x, ¬ holds value t v x).
Proof.
  intros Hb. destruct (nearest value lt t v) as [x|] eqn:Hn.
  - pose proof (nearest_elem _ _ Hlt _ _ _ Hn) as Hin.
    destruct (bst_values _ _ _ _ Hb Hin) as [vx Hvx].
    destruct (tree.equal lt vx v) eqn:Heq.
    + apply (equal_true _ Hlt) in Heq as ->. left. by exists x.
    + right. intros y [Hy Hvy].
      rewrite (nearest_found _ _ Hlt t v y Hb Hy Hvy) in Hn.
      injection Hn as ->. rewrite Hvx in Hvy. injection Hvy as ->.
      by rewrite (proj2 (equal_true _ Hlt v v)) in Heq.
  - right. intros y [Hy Hvy].
    by rewrite (nearest_found _ _ Hlt t v y Hb Hy Hvy) in Hn.
Qed.
End holds_dec.

(** ** The footprint of the operations on one bimap *)

Section evolves_facts.
Context {L R : Type}.
Implicit Types (w : world L R) (o : bimap_obj L R).

Lemma evolves_refl w b o tl tr :
  objs w !! b = Some o → evolves w w b tl tr tl tr.
Proof.
  intros Ho. split_and!; try done; try by left.
  exists o. by rewrite insert_id.
Qed.

Lemma evolves_trans w w' w'' b o tl tr tl' tr' tl'' tr'' :
  store_inv w b o tl tr →
  evolves w w' b tl tr tl' tr' → evolves w' w'' b tl' tr' tl'' tr'' →
  evolves w w'' b tl tr tl'' tr''.
Proof.
  intros Hinv ([o' Ho'] & Hl & Hr & Hlinks & Hvals & Hnr & Hno)
    ([o'' Ho''] & Hl' & Hr' & Hlinks' & Hvals' & Hnr' & Hno').
  pose proof Hinv as (_ & _ & _ & _ & _ & Hpair & _ & Hfresh).
  split_and!.
  - exists o''. by rewrite Ho'', Ho', insert_insert_eq.
  - intros a Ha. destruct (Hl' a Ha) as [Ha'|(i & -> & Hi)]; [by apply Hl|].
    right. exists i. split; [done|lia].
  - intros a Ha. destruct (Hr' a Ha) as [Ha'|(i & -> & Hi)]; [by apply Hr|].
    right. exists i. split; [done|lia].
  - intros y Hy Hold. rewrite Hlinks', Hlinks; [done..| |].
    + unfold footprint in *. rewrite !elem_of_cons, elem_of_app in *.
      intros [?|[?|[Ha|Ha]]]; [tauto|tauto|..].
      * destruct (Hl y Ha) as [?|(i & -> & Hi)]; [tauto|].
        specialize (Hold i SLeft eq_refl). lia.
      * destruct (Hr y Ha) as [?|(i & -> & Hi)]; [tauto|].
        specialize (Hold i SRight eq_refl). lia.
    + intros i s Heq. specialize (Hold i s Heq). lia.
  - intros i Hi Hni. rewrite Hvals', Hvals; [done..|lia|].
    intros Ha. destruct (Hl _ Ha) as [?|(j & [= <-] & Hj)]; [done|lia].
  - lia.
  - congruence.
Qed.

Lemma world_shapes_evolves w w' sh b o o' tl' tr' :
  world_shapes w sh → objs w !! b = Some o →
  store_inv w' b o' tl' tr' →
  evolves w w' b (sh b).1 (sh b).2 tl' tr' →
  world_shapes w' (<[b := (tl', tr')]> sh).
Proof.
  intros Hsh Ho Hinv' ([o'' Ho''] & Hl & Hr & Hlinks & Hvals & Hnr & Hno).
  eapply world_shapes_update; try done.
  rewrite Ho''. f_equal.
  destruct Hinv' as (Ho' & _). rewrite Ho'', lookup_insert_eq in Ho'.
  by injection Ho'.
Qed.

(** *** [insert] *)

Lemma insert_fresh_evolves w b o tl tr l r :
  store_inv w b o tl tr →
  (∀ r', (l, r') ∉ records w tl) → (∀ l', (l', r) ∉ records w tl) →
  ∃ w' tl' tr',
    let i := next_record w in
    let o' := BimapObj (S (m_size o)) (cmp_left o) (cmp_right o) in
    bimap.insert w b l r = Ret (w', Some (Sub i SLeft))
    ∧ store_inv w' b o' tl' tr'
    ∧ evolves w w' b tl tr tl' tr'
    ∧ Sub i SLeft ∈ inorder tl'
    ∧ values w' !! i = Some (l, r)
    ∧ (∀ p, p ∈ records w' tl' ↔ p = (l, r) ∨ p ∈ records w tl).
Proof.
  intros Hinv Hnl Hnr.
  destruct (insert_fresh w b o tl tr l r Hinv)
    as (w' & tl' & tr' & Hins & Hinv' & Hval & Hobj & Hnrec & Hnobj & Hel & Her & Hfr).
  { intros x Hx.
    destruct (proj1 (holds_left_records _ _ _ _ _ l Hinv)) as [r' Hr'];
      [by exists x|]. by apply (Hnl r'). }
  { intros x Hx.
    destruct (proj1 (holds_right_records _ _ _ _ _ r Hinv)) as [l' Hl'];
      [by exists x|]. by apply (Hnr l'). }
  exists w', tl', tr'. cbn zeta in *. split_and!; try done.
  - split_and!.
    + by eexists.
    + intros a [->|Ha]%Hel; [right; eexists; split; [reflexivity|lia]|by left].
    + intros a [->|Ha]%Her; [right; eexists; split; [reflexivity|lia]|by left].
    + intros y Hy Hold. apply Hfr; [done|..].
      * intros ->. specialize (Hold _ _ eq_refl). lia.
      * intros ->. specialize (Hold _ _ eq_refl). lia.
    + intros i Hi _. rewrite Hval, lookup_insert_ne; [done|lia].
    + lia.
    + done.
  - apply Hel. by left.
  - by rewrite Hval, lookup_insert_eq.
  - intros [l0 r0]. rewrite (records_left _ _ _ _ _ _ _ Hinv').
    rewrite (records_left _ _ _ _ _ _ _ Hinv). split.
    + intros (j & [[= ->]|Hj]%Hel & Hp).
      * left. rewrite Hval, lookup_insert_eq in Hp. congruence.
      * right. exists j. split; [done|].
        destruct (store_left_elem _ _ _ _ _ _ Hinv Hj) as (? & ? & ? & [= <-] & _ & ?).
        rewrite Hval, lookup_insert_ne in Hp; [done|lia].
    + intros [[= -> ->]|(j & Hj & Hp)].
      * exists (next_record w). split; [apply Hel; by left|].
        by rewrite Hval, lookup_insert_eq.
      * exists j. split; [apply Hel; by right|].
        destruct (store_left_elem _ _ _ _ _ _ Hinv Hj) as (? & ? & ? & [= <-] & _ & ?).
        rewrite Hval, lookup_insert_ne; [done|lia].
Qed.

Lemma insert_dup w b o tl tr l r :
  store_inv w b o tl tr →
  (∃ r', (l, r') ∈ records w tl) ∨ (∃ l', (l', r) ∈ records w tl) →
  bimap.insert w b l r = Ret (w, bimap.end_left b).
Proof.
  intros Hinv Hdup.
  pose proof Hinv as (_ & Hl & _ & (_ & _ & Hb & _) & _).
  destruct (holds_dec _ _ Hl tl l Hb) as [[x Hx]|Hno].
  { by eapply insert_dup_left. }
  destruct Hdup as [Hdup|Hdup].
  { apply (holds_left_records _ _ _ _ _ _ Hinv) in Hdup as [x Hx].
    by destruct (Hno x). }
  apply (holds_right_records _ _ _ _ _ _ Hinv) in Hdup as [x Hx].
  by eapply insert_dup_right.
Qed.
End evolves_facts.

Section store_ops.
Context {L R : Type}.
Implicit Types (w : world L R) (o : bimap_obj L R).

Lemma size_spec w b o tl tr :
  store_inv w b o tl tr → bimap.size w b = Ret (m_size o).
Proof. intros (Ho & _). unfold bimap.size, bimap.obj. by rewrite Ho. Qed.

Lemma records_after_erase w w' b o o' tl tr i p0 :
  store_inv w b o tl tr →
  store_inv w' b o' (del (Sub i SLeft) tl) (del (Sub i SRight) tr) →
  values w' = delete i (values w) →
  Sub i SLeft ∈ inorder tl → values w !! i = Some p0 →
  ∀ p, p ∈ records w' (del (Sub i SLeft) tl) ↔ p ∈ records w tl ∧ p ≠ p0.
Proof.
  intros Hinv Hinv' Hval Hi Hp0 [l r].
  pose proof Hinv as (_ & Hl & _ & (_ & _ & Hb & _) & _).
  pose proof (bst_NoDup _ _ Hl _ Hb) as Hnd.
  rewrite (records_left _ _ _ _ _ _ _ Hinv'), (records_left _ _ _ _ _ _ _ Hinv).
  split.
  - intros (j & [Hj Hne]%del_elem_iff & Hp); [|done].
    assert (j ≠ i) by congruence.
    rewrite Hval, lookup_delete_ne in Hp by done.
    split; [by exists j|]. intros Heq. subst p0.
    assert (Sub j SLeft = Sub i SLeft) as [= ->]; [|done].
    apply (bst_inj _ _ Hl _ _ _ l Hb Hj Hi); cbn; by rewrite ?Hp, ?Hp0.
  - intros [(j & Hj & Hp) Hne].
    assert (j ≠ i) by (intros ->; congruence).
    exists j. split; [apply del_elem_iff; [done|split; [done|congruence]]|].
    by rewrite Hval, lookup_delete_ne.
Qed.

Lemma erase_left_evolves w b o tl tr i p0 :
  store_inv w b o tl tr → Sub i SLeft ∈ inorder tl → values w !! i = Some p0 →
  ∃ w' tl' tr',
    let o' := BimapObj (pred (m_size o)) (cmp_left o) (cmp_right o) in
    bimap.erase_left w b (Some (Sub i SLeft))
    = Ret (w', Some (succ_in (inorder tl) (Sub i SLeft) (Sentinel b SLeft)))
    ∧ store_inv w' b o' tl' tr'
    ∧ evolves w w' b tl tr tl' tr'
    ∧ inorder tl' = without (Sub i SLeft) (inorder tl)
    ∧ (∀ p, p ∈ records w' tl' ↔ p ∈ records w tl ∧ p ≠ p0).
Proof.
  intros Hinv Hi Hp0.
  destruct (erase_left_spec w b o tl tr i Hinv Hi)
    as (w' & He & Hinv' & Hval & Hobj & Hnrec & Hnobj & Hfr).
  pose proof Hinv as (_ & Hl & _ & (_ & _ & Hb & _) & _).
  exists w', (del (Sub i SLeft) tl), (del (Sub i SRight) tr).
  cbn zeta in *. split_and!; try done.
  - split_and!; try done.
    + by eexists.
    + intros a Ha%del_elem. by left.
    + intros a Ha%del_elem. by left.
    + intros y Hy _. by apply Hfr.
    + intros j _ Hj. rewrite Hval, lookup_delete_ne; [done|].
      intros ->. done.
    + lia.
  - apply del_inorder. exact (bst_NoDup _ _ Hl _ Hb).
  - by eapply records_after_erase.
Qed.

Lemma erase_right_evolves w b o tl tr i p0 :
  store_inv w b o tl tr → Sub i SRight ∈ inorder tr → values w !! i = Some p0 →
  ∃ w' tl' tr',
    let o' := BimapObj (pred (m_size o)) (cmp_left o) (cmp_right o) in
    bimap.erase_right w b (Some (Sub i SRight))
    = Ret (w', Some (succ_in (inorder tr) (Sub i SRight) (Sentinel b SRight)))
    ∧ store_inv w' b o' tl' tr'
    ∧ evolves w w' b tl tr tl' tr'
    ∧ inorder tr' = without (Sub i SRight) (inorder tr)
    ∧ (∀ p, p ∈ records w' tl' ↔ p ∈ records w tl ∧ p ≠ p0).
Proof.
  intros Hinv Hi Hp0.
  destruct (erase_right_spec w b o tl tr i Hinv Hi)
    as (w' & He & Hinv' & Hval & Hobj & Hnrec & Hnobj & Hfr).
  pose proof Hinv as (_ & _ & Hr & _ & (_ & _ & Hb & _) & Hpair & _).
  exists w', (del (Sub i SLeft) tl), (del (Sub i SRight) tr).
  cbn zeta in *. split_and!; try done.
  - split_and!; try done.
    + by eexists.
    + intros a Ha%del_elem. by left.
    + intros a Ha%del_elem. by left.
    + intros y Hy _. by apply Hfr.
    + intros j _ Hj. rewrite Hval, lookup_delete_ne; [done|].
      intros ->. apply Hj. by apply Hpair.
    + lia.
  - apply del_inorder. exact (bst_NoDup _ _ Hr _ Hb).
  - eapply records_after_erase; [done..|by apply Hpair|done].
Qed.

(** *** [erase_left(key)], [erase_right(key)] *)

Lemma erase_left_key_missing w b o tl tr l :
  store_inv w b o tl tr → (∀ r, (l, r) ∉ records w tl) →
  bimap.erase_left_key w b l = Ret (w, false).
Proof.
  intros Hinv Hno. unfold bimap.erase_left_key.
  rewrite (find_left_missing w b o tl tr l Hinv).
  2:{ intros x Hx.
      destruct (proj1 (holds_left_records _ _ _ _ _ l Hinv)) as [r Hr];
        [by exists x|]. by apply (Hno r). }
  osimpl. by rewrite erase_left_end.
Qed.

Lemma erase_right_key_missing w b o tl tr r :
  store_inv w b o tl tr → (∀ l, (l, r) ∉ records w tl) →
  bimap.erase_right_key w b r = Ret (w, false).
Proof.
  intros Hinv Hno. unfold bimap.erase_right_key.
  rewrite (find_right_missing w b o tl tr r Hinv).
  2:{ intros x Hx.
      destruct (proj1 (holds_right_records _ _ _ _ _ r Hinv)) as [l Hl];
        [by exists x|]. by apply (Hno l). }
  osimpl. by rewrite erase_right_end.
Qed.

Lemma erase_left_key_found w b o tl tr l r :
  store_inv w b o tl tr → (l, r) ∈ records w tl →
  ∃ w' tl' tr',
    let o' := BimapObj (pred (m_size o)) (cmp_left o) (cmp_right o) in
    bimap.erase_left_key w b l = Ret (w', true)
    ∧ store_inv w' b o' tl' tr'
    ∧ evolves w w' b tl tr tl' tr'
    ∧ (∀ p, p ∈ records w' tl' ↔ p ∈ records w tl ∧ p ≠ (l, r)).
Proof.
  intros Hinv Hp. pose proof Hp as (i & Hi & Hv)%(records_left _ _ _ _ _ _ _ Hinv).
  destruct (erase_left_evolves w b o tl tr i (l, r) Hinv Hi Hv)
    as (w' & tl' & tr' & He & Hinv' & Hev & _ & Hrec).
  exists w', tl', tr'. cbn zeta in *. split_and!; try done.
  unfold bimap.erase_left_key.
  rewrite (find_left_found w b o tl tr l (Sub i SLeft) Hinv).
  2:{ split; [done|]. cbn. by rewrite Hv. }
  osimpl. rewrite He. osimpl. by rewrite bool_decide_false.
Qed.

Lemma erase_right_key_found w b o tl tr l r :
  store_inv w b o tl tr → (l, r) ∈ records w tl →
  ∃ w' tl' tr',
    let o' := BimapObj (pred (m_size o)) (cmp_left o) (cmp_right o) in
    bimap.erase_right_key w b r = Ret (w', true)
    ∧ store_inv w' b o' tl' tr'
    ∧ evolves w w' b tl tr tl' tr'
    ∧ (∀ p, p ∈ records w' tl' ↔ p ∈ records w tl ∧ p ≠ (l, r)).
Proof.
  intros Hinv Hp. pose proof Hp as Hp'%(records_sides _ _ _ _ _ _ Hinv).
  apply (records_right _ _ _ _ _ _ _ Hinv) in Hp' as (i & Hi & Hv).
  destruct (erase_right_evolves w b o tl tr i (l, r) Hinv Hi Hv)
    as (w' & tl' & tr' & He & Hinv' & Hev & _ & Hrec).
  exists w', tl', tr'. cbn zeta in *. split_and!; try done.
  unfold bimap.erase_right_key.
  rewrite (find_right_found w b o tl tr r (Sub i SRight) Hinv).
  2:{ split; [done|]. cbn. by rewrite Hv. }
  osimpl. rewrite He. osimpl. by rewrite bool_decide_false.
Qed.
End store_ops.

Section store_default.
Context {L R : Type}.
Implicit Types (w : world L R) (o : bimap_obj L R).

(** *** [at_left_or_default], [at_right_or_default] *)

Lemma at_left_or_default_found dr w b o tl tr l r :
  store_inv w b o tl tr → (l, r) ∈ records w tl →
  bimap.at_left_or_default dr w b l = Ret (w, r).
Proof.
  intros Hinv Hp. pose proof Hp as (i & Hi & Hv)%(records_left _ _ _ _ _ _ _ Hinv).
  unfold bimap.at_left_or_default.
  rewrite (find_left_found w b o tl tr l (Sub i SLeft) Hinv).
  2:{ split; [done|]. cbn. by rewrite Hv. }
  osimpl. rewrite bool_decide_false by done.
  by rewrite (at_left_found _ _ _ _ _ _ _ Hinv Hp).
Qed.

Lemma at_right_or_default_found dl w b o tl tr l r :
  store_inv w b o tl tr → (l, r) ∈ records w tl →
  bimap.at_right_or_default dl w b r = Ret (w, l).
Proof.
  intros Hinv Hp. pose proof Hp as Hp'%(records_sides _ _ _ _ _ _ Hinv).
  apply (records_right _ _ _ _ _ _ _ Hinv) in Hp' as (i & Hi & Hv).
  unfold bimap.at_right_or_default.
  rewrite (find_right_found w b o tl tr r (Sub i SRight) Hinv).
  2:{ split; [done|]. cbn. by rewrite Hv. }
  osimpl. rewrite bool_decide_false by done.
  by rewrite (at_right_found _ _ _ _ _ _ _ Hinv Hp).
Qed.

(** Making room for the default value on the right side. *)
Lemma evict_right w b o tl tr dr :
  store_inv w b o tl tr →
  ∃ w1 o1 tl1 tr1 res,
    bimap.erase_right_key w b dr = Ret (w1, res)
    ∧ store_inv w1 b o1 tl1 tr1
    ∧ evolves w w1 b tl tr tl1 tr1
    ∧ (∀ p, p ∈ records w1 tl1 ↔ p ∈ records w tl ∧ p.2 ≠ dr).
Proof.
  intros Hinv.
  pose proof Hinv as (Ho & _ & Hr & _ & (_ & _ & Hb & _) & _).
  destruct (holds_dec _ _ Hr tr dr Hb) as [Hx|Hno].
  - apply (holds_right_records _ _ _ _ _ _ Hinv) in Hx as [l0 Hp0].
    destruct (erase_right_key_found w b o tl tr l0 dr Hinv Hp0)
      as (w1 & tl1 & tr1 & He & Hinv1 & Hev & Hrec).
    eexists w1, _, tl1, tr1, true. split_and!; try done.
    intros [l r]. rewrite Hrec. cbn. split; intros [Hp Hne]; (split; [done|]).
    + intros ->. apply Hne. f_equal.
      exact (records_right_inj _ _ _ _ _ _ _ _ Hinv Hp Hp0).
    + congruence.
  - exists w, o, tl, tr, false. split_and!.
    + apply (erase_right_key_missing _ _ _ _ _ _ Hinv).
      intros l Hl. destruct (proj2 (holds_right_records _ _ _ _ _ dr Hinv)) as [x Hx];
        [by exists l|]. by apply (Hno x).
    + done.
    + by eapply evolves_refl.
    + intros [l r]. cbn. split; [|tauto]. intros Hp. split; [done|].
      intros ->. destruct (proj2 (holds_right_records _ _ _ _ _ dr Hinv)) as [x Hx];
        [by exists l|]. by apply (Hno x).
Qed.

Lemma evict_left w b o tl tr dl :
  store_inv w b o tl tr →
  ∃ w1 o1 tl1 tr1 res,
    bimap.erase_left_key w b dl = Ret (w1, res)
    ∧ store_inv w1 b o1 tl1 tr1
    ∧ evolves w w1 b tl tr tl1 tr1
    ∧ (∀ p, p ∈ records w1 tl1 ↔ p ∈ records w tl ∧ p.1 ≠ dl).
Proof.
  intros Hinv.
  pose proof Hinv as (Ho & Hl & _ & (_ & _ & Hb & _) & _).
  destruct (holds_dec _ _ Hl tl dl Hb) as [Hx|Hno].
  - apply (holds_left_records _ _ _ _ _ _ Hinv) in Hx as [r0 Hp0].
    destruct (erase_left_key_found w b o tl tr dl r0 Hinv Hp0)
      as (w1 & tl1 & tr1 & He & Hinv1 & Hev & Hrec).
    eexists w1, _, tl1, tr1, true. split_and!; try done.
    intros [l r]. rewrite Hrec. cbn. split; intros [Hp Hne]; (split; [done|]).
    + intros ->. apply Hne. f_equal.
      exact (records_left_inj _ _ _ _ _ _ _ _ Hinv Hp Hp0).
    + congruence.
  - exists w, o, tl, tr, false. split_and!.
    + apply (erase_left_key_missing _ _ _ _ _ _ Hinv).
      intros r Hr. destruct (proj2 (holds_left_records _ _ _ _ _ dl Hinv)) as [x Hx];
        [by exists r|]. by apply (Hno x).
    + done.
    + by eapply evolves_refl.
    + intros [l r]. cbn. split; [|tauto]. intros Hp. split; [done|].
      intros ->. destruct (proj2 (holds_left_records _ _ _ _ _ dl Hinv)) as [x Hx];
        [by exists r|]. by apply (Hno x).
Qed.

Lemma at_left_or_default_missing dr w b o tl tr l :
  store_inv w b o tl tr → (∀ r, (l, r) ∉ records w tl) →
  ∃ w' o' tl' tr',
    bimap.at_left_or_default dr w b l = Ret (w', dr)
    ∧ store_inv w' b o' tl' tr'
    ∧ evolves w w' b tl tr tl' tr'
    ∧ (∀ p, p ∈ records w' tl' ↔ p = (l, dr) ∨ (p ∈ records w tl ∧ p.2 ≠ dr)).
Proof.
  intros Hinv Hno. unfold bimap.at_left_or_default.
  rewrite (find_left_missing w b o tl tr l Hinv).
  2:{ intros x Hx.
      destruct (proj1 (holds_left_records _ _ _ _ _ l Hinv)) as [r Hr];
        [by exists x|]. by apply (Hno r). }
  osimpl. rewrite bool_decide_true by done.
  destruct (evict_right w b o tl tr dr Hinv)
    as (w1 & o1 & tl1 & tr1 & res & He & Hinv1 & Hev1 & Hrec1).
  rewrite He. osimpl.
  destruct (insert_fresh_evolves w1 b o1 tl1 tr1 l dr Hinv1)
    as (w2 & tl2 & tr2 & Hins & Hinv2 & Hev2 & Hin2 & Hv2 & Hrec2).
  { intros r' [Hp _]%Hrec1. by apply (Hno r'). }
  { intros l' [_ Hp]%Hrec1. by apply Hp. }
  cbn zeta in *. rewrite Hins. osimpl.
  rewrite (flip_left_node _ _ _ _ _ _ Hinv2 Hin2). osimpl.
  unfold bimap.deref_right. cbn. rewrite Hv2. cbn.
  eexists w2, _, tl2, tr2. split_and!; try done.
  - by eapply evolves_trans.
  - intros p. rewrite Hrec2, Hrec1. done.
Qed.

Lemma at_right_or_default_missing dl w b o tl tr r :
  store_inv w b o tl tr → (∀ l, (l, r) ∉ records w tl) →
  ∃ w' o' tl' tr',
    bimap.at_right_or_default dl w b r = Ret (w', dl)
    ∧ store_inv w' b o' tl' tr'
    ∧ evolves w w' b tl tr tl' tr'
    ∧ (∀ p, p ∈ records w' tl' ↔ p = (dl, r) ∨ (p ∈ records w tl ∧ p.1 ≠ dl)).
Proof.
  intros Hinv Hno. unfold bimap.at_right_or_default.
  rewrite (find_right_missing w b o tl tr r Hinv).
  2:{ intros x Hx.
      destruct (proj1 (holds_right_records _ _ _ _ _ r Hinv)) as [l Hl];
        [by exists x|]. by apply (Hno l). }
  osimpl. rewrite bool_decide_true by done.
  destruct (evict_left w b o tl tr dl Hinv)
    as (w1 & o1 & tl1 & tr1 & res & He & Hinv1 & Hev1 & Hrec1).
  rewrite He. osimpl.
  destruct (insert_fresh_evolves w1 b o1 tl1 tr1 dl r Hinv1)
    as (w2 & tl2 & tr2 & Hins & Hinv2 & Hev2 & Hin2 & Hv2 & Hrec2).
  { intros r' [_ Hp]%Hrec1. by apply Hp. }
  { intros l' [Hp _]%Hrec1. by apply (Hno l'). }
  cbn zeta in *. rewrite Hins. osimpl.
  unfold bimap.deref_left. cbn. rewrite Hv2. cbn.
  eexists w2, _, tl2, tr2. split_and!; try done.
  - by eapply evolves_trans.
  - intros p. rewrite Hrec2, Hrec1. done.
Qed.
End store_default.

Section store_range.
Context {L R : Type}.
Implicit Types (w : world L R) (o : bimap_obj L R).

(** *** [erase_left(first, last)], [erase_right(first, last)] *)

Lemma erase_left_loop_spec b mid :
  ∀ pre post fuel w o tl tr,
    store_inv w b o tl tr → inorder tl = pre ++ mid ++ post →
    length mid ≤ fuel →
    ∃ w' o' tl' tr',
      bimap.erase_left_loop fuel w b
        (Some (hd (Sentinel b SLeft) (mid ++ post)))
        (Some (hd (Sentinel b SLeft) post))
      = Ret (w', Some (hd (Sentinel b SLeft) post))
      ∧ store_inv w' b o' tl' tr'
      ∧ evolves w w' b tl tr tl' tr'
      ∧ inorder tl' = pre ++ post.
Proof.
  induction mid as [|x mid IH]; intros pre post fuel w o tl tr Hinv Heq Hlen.
  - exists w, o, tl, tr. cbn [app] in *. split_and!; try done.
    + destruct fuel; cbn [bimap.erase_left_loop]; by rewrite bool_decide_true.
    + destruct Hinv as (Ho & _). by eapply evolves_refl.
  - cbn [length] in Hlen. destruct fuel as [|fuel]; [lia|].
    pose proof Hinv as (_ & Hl & _ & Hel & _).
    pose proof Hel as (_ & _ & Hb & _).
    pose proof (bst_NoDup _ _ Hl _ Hb) as Hnd. rewrite Heq in Hnd.
    apply NoDup_app in Hnd as (_ & Hd1 & Hnd2).
    cbn [app] in Hnd2. apply NoDup_cons in Hnd2 as [Hx2 _].
    assert (Hxin : x ∈ inorder tl) by (rewrite Heq; set_solver).
    assert (Hxpre : x ∉ pre) by (intros ?; eapply Hd1; [done|set_solver]).
    destruct (store_left_elem _ _ _ _ _ _ Hinv Hxin) as (i & l & r & -> & Hv & _).
    cbn [bimap.erase_left_loop app hd].
    rewrite bool_decide_false.
    2:{ intros [= Hhd]. destruct post as [|y post]; cbn in Hhd; [done|].
        apply Hx2. rewrite Hhd. set_solver. }
    unfold bimap.incr. rewrite (next_spec _ _ Hl _ _ _ _ _ Hel Hxin). osimpl.
    destruct (erase_left_evolves w b o tl tr i (l, r) Hinv Hxin Hv)
      as (w1 & tl1 & tr1 & He & Hinv1 & Hev1 & Hin1 & _).
    cbn zeta in *. rewrite He. osimpl.
    assert (Hin1' : inorder tl1 = pre ++ mid ++ post).
    { rewrite Hin1, Heq. cbn [app]. by rewrite without_split. }
    rewrite Heq. cbn [app]. rewrite succ_in_split by done.
    destruct (IH pre post fuel w1 _ tl1 tr1 Hinv1 Hin1')
      as (w' & o' & tl' & tr' & Hloop & Hinv' & Hev' & Hin'); [lia|].
    exists w', o', tl', tr'. split_and!; try done.
    by eapply evolves_trans.
Qed.

Lemma erase_right_loop_spec b mid :
  ∀ pre post fuel w o tl tr,
    store_inv w b o tl tr → inorder tr = pre ++ mid ++ post →
    length mid ≤ fuel →
    ∃ w' o' tl' tr',
      bimap.erase_right_loop fuel w b
        (Some (hd (Sentinel b SRight) (mid ++ post)))
        (Some (hd (Sentinel b SRight) post))
      = Ret (w', Some (hd (Sentinel b SRight) post))
      ∧ store_inv w' b o' tl' tr'
      ∧ evolves w w' b tl tr tl' tr'
      ∧ inorder tr' = pre ++ post.
Proof.
  induction mid as [|x mid IH]; intros pre post fuel w o tl tr Hinv Heq Hlen.
  - exists w, o, tl, tr. cbn [app] in *. split_and!; try done.
    + destruct fuel; cbn [bimap.erase_right_loop]; by rewrite bool_decide_true.
    + destruct Hinv as (Ho & _). by eapply evolves_refl.
  - cbn [length] in Hlen. destruct fuel as [|fuel]; [lia|].
    pose proof Hinv as (_ & _ & Hr & _ & Her & _).
    pose proof Her as (_ & _ & Hb & _).
    pose proof (bst_NoDup _ _ Hr _ Hb) as Hnd. rewrite Heq in Hnd.
    apply NoDup_app in Hnd as (_ & Hd1 & Hnd2).
    cbn [app] in Hnd2. apply NoDup_cons in Hnd2 as [Hx2 _].
    assert (Hxin : x ∈ inorder tr) by (rewrite Heq; set_solver).
    assert (Hxpre : x ∉ pre) by (intros ?; eapply Hd1; [done|set_solver]).
    destruct (store_right_elem _ _ _ _ _ _ Hinv Hxin) as (i & l & r & -> & Hv & _).
    cbn [bimap.erase_right_loop app hd].
    rewrite bool_decide_false.
    2:{ intros [= Hhd]. destruct post as [|y post]; cbn in Hhd; [done|].
        apply Hx2. rewrite Hhd. set_solver. }
    unfold bimap.incr. rewrite (next_spec _ _ Hr _ _ _ _ _ Her Hxin). osimpl.
    destruct (erase_right_evolves w b o tl tr i (l, r) Hinv Hxin Hv)
      as (w1 & tl1 & tr1 & He & Hinv1 & Hev1 & Hin1 & _).
    cbn zeta in *. rewrite He. osimpl.
    assert (Hin1' : inorder tr1 = pre ++ mid ++ post).
    { rewrite Hin1, Heq. cbn [app]. by rewrite without_split. }
    rewrite Heq. cbn [app]. rewrite succ_in_split by done.
    destruct (IH pre post fuel w1 _ tl1 tr1 Hinv1 Hin1')
      as (w' & o' & tl' & tr' & Hloop & Hinv' & Hev' & Hin'); [lia|].
    exists w', o', tl', tr'. split_and!; try done.
    by eapply evolves_trans.
Qed.

Lemma store_length_bound w b o tl tr :
  store_inv w b o tl tr → length (inorder tl) < walk_bound (links w).
Proof.
  intros (_ & Hl & _ & Hel & _).
  pose proof (engine_inv_length _ _ Hl _ _ _ _ Hel). rewrite walk_bound_eq. lia.
Qed.

Lemma erase_left_range_spec w b o tl tr pre mid post :
  store_inv w b o tl tr → inorder tl = pre ++ mid ++ post →
  ∃ w' o' tl' tr',
    bimap.erase_left_range w b
      (Some (hd (Sentinel b SLeft) (mid ++ post)))
      (Some (hd (Sentinel b SLeft) post))
    = Ret (w', Some (hd (Sentinel b SLeft) post))
    ∧ store_inv w' b o' tl' tr'
    ∧ evolves w w' b tl tr tl' tr'
    ∧ inorder tl' = pre ++ post.
Proof.
  intros Hinv Heq. apply (erase_left_loop_spec b mid pre post _ w o tl tr); [done..|].
  pose proof (store_length_bound _ _ _ _ _ Hinv) as Hlen.
  rewrite Heq, !length_app in Hlen. lia.
Qed.

Lemma erase_right_range_spec w b o tl tr pre mid post :
  store_inv w b o tl tr → inorder tr = pre ++ mid ++ post →
  ∃ w' o' tl' tr',
    bimap.erase_right_range w b
      (Some (hd (Sentinel b SRight) (mid ++ post)))
      (Some (hd (Sentinel b SRight) post))
    = Ret (w', Some (hd (Sentinel b SRight) post))
    ∧ store_inv w' b o' tl' tr'
    ∧ evolves w w' b tl tr tl' tr'
    ∧ inorder tr' = pre ++ post.
Proof.
  intros Hinv Heq. apply (erase_right_loop_spec b mid pre post _ w o tl tr); [done..|].
  pose proof (store_length_bound _ _ _ _ _ Hinv) as Hlen.
  rewrite <-(store_lengths _ _ _ _ _ Hinv) in Hlen.
  rewrite Heq, !length_app in Hlen. lia.
Qed.
End store_range.

(** ** Construction *)

Section world_construct.
Context {L R : Type}.
Implicit Types (w : world L R) (o : bimap_obj L R).

Lemma empty_world_shapes : world_shapes (empty_world : world L R) (λ _, (Leaf, Leaf)).
Proof. split; intros b; intros; cbn in *; by rewrite ?lookup_empty in *. Qed.

Lemma construct_spec w sh cl cr :
  world_shapes w sh → strict_total cl → strict_total cr →
  ∃ w',
    let b := next_obj w in
    bimap.construct w cl cr = Ret (w', b)
    ∧ world_shapes w' (<[b := (Leaf, Leaf)]> sh)
    ∧ store_inv w' b (BimapObj 0 cl cr) Leaf Leaf
    ∧ objs w' = <[b := BimapObj 0 cl cr]> (objs w)
    ∧ objs w !! b = None
    ∧ values w' = values w
    ∧ next_record w' = next_record w
    ∧ next_obj w' = S b
    ∧ (∀ y, y ≠ Sentinel b SLeft → y ≠ Sentinel b SRight →
            links w' !! y = links w !! y).
Proof.
  intros (Hall & Hdisj) Hcl Hcr. set (b := next_obj w).
  assert (Hnew : objs w !! b = None).
  { destruct (objs w !! b) as [o|] eqn:Ho; [|done].
    destruct (Hall b o Ho) as [_ ?]. unfold b in *. lia. }
  unfold bimap.construct, bimap.link_trees, tree.set_link_to_other_tree.
  fold b. cbn [links].
  rewrite (store_Some _ _ fresh_node) by (by rewrite lookup_insert_ne, lookup_insert_eq).
  osimpl. rewrite (store_Some _ _ fresh_node) by (by rewrite lookup_insert_ne, lookup_insert_eq).
  osimpl. eexists. split; [reflexivity|].
  assert (Hst : store_inv
    (bimap.with_links
       (World (<[Sentinel b SRight:=fresh_node]> (<[Sentinel b SLeft:=fresh_node]> (links w)))
          (values w) (<[b:=BimapObj 0 cl cr]> (objs w)) (next_record w) (S b))
       (<[Sentinel b SRight:=set_right (tree.get_sentinel_ptr (Sentinel b SLeft)) fresh_node]>
          (<[Sentinel b SLeft:=set_right (tree.get_sentinel_ptr (Sentinel b SRight)) fresh_node]>
             (<[Sentinel b SRight:=fresh_node]>
                (<[Sentinel b SLeft:=fresh_node]> (links w))))))
    b (BimapObj 0 cl cr) Leaf Leaf).
  { split_and!; cbn; try done.
    - by rewrite lookup_insert_eq.
    - split_and!; cbn; try done.
      + by rewrite lookup_insert_ne, lookup_insert_eq.
      + intros a _. apply not_elem_of_nil.
    - split_and!; cbn; try done.
      + by rewrite lookup_insert_eq.
      + intros a _. apply not_elem_of_nil.
    - intros i. split; by intros ?%elem_of_nil.
    - intros i Hi. by apply elem_of_nil in Hi. }
  split_and!; try done.
  - split.
    + intros b' o' Ho'. cbn in Ho'.
      destruct (decide (b' = b)) as [->|Hne].
      * rewrite lookup_insert_eq in Ho'. injection Ho' as <-.
        rewrite fn_lookup_insert. split; [done|]. cbn. lia.
      * rewrite lookup_insert_ne in Ho' by done.
        rewrite fn_lookup_insert_ne by done.
        destruct (Hall b' o' Ho') as [Hinv' ?]. split; [|cbn; fold b; lia].
        eapply store_inv_frame; [done|..]; cbn; try done.
        -- by rewrite lookup_insert_ne.
        -- intros a Ha. rewrite !lookup_insert_ne; [done|..];
             intros <-; unfold footprint in Ha;
             rewrite !elem_of_cons, elem_of_app in Ha;
             destruct Ha as [Ha|[Ha|[Ha|Ha]]]; try congruence;
             try (by destruct (store_left_elem _ _ _ _ _ _ Hinv' Ha)
                       as (? & ? & ? & ? & _));
             try (by destruct (store_right_elem _ _ _ _ _ _ Hinv' Ha)
                       as (? & ? & ? & ? & _)).
    + intros b1 b2 a Hl1 Hl2. cbn in Hl1, Hl2.
      destruct (decide (b1 = b)) as [->|Hne1];
        destruct (decide (b2 = b)) as [->|Hne2]; [done|..].
      * rewrite fn_lookup_insert. cbn. by intros ?%elem_of_nil.
      * rewrite fn_lookup_insert_ne, fn_lookup_insert by done. cbn.
        by intros _ ?%elem_of_nil.
      * rewrite !fn_lookup_insert_ne by done.
        rewrite lookup_insert_ne in Hl1, Hl2 by done. by apply Hdisj.
  - intros y ? ?. cbn. by rewrite !lookup_insert_ne.
Qed.
End world_construct.

(** ** The copy constructor *)

Section world_copy.
Context {L R : Type}.
Implicit Types (w : world L R) (o : bimap_obj L R).

Lemma copy_loop_spec other_ b tl_o tr_o oo :
  b ≠ other_ →
  ∀ post pre fuel w sh ob,
    world_shapes w sh →
    objs w !! other_ = Some oo → sh other_ = (tl_o, tr_o) →
    objs w !! b = Some ob →
    inorder tl_o = pre ++ post → length post ≤ fuel →
    (∀ p, p ∈ records w (sh b).1 ↔ ∃ a, a ∈ pre ∧ record_of w a = Some p) →
    ∃ w' sh',
      bimap.copy_loop fuel w b other_
        (Some (hd (Sentinel other_ SLeft) post)) = Ret w'
      ∧ world_shapes w' sh'
      ∧ (∀ b', is_Some (objs w' !! b') ↔ is_Some (objs w !! b'))
      ∧ (∀ p, p ∈ records w' (sh' b).1 ↔ p ∈ records w' (sh' other_).1).
Proof.
  intros Hne. induction post as [|x post IH];
    intros pre fuel w sh ob Hsh Hoo Hsho Hob Heq Hlen Hrec.
  - exists w, sh. split_and!; try done.
    + destruct fuel; cbn [bimap.copy_loop hd]; by rewrite bool_decide_true.
    + intros p. rewrite Hrec, Hsho. cbn [fst]. rewrite app_nil_r in Heq.
      rewrite records_elem, Heq. done.
  - cbn [length] in Hlen. destruct fuel as [|fuel]; [lia|].
    pose proof Hsh as (Hall & Hdisj).
    destruct (Hall other_ oo Hoo) as [Hinvo _]. rewrite Hsho in Hinvo. cbn in Hinvo.
    destruct (Hall b ob Hob) as [Hinvb _].
    pose proof Hinvo as (_ & Hl & Hr & Hel & Her & Hpair & _).
    pose proof Hel as (_ & _ & Hbl & _). pose proof Her as (_ & _ & Hbr & _).
    pose proof (bst_NoDup _ _ Hl _ Hbl) as Hnd. rewrite Heq in Hnd.
    apply NoDup_app in Hnd as (_ & Hd1 & Hnd2).
    apply NoDup_cons in Hnd2 as [Hx2 _].
    assert (Hxin : x ∈ inorder tl_o) by (rewrite Heq; set_solver).
    assert (Hxpre : x ∉ pre) by (intros ?; eapply Hd1; [done|set_solver]).
    destruct (store_left_elem _ _ _ _ _ _ Hinvo Hxin) as (j & l & r & -> & Hv & Hj).
    cbn [bimap.copy_loop hd].
    rewrite bool_decide_false by done.
    unfold bimap.deref_left at 1. cbn [tree.value_of bimap.value_left].
    rewrite Hv. cbn [fmap option_fmap option_map fst]. osimpl.
    rewrite (flip_left_node _ _ _ _ _ _ Hinvo Hxin). osimpl.
    unfold bimap.deref_right at 1. cbn [tree.value_of bimap.value_right].
    rewrite Hv. cbn [fmap option_fmap option_map snd]. osimpl.
    (* the pair is new to [b] *)
    assert (Hpre : ∀ a p, a ∈ pre → record_of w a = Some p →
              ∃ i, a = Sub i SLeft ∧ i ≠ j ∧ values w !! i = Some p
                   ∧ Sub i SLeft ∈ inorder tl_o).
    { intros a p Ha Hp.
      assert (Hain : a ∈ inorder tl_o) by (rewrite Heq; set_solver).
      destruct (store_left_elem _ _ _ _ _ _ Hinvo Hain) as (i & ? & ? & -> & _ & _).
      exists i. split_and!; try done. intros ->. done. }
    destruct (insert_fresh_evolves w b ob (sh b).1 (sh b).2 l r Hinvb)
      as (w1 & tl1 & tr1 & Hins & Hinv1 & Hev1 & Hin1 & Hv1 & Hrec1).
    { intros r' (a & Ha & Hp)%Hrec.
      destruct (Hpre a _ Ha Hp) as (i & -> & Hij & Hvi & Hi).
      apply Hij. assert (Sub i SLeft = Sub j SLeft) as [= ->]; [|done].
      apply (bst_inj _ _ Hl _ _ _ l Hbl Hi Hxin); cbn; by rewrite ?Hvi, ?Hv. }
    { intros l' (a & Ha & Hp)%Hrec.
      destruct (Hpre a _ Ha Hp) as (i & -> & Hij & Hvi & Hi).
      apply Hij. assert (Sub i SRight = Sub j SRight) as [= ->]; [|done].
      apply (bst_inj _ _ Hr _ _ _ r Hbr); cbn; rewrite ?Hvi, ?Hv; try done;
        by apply Hpair. }
    cbn zeta in *. rewrite Hins. osimpl.
    pose proof (world_shapes_evolves w w1 sh b ob _ tl1 tr1 Hsh Hob Hinv1 Hev1) as Hsh1.
    pose proof Hev1 as ([o1 Ho1] & _ & _ & _ & Hvals1 & _).
    assert (Hoo1 : objs w1 !! other_ = Some oo).
    { by rewrite Ho1, lookup_insert_ne. }
    assert (Hob1 : objs w1 !! b = Some o1).
    { by rewrite Ho1, lookup_insert_eq. }
    assert (Hsho1 : (<[b:=(tl1, tr1)]> sh) other_ = (tl_o, tr_o)).
    { by rewrite fn_lookup_insert_ne. }
    destruct Hsh1 as (Hall1 & Hdisj1).
    destruct (Hall1 other_ oo Hoo1) as [Hinvo1 _].
    rewrite Hsho1 in Hinvo1. cbn in Hinvo1.
    pose proof Hinvo1 as (_ & _ & _ & Hel1 & _).
    unfold bimap.incr. rewrite (next_spec _ _ Hl _ _ _ _ _ Hel1 Hxin). osimpl.
    rewrite Heq, succ_in_split by done.
    assert (Hsame : ∀ a, a ∈ inorder tl_o → record_of w1 a = record_of w a).
    { intros a Ha.
      destruct (store_left_elem _ _ _ _ _ _ Hinvo Ha) as (i & ? & ? & -> & _ & Hi).
      cbn. apply Hvals1; [done|]. intros Hib.
      apply Hne. apply (Hdisj b other_ (Sub i SLeft)); [by eexists..|done|].
      by rewrite Hsho. }
    destruct (IH (pre ++ [Sub j SLeft]) fuel w1 (<[b:=(tl1, tr1)]> sh) o1)
      as (w' & sh' & Hloop & Hsh' & Hlive & Hrec'); try done.
    { by rewrite <-app_assoc. }
    { lia. }
    { intros p. rewrite fn_lookup_insert. cbn. rewrite Hrec1, Hrec. split.
      - intros [->|(a & Ha & Hp)].
        + exists (Sub j SLeft). split; [clear; set_solver|].
          rewrite Hsame by done. done.
        + exists a. split; [clear -Ha; set_solver|]. rewrite Hsame; [done|].
          rewrite Heq. clear -Ha. set_solver.
      - intros (a & [Ha|Ha]%elem_of_app & Hp).
        + right. exists a. split; [done|]. rewrite <-Hsame; [done|].
          rewrite Heq. clear -Ha. set_solver.
        + apply list_elem_of_singleton in Ha as ->. left.
          rewrite Hsame in Hp by done. cbn in Hp. congruence. }
    exists w', sh'. split_and!; try done.
    intros b'. rewrite Hlive, Ho1.
    destruct (decide (b' = b)) as [->|?].
    + rewrite lookup_insert_eq, Hob. split; by eexists.
    + by rewrite lookup_insert_ne.
Qed.

Lemma copy_construct_spec w sh other_ oo :
  world_shapes w sh → objs w !! other_ = Some oo →
  ∃ w' sh',
    let b := next_obj w in
    bimap.copy_construct w other_ = Ret (w', b)
    ∧ world_shapes w' sh'
    ∧ (∀ b', is_Some (objs w' !! b') ↔ b' = b ∨ is_Some (objs w !! b'))
    ∧ (∀ p, p ∈ records w' (sh' b).1 ↔ p ∈ records w' (sh' other_).1).
Proof.
  intros Hsh Hoo. pose proof Hsh as (Hall & _).
  destruct (Hall other_ oo Hoo) as [Hinvo Hlt].
  pose proof Hinvo as (_ & Hl & Hr & _).
  unfold bimap.copy_construct, bimap.obj. rewrite Hoo. osimpl.
  destruct (construct_spec w sh (cmp_left oo) (cmp_right oo) Hsh Hl Hr)
    as (w1 & Hc & Hsh1 & Hinv1 & Hobj1 & Hnew & Hval1 & Hnr1 & Hno1 & Hfr1).
  cbn zeta in *. rewrite Hc. osimpl.
  set (b := next_obj w) in *.
  assert (Hne : b ≠ other_) by (unfold b; lia).
  assert (Hoo1 : objs w1 !! other_ = Some oo).
  { by rewrite Hobj1, lookup_insert_ne. }
  pose proof Hsh1 as (Hall1 & _).
  destruct (Hall1 other_ oo Hoo1) as [Hinvo1 _].
  rewrite fn_lookup_insert_ne in Hinvo1 by done.
  pose proof Hinvo1 as (_ & _ & _ & Hel1 & _).
  unfold bimap.begin_left. rewrite (begin_spec _ _ Hl _ _ _ _ Hel1). osimpl.
  destruct (copy_loop_spec other_ b (sh other_).1 (sh other_).2 oo Hne
              (inorder (sh other_).1) [] (walk_bound (links w1)) w1
              (<[b:=(Leaf, Leaf)]> sh) (BimapObj 0 (cmp_left oo) (cmp_right oo)))
    as (w' & sh' & Hloop & Hsh' & Hlive & Hrec); try done.
  { rewrite fn_lookup_insert_ne by done. by destruct (sh other_). }
  { by rewrite Hobj1, lookup_insert_eq. }
  { pose proof (store_length_bound _ _ _ _ _ Hinvo1). lia. }
  { intros p. rewrite fn_lookup_insert. cbn. split.
    - by intros ?%elem_of_nil.
    - by intros (a & ?%elem_of_nil & _). }
  rewrite Hloop. osimpl. exists w', sh'. split_and!; try done.
  intros b'. rewrite Hlive, Hobj1.
  destruct (decide (b' = b)) as [->|?].
  - rewrite lookup_insert_eq. split; [by left|by eexists].
  - rewrite lookup_insert_ne by done. split; [by right|by intros [?|?]].
Qed.
End world_copy.

(** ** [swap] *)

Lemma load_cases h p : (∃ n, load h p = Ret n) ∨ load h p = Undefined.
Proof.
  unfold load. destruct p as [a|]; [|by right].
  destruct (h !! a); [left; by eexists|by right].
Qed.

(** [intrusive_tree::swap] reads [m_sentinel.left->parent] of both
    engines: on an empty engine this goes through a null pointer. *)
Lemma tree_swap_empty_this h this that s :
  h !! this = Some s → left s = None → tree.swap h this that = Undefined.
Proof.
  intros Hs Hl. unfold tree.swap. rewrite (load_Some _ _ _ Hs). osimpl.
  destruct (load_cases h (Some that)) as [[o ->]| ->]; [|done]. osimpl.
  unfold tree.swap_parent. by rewrite Hl.
Qed.

Lemma tree_swap_empty_that h this that s o :
  h !! this = Some s → h !! that = Some o → left o = None →
  tree.swap h this that = Undefined.
Proof.
  intros Hs Ho Hl. unfold tree.swap.
  rewrite (load_Some _ _ _ Hs), (load_Some _ _ _ Ho). osimpl.
  unfold tree.swap_parent. rewrite Hl.
  by destruct (load_cases h (left s)) as [[n ->]| ->].
Qed.

Lemma tree_swap_spec h s1 s2 r1 r2 k1 k2 n1 n2 :
  h !! s1 = Some (NodeBase None (Some r1) k1) →
  h !! s2 = Some (NodeBase None (Some r2) k2) →
  h !! r1 = Some n1 → h !! r2 = Some n2 →
  s1 ≠ s2 → r1 ≠ r2 → r1 ≠ s1 → r1 ≠ s2 → r2 ≠ s1 → r2 ≠ s2 →
  ∃ h', tree.swap h s1 s2 = Ret h'
    ∧ h' !! s1 = Some (NodeBase None (Some r2) k2)
    ∧ h' !! s2 = Some (NodeBase None (Some r1) k1)
    ∧ h' !! r1 = Some (set_parent (parent n2) n1)
    ∧ h' !! r2 = Some (set_parent (parent n1) n2)
    ∧ ∀ y, y ≠ s1 → y ≠ s2 → y ≠ r1 → y ≠ r2 → h' !! y = h !! y.
Proof.
  intros Hs1 Hs2 Hr1 Hr2 ? ? ? ? ? ?.
  unfold tree.swap, tree.swap_parent.
  rewrite (load_Some _ _ _ Hs1), (load_Some _ _ _ Hs2). osimpl.
  rewrite (load_Some _ _ _ Hr1), (load_Some _ _ _ Hr2). osimpl.
  rewrite (store_Some _ _ _ _ Hr1). osimpl.
  rewrite (store_Some _ r2 n2) by (by lk). osimpl.
  rewrite (load_Some _ s1 (NodeBase None (Some r1) k1)) by (by lk).
  rewrite (load_Some _ s2 (NodeBase None (Some r2) k2)) by (by lk). osimpl.
  rewrite (store_Some _ s1 (NodeBase None (Some r1) k1)) by (by lk). osimpl.
  rewrite (store_Some _ s2 (NodeBase None (Some r2) k2)) by (by lk). osimpl.
  rewrite (load_Some _ s1 (NodeBase None (Some r1) k1)) by (by lk).
  rewrite (load_Some _ s2 (NodeBase None (Some r2) k2)) by (by lk). osimpl.
  rewrite (store_Some _ s1 (NodeBase None (Some r1) k1)) by (by lk). osimpl.
  rewrite (store_Some _ s2 (NodeBase None (Some r2) k2)) by (by lk). osimpl.
  rewrite (load_Some _ s1 (NodeBase None (Some r2) k1)) by (by lk).
  rewrite (load_Some _ s2 (NodeBase None (Some r1) k2)) by (by lk). osimpl.
  rewrite (store_Some _ s1 (NodeBase None (Some r2) k1)) by (by lk). osimpl.
  rewrite (store_Some _ s2 (NodeBase None (Some r1) k2)) by (by lk). osimpl.
  eexists. split; [reflexivity|]. split_and!; try by lk.
  intros y ? ? ? ?. by lk.
Qed.

Lemma tree_swap_self h s r k n :
  h !! s = Some (NodeBase None (Some r) k) → h !! r = Some n → r ≠ s →
  tree.swap h s s = Ret h.
Proof.
  intros Hs Hr ?. unfold tree.swap, tree.swap_parent.
  rewrite (load_Some _ _ _ Hs). osimpl.
  rewrite (load_Some _ _ _ Hr). osimpl.
  rewrite (store_Some _ _ _ _ Hr). osimpl.
  rewrite (store_Some _ _ (set_parent (parent n) n)) by (by lk). osimpl.
  rewrite (load_Some _ _ (NodeBase None (Some r) k)) by (by lk). osimpl.
  rewrite (store_Some _ _ (NodeBase None (Some r) k)) by (by lk). osimpl.
  rewrite (store_Some _ _ (NodeBase None (Some r) k)) by (by lk). osimpl.
  rewrite (load_Some _ _ (NodeBase None (Some r) k)) by (by lk). osimpl.
  rewrite (store_Some _ _ (NodeBase None (Some r) k)) by (by lk). osimpl.
  rewrite (store_Some _ _ (NodeBase None (Some r) k)) by (by lk). osimpl.
  rewrite (load_Some _ _ (NodeBase None (Some r) k)) by (by lk). osimpl.
  rewrite (store_Some _ _ (NodeBase None (Some r) k)) by (by lk). osimpl.
  rewrite (store_Some _ _ (NodeBase None (Some r) k)) by (by lk). osimpl.
  f_equal. apply map_eq. intros y. destruct n as [np nl nr].
  destruct (decide (y = s)) as [->|?]; [by lk|].
  destruct (decide (y = r)) as [->|?]; by lk.
Qed.

Section engine_move.
Context {T : Type}.
Variable value : addr → option T.
Variable lt : T → T → bool.
Hypothesis Hlt : strict_total lt.

(** The nodes of an engine, handed over to the sentinel [s']. *)
Lemma engine_inv_move h h' s s' t k k' :
  engine_inv value lt h s t k →
  h' !! s' = Some (NodeBase None (root t) k') →
  (∀ a n, root t = Some a → h !! a = Some n →
     h' !! a = Some (set_parent (Some s') n)) →
  (∀ x, x ∈ inorder t → root t ≠ Some x → h' !! x = h !! x) →
  value s' = None →
  (∀ a, k' = Some a → a ∉ inorder t) →
  engine_inv value lt h' s' t k'.
Proof.
  intros (Hs & Hr & Hb & Hv & Hlk) Hs' Hroot Hrest Hv' Hk'.
  split_and!; try done.
  destruct t as [|l a r]; [done|].
  pose proof Hr as (Ha & _).
  pose proof (bst_NoDup _ _ Hlt _ Hb) as Hnd. cbn [inorder] in Hnd.
  apply NoDup_app in Hnd as (_ & Hd & [Har _]%NoDup_cons).
  eapply (repr_reparent h h' s s' l a r); [done|done|by apply Hroot|].
  intros x Hx. apply Hrest.
  - cbn [inorder]. set_solver.
  - cbn [root]. intros [= ->]. apply elem_of_app in Hx as [Hx|Hx]; [|done].
    apply (Hd x); [done|set_solver].
Qed.
End engine_move.

Section world_swap.
Context {L R : Type}.
Implicit Types (w : world L R) (o : bimap_obj L R).

Lemma store_root_left w b o tl tr :
  store_inv w b o tl tr → tl ≠ Leaf →
  ∃ i n rr m,
    root tl = Some (Sub i SLeft) ∧ root tr = Some rr
    ∧ rr ∈ inorder tr
    ∧ links w !! Sub i SLeft = Some n ∧ parent n = Some (Sentinel b SLeft)
    ∧ links w !! rr = Some m ∧ parent m = Some (Sentinel b SRight).
Proof.
  intros Hinv Hne. pose proof (store_lengths _ _ _ _ _ Hinv) as Hlen.
  pose proof Hinv as (_ & _ & _ & (_ & Hrl & _) & (_ & Hrr & _) & _).
  destruct tl as [|l a r]; [done|]. destruct tr as [|l' a' r'].
  { cbn in Hlen. rewrite length_app in Hlen. cbn in Hlen. lia. }
  destruct (store_left_elem _ _ _ _ _ _ Hinv (root_elem (Node l a r) a eq_refl))
    as (i & ? & ? & -> & _).
  destruct Hrl as (Ha & _). destruct Hrr as (Ha' & _).
  eexists i, _, a', _. split_and!; try done. by apply root_elem.
Qed.

Lemma obj_with_obj_eq w b o : bimap.obj (bimap.with_obj w b o) b = Ret o.
Proof. unfold bimap.obj. cbn. by rewrite lookup_insert_eq. Qed.

Lemma obj_with_obj_ne w b b' o :
  b ≠ b' → bimap.obj (bimap.with_obj w b o) b' = bimap.obj w b'.
Proof. intros. unfold bimap.obj. cbn. by rewrite lookup_insert_ne. Qed.

Lemma obj_with_links w h b : bimap.obj (bimap.with_links w h) b = bimap.obj w b.
Proof. done. Qed.

Lemma obj_Some w b o : objs w !! b = Some o → bimap.obj w b = Ret o.
Proof. unfold bimap.obj. by intros ->. Qed.

Lemma world_eq w w' :
  links w = links w' → values w = values w' → objs w = objs w' →
  next_record w = next_record w' → next_obj w = next_obj w' → w = w'.
Proof. destruct w, w'. cbn. by intros -> -> -> -> ->. Qed.

(** A store whose two sentinels are re-seated at [b']. *)
Lemma store_inv_move w w' b b' o tl tr :
  store_inv w b o tl tr →
  objs w' !! b' = Some o →
  links w' !! Sentinel b' SLeft
    = Some (NodeBase None (root tl) (Some (Sentinel b' SRight))) →
  links w' !! Sentinel b' SRight
    = Some (NodeBase None (root tr) (Some (Sentinel b' SLeft))) →
  (∀ a n, root tl = Some a → links w !! a = Some n →
     links w' !! a = Some (set_parent (Some (Sentinel b' SLeft)) n)) →
  (∀ a n, root tr = Some a → links w !! a = Some n →
     links w' !! a = Some (set_parent (Some (Sentinel b' SRight)) n)) →
  (∀ x, x ∈ inorder tl ++ inorder tr → root tl ≠ Some x → root tr ≠ Some x →
     links w' !! x = links w !! x) →
  values w' = values w → next_record w' = next_record w →
  store_inv w' b' o tl tr.
Proof.
  intros Hinv Ho HsL HsR HrL HrR Hrest Hvals Hnext.
  pose proof Hinv as (_ & Hl & Hr & Hel & Her & Hpair & Hsz & Hfr).
  assert (HvL : ∀ a, bimap.value_left w' a = bimap.value_left w a)
    by (intros a; unfold bimap.value_left; by rewrite Hvals).
  assert (HvR : ∀ a, bimap.value_right w' a = bimap.value_right w a)
    by (intros a; unfold bimap.value_right; by rewrite Hvals).
  split_and!; try done.
  - eapply (engine_inv_ext _ (bimap.value_left w)); [|done|by intros; apply HvL].
    eapply engine_inv_move; try done.
    + intros x Hx Hrx. apply Hrest; [set_solver|done|].
      intros Hrx'. apply root_elem in Hrx'.
      eapply (store_disjoint _ _ _ _ _ x Hinv); set_solver.
    + intros a [= <-] Ha.
      by destruct (store_left_elem _ _ _ _ _ _ Hinv Ha) as (? & ? & ? & ? & _).
  - eapply (engine_inv_ext _ (bimap.value_right w)); [|done|by intros; apply HvR].
    eapply engine_inv_move; try done.
    + intros x Hx Hrx. apply Hrest; [set_solver| |done].
      intros Hrx'. apply root_elem in Hrx'.
      eapply (store_disjoint _ _ _ _ _ x Hinv); set_solver.
    + intros a [= <-] Ha.
      by destruct (store_right_elem _ _ _ _ _ _ Hinv Ha) as (? & ? & ? & ? & _).
  - intros i Hi. rewrite Hnext. by apply Hfr.
Qed.

Lemma swap_sizes_spec w b1 b2 o1 o2 :
  bimap.obj w b1 = Ret o1 → bimap.obj w b2 = Ret o2 → b1 ≠ b2 →
  bimap.swap_sizes w b1 b2 =
    Ret (bimap.with_obj
           (bimap.with_obj w b1 (BimapObj (m_size o2) (cmp_left o1) (cmp_right o1)))
           b2 (BimapObj (m_size o1) (cmp_left o2) (cmp_right o2))).
Proof.
  intros H1 H2 Hne. unfold bimap.swap_sizes. rewrite H1, H2. osimpl. cbv zeta.
  by rewrite obj_with_obj_ne, H2.
Qed.

Lemma swap_cmp_spec tag w b1 b2 o1 o2 :
  bimap.obj w b1 = Ret o1 → bimap.obj w b2 = Ret o2 → b1 ≠ b2 →
  bimap.swap_cmp tag w b1 b2 =
    Ret (match tag with
         | SLeft =>
             bimap.with_obj
               (bimap.with_obj w b1
                  (BimapObj (m_size o1) (cmp_left o2) (cmp_right o1)))
               b2 (BimapObj (m_size o2) (cmp_left o1) (cmp_right o2))
         | SRight =>
             bimap.with_obj
               (bimap.with_obj w b1
                  (BimapObj (m_size o1) (cmp_left o1) (cmp_right o2)))
               b2 (BimapObj (m_size o2) (cmp_left o2) (cmp_right o1))
         end).
Proof.
  intros H1 H2 Hne. unfold bimap.swap_cmp. rewrite H1, H2. osimpl.
  destruct tag; cbv zeta; by rewrite obj_with_obj_ne, H2.
Qed.

Lemma swap_run w b1 b2 o1 o2 i1 i2 j1 j2 nl1 nl2 nr1 nr2 :
  objs w !! b1 = Some o1 → objs w !! b2 = Some o2 → b1 ≠ b2 →
  links w !! Sentinel b1 SLeft
    = Some (NodeBase None (Some (Sub i1 SLeft)) (Some (Sentinel b1 SRight))) →
  links w !! Sentinel b1 SRight
    = Some (NodeBase None (Some (Sub j1 SRight)) (Some (Sentinel b1 SLeft))) →
  links w !! Sentinel b2 SLeft
    = Some (NodeBase None (Some (Sub i2 SLeft)) (Some (Sentinel b2 SRight))) →
  links w !! Sentinel b2 SRight
    = Some (NodeBase None (Some (Sub j2 SRight)) (Some (Sentinel b2 SLeft))) →
  links w !! Sub i1 SLeft = Some nl1 → parent nl1 = Some (Sentinel b1 SLeft) →
  links w !! Sub i2 SLeft = Some nl2 → parent nl2 = Some (Sentinel b2 SLeft) →
  links w !! Sub j1 SRight = Some nr1 → parent nr1 = Some (Sentinel b1 SRight) →
  links w !! Sub j2 SRight = Some nr2 → parent nr2 = Some (Sentinel b2 SRight) →
  i1 ≠ i2 → j1 ≠ j2 →
  ∃ hF,
    bimap.swap w b1 b2
    = Ret (World hF (values w) (<[b2 := o1]> (<[b1 := o2]> (objs w)))
             (next_record w) (next_obj w))
    ∧ hF !! Sentinel b1 SLeft
      = Some (NodeBase None (Some (Sub i2 SLeft)) (Some (Sentinel b1 SRight)))
    ∧ hF !! Sentinel b1 SRight
      = Some (NodeBase None (Some (Sub j2 SRight)) (Some (Sentinel b1 SLeft)))
    ∧ hF !! Sentinel b2 SLeft
      = Some (NodeBase None (Some (Sub i1 SLeft)) (Some (Sentinel b2 SRight)))
    ∧ hF !! Sentinel b2 SRight
      = Some (NodeBase None (Some (Sub j1 SRight)) (Some (Sentinel b2 SLeft)))
    ∧ hF !! Sub i1 SLeft = Some (set_parent (Some (Sentinel b2 SLeft)) nl1)
    ∧ hF !! Sub i2 SLeft = Some (set_parent (Some (Sentinel b1 SLeft)) nl2)
    ∧ hF !! Sub j1 SRight = Some (set_parent (Some (Sentinel b2 SRight)) nr1)
    ∧ hF !! Sub j2 SRight = Some (set_parent (Some (Sentinel b1 SRight)) nr2)
    ∧ (∀ y, (∀ b s, (b = b1 ∨ b = b2) → y ≠ Sentinel b s) →
         y ≠ Sub i1 SLeft → y ≠ Sub i2 SLeft →
         y ≠ Sub j1 SRight → y ≠ Sub j2 SRight → hF !! y = links w !! y).
Proof.
  intros Ho1 Ho2 Hne HsL1 HsR1 HsL2 HsR2 Hnl1 Hpl1 Hnl2 Hpl2 Hnr1 Hpr1 Hnr2 Hpr2
    Hi12 Hj12.
  pose proof (obj_Some _ _ _ Ho1) as Ho1b. pose proof (obj_Some _ _ _ Ho2) as Ho2b.
  assert (Hne' : b2 ≠ b1) by done.
  (* the members *)
  unfold bimap.swap. rewrite (swap_sizes_spec _ _ _ _ _ Ho1b Ho2b Hne). osimpl.
  unfold bimap.tree_swap.
  erewrite (swap_cmp_spec SLeft); [| by rewrite obj_with_obj_ne, obj_with_obj_eq
                                   | by rewrite obj_with_obj_eq | done].
  osimpl. cbn [links bimap.with_obj m_size cmp_left cmp_right objs].
  destruct (tree_swap_spec (links w) (Sentinel b1 SLeft) (Sentinel b2 SLeft)
              (Sub i1 SLeft) (Sub i2 SLeft) _ _ nl1 nl2 HsL1 HsL2 Hnl1 Hnl2)
    as (hL & -> & HL1 & HL2 & HLr1 & HLr2 & HLfr); [congruence..|].
  osimpl.
  erewrite (swap_cmp_spec SRight);
    [| by rewrite obj_with_links, (obj_with_obj_ne _ b2 b1), obj_with_obj_eq
     | by rewrite obj_with_links, obj_with_obj_eq | done].
  osimpl. cbn [links bimap.with_obj bimap.with_links m_size cmp_left cmp_right objs].
  rewrite <-HLfr in HsR1, HsR2, Hnr1, Hnr2 by done.
  destruct (tree_swap_spec hL (Sentinel b1 SRight) (Sentinel b2 SRight)
              (Sub j1 SRight) (Sub j2 SRight) _ _ nr1 nr2 HsR1 HsR2 Hnr1 Hnr2)
    as (hR & -> & HR1 & HR2 & HRr1 & HRr2 & HRfr); [congruence..|].
  osimpl. unfold bimap.link_trees, tree.set_link_to_other_tree, tree.get_sentinel_ptr.
  cbn [links bimap.with_obj bimap.with_links m_size cmp_left cmp_right objs].
  assert (HRL1 : hR !! Sentinel b1 SLeft = Some
            (NodeBase None (Some (Sub i2 SLeft)) (Some (Sentinel b2 SRight))))
    by (by rewrite HRfr).
  assert (HRL2 : hR !! Sentinel b2 SLeft = Some
            (NodeBase None (Some (Sub i1 SLeft)) (Some (Sentinel b1 SRight))))
    by (by rewrite HRfr).
  assert (HRl1 : hR !! Sub i1 SLeft = Some (set_parent (parent nl2) nl1))
    by (by rewrite HRfr).
  assert (HRl2 : hR !! Sub i2 SLeft = Some (set_parent (parent nl1) nl2))
    by (by rewrite HRfr).
  rewrite (store_Some _ (Sentinel b1 SLeft) _ _ HRL1). osimpl.
  rewrite (store_Some _ (Sentinel b1 SRight)
             (NodeBase None (Some (Sub j2 SRight)) (Some (Sentinel b2 SLeft))))
    by (by lk).
  osimpl. cbn [links bimap.with_links].
  rewrite (store_Some _ (Sentinel b2 SLeft)
             (NodeBase None (Some (Sub i1 SLeft)) (Some (Sentinel b1 SRight))))
    by (by lk).
  osimpl.
  rewrite (store_Some _ (Sentinel b2 SRight)
             (NodeBase None (Some (Sub j1 SRight)) (Some (Sentinel b1 SLeft))))
    by (by lk).
  osimpl. eexists. split.
  { f_equal. apply world_eq;
      cbn [links values objs next_record next_obj bimap.with_links bimap.with_obj];
      [reflexivity|done| |done..].
    apply map_eq. intros b.
    destruct o1 as [s1 cl1 cr1], o2 as [s2 cl2 cr2].
    cbn [m_size cmp_left cmp_right].
    destruct (decide (b = b2)) as [->|?]; [by lk|].
    destruct (decide (b = b1)) as [->|?]; by lk. }
  split_and!.
  - by lk.
  - by lk.
  - by lk.
  - by lk.
  - lk. by rewrite HRl1, Hpl2.
  - lk. by rewrite HRl2, Hpl1.
  - lk. by rewrite HRr1, Hpr2.
  - lk. by rewrite HRr2, Hpr1.
  - intros y Hy ? ? ? ?.
    assert (y ≠ Sentinel b1 SLeft) by (apply Hy; by left).
    assert (y ≠ Sentinel b1 SRight) by (apply Hy; by left).
    assert (y ≠ Sentinel b2 SLeft) by (apply Hy; by right).
    assert (y ≠ Sentinel b2 SRight) by (apply Hy; by right).
    lk. rewrite HRfr, HLfr by done. done.
Qed.

Lemma swap_spec w sh b1 b2 o1 o2 :
  world_shapes w sh →
  objs w !! b1 = Some o1 → objs w !! b2 = Some o2 → b1 ≠ b2 →
  (sh b1).1 ≠ Leaf → (sh b2).1 ≠ Leaf →
  ∃ w', bimap.swap w b1 b2 = Ret w'
    ∧ world_shapes w' (<[b2 := sh b1]> (<[b1 := sh b2]> sh))
    ∧ objs w' = <[b2 := o1]> (<[b1 := o2]> (objs w))
    ∧ values w' = values w.
Proof.
  intros Hsh Ho1 Ho2 Hne Hne1 Hne2. pose proof Hsh as (Hall & Hdisj).
  pose proof (obj_Some _ _ _ Ho1) as Ho1b. pose proof (obj_Some _ _ _ Ho2) as Ho2b.
  destruct (Hall b1 o1 Ho1) as [Hinv1 Hb1].
  destruct (Hall b2 o2 Ho2) as [Hinv2 Hb2].
  destruct (store_root_left _ _ _ _ _ Hinv1 Hne1)
    as (i1 & nl1 & rr1 & nr1 & Hrl1 & Hrr1 & Hrr1in & Hnl1 & Hpl1 & Hnr1 & Hpr1).
  destruct (store_root_left _ _ _ _ _ Hinv2 Hne2)
    as (i2 & nl2 & rr2 & nr2 & Hrl2 & Hrr2 & Hrr2in & Hnl2 & Hpl2 & Hnr2 & Hpr2).
  destruct (store_right_elem _ _ _ _ _ _ Hinv1 Hrr1in) as (j1 & ? & ? & -> & _).
  destruct (store_right_elem _ _ _ _ _ _ Hinv2 Hrr2in) as (j2 & ? & ? & -> & _).
  pose proof Hinv1 as (_ & Hl1 & Hr1 & Hel1 & Her1 & Hpair1 & Hsz1 & Hfr1).
  pose proof Hinv2 as (_ & Hl2 & Hr2 & Hel2 & Her2 & Hpair2 & Hsz2 & Hfr2).
  pose proof Hel1 as (HsL1 & _). pose proof Her1 as (HsR1 & _).
  pose proof Hel2 as (HsL2 & _). pose proof Her2 as (HsR2 & _).
  rewrite Hrl1 in HsL1. rewrite Hrr1 in HsR1.
  rewrite Hrl2 in HsL2. rewrite Hrr2 in HsR2.
  assert (Hi12 : i1 ≠ i2).
  { intros ->. apply Hne. apply (Hdisj b1 b2 (Sub i2 SLeft)); [by eexists..| |];
      by apply root_elem. }
  assert (Hj12 : j1 ≠ j2).
  { intros ->. apply Hne. apply (Hdisj b1 b2 (Sub j2 SLeft)); [by eexists..| |].
    - by apply Hpair1.
    - by apply Hpair2. }
  assert (Hne' : b2 ≠ b1) by done.
  destruct (swap_run w b1 b2 o1 o2 i1 i2 j1 j2 nl1 nl2 nr1 nr2)
    as (hF & -> & HF_L1 & HF_R1 & HF_L2 & HF_R2 & HF_l1 & HF_l2 & HF_r1 & HF_r2
        & HF_rest); [done..|].
  eexists. split; [reflexivity|]. split; [|done].
  set (w' := World _ _ _ _ _).
  assert (Hin_l1 : Sub i1 SLeft ∈ inorder (sh b1).1) by (by apply root_elem).
  assert (Hin_l2 : Sub i2 SLeft ∈ inorder (sh b2).1) by (by apply root_elem).
  assert (Hsub : ∀ b o y, objs w !! b = Some o →
            y ∈ inorder (sh b).1 ++ inorder (sh b).2 →
            (∃ i, y = Sub i SLeft ∧ y ∈ inorder (sh b).1)
            ∨ (∃ i, y = Sub i SRight ∧ Sub i SLeft ∈ inorder (sh b).1)).
  { intros b o y Ho Hx. destruct (Hall b o Ho) as [Hinv _].
    apply elem_of_app in Hx as [Hx|Hx].
    - destruct (store_left_elem _ _ _ _ _ _ Hinv Hx) as (i & ? & ? & -> & _).
      left. by exists i.
    - destruct (store_right_elem _ _ _ _ _ _ Hinv Hx) as (i & ? & ? & -> & _).
      right. exists i. split; [done|].
      by apply (proj1 (proj2 (proj2 (proj2 (proj2 (proj2 Hinv)))))). }
  assert (Hforeign : ∀ b o y, objs w !! b = Some o →
            y ∈ inorder (sh b).1 ++ inorder (sh b).2 →
            ∀ b' i, is_Some (objs w !! b') → Sub i SLeft ∈ inorder (sh b').1 →
              b ≠ b' → y ≠ Sub i SLeft ∧ y ≠ Sub i SRight).
  { intros b o y Ho Hx b' i Ho' Hi Hbb.
    destruct (Hsub b o y Ho Hx) as [(k & -> & Hk)|(k & -> & Hk)].
    - split; [|done]. intros [= ->]. apply Hbb. by apply (Hdisj b b' (Sub i SLeft)).
    - split; [done|]. intros [= ->]. apply Hbb. by apply (Hdisj b b' (Sub i SLeft)). }
  assert (Hj1 : Sub j1 SLeft ∈ inorder (sh b1).1) by (by apply Hpair1).
  assert (Hj2 : Sub j2 SLeft ∈ inorder (sh b2).1) by (by apply Hpair2).
  assert (Hnosent : ∀ b o y, objs w !! b = Some o →
            y ∈ inorder (sh b).1 ++ inorder (sh b).2 → ∀ b' s, y ≠ Sentinel b' s).
  { intros b o y Ho Hx b' s ->.
    by destruct (Hsub b o _ Ho Hx) as [(k & ? & _)|(k & ? & _)]. }
  split.
  - intros b o Hbo. cbn [objs w' next_obj] in *.
    destruct (decide (b = b2)) as [->|Hnb2].
    { rewrite lookup_insert_eq in Hbo. injection Hbo as <-.
      rewrite fn_lookup_insert. split; [|done].
      apply (store_inv_move w w' b1 b2 o1 _ _ Hinv1); cbn [links values objs next_record w'].
      - by lk.
      - by rewrite Hrl1.
      - by rewrite Hrr1.
      - intros a n. rewrite Hrl1. intros [= <-] Hn. by simplify_eq.
      - intros a n. rewrite Hrr1. intros [= <-] Hn. by simplify_eq.
      - intros y Hy. rewrite Hrl1, Hrr1. intros Hx1 Hx2.
        destruct (Hforeign b1 o1 y Ho1 Hy b2 i2) as [? _]; [by eexists|done..|].
        destruct (Hforeign b1 o1 y Ho1 Hy b2 j2) as [_ ?]; [by eexists|done..|].
        apply HF_rest; try congruence.
        intros b s _. by apply (Hnosent b1 o1).
      - done.
      - done. }
    rewrite lookup_insert_ne in Hbo by done.
    destruct (decide (b = b1)) as [->|Hnb1].
    { rewrite lookup_insert_eq in Hbo. injection Hbo as <-.
      rewrite fn_lookup_insert_ne, fn_lookup_insert by done. split; [|done].
      apply (store_inv_move w w' b2 b1 o2 _ _ Hinv2); cbn [links values objs next_record w'].
      - by lk.
      - by rewrite Hrl2.
      - by rewrite Hrr2.
      - intros a n. rewrite Hrl2. intros [= <-] Hn. by simplify_eq.
      - intros a n. rewrite Hrr2. intros [= <-] Hn. by simplify_eq.
      - intros y Hy. rewrite Hrl2, Hrr2. intros Hx1 Hx2.
        destruct (Hforeign b2 o2 y Ho2 Hy b1 i1) as [? _]; [by eexists|done..|].
        destruct (Hforeign b2 o2 y Ho2 Hy b1 j1) as [_ ?]; [by eexists|done..|].
        apply HF_rest; try congruence.
        intros b s _. by apply (Hnosent b2 o2).
      - done.
      - done. }
    rewrite lookup_insert_ne in Hbo by done.
    rewrite !fn_lookup_insert_ne by done.
    destruct (Hall b o Hbo) as [Hinv Hb]. split; [|done].
    apply (store_inv_frame w w' b o _ _ Hinv); cbn [links values objs next_record w'].
    + by lk.
    + intros a. unfold footprint. rewrite !elem_of_cons.
      intros [->|[->|Ha]].
      * apply HF_rest; try done. intros b' s [->| ->]; congruence.
      * apply HF_rest; try done. intros b' s [->| ->]; congruence.
      * destruct (Hforeign b o a Hbo Ha b1 i1) as [? _]; [by eexists|done..|].
        destruct (Hforeign b o a Hbo Ha b1 j1) as [_ ?]; [by eexists|done..|].
        destruct (Hforeign b o a Hbo Ha b2 i2) as [? _]; [by eexists|done..|].
        destruct (Hforeign b o a Hbo Ha b2 j2) as [_ ?]; [by eexists|done..|].
        apply HF_rest; try done.
        intros b' s _. by apply (Hnosent b o).
    + done.
    + done.
  - intros b b' a. cbn [objs w'].
    set (p := λ b, if decide (b = b2) then b1 else if decide (b = b1) then b2 else b).
    assert (Hp : ∀ b, (<[b2 := sh b1]> (<[b1 := sh b2]> sh)) b = sh (p b)).
    { intros c. unfold p. destruct (decide (c = b2)) as [->|?].
      - by rewrite fn_lookup_insert.
      - rewrite fn_lookup_insert_ne by done. destruct (decide (c = b1)) as [->|?].
        + by rewrite fn_lookup_insert.
        + by rewrite fn_lookup_insert_ne. }
    assert (Hlive : ∀ c, is_Some (<[b2 := o1]> (<[b1 := o2]> (objs w)) !! c) →
              is_Some (objs w !! p c)).
    { intros c. unfold p. destruct (decide (c = b2)) as [->|?]; [by eexists|].
      destruct (decide (c = b1)) as [->|?]; [by eexists|]. by lk. }
    assert (Hinj : ∀ c c', p c = p c' → c = c').
    { intros c c'. unfold p. repeat case_decide; congruence. }
    intros Hb Hb'. rewrite !Hp. intros Ha Ha'.
    apply Hinj. apply (Hdisj _ _ a); auto.
Qed.
End world_swap.

(** ** [swap] with itself, and with an empty store *)

Section world_swap_edge.
Context {L R : Type}.
Implicit Types (w : world L R) (o : bimap_obj L R).

Lemma with_obj_same w b o : objs w !! b = Some o → bimap.with_obj w b o = w.
Proof.
  intros Ho. destruct w as [h v m nr no]. unfold bimap.with_obj. cbn in *.
  by rewrite insert_id.
Qed.

Lemma swap_sizes_live w b1 b2 :
  is_Some (objs w !! b1) → is_Some (objs w !! b2) →
  ∃ w1, bimap.swap_sizes w b1 b2 = Ret w1
    ∧ links w1 = links w
    ∧ is_Some (objs w1 !! b1) ∧ is_Some (objs w1 !! b2).
Proof.
  intros [o1 Ho1] [o2 Ho2]. unfold bimap.swap_sizes.
  rewrite (obj_Some _ _ _ Ho1), (obj_Some _ _ _ Ho2). osimpl. cbv zeta.
  destruct (decide (b1 = b2)) as [->|Hne].
  - rewrite obj_with_obj_eq. osimpl. eexists. split; [reflexivity|].
    cbn. split; [done|]. rewrite lookup_insert_eq. split; by eexists.
  - rewrite obj_with_obj_ne, (obj_Some _ _ _ Ho2) by done. osimpl.
    eexists. split; [reflexivity|]. cbn. split; [done|].
    rewrite lookup_insert_ne, !lookup_insert_eq by done. split; by eexists.
Qed.

Lemma swap_cmp_live tag w b1 b2 :
  is_Some (objs w !! b1) → is_Some (objs w !! b2) →
  ∃ w1, bimap.swap_cmp tag w b1 b2 = Ret w1
    ∧ links w1 = links w
    ∧ is_Some (objs w1 !! b1) ∧ is_Some (objs w1 !! b2).
Proof.
  intros [o1 Ho1] [o2 Ho2]. unfold bimap.swap_cmp.
  rewrite (obj_Some _ _ _ Ho1), (obj_Some _ _ _ Ho2). osimpl.
  destruct (decide (b1 = b2)) as [->|Hne]; destruct tag; cbv zeta.
  1,2: rewrite obj_with_obj_eq; osimpl; eexists; split; [reflexivity|];
       cbn; split; [done|]; rewrite lookup_insert_eq; split; by eexists.
  all: rewrite obj_with_obj_ne, (obj_Some _ _ _ Ho2) by done; osimpl;
       eexists; (split; [reflexivity|]); cbn; (split; [done|]);
       rewrite lookup_insert_ne, !lookup_insert_eq by done; split; by eexists.
Qed.

(** [a.swap(b)] with [a] or [b] empty: [m_sentinel.left] is null, and
    [intrusive_tree::swap] reads [parent] through it. *)
Lemma swap_empty w sh b1 b2 :
  world_shapes w sh →
  is_Some (objs w !! b1) → is_Some (objs w !! b2) →
  (sh b1).1 = Leaf ∨ (sh b2).1 = Leaf →
  bimap.swap w b1 b2 = Undefined.
Proof.
  intros (Hall & _) Hb1 Hb2 Hempty.
  pose proof Hb1 as [o1 Ho1]. pose proof Hb2 as [o2 Ho2].
  destruct (Hall _ _ Ho1) as [(_ & _ & _ & (Hs1 & _) & _) _].
  destruct (Hall _ _ Ho2) as [(_ & _ & _ & (Hs2 & _) & _) _].
  unfold bimap.swap.
  destruct (swap_sizes_live w b1 b2 Hb1 Hb2) as (w1 & -> & Hl1 & Hb1' & Hb2').
  osimpl. unfold bimap.tree_swap.
  destruct (swap_cmp_live SLeft w1 b1 b2 Hb1' Hb2') as (w2 & -> & Hl2 & _).
  osimpl. rewrite Hl2, Hl1.
  destruct Hempty as [He|He]; rewrite He in *; cbn [root] in *.
  - by rewrite (tree_swap_empty_this _ _ _ _ Hs1 eq_refl).
  - by rewrite (tree_swap_empty_that _ _ _ _ _ Hs1 Hs2 eq_refl).
Qed.

(** [a.swap(a)] on a store that is not empty changes nothing. *)
Lemma swap_self w sh b o :
  world_shapes w sh → objs w !! b = Some o → (sh b).1 ≠ Leaf →
  bimap.swap w b b = Ret w.
Proof.
  intros (Hall & _) Ho Hne. destruct (Hall _ _ Ho) as [Hinv _].
  destruct (store_root_left _ _ _ _ _ Hinv Hne)
    as (i & nl & rr & nr & Hrl & Hrr & Hrrin & Hnl & Hpl & Hnr & Hpr).
  pose proof Hinv as (_ & _ & _ & (HsL & _) & (HsR & _) & _).
  rewrite Hrl in HsL. rewrite Hrr in HsR.
  assert (Hrs : rr ≠ Sentinel b SRight).
  { intros ->. by destruct (store_right_elem _ _ _ _ _ _ Hinv Hrrin)
      as (? & ? & ? & ? & _). }
  pose proof (obj_Some _ _ _ Ho) as Hob.
  unfold bimap.swap, bimap.swap_sizes. rewrite Hob. osimpl. cbv zeta.
  rewrite obj_with_obj_eq. osimpl. cbn [m_size cmp_left cmp_right].
  assert (Hid : ∀ w0, objs w0 !! b = Some o →
            bimap.with_obj
              (bimap.with_obj w0 b (BimapObj (m_size o) (cmp_left o) (cmp_right o)))
              b (BimapObj (m_size o) (cmp_left o) (cmp_right o)) = w0).
  { intros w0 Ho0. destruct o. rewrite (with_obj_same w0) by done.
    by apply with_obj_same. }
  rewrite (Hid w Ho).
  assert (Hswap : ∀ tag, bimap.swap_cmp tag w b b = Ret w).
  { intros tag. unfold bimap.swap_cmp. rewrite Hob. osimpl.
    destruct tag; cbv zeta; rewrite obj_with_obj_eq; osimpl;
      cbn [m_size cmp_left cmp_right]; by rewrite (Hid w Ho). }
  unfold bimap.tree_swap. rewrite !Hswap. osimpl.
  rewrite (tree_swap_self _ _ _ _ _ HsL Hnl) by done. osimpl.
  assert (Hwl : bimap.with_links w (links w) = w) by (by destruct w).
  rewrite Hwl, Hswap. osimpl.
  rewrite (tree_swap_self _ _ _ _ _ HsR Hnr) by done. osimpl. rewrite Hwl.
  assert (Hlink : bimap.link_trees w b = Ret w).
  { unfold bimap.link_trees, tree.set_link_to_other_tree, tree.get_sentinel_ptr.
    rewrite (store_Some _ _ _ _ HsL). osimpl.
    rewrite (store_Some _ (Sentinel b SRight)
               (NodeBase None (Some rr) (Some (Sentinel b SLeft)))) by (by lk).
    osimpl. destruct w as [h v m nr' no]. unfold bimap.with_links. cbn in *.
    f_equal. f_equal. apply map_eq. intros y.
    destruct (decide (y = Sentinel b SRight)) as [->|?]; [by lk|].
    destruct (decide (y = Sentinel b SLeft)) as [->|?]; by lk. }
  rewrite Hlink. osimpl. by rewrite Hlink.
Qed.
End world_swap_edge.

(** ** The worlds a program can reach *)

Section reachable_facts.
Context {L R : Type}.
Variable default_left : L.
Variable default_right : R.
Implicit Types (w : world L R) (o : bimap_obj L R).

Lemma left_key_dec w b o tl tr l :
  store_inv w b o tl tr →
  (∃ r, (l, r) ∈ records w tl) ∨ (∀ r, (l, r) ∉ records w tl).
Proof.
  intros Hinv. pose proof Hinv as (_ & Hl & _ & (_ & _ & Hb & _) & _).
  destruct (holds_dec _ _ Hl tl l Hb) as [Hx|Hno].
  - left. by apply (holds_left_records _ _ _ _ _ l Hinv).
  - right. intros r Hr.
    assert (∃ r, (l, r) ∈ records w tl) as Hex by (by exists r).
    apply (holds_left_records _ _ _ _ _ l Hinv) in Hex as [x Hx].
    by apply (Hno x).
Qed.

Lemma right_key_dec w b o tl tr r :
  store_inv w b o tl tr →
  (∃ l, (l, r) ∈ records w tl) ∨ (∀ l, (l, r) ∉ records w tl).
Proof.
  intros Hinv. pose proof Hinv as (_ & _ & Hr & _ & (_ & _ & Hb & _) & _).
  destruct (holds_dec _ _ Hr tr r Hb) as [Hx|Hno].
  - left. by apply (holds_right_records _ _ _ _ _ r Hinv).
  - right. intros l Hl.
    assert (∃ l, (l, r) ∈ records w tl) as Hex by (by exists l).
    apply (holds_right_records _ _ _ _ _ r Hinv) in Hex as [x Hx].
    by apply (Hno x).
Qed.

Lemma left_nodes_spec w b o tl tr :
  store_inv w b o tl tr → left_nodes w b = Ret (inorder tl).
Proof.
  intros (_ & Hl & _ & Hel & _). unfold left_nodes.
  by eapply nodes_spec.
Qed.

Lemma right_nodes_spec w b o tl tr :
  store_inv w b o tl tr → right_nodes w b = Ret (inorder tr).
Proof.
  intros (_ & _ & Hr & _ & Her & _). unfold right_nodes.
  by eapply nodes_spec.
Qed.

Lemma world_inv_step w sh b o w' o' tl' tr' :
  world_shapes w sh → objs w !! b = Some o →
  store_inv w' b o' tl' tr' →
  evolves w w' b (sh b).1 (sh b).2 tl' tr' →
  world_inv w'.
Proof. intros. eexists. by eapply world_shapes_evolves. Qed.

Lemma erase_left_inv w b it w' res :
  world_inv w → is_Some (objs w !! b) → valid_left w b it →
  bimap.erase_left w b it = Ret (w', res) → world_inv w'.
Proof.
  intros [sh Hsh] [o Ho] Hval He. pose proof Hsh as (Hall & _).
  destruct (Hall b o Ho) as [Hinv _].
  destruct Hval as [->|[->|(ns & a & Hns & Ha & ->)]].
  - rewrite erase_left_null in He. injection He as <- _. by exists sh.
  - rewrite erase_left_end in He. injection He as <- _. by exists sh.
  - rewrite (left_nodes_spec _ _ _ _ _ Hinv) in Hns. injection Hns as <-.
    destruct (store_left_elem _ _ _ _ _ _ Hinv Ha) as (i & l & r & -> & Hv & _).
    destruct (erase_left_evolves _ _ _ _ _ _ _ Hinv Ha Hv)
      as (w1 & tl' & tr' & He' & Hinv' & Hev & _).
    rewrite He' in He. injection He as <- _.
    by eapply world_inv_step.
Qed.

Lemma erase_right_inv w b it w' res :
  world_inv w → is_Some (objs w !! b) → valid_right w b it →
  bimap.erase_right w b it = Ret (w', res) → world_inv w'.
Proof.
  intros [sh Hsh] [o Ho] Hval He. pose proof Hsh as (Hall & _).
  destruct (Hall b o Ho) as [Hinv _].
  destruct Hval as [->|[->|(ns & a & Hns & Ha & ->)]].
  - rewrite erase_right_null in He. injection He as <- _. by exists sh.
  - rewrite erase_right_end in He. injection He as <- _. by exists sh.
  - rewrite (right_nodes_spec _ _ _ _ _ Hinv) in Hns. injection Hns as <-.
    destruct (store_right_elem _ _ _ _ _ _ Hinv Ha) as (i & l & r & -> & Hv & _).
    destruct (erase_right_evolves _ _ _ _ _ _ _ Hinv Ha Hv)
      as (w1 & tl' & tr' & He' & Hinv' & Hev & _).
    rewrite He' in He. injection He as <- _.
    by eapply world_inv_step.
Qed.

Lemma insert_inv w b l r w' it :
  world_inv w → is_Some (objs w !! b) →
  bimap.insert w b l r = Ret (w', it) → world_inv w'.
Proof.
  intros [sh Hsh] [o Ho] Hi. pose proof Hsh as (Hall & _).
  destruct (Hall b o Ho) as [Hinv _].
  destruct (left_key_dec _ _ _ _ _ l Hinv) as [Hl|Hl].
  { rewrite (insert_dup _ _ _ _ _ l r Hinv) in Hi by (by left).
    injection Hi as <- _. by exists sh. }
  destruct (right_key_dec _ _ _ _ _ r Hinv) as [Hr|Hr].
  { rewrite (insert_dup _ _ _ _ _ l r Hinv) in Hi by (by right).
    injection Hi as <- _. by exists sh. }
  destruct (insert_fresh_evolves _ _ _ _ _ l r Hinv Hl Hr)
    as (w1 & tl' & tr' & Hi' & Hinv' & Hev & _).
  rewrite Hi' in Hi. injection Hi as <- _. by eapply world_inv_step.
Qed.

Lemma erase_left_key_inv w b k w' res :
  world_inv w → is_Some (objs w !! b) →
  bimap.erase_left_key w b k = Ret (w', res) → world_inv w'.
Proof.
  intros [sh Hsh] [o Ho] He. pose proof Hsh as (Hall & _).
  destruct (Hall b o Ho) as [Hinv _].
  destruct (left_key_dec _ _ _ _ _ k Hinv) as [[r Hl]|Hl].
  - destruct (erase_left_key_found _ _ _ _ _ _ _ Hinv Hl)
      as (w1 & tl' & tr' & He' & Hinv' & Hev & _).
    rewrite He' in He. injection He as <- _. by eapply world_inv_step.
  - rewrite (erase_left_key_missing _ _ _ _ _ _ Hinv Hl) in He.
    injection He as <- _. by exists sh.
Qed.

Lemma erase_right_key_inv w b k w' res :
  world_inv w → is_Some (objs w !! b) →
  bimap.erase_right_key w b k = Ret (w', res) → world_inv w'.
Proof.
  intros [sh Hsh] [o Ho] He. pose proof Hsh as (Hall & _).
  destruct (Hall b o Ho) as [Hinv _].
  destruct (right_key_dec _ _ _ _ _ k Hinv) as [[l Hl]|Hl].
  - destruct (erase_right_key_found _ _ _ _ _ _ _ Hinv Hl)
      as (w1 & tl' & tr' & He' & Hinv' & Hev & _).
    rewrite He' in He. injection He as <- _. by eapply world_inv_step.
  - rewrite (erase_right_key_missing _ _ _ _ _ _ Hinv Hl) in He.
    injection He as <- _. by exists sh.
Qed.

Lemma erase_left_range_inv w b first last w' res :
  world_inv w → is_Some (objs w !! b) → valid_left_range w b first last →
  bimap.erase_left_range w b first last = Ret (w', res) → world_inv w'.
Proof.
  intros [sh Hsh] [o Ho] (pre & mid & post & Hns & -> & ->) He.
  pose proof Hsh as (Hall & _). destruct (Hall b o Ho) as [Hinv _].
  rewrite (left_nodes_spec _ _ _ _ _ Hinv) in Hns. injection Hns as Hns.
  destruct (erase_left_range_spec _ _ _ _ _ _ _ _ Hinv Hns)
    as (w1 & o' & tl' & tr' & He' & Hinv' & Hev & _).
  rewrite He' in He. injection He as <- _. by eapply world_inv_step.
Qed.

Lemma erase_right_range_inv w b first last w' res :
  world_inv w → is_Some (objs w !! b) → valid_right_range w b first last →
  bimap.erase_right_range w b first last = Ret (w', res) → world_inv w'.
Proof.
  intros [sh Hsh] [o Ho] (pre & mid & post & Hns & -> & ->) He.
  pose proof Hsh as (Hall & _). destruct (Hall b o Ho) as [Hinv _].
  rewrite (right_nodes_spec _ _ _ _ _ Hinv) in Hns. injection Hns as Hns.
  destruct (erase_right_range_spec _ _ _ _ _ _ _ _ Hinv Hns)
    as (w1 & o' & tl' & tr' & He' & Hinv' & Hev & _).
  rewrite He' in He. injection He as <- _. by eapply world_inv_step.
Qed.

Lemma at_left_or_default_inv w b k w' v :
  world_inv w → is_Some (objs w !! b) →
  bimap.at_left_or_default default_right w b k = Ret (w', v) → world_inv w'.
Proof.
  intros [sh Hsh] [o Ho] He. pose proof Hsh as (Hall & _).
  destruct (Hall b o Ho) as [Hinv _].
  destruct (left_key_dec _ _ _ _ _ k Hinv) as [[r Hl]|Hl].
  - rewrite (at_left_or_default_found _ _ _ _ _ _ _ _ Hinv Hl) in He.
    injection He as <- _. by exists sh.
  - destruct (at_left_or_default_missing default_right _ _ _ _ _ _ Hinv Hl)
      as (w1 & o' & tl' & tr' & He' & Hinv' & Hev & _).
    rewrite He' in He. injection He as <- _. by eapply world_inv_step.
Qed.

Lemma at_right_or_default_inv w b k w' v :
  world_inv w → is_Some (objs w !! b) →
  bimap.at_right_or_default default_left w b k = Ret (w', v) → world_inv w'.
Proof.
  intros [sh Hsh] [o Ho] He. pose proof Hsh as (Hall & _).
  destruct (Hall b o Ho) as [Hinv _].
  destruct (right_key_dec _ _ _ _ _ k Hinv) as [[l Hl]|Hl].
  - rewrite (at_right_or_default_found _ _ _ _ _ _ _ _ Hinv Hl) in He.
    injection He as <- _. by exists sh.
  - destruct (at_right_or_default_missing default_left _ _ _ _ _ _ Hinv Hl)
      as (w1 & o' & tl' & tr' & He' & Hinv' & Hev & _).
    rewrite He' in He. injection He as <- _. by eapply world_inv_step.
Qed.

Lemma swap_inv w b1 b2 w' :
  world_inv w → is_Some (objs w !! b1) → is_Some (objs w !! b2) →
  bimap.swap w b1 b2 = Ret w' → world_inv w'.
Proof.
  intros [sh Hsh] Hb1 Hb2 Hs.
  destruct (decide ((sh b1).1 = Leaf)) as [He1|Hne1].
  { rewrite (swap_empty w sh b1 b2 Hsh Hb1 Hb2) in Hs by (by left). done. }
  destruct (decide ((sh b2).1 = Leaf)) as [He2|Hne2].
  { rewrite (swap_empty w sh b1 b2 Hsh Hb1 Hb2) in Hs by (by right). done. }
  destruct Hb1 as [o1 Ho1]. destruct Hb2 as [o2 Ho2].
  destruct (decide (b1 = b2)) as [->|Hne].
  - rewrite (swap_self w sh b2 o1 Hsh Ho1 Hne1) in Hs. injection Hs as <-.
    by exists sh.
  - destruct (swap_spec w sh b1 b2 o1 o2 Hsh Ho1 Ho2 Hne Hne1 Hne2)
      as (w1 & Hs' & Hsh' & _).
    rewrite Hs' in Hs. injection Hs as <-. by eexists.
Qed.

(** Every world a program reaches is well formed. *)
Lemma reachable_inv w :
  reachable default_left default_right w → world_inv w.
Proof.
  induction 1 as [|w cl cr w' b _ IH Hcl Hcr Hc|w other_ w' b _ IH Ho Hc
                  |w b l r w' it _ IH Ho Hi|w b it w' res _ IH Ho Hv He
                  |w b it w' res _ IH Ho Hv He|w b k w' res _ IH Ho He
                  |w b k w' res _ IH Ho He|w b first last w' res _ IH Ho Hv He
                  |w b first last w' res _ IH Ho Hv He|w b k w' v _ IH Ho He
                  |w b k w' v _ IH Ho He|w b1 b2 w' _ IH Ho1 Ho2 Hs].
  - eexists. apply empty_world_shapes.
  - destruct IH as [sh Hsh].
    destruct (construct_spec w sh cl cr Hsh Hcl Hcr) as (w1 & Hc' & Hsh' & _).
    cbv zeta in Hc'. rewrite Hc' in Hc. injection Hc as <- _. by eexists.
  - destruct IH as [sh Hsh]. destruct Ho as [oo Ho].
    destruct (copy_construct_spec w sh other_ oo Hsh Ho) as (w1 & sh' & Hc' & Hsh' & _).
    cbv zeta in Hc'. rewrite Hc' in Hc. injection Hc as <- _. by eexists.
  - by eapply insert_inv.
  - by eapply erase_left_inv.
  - by eapply erase_right_inv.
  - by eapply erase_left_key_inv.
  - by eapply erase_right_key_inv.
  - by eapply erase_left_range_inv.
  - by eapply erase_right_range_inv.
  - by eapply at_left_or_default_inv.
  - by eapply at_right_or_default_inv.
  - by eapply (swap_inv w b1 b2).
Qed.

Lemma reachable_store w b o :
  reachable default_left default_right w → objs w !! b = Some o →
  ∃ tl tr, store_inv w b o tl tr.
Proof.
  intros [sh (Hall & _)]%reachable_inv Ho.
  destruct (Hall b o Ho) as [Hinv _]. by eexists _, _.
Qed.
End reachable_facts.

(** ** The node before a node *)

Lemma subtree_at h par t n :
  repr h par t → n ∈ inorder t →
  ∃ par' l r pre post,
    repr h par' (Node l n r) ∧ inorder t = pre ++ inorder (Node l n r) ++ post.
Proof.
  revert par. induction t as [|l IHl a r IHr]; intros par;
    [by intros _ ?%elem_of_nil|].
  intros Hrep Hin. destruct (decide (a = n)) as [->|Hne].
  { exists par, l, r, [], []. split; [done|]. by rewrite app_nil_l, app_nil_r. }
  pose proof Hrep as (Ha & Hl & Hr). cbn [inorder] in Hin.
  apply elem_of_app in Hin as [Hin|[?|Hin]%elem_of_cons]; [|done|].
  - destruct (IHl a Hl Hin) as (par' & l' & r' & pre & post & Hrep' & Heq).
    exists par', l', r', pre, (post ++ a :: inorder r). split; [done|].
    change (inorder (Node l a r)) with (inorder l ++ a :: inorder r).
    rewrite Heq. by rewrite <-!app_assoc.
  - destruct (IHr a Hr Hin) as (par' & l' & r' & pre & post & Hrep' & Heq).
    exists par', l', r', (inorder l ++ a :: pre), post. split; [done|].
    change (inorder (Node l a r)) with (inorder l ++ a :: inorder r).
    rewrite Heq. by rewrite <-!app_assoc.
Qed.

Section engine_prev.
Context {T : Type}.
Variable value : addr → option T.
Variable lt : T → T → bool.
Hypothesis Hlt : strict_total lt.

(** [prev] of a node with a left child is the node right before it. *)
Lemma prev_adjacent h this t link n nn cl :
  engine_inv value lt h this t link → n ∈ inorder t →
  h !! n = Some nn → left nn = Some cl →
  ∃ m pre post,
    tree.prev h (Some n) = Ret (Some m)
    ∧ inorder t = pre ++ m :: n :: post.
Proof.
  intros Hinv Hin Hn Hcl. pose proof Hinv as (_ & Hrep & _).
  pose proof (engine_inv_length _ _ Hlt _ _ _ _ Hinv) as Hlen.
  destruct (subtree_at _ _ _ _ Hrep Hin) as (par' & l & r & pre & post & Hsub & Heq).
  pose proof Hsub as (Hn' & Hl & _). rewrite Hn in Hn'. injection Hn' as ->.
  cbn [left] in Hcl. destruct l as [|ll la lr]; [done|].
  cbn [root] in Hcl. injection Hcl as ->.
  unfold tree.prev. rewrite (load_Some _ _ _ Hn). osimpl.
  rewrite (rightmost_spec h n (Node ll cl lr) cl); [|done|done|].
  2:{ rewrite walk_bound_eq, Heq, !length_app in *. cbn [inorder length] in *.
      rewrite !length_app in *. cbn [length] in *. lia. }
  osimpl. eexists _, (pre ++ inorder (remove_last (Node ll cl lr))), (inorder r ++ post).
  split; [done|]. rewrite Heq. cbn [inorder].
  change (inorder ll ++ cl :: inorder lr) with (inorder (Node ll cl lr)).
  rewrite (remove_last_inorder ll cl lr cl). by rewrite <-!app_assoc.
Qed.
End engine_prev.

(** ** The pairs of a bimap, as lists *)

Lemma omap_NoDup {A B} (f : A → option B) (l : list A) :
  NoDup l →
  (∀ x y p, x ∈ l → y ∈ l → f x = Some p → f y = Some p → x = y) →
  NoDup (omap f l).
Proof.
  induction 1 as [|x l Hx Hnd IH]; intros Hinj; [constructor|]. cbn [omap list_omap].
  assert (NoDup (omap f l)) as IH' by (apply IH; intros; eapply Hinj; set_solver).
  destruct (f x) as [p|] eqn:Hp; [|done]. constructor; [|done].
  intros (y & Hy & Hfy)%list_elem_of_omap.
  assert (x = y) by (eapply Hinj; set_solver). by subst.
Qed.

Section record_lists.
Context {L R : Type}.
Implicit Types (w : world L R) (o : bimap_obj L R).

Lemma records_NoDup w b o tl tr :
  store_inv w b o tl tr → NoDup (records w tl).
Proof.
  intros Hinv. pose proof Hinv as (_ & Hl & _ & (_ & _ & Hb & _) & _).
  apply omap_NoDup; [exact (bst_NoDup _ _ Hl _ Hb)|].
  intros x y [l r] Hx Hy Hfx Hfy.
  destruct (store_left_elem _ _ _ _ _ _ Hinv Hx) as (i & ? & ? & -> & _).
  destruct (store_left_elem _ _ _ _ _ _ Hinv Hy) as (j & ? & ? & -> & _).
  cbn in Hfx, Hfy.
  apply (bst_inj _ _ Hl _ _ _ l Hb Hx Hy); cbn; by rewrite ?Hfx, ?Hfy.
Qed.

Lemma records_right_NoDup w b o tl tr :
  store_inv w b o tl tr → NoDup (records w tr).
Proof.
  intros Hinv. pose proof Hinv as (_ & _ & Hr & _ & (_ & _ & Hb & _) & _).
  apply omap_NoDup; [exact (bst_NoDup _ _ Hr _ Hb)|].
  intros x y [l r] Hx Hy Hfx Hfy.
  destruct (store_right_elem _ _ _ _ _ _ Hinv Hx) as (i & ? & ? & -> & _).
  destruct (store_right_elem _ _ _ _ _ _ Hinv Hy) as (j & ? & ? & -> & _).
  cbn in Hfx, Hfy.
  apply (bst_inj _ _ Hr _ _ _ r Hb Hx Hy); cbn; by rewrite ?Hfx, ?Hfy.
Qed.

(** The keys of a sorted list of nodes, read off their records. *)
Lemma sorted_keys {K} (value : addr → option K) (lt : K → K → bool)
    (key : L * R → K) w (l : list addr) :
  StronglySorted (key_lt value lt) l →
  (∀ a, a ∈ l → ∃ p, record_of w a = Some p ∧ value a = Some (key p)) →
  StronglySorted (λ x y, lt x y = true) (key <$> omap (record_of w) l).
Proof.
  induction 1 as [|a l Hs IH Hall]; intros Hrec; [constructor|]. cbn [omap list_omap].
  destruct (Hrec a) as (p & Hp & Hv); [set_solver|]. rewrite Hp. cbn [fmap list_fmap].
  constructor; [apply IH; intros; apply Hrec; set_solver|].
  apply Forall_forall. intros k (q & -> & (c & Hc & Hq)%list_elem_of_omap)%list_elem_of_fmap.
  rewrite Forall_forall in Hall. destruct (Hall c Hc) as (va & vc & Hva & Hvc & Hlt).
  destruct (Hrec c) as (q' & Hq' & Hvq); [set_solver|].
  rewrite Hq in Hq'. injection Hq' as <-. congruence.
Qed.

Lemma contents_sorted w b o tl tr :
  store_inv w b o tl tr →
  StronglySorted (λ x y, cmp_left o x y = true) (records w tl).*1
  ∧ StronglySorted (λ x y, cmp_right o x y = true) (records w tr).*2.
Proof.
  intros Hinv. pose proof Hinv as (_ & Hl & Hr & (_ & _ & Hbl & _) & (_ & _ & Hbr & _) & _).
  split.
  - apply (sorted_keys (bimap.value_left w)); [by apply bst_sorted|].
    intros a Ha. destruct (store_left_elem _ _ _ _ _ _ Hinv Ha) as (i & l & r & -> & Hv & _).
    exists (l, r). cbn. by rewrite Hv.
  - apply (sorted_keys (bimap.value_right w)); [by apply bst_sorted|].
    intros a Ha. destruct (store_right_elem _ _ _ _ _ _ Hinv Ha) as (i & l & r & -> & Hv & _).
    exists (l, r). cbn. by rewrite Hv.
Qed.
End record_lists.

(** * The properties of the specification *)

Section store_properties.
Context {L R : Type}.
Variable default_left : L.
Variable default_right : R.
Implicit Types (w : world L R) (o : bimap_obj L R).

Local Notation reach := (reachable default_left default_right).

Lemma reachable_contents w b o ps :
  reach w → objs w !! b = Some o → contents w b = Ret ps →
  ∃ tl tr, store_inv w b o tl tr ∧ ps = records w tl.
Proof.
  intros Hw Ho Hps. destruct (reachable_store _ _ _ _ _ Hw Ho) as (tl & tr & Hinv).
  exists tl, tr. split; [done|].
  rewrite (contents_spec _ _ _ _ _ Hinv) in Hps. by injection Hps.
Qed.

(** C9: [at_left(K)] throws [std::out_of_range] exactly when no pair of
    the bimap has the left value [K], and returns the right value of the
    pair that has it otherwise; [at_right] likewise.  Both are [const]:
    they return a value and no new world. *)
Theorem at_fails_iff_absent w b o kl kr ps :
  reach w → objs w !! b = Some o → contents w b = Ret ps →
  (bimap.at_left w b kl = OutOfRange ↔ ∀ r, (kl, r) ∉ ps)
  ∧ (∀ r, (kl, r) ∈ ps → bimap.at_left w b kl = Ret r)
  ∧ (bimap.at_right w b kr = OutOfRange ↔ ∀ l, (l, kr) ∉ ps)
  ∧ (∀ l, (l, kr) ∈ ps → bimap.at_right w b kr = Ret l).
Proof.
  intros Hw Ho Hps.
  destruct (reachable_contents _ _ _ _ Hw Ho Hps) as (tl & tr & Hinv & ->).
  split_and!.
  - split.
    + intros Hat r Hr.
      rewrite (at_left_found _ _ _ _ _ _ _ Hinv Hr) in Hat. done.
    + intros Hno. by eapply at_left_missing.
  - intros r Hr. by eapply at_left_found.
  - split.
    + intros Hat l Hl.
      rewrite (at_right_found _ _ _ _ _ _ _ Hinv Hl) in Hat. done.
    + intros Hno. by eapply at_right_missing.
  - intros l Hl. by eapply at_right_found.
Qed.

(** C10: [erase_left] of [end_left()] or of a default-constructed
    iterator returns a default-constructed iterator and the world as it
    was, so size and pairs are as before; [erase_right] likewise; and
    [erase_left(key)] of a key that no pair has returns [false] and the
    world as it was. *)
Theorem erase_end_is_noop w b o k ps :
  reach w → objs w !! b = Some o → contents w b = Ret ps →
  bimap.erase_left w b (bimap.end_left b) = Ret (w, None)
  ∧ bimap.erase_left w b None = Ret (w, None)
  ∧ bimap.erase_right w b (bimap.end_right b) = Ret (w, None)
  ∧ bimap.erase_right w b None = Ret (w, None)
  ∧ ((∀ r, (k, r) ∉ ps) → bimap.erase_left_key w b k = Ret (w, false)).
Proof.
  intros Hw Ho Hps.
  destruct (reachable_contents _ _ _ _ Hw Ho Hps) as (tl & tr & Hinv & ->).
  split_and!.
  - apply erase_left_end.
  - apply erase_left_null.
  - apply erase_right_end.
  - apply erase_right_null.
  - intros Hno. by eapply erase_left_key_missing.
Qed.

(** C3: [flip] of [end_left()] is [end_right()] and back; [flip] of a
    node of the left side is the right half of the same pair record, a
    node of the right side, and [flip] of that is the node again; the
    same from the right side. *)
Theorem flip_involutive w b o :
  reach w → objs w !! b = Some o →
  bimap.flip SLeft w (bimap.end_left b) = Ret (bimap.end_right b)
  ∧ bimap.flip SRight w (bimap.end_right b) = Ret (bimap.end_left b)
  ∧ (∀ ns a, left_nodes w b = Ret ns → a ∈ ns →
       ∃ a' ns' p,
         bimap.flip SLeft w (Some a) = Ret (Some a')
         ∧ bimap.flip SRight w (Some a') = Ret (Some a)
         ∧ right_nodes w b = Ret ns' ∧ a' ∈ ns'
         ∧ pair_at_left w a = Ret p ∧ pair_at_right w a' = Ret p
         ∧ record_of w a = Some p ∧ record_of w a' = Some p)
  ∧ (∀ ns a, right_nodes w b = Ret ns → a ∈ ns →
       ∃ a' ns' p,
         bimap.flip SRight w (Some a) = Ret (Some a')
         ∧ bimap.flip SLeft w (Some a') = Ret (Some a)
         ∧ left_nodes w b = Ret ns' ∧ a' ∈ ns'
         ∧ pair_at_right w a = Ret p ∧ pair_at_left w a' = Ret p
         ∧ record_of w a = Some p ∧ record_of w a' = Some p).
Proof.
  intros Hw Ho. destruct (reachable_store _ _ _ _ _ Hw Ho) as (tl & tr & Hinv).
  pose proof Hinv as (_ & _ & _ & _ & _ & Hpair & _).
  split_and!.
  - by eapply flip_end_left.
  - by eapply flip_end_right.
  - intros ns a Hns Ha.
    rewrite (left_nodes_spec _ _ _ _ _ Hinv) in Hns. injection Hns as <-.
    destruct (store_left_elem _ _ _ _ _ _ Hinv Ha) as (i & l & r & -> & Hv & _).
    assert (Ha' : Sub i SRight ∈ inorder tr) by (by apply Hpair).
    exists (Sub i SRight), (inorder tr), (l, r). split_and!; try done.
    + by eapply flip_left_node.
    + by eapply flip_right_node.
    + by eapply right_nodes_spec.
    + by eapply pair_at_left_spec.
    + by eapply pair_at_right_spec.
  - intros ns a Hns Ha.
    rewrite (right_nodes_spec _ _ _ _ _ Hinv) in Hns. injection Hns as <-.
    destruct (store_right_elem _ _ _ _ _ _ Hinv Ha) as (i & l & r & -> & Hv & _).
    assert (Ha' : Sub i SLeft ∈ inorder tl) by (by apply Hpair).
    exists (Sub i SLeft), (inorder tl), (l, r). split_and!; try done.
    + by eapply flip_right_node.
    + by eapply flip_left_node.
    + by eapply left_nodes_spec.
    + by eapply pair_at_right_spec.
    + by eapply pair_at_left_spec.
Qed.

(** X26: in every reachable world, the worlds that construction, copy
    construction, [insert], the erasures, [at_left_or_default],
    [at_right_or_default] and [swap] lead to, the links of each side of a
    bimap spell out a binary search tree for that side's comparator, and
    the walk from [begin] to [end] visits its nodes, and so the keys, in
    strictly increasing order. *)
Theorem reachable_bst w b o :
  reach w → objs w !! b = Some o →
  ∃ tl tr psl psr,
    repr (links w) (Sentinel b SLeft) tl
    ∧ (∃ s, links w !! Sentinel b SLeft = Some s ∧ left s = root tl)
    ∧ bst (bimap.value_left w) (cmp_left o) tl
    ∧ repr (links w) (Sentinel b SRight) tr
    ∧ (∃ s, links w !! Sentinel b SRight = Some s ∧ left s = root tr)
    ∧ bst (bimap.value_right w) (cmp_right o) tr
    ∧ left_nodes w b = Ret (inorder tl)
    ∧ StronglySorted (key_lt (bimap.value_left w) (cmp_left o)) (inorder tl)
    ∧ right_nodes w b = Ret (inorder tr)
    ∧ StronglySorted (key_lt (bimap.value_right w) (cmp_right o)) (inorder tr)
    ∧ contents w b = Ret psl
    ∧ StronglySorted (λ x y, cmp_left o x y = true) psl.*1
    ∧ contents_right w b = Ret psr
    ∧ StronglySorted (λ x y, cmp_right o x y = true) psr.*2.
Proof.
  intros Hw Ho. destruct (reachable_store _ _ _ _ _ Hw Ho) as (tl & tr & Hinv).
  pose proof Hinv as (_ & Hl & Hr & (HsL & HrL & HbL & _) & (HsR & HrR & HbR & _) & _).
  destruct (contents_sorted _ _ _ _ _ Hinv) as [Hsl Hsr].
  exists tl, tr, (records w tl), (records w tr). split_and!; try done.
  - by eexists.
  - by eexists.
  - by eapply left_nodes_spec.
  - by apply bst_sorted.
  - by eapply right_nodes_spec.
  - by apply bst_sorted.
  - by eapply contents_spec.
  - by eapply contents_right_spec.
Qed.

(** C7: in every reachable world [size()] is the number of nodes linked
    into the left side and the number of nodes linked into the right
    side, and the left half of a pair record is linked into the left side
    exactly when its right half is linked into the right side. *)
Theorem reachable_size w b o :
  reach w → objs w !! b = Some o →
  ∃ nsl nsr,
    bimap.size w b = Ret (m_size o)
    ∧ left_nodes w b = Ret nsl ∧ right_nodes w b = Ret nsr
    ∧ NoDup nsl ∧ NoDup nsr
    ∧ (∀ a, linked (links w) (Sentinel b SLeft) a ↔ a ∈ nsl)
    ∧ (∀ a, linked (links w) (Sentinel b SRight) a ↔ a ∈ nsr)
    ∧ length nsl = m_size o ∧ length nsr = m_size o
    ∧ (∀ a, a ∈ nsl → ∃ i, a = Sub i SLeft ∧ is_Some (values w !! i))
    ∧ (∀ a, a ∈ nsr → ∃ i, a = Sub i SRight ∧ is_Some (values w !! i))
    ∧ (∀ i, linked (links w) (Sentinel b SLeft) (Sub i SLeft)
            ↔ linked (links w) (Sentinel b SRight) (Sub i SRight)).
Proof.
  intros Hw Ho. destruct (reachable_store _ _ _ _ _ Hw Ho) as (tl & tr & Hinv).
  pose proof Hinv as (_ & Hl & Hr & Hel & Her & Hpair & Hsz & _).
  pose proof Hel as (_ & _ & HbL & _). pose proof Her as (_ & _ & HbR & _).
  exists (inorder tl), (inorder tr). split_and!.
  - by eapply size_spec.
  - by eapply left_nodes_spec.
  - by eapply right_nodes_spec.
  - exact (bst_NoDup _ _ Hl _ HbL).
  - exact (bst_NoDup _ _ Hr _ HbR).
  - intros a. exact (linked_spec _ _ Hl _ _ _ _ a Hel).
  - intros a. exact (linked_spec _ _ Hr _ _ _ _ a Her).
  - done.
  - by rewrite (store_lengths _ _ _ _ _ Hinv).
  - intros a Ha. destruct (store_left_elem _ _ _ _ _ _ Hinv Ha) as (i & ? & ? & -> & Hv & _).
    exists i. split; [done|by eexists].
  - intros a Ha. destruct (store_right_elem _ _ _ _ _ _ Hinv Ha) as (i & ? & ? & -> & Hv & _).
    exists i. split; [done|by eexists].
  - intros i. rewrite (linked_spec _ _ Hl _ _ _ _ _ Hel).
    rewrite (linked_spec _ _ Hr _ _ _ _ _ Her). apply Hpair.
Qed.
End store_properties.

Section store_updates.
Context {L R : Type}.
Variable default_left : L.
Variable default_right : R.
Implicit Types (w : world L R) (o : bimap_obj L R).

Local Notation reach := (reachable default_left default_right).

(** The calls [at_left_or_default] makes for a key that is not there. *)
Lemma at_left_or_default_steps dr w b o tl tr l :
  store_inv w b o tl tr → (∀ r, (l, r) ∉ records w tl) →
  ∃ w1 res o1 tl1 tr1 w' it o' tl' tr',
    bimap.find_left w b l = Ret (bimap.end_left b)
    ∧ bimap.erase_right_key w b dr = Ret (w1, res)
    ∧ store_inv w1 b o1 tl1 tr1
    ∧ (∀ p, p ∈ records w1 tl1 ↔ p ∈ records w tl ∧ p.2 ≠ dr)
    ∧ bimap.insert w1 b l dr = Ret (w', it)
    ∧ it ≠ bimap.end_left b
    ∧ store_inv w' b o' tl' tr'
    ∧ (∀ p, p ∈ records w' tl' ↔ p = (l, dr) ∨ p ∈ records w1 tl1)
    ∧ bimap.at_left_or_default dr w b l = Ret (w', dr).
Proof.
  intros Hinv Hno.
  assert (Hfind : bimap.find_left w b l = Ret (bimap.end_left b)).
  { apply (find_left_missing w b o tl tr l Hinv). intros x Hx.
    destruct (proj1 (holds_left_records _ _ _ _ _ l Hinv)) as [r Hr];
      [by exists x|]. by apply (Hno r). }
  destruct (evict_right w b o tl tr dr Hinv)
    as (w1 & o1 & tl1 & tr1 & res & He & Hinv1 & Hev1 & Hrec1).
  destruct (insert_fresh_evolves w1 b o1 tl1 tr1 l dr Hinv1)
    as (w2 & tl2 & tr2 & Hins & Hinv2 & Hev2 & Hin2 & Hv2 & Hrec2).
  { intros r' [Hp _]%Hrec1. by apply (Hno r'). }
  { intros l' [_ Hp]%Hrec1. by apply Hp. }
  cbn zeta in *.
  eexists w1, res, o1, tl1, tr1, w2, _, _, tl2, tr2. split_and!; try done.
  unfold bimap.at_left_or_default. rewrite Hfind. osimpl.
  rewrite bool_decide_true by done. rewrite He. osimpl. rewrite Hins. osimpl.
  rewrite (flip_left_node _ _ _ _ _ _ Hinv2 Hin2). osimpl.
  unfold bimap.deref_right. cbn. rewrite Hv2. done.
Qed.

(** C1: [at_left_or_default(K)] on a bimap that has a pair with the left
    value [K] returns the right value of that pair and the world as it
    was.  On a bimap that has none it calls [erase_right(default)], which
    leaves the pairs whose right value is not the default, then
    [insert(K, default)], and returns the default; afterwards the bimap
    holds [(K, default)] and the pairs that were left, [find_left] of the
    left value of a pair that had the default returns [end_left()], and
    [at_left(K)] returns the default. *)
Theorem at_left_or_default_evicts w b o k ps :
  reach w → objs w !! b = Some o → contents w b = Ret ps →
  (∀ r, (k, r) ∈ ps →
     bimap.at_left_or_default default_right w b k = Ret (w, r))
  ∧ ((∀ r, (k, r) ∉ ps) →
     ∃ w1 res ps1 w' it ps',
       bimap.erase_right_key w b default_right = Ret (w1, res)
       ∧ contents w1 b = Ret ps1
       ∧ (∀ p, p ∈ ps1 ↔ p ∈ ps ∧ p.2 ≠ default_right)
       ∧ bimap.insert w1 b k default_right = Ret (w', it)
       ∧ it ≠ bimap.end_left b
       ∧ bimap.at_left_or_default default_right w b k = Ret (w', default_right)
       ∧ contents w' b = Ret ps'
       ∧ (∀ p, p ∈ ps' ↔ p = (k, default_right) ∨ p ∈ ps ∧ p.2 ≠ default_right)
       ∧ (∀ l, (l, default_right) ∈ ps →
            bimap.find_left w' b l = Ret (bimap.end_left b))
       ∧ bimap.at_left w' b k = Ret default_right).
Proof.
  intros Hw Ho Hps.
  destruct (reachable_contents _ _ _ _ _ _ Hw Ho Hps) as (tl & tr & Hinv & ->).
  split.
  { intros r Hr. by eapply at_left_or_default_found. }
  intros Hno.
  destruct (at_left_or_default_steps default_right w b o tl tr k Hinv Hno)
    as (w1 & res & o1 & tl1 & tr1 & w' & it & o' & tl' & tr'
        & Hfind & He & Hinv1 & Hrec1 & Hins & Hit & Hinv' & Hrec' & Hat).
  exists w1, res, (records w1 tl1), w', it, (records w' tl').
  split_and!; try done.
  - by eapply contents_spec.
  - by eapply contents_spec.
  - intros p. by rewrite Hrec', Hrec1.
  - intros l Hl. apply (find_left_missing _ _ _ _ _ _ Hinv'). intros x Hx.
    destruct (proj1 (holds_left_records _ _ _ _ _ l Hinv')) as [r Hr];
      [by exists x|].
    apply Hrec' in Hr as [[= -> ->]|[Hr Hne]%Hrec1].
    + by apply (Hno default_right).
    + apply Hne. cbn. exact (records_left_inj _ _ _ _ _ _ _ _ Hinv Hr Hl).
  - apply (at_left_found _ _ _ _ _ _ _ Hinv'). apply Hrec'. by left.
Qed.

(** C2: [insert(L, R)] on a bimap that has a pair with the left value
    [L], or one with the right value [R], returns [end_left()] and the
    world as it was, so that [at_left(L)] returns what it returned
    before.  Otherwise it returns the position of a new node of the left
    side whose pair is [(L, R)], [size()] is one more, and each side
    holds the pairs it held and [(L, R)]. *)
Theorem insert_all_or_nothing w b o l r ps psr :
  reach w → objs w !! b = Some o →
  contents w b = Ret ps → contents_right w b = Ret psr →
  bimap.size w b = Ret (length ps)
  ∧ ((∃ r', (l, r') ∈ ps) ∨ (∃ l', (l', r) ∈ psr) →
       bimap.insert w b l r = Ret (w, bimap.end_left b)
       ∧ ∀ r0, (l, r0) ∈ ps → bimap.at_left w b l = Ret r0)
  ∧ ((∀ r', (l, r') ∉ ps) → (∀ l', (l', r) ∉ psr) →
       ∃ w' a ns' ps' psr',
         bimap.insert w b l r = Ret (w', Some a)
         ∧ Some a ≠ bimap.end_left b
         ∧ left_nodes w' b = Ret ns' ∧ a ∈ ns'
         ∧ pair_at_left w' a = Ret (l, r)
         ∧ bimap.size w' b = Ret (S (length ps))
         ∧ contents w' b = Ret ps' ∧ ps' ≡ₚ (l, r) :: ps
         ∧ contents_right w' b = Ret psr' ∧ psr' ≡ₚ (l, r) :: psr).
Proof.
  intros Hw Ho Hps Hpsr.
  destruct (reachable_contents _ _ _ _ _ _ Hw Ho Hps) as (tl & tr & Hinv & ->).
  rewrite (contents_right_spec _ _ _ _ _ Hinv) in Hpsr. injection Hpsr as <-.
  pose proof (λ p, records_sides w b o tl tr p Hinv) as Hsides.
  split_and!.
  - rewrite (size_spec _ _ _ _ _ Hinv). f_equal. symmetry. by eapply records_length.
  - intros Hdup. split.
    + apply (insert_dup _ _ _ _ _ _ _ Hinv).
      destruct Hdup as [Hd|[l' Hd]]; [by left|right]. exists l'. by apply Hsides.
    + intros r0 Hr0. by eapply at_left_found.
  - intros Hl Hr.
    destruct (insert_fresh_evolves _ _ _ _ _ l r Hinv Hl)
      as (w' & tl' & tr' & Hins & Hinv' & Hev & Hin & Hv & Hrec).
    { intros l' Hl'. apply (Hr l'). by apply Hsides. }
    cbn zeta in *.
    pose proof (λ p, records_sides _ _ _ _ _ p Hinv') as Hsides'.
    exists w', (Sub (next_record w) SLeft), (inorder tl'), (records w' tl'),
      (records w' tr').
    split_and!; try done.
    + by eapply left_nodes_spec.
    + by eapply pair_at_left_spec.
    + rewrite (size_spec _ _ _ _ _ Hinv'). cbn. f_equal. f_equal.
      symmetry. by eapply records_length.
    + by eapply contents_spec.
    + apply NoDup_Permutation.
      * by eapply records_NoDup.
      * constructor; [apply Hl|by eapply records_NoDup].
      * intros p. rewrite Hrec. set_solver.
    + by eapply contents_right_spec.
    + apply NoDup_Permutation.
      * by eapply records_right_NoDup.
      * constructor; [intros ?; by apply (Hr l)|by eapply records_right_NoDup].
      * intros p. rewrite <-Hsides', Hrec, Hsides. set_solver.
Qed.
End store_updates.

Section engine_properties.
Context {T : Type}.
Variable value : addr → option T.
Variable lt : T → T → bool.
Hypothesis Hlt : strict_total lt.

(** C4, as the code has it: [lower_bound(K)] returns the node
    [find_nearest] returns if that is [end()] or its key is greater than
    or equal to [K], and its successor otherwise; [upper_bound(K)]
    returns it if it is [end()] or its key is strictly greater than [K],
    and its successor otherwise.  [lower_bound(K)] is the first node in
    order whose key is not less than [K], [upper_bound(K)] the first one
    whose key is greater than [K], and [end()] if there is none. *)
Theorem bounds_from_nearest h this t link v :
  engine_inv value lt h this t link →
  tree.lower_bound value lt h this v
    = bound_by value lt (tree.greater_or_equal lt) h this v
  ∧ tree.upper_bound value lt h this v
    = bound_by value lt (tree.greater lt) h this v
  ∧ nodes h this = Ret (inorder t)
  ∧ tree.lower_bound value lt h this v
    = Ret (Some (first_with (not_less value lt v) (inorder t) this))
  ∧ tree.upper_bound value lt h this v
    = Ret (Some (first_with (greater_than value lt v) (inorder t) this)).
Proof.
  intros Hinv. split_and!.
  - done.
  - done.
  - by eapply nodes_spec.
  - by eapply lower_bound_spec.
  - by eapply upper_bound_spec.
Qed.

(** C5: [erase] of a node [n] with two children returns [n]; the node
    [m] that [prev(n)] returns, the one right before [n] in order, is
    taken out of its parent's slot and gets the parent and the children
    of [n]: the parent of [n] points to [m] where it pointed to [n], and
    the children of [n] have [m] as their parent.  Afterwards the engine
    holds the nodes it held without [n], in the same order, [n] cannot be
    reached from the sentinel, and no node of the engine points to it. *)
Theorem erase_installs_predecessor h this t link n p cl cr :
  engine_inv value lt h this t link → n ∈ inorder t →
  h !! n = Some (NodeBase (Some p) (Some cl) (Some cr)) →
  ∃ h' m nm np h1 pre post,
    tree.erase h (Some n) = Ret (h', Some n)
    ∧ tree.prev h (Some n) = Ret (Some m)
    ∧ inorder t = pre ++ m :: n :: post
    ∧ h !! m = Some nm ∧ h !! p = Some np
    ∧ tree.set_new_child_for_parent h m (left nm) = Ret h1
    ∧ h' !! m = Some (NodeBase (Some p)
                        (if decide (m = cl) then left nm else Some cl) (Some cr))
    ∧ h' !! p = Some (slot_set n (Some m) np)
    ∧ (∃ ncr, h' !! cr = Some ncr ∧ parent ncr = Some m)
    ∧ (m ≠ cl → ∃ ncl, h' !! cl = Some ncl ∧ parent ncl = Some m)
    ∧ (∀ c, m = cl → left nm = Some c →
         ∃ nc, h' !! c = Some nc ∧ parent nc = Some m)
    ∧ engine_inv value lt h' this (del n t) link
    ∧ nodes h' this = Ret (pre ++ m :: post)
    ∧ ¬ linked h' this n
    ∧ (∀ y ny, y = this ∨ y ∈ pre ++ m :: post → h' !! y = Some ny →
         parent ny ≠ Some n ∧ left ny ≠ Some n ∧ right ny ≠ Some n).
Proof.
  intros Hinv Hin Hn.
  pose proof Hinv as (_ & _ & Hb & Hvthis & Hlk).
  pose proof (bst_NoDup _ _ Hlt _ Hb) as Hnd.
  assert (Hthis : this ∉ inorder t).
  { intros [? ?]%(bst_values _ _ _ _ Hb). congruence. }
  destruct (erase_spec _ _ Hlt _ _ _ _ _ Hinv Hin) as (h' & He & Hinv' & _ & Hrep & _).
  destruct (Hrep p cl cr Hn)
    as (m & nm & np & h1 & Hprev & Hm & Hp & Hsnc & Hm' & Hp' & Hcr & Hcl & Hcl').
  destruct (prev_adjacent _ _ Hlt _ _ _ _ _ _ cl Hinv Hin Hn eq_refl)
    as (m' & pre & post & Hprev' & Heq).
  rewrite Hprev in Hprev'. injection Hprev' as <-.
  assert (Hdel : inorder (del n t) = pre ++ m :: post).
  { rewrite del_inorder by done. rewrite Heq in Hnd |- *.
    change (pre ++ m :: n :: post) with (pre ++ [m] ++ n :: post) in *.
    rewrite !app_assoc in *. apply NoDup_app in Hnd as (_ & Hd & [Hnp _]%NoDup_cons).
    rewrite without_split; [by rewrite <-app_assoc| |done].
    intros ?. apply (Hd n); [done|set_solver]. }
  assert (Hnot : n ∉ inorder (del n t)).
  { rewrite del_inorder by done. rewrite without_elem. by intros [_ ?]. }
  pose proof Hinv' as (Hs' & Hr' & _).
  exists h', m, nm, np, h1, pre, post. split_and!; try done.
  - rewrite <-Hdel. by eapply nodes_spec.
  - by rewrite (linked_spec _ _ Hlt _ _ _ _ _ Hinv').
  - rewrite <-Hdel. intros y ny [->|Hy] Hny.
    + rewrite Hs' in Hny. injection Hny as <-. cbn. split_and!; [done| |].
      * intros Hroot. apply Hnot. by apply root_elem.
      * intros Hl. by apply (Hlk n).
    + destruct (repr_closed value _ Hlt _ _ _ _ _ Hr' Hy Hny) as (Hcl0 & Hcr0 & Hcp0).
      split_and!.
      * intros Hpn. destruct (Hcp0 _ Hpn) as [->|?]; done.
      * intros Hln. by apply Hnot, Hcl0.
      * intros Hrn. by apply Hnot, Hcr0.
Qed.
End engine_properties.

Lemma ltb_strict_total : strict_total Nat.ltb.
Proof.
  split.
  - intros x. apply Nat.ltb_irrefl.
  - intros x y z ?%Nat.ltb_lt ?%Nat.ltb_lt. apply Nat.ltb_lt. lia.
  - intros x y ?%Nat.ltb_ge ?%Nat.ltb_ge. lia.
Defined.

Lemma demo2_reachable : reachable 0 0 demo2.
Proof.
  eapply (reach_insert 0 0 demo1 0 7 3 _ (Some (Sub 1 SLeft)));
    [|by vm_compute; eexists|by vm_compute].
  eapply (reach_insert 0 0 demo0 0 5 0 _ (Some (Sub 0 SLeft)));
    [|by vm_compute; eexists|by vm_compute].
  eapply (reach_construct 0 0 empty_world Nat.ltb Nat.ltb _ 0);
    [apply reach_start|apply ltb_strict_total..|by vm_compute].
Defined.

Lemma demo3_reachable : reachable 0 0 demo3.
Proof.
  eapply (reach_construct 0 0 demo2 Nat.ltb Nat.ltb _ 1);
    [apply demo2_reachable|apply ltb_strict_total..|by vm_compute].
Defined.

Lemma one_node_engine :
  engine_inv one_key Nat.ltb one_node (Sentinel 0 SLeft)
    (Node Leaf (Sub 0 SLeft) Leaf) None.
Proof.
  split_and!.
  - by vm_compute.
  - cbn [repr root]. split_and!; by vm_compute.
  - cbn [bst inorder]. split_and!; try done; try (by eexists); constructor.
  - done.
  - done.
Defined.

Lemma three_nodes_engine :
  engine_inv three_keys Nat.ltb three_nodes (Sentinel 0 SLeft) three_shape None.
Proof.
  split_and!.
  - by vm_compute.
  - cbn [repr root three_shape]. split_and!; by vm_compute.
  - cbn [bst inorder three_shape app]. split_and!; try done; try (by eexists);
      repeat constructor; eexists _, _; split_and!; reflexivity.
  - done.
  - done.
Defined.

(** C4, as the specification has it, on the engine with the single key
    [5]: [lower_bound(5)] is the node, and the rule with "strictly
    greater" gives [end()]; [upper_bound(5)] is [end()], and the rule with
    "greater or equal" gives the node. *)
Lemma bounds_as_specified_differ :
  tree.lower_bound one_key Nat.ltb one_node (Sentinel 0 SLeft) 5
    = Ret (Some (Sub 0 SLeft))
  ∧ bound_by one_key Nat.ltb (tree.greater Nat.ltb) one_node (Sentinel 0 SLeft) 5
    = Ret (Some (Sentinel 0 SLeft))
  ∧ tree.lower_bound one_key Nat.ltb one_node (Sentinel 0 SLeft) 5
    ≠ bound_by one_key Nat.ltb (tree.greater Nat.ltb) one_node (Sentinel 0 SLeft) 5
  ∧ tree.upper_bound one_key Nat.ltb one_node (Sentinel 0 SLeft) 5
    ≠ bound_by one_key Nat.ltb (tree.greater_or_equal Nat.ltb) one_node
        (Sentinel 0 SLeft) 5.
Proof. split_and!; by vm_compute. Qed.

(** C8: [a.swap(b)] for the bimap [a] that holds [(5, 0)] and [(7, 3)] and
    the empty bimap [b], either way round, and [b.swap(b)]: the engine
    reads [m_sentinel.left->parent] of an empty engine, through a null
    pointer. *)
Theorem swap_with_empty_undefined :
  reachable 0 0 demo3
  ∧ bimap.size demo3 0 = Ret 2 ∧ bimap.size demo3 1 = Ret 0
  ∧ bimap.swap demo3 0 1 = Undefined
  ∧ bimap.swap demo3 1 0 = Undefined
  ∧ bimap.swap demo3 1 1 = Undefined.
Proof. split; [exact demo3_reachable|]. split_and!; by vm_compute. Qed.

(** ** The properties on the examples *)

Lemma at_fails_iff_absent_demo :
  reachable 0 0 demo2 ∧ objs demo2 !! 0 = Some demo_obj
  ∧ contents demo2 0 = Ret demo_pairs
  ∧ ((bimap.at_left demo2 0 9 = OutOfRange ↔ ∀ r, (9, r) ∉ demo_pairs)
     ∧ (∀ r, (9, r) ∈ demo_pairs → bimap.at_left demo2 0 9 = Ret r)
     ∧ (bimap.at_right demo2 0 3 = OutOfRange ↔ ∀ l, (l, 3) ∉ demo_pairs)
     ∧ (∀ l, (l, 3) ∈ demo_pairs → bimap.at_right demo2 0 3 = Ret l)).
Proof.
  split; [exact demo2_reachable|]. split; [by vm_compute|]. split; [by vm_compute|].
  apply (at_fails_iff_absent 0 0 demo2 0 demo_obj 9 3 demo_pairs demo2_reachable);
    by vm_compute.
Defined.

Lemma erase_end_is_noop_demo :
  reachable 0 0 demo2 ∧ objs demo2 !! 0 = Some demo_obj
  ∧ contents demo2 0 = Ret demo_pairs
  ∧ (bimap.erase_left demo2 0 (bimap.end_left 0) = Ret (demo2, None)
     ∧ bimap.erase_left demo2 0 None = Ret (demo2, None)
     ∧ bimap.erase_right demo2 0 (bimap.end_right 0) = Ret (demo2, None)
     ∧ bimap.erase_right demo2 0 None = Ret (demo2, None)
     ∧ ((∀ r, (9, r) ∉ demo_pairs) →
          bimap.erase_left_key demo2 0 9 = Ret (demo2, false))).
Proof.
  split; [exact demo2_reachable|]. split; [by vm_compute|]. split; [by vm_compute|].
  apply (erase_end_is_noop 0 0 demo2 0 demo_obj 9 demo_pairs demo2_reachable);
    by vm_compute.
Defined.

Lemma flip_involutive_demo :
  reachable 0 0 demo2 ∧ objs demo2 !! 0 = Some demo_obj
  ∧ (bimap.flip SLeft demo2 (bimap.end_left 0) = Ret (bimap.end_right 0)
     ∧ bimap.flip SRight demo2 (bimap.end_right 0) = Ret (bimap.end_left 0)
     ∧ (∀ ns a, left_nodes demo2 0 = Ret ns → a ∈ ns →
          ∃ a' ns' p,
            bimap.flip SLeft demo2 (Some a) = Ret (Some a')
            ∧ bimap.flip SRight demo2 (Some a') = Ret (Some a)
            ∧ right_nodes demo2 0 = Ret ns' ∧ a' ∈ ns'
            ∧ pair_at_left demo2 a = Ret p ∧ pair_at_right demo2 a' = Ret p
            ∧ record_of demo2 a = Some p ∧ record_of demo2 a' = Some p)
     ∧ (∀ ns a, right_nodes demo2 0 = Ret ns → a ∈ ns →
          ∃ a' ns' p,
            bimap.flip SRight demo2 (Some a) = Ret (Some a')
            ∧ bimap.flip SLeft demo2 (Some a') = Ret (Some a)
            ∧ left_nodes demo2 0 = Ret ns' ∧ a' ∈ ns'
            ∧ pair_at_right demo2 a = Ret p ∧ pair_at_left demo2 a' = Ret p
            ∧ record_of demo2 a = Some p ∧ record_of demo2 a' = Some p)).
Proof.
  split; [exact demo2_reachable|]. split; [by vm_compute|].
  apply (flip_involutive 0 0 demo2 0 demo_obj demo2_reachable). by vm_compute.
Defined.

Lemma reachable_bst_demo :
  reachable 0 0 demo2 ∧ objs demo2 !! 0 = Some demo_obj
  ∧ ∃ tl tr psl psr,
      repr (links demo2) (Sentinel 0 SLeft) tl
      ∧ (∃ s, links demo2 !! Sentinel 0 SLeft = Some s ∧ left s = root tl)
      ∧ bst (bimap.value_left demo2) (cmp_left demo_obj) tl
      ∧ repr (links demo2) (Sentinel 0 SRight) tr
      ∧ (∃ s, links demo2 !! Sentinel 0 SRight = Some s ∧ left s = root tr)
      ∧ bst (bimap.value_right demo2) (cmp_right demo_obj) tr
      ∧ left_nodes demo2 0 = Ret (inorder tl)
      ∧ StronglySorted (key_lt (bimap.value_left demo2) (cmp_left demo_obj))
          (inorder tl)
      ∧ right_nodes demo2 0 = Ret (inorder tr)
      ∧ StronglySorted (key_lt (bimap.value_right demo2) (cmp_right demo_obj))
          (inorder tr)
      ∧ contents demo2 0 = Ret psl
      ∧ StronglySorted (λ x y, cmp_left demo_obj x y = true) psl.*1
      ∧ contents_right demo2 0 = Ret psr
      ∧ StronglySorted (λ x y, cmp_right demo_obj x y = true) psr.*2.
Proof.
  split; [exact demo2_reachable|]. split; [by vm_compute|].
  apply (reachable_bst 0 0 demo2 0 demo_obj demo2_reachable). by vm_compute.
Defined.

Lemma reachable_size_demo :
  reachable 0 0 demo2 ∧ objs demo2 !! 0 = Some demo_obj
  ∧ ∃ nsl nsr,
      bimap.size demo2 0 = Ret (m_size demo_obj)
      ∧ left_nodes demo2 0 = Ret nsl ∧ right_nodes demo2 0 = Ret nsr
      ∧ NoDup nsl ∧ NoDup nsr
      ∧ (∀ a, linked (links demo2) (Sentinel 0 SLeft) a ↔ a ∈ nsl)
      ∧ (∀ a, linked (links demo2) (Sentinel 0 SRight) a ↔ a ∈ nsr)
      ∧ length nsl = m_size demo_obj ∧ length nsr = m_size demo_obj
      ∧ (∀ a, a ∈ nsl → ∃ i, a = Sub i SLeft ∧ is_Some (values demo2 !! i))
      ∧ (∀ a, a ∈ nsr → ∃ i, a = Sub i SRight ∧ is_Some (values demo2 !! i))
      ∧ (∀ i, linked (links demo2) (Sentinel 0 SLeft) (Sub i SLeft)
              ↔ linked (links demo2) (Sentinel 0 SRight) (Sub i SRight)).
Proof.
  split; [exact demo2_reachable|]. split; [by vm_compute|].
  apply (reachable_size 0 0 demo2 0 demo_obj demo2_reachable). by vm_compute.
Defined.

Lemma at_left_or_default_evicts_demo :
  reachable 0 0 demo2 ∧ objs demo2 !! 0 = Some demo_obj
  ∧ contents demo2 0 = Ret demo_pairs
  ∧ ((∀ r, (9, r) ∈ demo_pairs →
        bimap.at_left_or_default 0 demo2 0 9 = Ret (demo2, r))
     ∧ ((∀ r, (9, r) ∉ demo_pairs) →
        ∃ w1 res ps1 w' it ps',
          bimap.erase_right_key demo2 0 0 = Ret (w1, res)
          ∧ contents w1 0 = Ret ps1
          ∧ (∀ p, p ∈ ps1 ↔ p ∈ demo_pairs ∧ p.2 ≠ 0)
          ∧ bimap.insert w1 0 9 0 = Ret (w', it)
          ∧ it ≠ bimap.end_left 0
          ∧ bimap.at_left_or_default 0 demo2 0 9 = Ret (w', 0)
          ∧ contents w' 0 = Ret ps'
          ∧ (∀ p, p ∈ ps' ↔ p = (9, 0) ∨ p ∈ demo_pairs ∧ p.2 ≠ 0)
          ∧ (∀ l, (l, 0) ∈ demo_pairs →
               bimap.find_left w' 0 l = Ret (bimap.end_left 0))
          ∧ bimap.at_left w' 0 9 = Ret 0)).
Proof.
  split; [exact demo2_reachable|]. split; [by vm_compute|]. split; [by vm_compute|].
  apply (at_left_or_default_evicts 0 0 demo2 0 demo_obj 9 demo_pairs demo2_reachable);
    by vm_compute.
Defined.

Lemma insert_all_or_nothing_demo :
  reachable 0 0 demo2 ∧ objs demo2 !! 0 = Some demo_obj
  ∧ contents demo2 0 = Ret demo_pairs ∧ contents_right demo2 0 = Ret demo_pairs
  ∧ (bimap.size demo2 0 = Ret (length demo_pairs)
     ∧ ((∃ r', (5, r') ∈ demo_pairs) ∨ (∃ l', (l', 4) ∈ demo_pairs) →
          bimap.insert demo2 0 5 4 = Ret (demo2, bimap.end_left 0)
          ∧ ∀ r0, (5, r0) ∈ demo_pairs → bimap.at_left demo2 0 5 = Ret r0)
     ∧ ((∀ r', (5, r') ∉ demo_pairs) → (∀ l', (l', 4) ∉ demo_pairs) →
          ∃ w' a ns' ps' psr',
            bimap.insert demo2 0 5 4 = Ret (w', Some a)
            ∧ Some a ≠ bimap.end_left 0
            ∧ left_nodes w' 0 = Ret ns' ∧ a ∈ ns'
            ∧ pair_at_left w' a = Ret (5, 4)
            ∧ bimap.size w' 0 = Ret (S (length demo_pairs))
            ∧ contents w' 0 = Ret ps' ∧ ps' ≡ₚ (5, 4) :: demo_pairs
            ∧ contents_right w' 0 = Ret psr' ∧ psr' ≡ₚ (5, 4) :: demo_pairs)).
Proof.
  split; [exact demo2_reachable|]. split; [by vm_compute|]. split; [by vm_compute|].
  split; [by vm_compute|].
  apply (insert_all_or_nothing 0 0 demo2 0 demo_obj 5 4 demo_pairs demo_pairs
           demo2_reachable); by vm_compute.
Defined.

Lemma bounds_from_nearest_demo :
  strict_total Nat.ltb
  ∧ engine_inv one_key Nat.ltb one_node (Sentinel 0 SLeft)
      (Node Leaf (Sub 0 SLeft) Leaf) None
  ∧ (tree.lower_bound one_key Nat.ltb one_node (Sentinel 0 SLeft) 5
       = bound_by one_key Nat.ltb (tree.greater_or_equal Nat.ltb) one_node
           (Sentinel 0 SLeft) 5
     ∧ tree.upper_bound one_key Nat.ltb one_node (Sentinel 0 SLeft) 5
       = bound_by one_key Nat.ltb (tree.greater Nat.ltb) one_node (Sentinel 0 SLeft) 5
     ∧ nodes one_node (Sentinel 0 SLeft) = Ret (inorder (Node Leaf (Sub 0 SLeft) Leaf))
     ∧ tree.lower_bound one_key Nat.ltb one_node (Sentinel 0 SLeft) 5
       = Ret (Some (first_with (not_less one_key Nat.ltb 5)
                      (inorder (Node Leaf (Sub 0 SLeft) Leaf)) (Sentinel 0 SLeft)))
     ∧ tree.upper_bound one_key Nat.ltb one_node (Sentinel 0 SLeft) 5
       = Ret (Some (first_with (greater_than one_key Nat.ltb 5)
                      (inorder (Node Leaf (Sub 0 SLeft) Leaf)) (Sentinel 0 SLeft)))).
Proof.
  split; [exact ltb_strict_total|]. split; [exact one_node_engine|].
  exact (bounds_from_nearest one_key Nat.ltb ltb_strict_total one_node
           (Sentinel 0 SLeft) (Node Leaf (Sub 0 SLeft) Leaf) None 5 one_node_engine).
Defined.

Lemma erase_installs_predecessor_demo :
  strict_total Nat.ltb
  ∧ engine_inv three_keys Nat.ltb three_nodes (Sentinel 0 SLeft) three_shape None
  ∧ Sub 0 SLeft ∈ inorder three_shape
  ∧ three_nodes !! Sub 0 SLeft
    = Some (NodeBase (Some (Sentinel 0 SLeft)) (Some (Sub 1 SLeft)) (Some (Sub 2 SLeft)))
  ∧ ∃ h' m nm np h1 pre post,
      tree.erase three_nodes (Some (Sub 0 SLeft)) = Ret (h', Some (Sub 0 SLeft))
      ∧ tree.prev three_nodes (Some (Sub 0 SLeft)) = Ret (Some m)
      ∧ inorder three_shape = pre ++ m :: Sub 0 SLeft :: post
      ∧ three_nodes !! m = Some nm ∧ three_nodes !! Sentinel 0 SLeft = Some np
      ∧ tree.set_new_child_for_parent three_nodes m (left nm) = Ret h1
      ∧ h' !! m = Some (NodeBase (Some (Sentinel 0 SLeft))
                          (if decide (m = Sub 1 SLeft) then left nm
                           else Some (Sub 1 SLeft))
                          (Some (Sub 2 SLeft)))
      ∧ h' !! Sentinel 0 SLeft = Some (slot_set (Sub 0 SLeft) (Some m) np)
      ∧ (∃ ncr, h' !! Sub 2 SLeft = Some ncr ∧ parent ncr = Some m)
      ∧ (m ≠ Sub 1 SLeft → ∃ ncl, h' !! Sub 1 SLeft = Some ncl ∧ parent ncl = Some m)
      ∧ (∀ c, m = Sub 1 SLeft → left nm = Some c →
           ∃ nc, h' !! c = Some nc ∧ parent nc = Some m)
      ∧ engine_inv three_keys Nat.ltb h' (Sentinel 0 SLeft)
          (del (Sub 0 SLeft) three_shape) None
      ∧ nodes h' (Sentinel 0 SLeft) = Ret (pre ++ m :: post)
      ∧ ¬ linked h' (Sentinel 0 SLeft) (Sub 0 SLeft)
      ∧ (∀ y ny, y = Sentinel 0 SLeft ∨ y ∈ pre ++ m :: post → h' !! y = Some ny →
           parent ny ≠ Some (Sub 0 SLeft) ∧ left ny ≠ Some (Sub 0 SLeft)
           ∧ right ny ≠ Some (Sub 0 SLeft)).
Proof.
  split; [exact ltb_strict_total|]. split; [exact three_nodes_engine|].
  split; [by apply (bool_decide_unpack _); vm_compute|]. split; [by vm_compute|].
  apply (erase_installs_predecessor three_keys Nat.ltb ltb_strict_total three_nodes
           (Sentinel 0 SLeft) three_shape None (Sub 0 SLeft) (Sentinel 0 SLeft)
           (Sub 1 SLeft) (Sub 2 SLeft) three_nodes_engine).
  - by apply (bool_decide_unpack _); vm_compute.
  - by vm_compute.
Defined.

(** * Further properties of the bimap *)

Lemma omap_agree {A B} (f g : A → option B) (l : list A) :
  (∀ x, x ∈ l → f x = g x) → omap f l = omap g l.
Proof.
  induction l as [|x l IH]; intros Hag; [done|]. cbn [omap list_omap].
  rewrite (Hag x) by (by left). rewrite IH; [done|].
  intros y Hy. apply Hag. by right.
Qed.

Section lookups.
Context {L R : Type}.
Variable default_left : L.
Variable default_right : R.
Implicit Types (w : world L R) (o : bimap_obj L R).

Local Notation reach := (reachable default_left default_right).

Lemma left_absent_holds w b o tl tr l :
  store_inv w b o tl tr → (∀ r, (l, r) ∉ records w tl) →
  ∀ x, ¬ holds (bimap.value_left w) tl l x.
Proof.
  intros Hinv Hno x Hx.
  destruct (proj1 (holds_left_records _ _ _ _ _ l Hinv)) as [r Hr];
    [by exists x|]. by apply (Hno r).
Qed.

Lemma right_absent_holds w b o tl tr r :
  store_inv w b o tl tr → (∀ l, (l, r) ∉ records w tl) →
  ∀ x, ¬ holds (bimap.value_right w) tr r x.
Proof.
  intros Hinv Hno x Hx.
  destruct (proj1 (holds_right_records _ _ _ _ _ r Hinv)) as [l Hl];
    [by exists x|]. by apply (Hno l).
Qed.

(** X1: [find_left(K)] returns [end_left()] exactly when no pair has the
    left value [K]; otherwise it returns the node of the left side whose
    pair has it.  [find_right] likewise. *)
Theorem find_positions w b o kl kr ps :
  reach w → objs w !! b = Some o → contents w b = Ret ps →
  (bimap.find_left w b kl = Ret (bimap.end_left b) ↔ ∀ r, (kl, r) ∉ ps)
  ∧ (∀ r, (kl, r) ∈ ps →
       ∃ a ns, bimap.find_left w b kl = Ret (Some a)
         ∧ left_nodes w b = Ret ns ∧ a ∈ ns
         ∧ pair_at_left w a = Ret (kl, r))
  ∧ (bimap.find_right w b kr = Ret (bimap.end_right b) ↔ ∀ l, (l, kr) ∉ ps)
  ∧ (∀ l, (l, kr) ∈ ps →
       ∃ a ns, bimap.find_right w b kr = Ret (Some a)
         ∧ right_nodes w b = Ret ns ∧ a ∈ ns
         ∧ pair_at_right w a = Ret (l, kr)).
Proof.
  intros Hw Ho Hps.
  destruct (reachable_contents _ _ _ _ _ _ Hw Ho Hps) as (tl & tr & Hinv & ->).
  pose proof Hinv as (_ & _ & _ & _ & _ & Hpair & _).
  assert (HL : ∀ r, (kl, r) ∈ records w tl →
            ∃ a ns, bimap.find_left w b kl = Ret (Some a)
              ∧ left_nodes w b = Ret ns ∧ a ∈ ns
              ∧ pair_at_left w a = Ret (kl, r)).
  { intros r (i & Hi & Hv)%(records_left _ _ _ _ _ _ _ Hinv).
    exists (Sub i SLeft), (inorder tl). split_and!; [|by eapply left_nodes_spec|done|].
    - apply (find_left_found _ _ _ _ _ _ _ Hinv). split; [done|]. cbn. by rewrite Hv.
    - by eapply pair_at_left_spec. }
  assert (HR : ∀ l, (l, kr) ∈ records w tl →
            ∃ a ns, bimap.find_right w b kr = Ret (Some a)
              ∧ right_nodes w b = Ret ns ∧ a ∈ ns
              ∧ pair_at_right w a = Ret (l, kr)).
  { intros l (i & Hi & Hv)%(records_left _ _ _ _ _ _ _ Hinv).
    apply Hpair in Hi.
    exists (Sub i SRight), (inorder tr). split_and!; [|by eapply right_nodes_spec|done|].
    - apply (find_right_found _ _ _ _ _ _ _ Hinv). split; [done|]. cbn. by rewrite Hv.
    - by eapply pair_at_right_spec. }
  split_and!; [|done| |done].
  - split.
    + intros Hf r Hr. destruct (HL r Hr) as (a & ns & Hf' & Hns & Ha & _).
      rewrite Hf' in Hf. injection Hf as ->.
      rewrite (left_nodes_spec _ _ _ _ _ Hinv) in Hns. injection Hns as <-.
      by destruct (store_left_elem _ _ _ _ _ _ Hinv Ha) as (? & ? & ? & ? & _).
    + intros Hno. apply (find_left_missing _ _ _ _ _ _ Hinv).
      by eapply left_absent_holds.
  - split.
    + intros Hf l Hl. destruct (HR l Hl) as (a & ns & Hf' & Hns & Ha & _).
      rewrite Hf' in Hf. injection Hf as ->.
      rewrite (right_nodes_spec _ _ _ _ _ Hinv) in Hns. injection Hns as <-.
      by destruct (store_right_elem _ _ _ _ _ _ Hinv Ha) as (? & ? & ? & ? & _).
    + intros Hno. apply (find_right_missing _ _ _ _ _ _ Hinv).
      by eapply right_absent_holds.
Qed.
End lookups.

Section updates_and_lookups.
Context {L R : Type}.
Variable default_left : L.
Variable default_right : R.
Implicit Types (w : world L R) (o : bimap_obj L R).

Local Notation reach := (reachable default_left default_right).

Lemma find_left_gone w b o tl tr l :
  store_inv w b o tl tr → (∀ r, (l, r) ∉ records w tl) →
  bimap.find_left w b l = Ret (bimap.end_left b).
Proof.
  intros Hinv Hno. apply (find_left_missing _ _ _ _ _ _ Hinv).
  by eapply left_absent_holds.
Qed.

Lemma find_right_gone w b o tl tr r :
  store_inv w b o tl tr → (∀ l, (l, r) ∉ records w tl) →
  bimap.find_right w b r = Ret (bimap.end_right b).
Proof.
  intros Hinv Hno. apply (find_right_missing _ _ _ _ _ _ Hinv).
  by eapply right_absent_holds.
Qed.

(** X2: after an [insert(L, R)] that did not return [end_left()],
    [find_left(L)] is the position [insert] returned and dereferences to
    [L], [find_right(R)] is its [flip()], [at_left(L)] is [R] and
    [at_right(R)] is [L]. *)
Theorem insert_then_lookup w b o l r w' it :
  reach w → objs w !! b = Some o →
  bimap.insert w b l r = Ret (w', it) → it ≠ bimap.end_left b →
  bimap.find_left w' b l = Ret it
  ∧ bimap.deref_left w' it = Ret l
  ∧ (∃ fit, bimap.flip SLeft w' it = Ret fit
       ∧ bimap.find_right w' b r = Ret fit
       ∧ bimap.deref_right w' fit = Ret r)
  ∧ bimap.at_left w' b l = Ret r
  ∧ bimap.at_right w' b r = Ret l.
Proof.
  intros Hw Ho Hins Hit.
  destruct (reachable_store _ _ _ _ _ Hw Ho) as (tl & tr & Hinv).
  destruct (left_key_dec _ _ _ _ _ l Hinv) as [Hl|Hl].
  { rewrite (insert_dup _ _ _ _ _ l r Hinv) in Hins by (by left).
    by injection Hins as _ <-. }
  destruct (right_key_dec _ _ _ _ _ r Hinv) as [Hr|Hr].
  { rewrite (insert_dup _ _ _ _ _ l r Hinv) in Hins by (by right).
    by injection Hins as _ <-. }
  destruct (insert_fresh_evolves _ _ _ _ _ l r Hinv Hl Hr)
    as (w1 & tl' & tr' & Hins' & Hinv' & Hev & Hin & Hv & Hrec).
  cbn zeta in *. rewrite Hins' in Hins. injection Hins as <- <-.
  pose proof Hinv' as (_ & _ & _ & _ & _ & Hpair' & _).
  assert (Hin' : Sub (next_record w) SRight ∈ inorder tr') by (by apply Hpair').
  assert (Hp : (l, r) ∈ records w1 tl') by (apply Hrec; by left).
  split_and!.
  - apply (find_left_found _ _ _ _ _ _ _ Hinv'). split; [done|]. cbn. by rewrite Hv.
  - unfold bimap.deref_left. cbn. by rewrite Hv.
  - exists (Some (Sub (next_record w) SRight)). split_and!.
    + by eapply flip_left_node.
    + apply (find_right_found _ _ _ _ _ _ _ Hinv'). split; [done|]. cbn. by rewrite Hv.
    + unfold bimap.deref_right. cbn. by rewrite Hv.
  - by eapply at_left_found.
  - by eapply at_right_found.
Qed.

(** X3: [empty()] of the bimap and [empty()] of each of its engines say
    whether the bimap holds no pair; [begin_left()] is [end_left()]
    exactly then, and otherwise it is the position of the pair with the
    least left value; the same on the right. *)
Theorem empty_and_begin w b o ps psr :
  reach w → objs w !! b = Some o →
  contents w b = Ret ps → contents_right w b = Ret psr →
  bimap.empty w b = Ret (bool_decide (length ps = 0))
  ∧ tree.empty (links w) (Sentinel b SLeft) = Ret (bool_decide (length ps = 0))
  ∧ tree.empty (links w) (Sentinel b SRight) = Ret (bool_decide (length ps = 0))
  ∧ (bimap.begin_left w b = Ret (bimap.end_left b) ↔ ps = [])
  ∧ (bimap.begin_right w b = Ret (bimap.end_right b) ↔ ps = [])
  ∧ (∀ p ps', ps = p :: ps' →
       ∃ a, bimap.begin_left w b = Ret (Some a) ∧ pair_at_left w a = Ret p)
  ∧ (∀ p ps', psr = p :: ps' →
       ∃ a, bimap.begin_right w b = Ret (Some a) ∧ pair_at_right w a = Ret p).
Proof.
  intros Hw Ho Hps Hpsr.
  destruct (reachable_contents _ _ _ _ _ _ Hw Ho Hps) as (tl & tr & Hinv & ->).
  rewrite (contents_right_spec _ _ _ _ _ Hinv) in Hpsr. injection Hpsr as <-.
  pose proof Hinv as (_ & Hl & Hr & Hel & Her & Hpair & Hsz & _).
  pose proof (records_length _ _ _ _ _ Hinv) as Hlen.
  pose proof (store_lengths _ _ _ _ _ Hinv) as Hlens.
  pose proof Hel as (HsL & _). pose proof Her as (HsR & _).
  assert (HbL := begin_spec _ _ Hl _ _ _ _ Hel).
  assert (HbR := begin_spec _ _ Hr _ _ _ _ Her).
  assert (HtL : root tl = None ↔ length (inorder tl) = 0).
  { destruct tl as [|l a r]; [done|]. cbn. rewrite length_app. cbn. split; [done|lia]. }
  assert (HtR : root tr = None ↔ length (inorder tl) = 0).
  { rewrite <-Hlens. destruct tr as [|l a r]; [done|]. cbn. rewrite length_app.
    cbn. split; [done|lia]. }
  split_and!.
  - unfold bimap.empty, bimap.obj. rewrite Ho. cbn. by rewrite Hlen.
  - unfold tree.empty. rewrite (load_Some _ _ _ HsL). cbn. f_equal.
    apply bool_decide_ext. rewrite Hlen, Hsz. done.
  - unfold tree.empty. rewrite (load_Some _ _ _ HsR). cbn. f_equal.
    apply bool_decide_ext. rewrite Hlen, Hsz. done.
  - unfold bimap.begin_left. rewrite HbL. split.
    + intros [= Heq]. apply length_zero_iff_nil. rewrite Hlen, Hsz.
      destruct (inorder tl) as [|a ?] eqn:Hi; [done|]. cbn in Heq. subst a.
      destruct (store_left_elem _ _ _ _ _ (Sentinel b SLeft) Hinv) as (? & ? & ? & ? & _);
        [rewrite Hi; by left|done].
    + intros Hnil. apply (f_equal length) in Hnil. rewrite Hlen, Hsz in Hnil.
      by destruct (inorder tl).
  - unfold bimap.begin_right. rewrite HbR. split.
    + intros [= Heq]. apply length_zero_iff_nil. rewrite Hlen, Hsz, <-Hlens.
      destruct (inorder tr) as [|a ?] eqn:Hi; [done|]. cbn in Heq. subst a.
      destruct (store_right_elem _ _ _ _ _ (Sentinel b SRight) Hinv) as (? & ? & ? & ? & _);
        [rewrite Hi; by left|done].
    + intros Hnil. apply (f_equal length) in Hnil. rewrite Hlen, Hsz, <-Hlens in Hnil.
      by destruct (inorder tr).
  - intros p ps' Heq. unfold bimap.begin_left. rewrite HbL.
    unfold records in Heq. destruct (inorder tl) as [|a rest] eqn:Hi; [done|].
    assert (Ha : a ∈ inorder tl) by (rewrite Hi; by left).
    destruct (store_left_elem _ _ _ _ _ _ Hinv Ha) as (i & l & r & -> & Hv & _).
    cbn in Heq. rewrite Hv in Heq. injection Heq as <- _.
    exists (Sub i SLeft). split; [done|]. by eapply pair_at_left_spec.
  - intros p ps' Heq. unfold bimap.begin_right. rewrite HbR.
    unfold records in Heq. destruct (inorder tr) as [|a rest] eqn:Hi; [done|].
    assert (Ha : a ∈ inorder tr) by (rewrite Hi; by left).
    destruct (store_right_elem _ _ _ _ _ _ Hinv Ha) as (i & l & r & -> & Hv & _).
    cbn in Heq. rewrite Hv in Heq. injection Heq as <- _.
    exists (Sub i SRight). split; [done|]. by eapply pair_at_right_spec.
Qed.

(** X4: [erase_left(key)] for a key that a pair has returns [true];
    afterwards the bimap holds the other pairs, [size()] is one less and
    neither value of the pair is found.  [erase_right(key)] likewise, and
    for a key that no pair has it returns [false] and the world as it
    was. *)
Theorem erase_key_removes w b o kl kr ps :
  reach w → objs w !! b = Some o → contents w b = Ret ps →
  (∀ r, (kl, r) ∈ ps →
     ∃ w' ps', bimap.erase_left_key w b kl = Ret (w', true)
       ∧ contents w' b = Ret ps'
       ∧ (∀ q, q ∈ ps' ↔ q ∈ ps ∧ q ≠ (kl, r))
       ∧ bimap.size w' b = Ret (pred (length ps))
       ∧ bimap.find_left w' b kl = Ret (bimap.end_left b)
       ∧ bimap.find_right w' b r = Ret (bimap.end_right b))
  ∧ (∀ l, (l, kr) ∈ ps →
     ∃ w' ps', bimap.erase_right_key w b kr = Ret (w', true)
       ∧ contents w' b = Ret ps'
       ∧ (∀ q, q ∈ ps' ↔ q ∈ ps ∧ q ≠ (l, kr))
       ∧ bimap.size w' b = Ret (pred (length ps))
       ∧ bimap.find_left w' b l = Ret (bimap.end_left b)
       ∧ bimap.find_right w' b kr = Ret (bimap.end_right b))
  ∧ ((∀ l, (l, kr) ∉ ps) → bimap.erase_right_key w b kr = Ret (w, false)).
Proof.
  intros Hw Ho Hps.
  destruct (reachable_contents _ _ _ _ _ _ Hw Ho Hps) as (tl & tr & Hinv & ->).
  pose proof (records_length _ _ _ _ _ Hinv) as Hlen.
  assert (Hgone : ∀ w' o' tl' tr' l r,
            store_inv w' b o' tl' tr' → (l, r) ∈ records w tl →
            (∀ p, p ∈ records w' tl' ↔ p ∈ records w tl ∧ p ≠ (l, r)) →
            bimap.find_left w' b l = Ret (bimap.end_left b)
            ∧ bimap.find_right w' b r = Ret (bimap.end_right b)).
  { intros w' o' tl' tr' l r Hinv' Hp Hrec. split.
    - apply (find_left_gone _ _ _ _ _ _ Hinv'). intros r' [Hr' Hne]%Hrec.
      apply Hne. f_equal. exact (records_left_inj _ _ _ _ _ _ _ _ Hinv Hr' Hp).
    - apply (find_right_gone _ _ _ _ _ _ Hinv'). intros l' [Hl' Hne]%Hrec.
      apply Hne. f_equal. exact (records_right_inj _ _ _ _ _ _ _ _ Hinv Hl' Hp). }
  split_and!.
  - intros r Hr.
    destruct (erase_left_key_found _ _ _ _ _ _ _ Hinv Hr)
      as (w' & tl' & tr' & He & Hinv' & _ & Hrec).
    destruct (Hgone _ _ _ _ _ _ Hinv' Hr Hrec) as [? ?].
    exists w', (records w' tl'). split_and!; try done.
    + by eapply contents_spec.
    + rewrite (size_spec _ _ _ _ _ Hinv'). cbn. by rewrite Hlen.
  - intros l Hl.
    destruct (erase_right_key_found _ _ _ _ _ _ _ Hinv Hl)
      as (w' & tl' & tr' & He & Hinv' & _ & Hrec).
    destruct (Hgone _ _ _ _ _ _ Hinv' Hl Hrec) as [? ?].
    exists w', (records w' tl'). split_and!; try done.
    + by eapply contents_spec.
    + rewrite (size_spec _ _ _ _ _ Hinv'). cbn. by rewrite Hlen.
  - intros Hno. by eapply erase_right_key_missing.
Qed.

(** X5: [at_right_or_default(K)] on a bimap that has a pair with the
    right value [K] returns the left value of that pair and the world as
    it was.  On a bimap that has none it returns the default left value;
    afterwards the bimap holds [(default, K)] and the former pairs whose
    left value is not the default, [find_right] of the right value of a
    pair that had the default left value returns [end_right()],
    [at_right(K)] is the default and [at_left(default)] is [K]. *)
Theorem at_right_or_default_evicts w b o k ps :
  reach w → objs w !! b = Some o → contents w b = Ret ps →
  (∀ l, (l, k) ∈ ps →
     bimap.at_right_or_default default_left w b k = Ret (w, l))
  ∧ ((∀ l, (l, k) ∉ ps) →
     ∃ w' ps',
       bimap.at_right_or_default default_left w b k = Ret (w', default_left)
       ∧ contents w' b = Ret ps'
       ∧ (∀ p, p ∈ ps' ↔ p = (default_left, k) ∨ p ∈ ps ∧ p.1 ≠ default_left)
       ∧ (∀ r, (default_left, r) ∈ ps →
            bimap.find_right w' b r = Ret (bimap.end_right b))
       ∧ bimap.at_right w' b k = Ret default_left
       ∧ bimap.at_left w' b default_left = Ret k).
Proof.
  intros Hw Ho Hps.
  destruct (reachable_contents _ _ _ _ _ _ Hw Ho Hps) as (tl & tr & Hinv & ->).
  split.
  { intros l Hl. by eapply at_right_or_default_found. }
  intros Hno.
  destruct (at_right_or_default_missing default_left _ _ _ _ _ _ Hinv Hno)
    as (w' & o' & tl' & tr' & Hat & Hinv' & _ & Hrec).
  assert (Hnew : (default_left, k) ∈ records w' tl') by (apply Hrec; by left).
  exists w', (records w' tl'). split_and!; try done.
  - by eapply contents_spec.
  - intros r Hr. apply (find_right_gone _ _ _ _ _ _ Hinv').
    intros l' [[= -> ->]|[Hl' Hne]]%Hrec.
    + by apply (Hno default_left).
    + apply Hne. cbn. exact (records_right_inj _ _ _ _ _ _ _ _ Hinv Hl' Hr).
  - by eapply at_right_found.
  - by eapply at_left_found.
Qed.
End updates_and_lookups.

Section erase_positions.
Context {L R : Type}.
Variable default_left : L.
Variable default_right : R.
Implicit Types (w : world L R) (o : bimap_obj L R).

Local Notation reach := (reachable default_left default_right).

Lemma pair_gone w w' b o o' tl tr tl' tr' l r :
  store_inv w b o tl tr → store_inv w' b o' tl' tr' →
  (l, r) ∈ records w tl →
  (∀ p, p ∈ records w' tl' ↔ p ∈ records w tl ∧ p ≠ (l, r)) →
  bimap.find_left w' b l = Ret (bimap.end_left b)
  ∧ bimap.find_right w' b r = Ret (bimap.end_right b).
Proof.
  intros Hinv Hinv' Hp Hrec. split.
  - apply (find_left_gone _ _ _ _ _ _ Hinv'). intros r' [Hr' Hne]%Hrec.
    apply Hne. f_equal. exact (records_left_inj _ _ _ _ _ _ _ _ Hinv Hr' Hp).
  - apply (find_right_gone _ _ _ _ _ _ Hinv'). intros l' [Hl' Hne]%Hrec.
    apply Hne. f_equal. exact (records_right_inj _ _ _ _ _ _ _ _ Hinv Hl' Hp).
Qed.

Lemma left_pairs w b o tl tr (l : list addr) :
  store_inv w b o tl tr → (∀ a, a ∈ l → a ∈ inorder tl) →
  collect (pair_at_left w) l = Ret (omap (record_of w) l).
Proof.
  intros Hinv Hin. apply collect_records. intros a Ha.
  destruct (store_left_elem _ _ _ _ _ _ Hinv (Hin a Ha)) as (i & l' & r & -> & Hv & _).
  exists (l', r). split; [done|]. eapply pair_at_left_spec; [done|by apply Hin|done].
Qed.

Lemma right_pairs w b o tl tr (l : list addr) :
  store_inv w b o tl tr → (∀ a, a ∈ l → a ∈ inorder tr) →
  collect (pair_at_right w) l = Ret (omap (record_of w) l).
Proof.
  intros Hinv Hin. apply collect_records. intros a Ha.
  destruct (store_right_elem _ _ _ _ _ _ Hinv (Hin a Ha)) as (i & l' & r & -> & Hv & _).
  exists (l', r). split; [done|]. eapply pair_at_right_spec; [done|by apply Hin|done].
Qed.

(** The records of the nodes that are left when the record [i] is
    deleted. *)
Lemma records_without w w' i s (l : list addr) :
  values w' = delete i (values w) →
  (∀ a, a ∈ l → ∃ j, a = Sub j s) → NoDup l →
  omap (record_of w') (without (Sub i s) l)
  = omap (record_of w) (without (Sub i s) l).
Proof.
  intros Hv Hsub Hnd. apply omap_agree. intros x [Hx Hne]%without_elem.
  destruct (Hsub x Hx) as [j ->]. cbn. rewrite Hv.
  apply lookup_delete_ne. congruence.
Qed.

Lemma split_without (pre post : list addr) a :
  NoDup (pre ++ a :: post) → without a (pre ++ a :: post) = pre ++ post.
Proof.
  intros Hnd. apply NoDup_app in Hnd as (_ & Hd & [Ha _]%NoDup_cons).
  apply without_split; [|done]. intros Hp. apply (Hd a Hp). by left.
Qed.

(** X6: [erase_left(it)] for a node [it] of the left side returns the
    position after it, or [end_left()].  Afterwards the left side holds
    the other nodes and pairs in the order they had, the right side the
    same pairs, [size()] is their number, the pair record is gone and
    neither of its values is found. *)
Theorem erase_left_removes w b o pre a post :
  reach w → objs w !! b = Some o →
  left_nodes w b = Ret (pre ++ a :: post) →
  ∃ p ps1 ps2 psr' w',
    pair_at_left w a = Ret p
    ∧ collect (pair_at_left w) pre = Ret ps1
    ∧ collect (pair_at_left w) post = Ret ps2
    ∧ contents w b = Ret (ps1 ++ p :: ps2)
    ∧ bimap.erase_left w b (Some a) = Ret (w', Some (hd (Sentinel b SLeft) post))
    ∧ left_nodes w' b = Ret (pre ++ post)
    ∧ contents w' b = Ret (ps1 ++ ps2)
    ∧ contents_right w' b = Ret psr' ∧ psr' ≡ₚ ps1 ++ ps2
    ∧ bimap.size w' b = Ret (length (ps1 ++ ps2))
    ∧ record_of w' a = None
    ∧ bimap.find_left w' b p.1 = Ret (bimap.end_left b)
    ∧ bimap.find_right w' b p.2 = Ret (bimap.end_right b).
Proof.
  intros Hw Ho Hns. destruct (reachable_store _ _ _ _ _ Hw Ho) as (tl & tr & Hinv).
  rewrite (left_nodes_spec _ _ _ _ _ Hinv) in Hns. injection Hns as Hns.
  pose proof Hinv as (_ & Hl & _ & (_ & _ & Hb & _) & _).
  pose proof (bst_NoDup _ _ Hl _ Hb) as Hnd.
  assert (Ha : a ∈ inorder tl) by (rewrite Hns; set_solver).
  destruct (store_left_elem _ _ _ _ _ _ Hinv Ha) as (i & l & r & -> & Hv & _).
  destruct (erase_left_spec _ _ _ _ _ _ Hinv Ha)
    as (w' & He & Hinv' & Hvals & _).
  cbn zeta in *.
  assert (Hrec' : records w' (del (Sub i SLeft) tl) = omap (record_of w) (pre ++ post)).
  { unfold records. rewrite del_inorder by done.
    rewrite (records_without w w' i SLeft) ; [|done| |done].
    - rewrite Hns. rewrite split_without; [done|by rewrite <-Hns].
    - intros x Hx. destruct (store_left_elem _ _ _ _ _ _ Hinv Hx) as (j & ? & ? & -> & _).
      by exists j. }
  assert (Hrec : records w tl
                 = omap (record_of w) pre ++ (l, r) :: omap (record_of w) post).
  { unfold records. rewrite Hns, omap_app. cbn. by rewrite Hv. }
  assert (Hp : (l, r) ∈ records w tl) by (rewrite Hrec; set_solver).
  destruct (pair_gone w w' b _ _ tl tr _ _ l r Hinv Hinv' Hp) as [Hfl Hfr].
  { by apply (records_after_erase _ _ _ _ _ _ _ _ _ Hinv Hinv' Hvals Ha Hv). }
  exists (l, r), (omap (record_of w) pre), (omap (record_of w) post),
    (records w' (del (Sub i SRight) tr)), w'.
  split_and!; try done.
  - by eapply pair_at_left_spec.
  - apply (left_pairs _ _ _ _ _ _ Hinv). intros x Hx. rewrite Hns. set_solver.
  - apply (left_pairs _ _ _ _ _ _ Hinv). intros x Hx. rewrite Hns. set_solver.
  - by rewrite (contents_spec _ _ _ _ _ Hinv), Hrec.
  - rewrite He. do 3 f_equal. rewrite Hns. apply succ_in_split.
    rewrite Hns in Hnd. apply NoDup_app in Hnd as (_ & Hd & _).
    intros Hp'. apply (Hd _ Hp'). by left.
  - rewrite (left_nodes_spec _ _ _ _ _ Hinv'), del_inorder by done.
    rewrite Hns. rewrite split_without; [done|by rewrite <-Hns].
  - by rewrite (contents_spec _ _ _ _ _ Hinv'), Hrec', omap_app.
  - by eapply contents_right_spec.
  - rewrite <-omap_app, <-Hrec'. apply NoDup_Permutation.
    + by eapply records_right_NoDup.
    + by eapply records_NoDup.
    + intros q. symmetry. by apply (records_sides _ _ _ _ _ _ Hinv').
  - rewrite (size_spec _ _ _ _ _ Hinv'), <-omap_app, <-Hrec'.
    f_equal. symmetry. by eapply records_length.
  - cbn. rewrite Hvals. apply lookup_delete_eq.
Qed.

(** X7: [erase_right(it)] for a node [it] of the right side returns the
    position after it, or [end_right()].  Afterwards the right side holds
    the other nodes and pairs in the order they had, the left side the
    same pairs, [size()] is their number, the pair record is gone and
    neither of its values is found. *)
Theorem erase_right_removes w b o pre a post :
  reach w → objs w !! b = Some o →
  right_nodes w b = Ret (pre ++ a :: post) →
  ∃ p ps1 ps2 psl' w',
    pair_at_right w a = Ret p
    ∧ collect (pair_at_right w) pre = Ret ps1
    ∧ collect (pair_at_right w) post = Ret ps2
    ∧ contents_right w b = Ret (ps1 ++ p :: ps2)
    ∧ bimap.erase_right w b (Some a) = Ret (w', Some (hd (Sentinel b SRight) post))
    ∧ right_nodes w' b = Ret (pre ++ post)
    ∧ contents_right w' b = Ret (ps1 ++ ps2)
    ∧ contents w' b = Ret psl' ∧ psl' ≡ₚ ps1 ++ ps2
    ∧ bimap.size w' b = Ret (length (ps1 ++ ps2))
    ∧ record_of w' a = None
    ∧ bimap.find_left w' b p.1 = Ret (bimap.end_left b)
    ∧ bimap.find_right w' b p.2 = Ret (bimap.end_right b).
Proof.
  intros Hw Ho Hns. destruct (reachable_store _ _ _ _ _ Hw Ho) as (tl & tr & Hinv).
  rewrite (right_nodes_spec _ _ _ _ _ Hinv) in Hns. injection Hns as Hns.
  pose proof Hinv as (_ & _ & Hr & _ & (_ & _ & Hb & _) & Hpair & _).
  pose proof (bst_NoDup _ _ Hr _ Hb) as Hnd.
  assert (Ha : a ∈ inorder tr) by (rewrite Hns; set_solver).
  destruct (store_right_elem _ _ _ _ _ _ Hinv Ha) as (i & l & r & -> & Hv & _).
  destruct (erase_right_spec _ _ _ _ _ _ Hinv Ha)
    as (w' & He & Hinv' & Hvals & _).
  cbn zeta in *.
  assert (Hal : Sub i SLeft ∈ inorder tl) by (by apply Hpair).
  assert (Hrec' : records w' (del (Sub i SRight) tr) = omap (record_of w) (pre ++ post)).
  { unfold records. rewrite del_inorder by done.
    rewrite (records_without w w' i SRight) ; [|done| |done].
    - rewrite Hns. rewrite split_without; [done|by rewrite <-Hns].
    - intros x Hx. destruct (store_right_elem _ _ _ _ _ _ Hinv Hx) as (j & ? & ? & -> & _).
      by exists j. }
  assert (Hrec : records w tr
                 = omap (record_of w) pre ++ (l, r) :: omap (record_of w) post).
  { unfold records. rewrite Hns, omap_app. cbn. by rewrite Hv. }
  assert (Hp : (l, r) ∈ records w tl).
  { apply (records_sides _ _ _ _ _ _ Hinv). rewrite Hrec. set_solver. }
  destruct (pair_gone w w' b _ _ tl tr _ _ l r Hinv Hinv' Hp) as [Hfl Hfr].
  { by apply (records_after_erase _ _ _ _ _ _ _ _ _ Hinv Hinv' Hvals Hal Hv). }
  exists (l, r), (omap (record_of w) pre), (omap (record_of w) post),
    (records w' (del (Sub i SLeft) tl)), w'.
  split_and!; try done.
  - by eapply pair_at_right_spec.
  - apply (right_pairs _ _ _ _ _ _ Hinv). intros x Hx. rewrite Hns. set_solver.
  - apply (right_pairs _ _ _ _ _ _ Hinv). intros x Hx. rewrite Hns. set_solver.
  - by rewrite (contents_right_spec _ _ _ _ _ Hinv), Hrec.
  - rewrite He. do 3 f_equal. rewrite Hns. apply succ_in_split.
    rewrite Hns in Hnd. apply NoDup_app in Hnd as (_ & Hd & _).
    intros Hp'. apply (Hd _ Hp'). by left.
  - rewrite (right_nodes_spec _ _ _ _ _ Hinv'), del_inorder by done.
    rewrite Hns. rewrite split_without; [done|by rewrite <-Hns].
  - by rewrite (contents_right_spec _ _ _ _ _ Hinv'), Hrec', omap_app.
  - by eapply contents_spec.
  - rewrite <-omap_app, <-Hrec'. apply NoDup_Permutation.
    + by eapply records_NoDup.
    + by eapply records_right_NoDup.
    + intros q. by apply (records_sides _ _ _ _ _ _ Hinv').
  - rewrite (size_spec _ _ _ _ _ Hinv'), <-omap_app, <-Hrec'.
    f_equal. symmetry. rewrite <-(records_length _ _ _ _ _ Hinv').
    apply Permutation_length, NoDup_Permutation.
    + by eapply records_right_NoDup.
    + by eapply records_NoDup.
    + intros q. symmetry. by apply (records_sides _ _ _ _ _ _ Hinv').
  - cbn. rewrite Hvals. apply lookup_delete_eq.
Qed.
End erase_positions.

(** ** What a call leaves alone *)

Section frame.
Context {L R : Type}.
Variable default_left : L.
Variable default_right : R.
Implicit Types (w : world L R) (o : bimap_obj L R).

Local Notation reach := (reachable default_left default_right).
Local Notation mutates := (mutates default_left default_right).

Lemma mutates_evolves w sh b o w' :
  world_shapes w sh → objs w !! b = Some o → mutates w b w' →
  ∃ o' tl' tr', store_inv w' b o' tl' tr'
    ∧ evolves w w' b (sh b).1 (sh b).2 tl' tr'.
Proof.
  intros Hsh Ho Hm. pose proof Hsh as (Hall & _).
  destruct (Hall b o Ho) as [Hinv _].
  assert (Hsame : ∃ o' tl' tr', store_inv w b o' tl' tr'
            ∧ evolves w w b (sh b).1 (sh b).2 tl' tr').
  { exists o, (sh b).1, (sh b).2. split; [done|]. by eapply evolves_refl. }
  destruct Hm as [w b l r w' it Hi|w b it w' res Hval He|w b it w' res Hval He
                 |w b k w' res He|w b k w' res He
                 |w b first last w' res Hval He|w b first last w' res Hval He
                 |w b k w' v He|w b k w' v He].
  - destruct (left_key_dec _ _ _ _ _ l Hinv) as [Hl|Hl].
    { rewrite (insert_dup _ _ _ _ _ l r Hinv) in Hi by (by left).
      by injection Hi as <- _. }
    destruct (right_key_dec _ _ _ _ _ r Hinv) as [Hr|Hr].
    { rewrite (insert_dup _ _ _ _ _ l r Hinv) in Hi by (by right).
      by injection Hi as <- _. }
    destruct (insert_fresh_evolves _ _ _ _ _ l r Hinv Hl Hr)
      as (w1 & tl' & tr' & Hi' & Hinv' & Hev & _).
    rewrite Hi' in Hi. injection Hi as <- _. by eexists _, _, _.
  - destruct Hval as [->|[->|(ns & a & Hns & Ha & ->)]].
    + rewrite erase_left_null in He. by injection He as <- _.
    + rewrite erase_left_end in He. by injection He as <- _.
    + rewrite (left_nodes_spec _ _ _ _ _ Hinv) in Hns. injection Hns as <-.
      destruct (store_left_elem _ _ _ _ _ _ Hinv Ha) as (i & l & r & -> & Hv & _).
      destruct (erase_left_evolves _ _ _ _ _ _ _ Hinv Ha Hv)
        as (w1 & tl' & tr' & He' & Hinv' & Hev & _).
      rewrite He' in He. injection He as <- _. by eexists _, _, _.
  - destruct Hval as [->|[->|(ns & a & Hns & Ha & ->)]].
    + rewrite erase_right_null in He. by injection He as <- _.
    + rewrite erase_right_end in He. by injection He as <- _.
    + rewrite (right_nodes_spec _ _ _ _ _ Hinv) in Hns. injection Hns as <-.
      destruct (store_right_elem _ _ _ _ _ _ Hinv Ha) as (i & l & r & -> & Hv & _).
      destruct (erase_right_evolves _ _ _ _ _ _ _ Hinv Ha Hv)
        as (w1 & tl' & tr' & He' & Hinv' & Hev & _).
      rewrite He' in He. injection He as <- _. by eexists _, _, _.
  - destruct (left_key_dec _ _ _ _ _ k Hinv) as [[r Hl]|Hl].
    + destruct (erase_left_key_found _ _ _ _ _ _ _ Hinv Hl)
        as (w1 & tl' & tr' & He' & Hinv' & Hev & _).
      rewrite He' in He. injection He as <- _. by eexists _, _, _.
    + rewrite (erase_left_key_missing _ _ _ _ _ _ Hinv Hl) in He.
      by injection He as <- _.
  - destruct (right_key_dec _ _ _ _ _ k Hinv) as [[l Hl]|Hl].
    + destruct (erase_right_key_found _ _ _ _ _ _ _ Hinv Hl)
        as (w1 & tl' & tr' & He' & Hinv' & Hev & _).
      rewrite He' in He. injection He as <- _. by eexists _, _, _.
    + rewrite (erase_right_key_missing _ _ _ _ _ _ Hinv Hl) in He.
      by injection He as <- _.
  - destruct Hval as (pre & mid & post & Hns & -> & ->).
    rewrite (left_nodes_spec _ _ _ _ _ Hinv) in Hns. injection Hns as Hns.
    destruct (erase_left_range_spec _ _ _ _ _ _ _ _ Hinv Hns)
      as (w1 & o' & tl' & tr' & He' & Hinv' & Hev & _).
    rewrite He' in He. injection He as <- _. by eexists _, _, _.
  - destruct Hval as (pre & mid & post & Hns & -> & ->).
    rewrite (right_nodes_spec _ _ _ _ _ Hinv) in Hns. injection Hns as Hns.
    destruct (erase_right_range_spec _ _ _ _ _ _ _ _ Hinv Hns)
      as (w1 & o' & tl' & tr' & He' & Hinv' & Hev & _).
    rewrite He' in He. injection He as <- _. by eexists _, _, _.
  - destruct (left_key_dec _ _ _ _ _ k Hinv) as [[r Hl]|Hl].
    + rewrite (at_left_or_default_found _ _ _ _ _ _ _ _ Hinv Hl) in He.
      by injection He as <- _.
    + destruct (at_left_or_default_missing default_right _ _ _ _ _ _ Hinv Hl)
        as (w1 & o' & tl' & tr' & He' & Hinv' & Hev & _).
      rewrite He' in He. injection He as <- _. by eexists _, _, _.
  - destruct (right_key_dec _ _ _ _ _ k Hinv) as [[l Hl]|Hl].
    + rewrite (at_right_or_default_found _ _ _ _ _ _ _ _ Hinv Hl) in He.
      by injection He as <- _.
    + destruct (at_right_or_default_missing default_left _ _ _ _ _ _ Hinv Hl)
        as (w1 & o' & tl' & tr' & He' & Hinv' & Hev & _).
      rewrite He' in He. injection He as <- _. by eexists _, _, _.
Qed.

Lemma evolves_others w w' sh b o o1 tl' tr' b' o' :
  world_shapes w sh → objs w !! b = Some o → store_inv w' b o1 tl' tr' →
  evolves w w' b (sh b).1 (sh b).2 tl' tr' → b' ≠ b → objs w !! b' = Some o' →
  store_inv w b' o' (sh b').1 (sh b').2
  ∧ store_inv w' b' o' (sh b').1 (sh b').2
  ∧ records w' (sh b').1 = records w (sh b').1
  ∧ records w' (sh b').2 = records w (sh b').2.
Proof.
  intros Hsh Ho Hinv' Hev Hne Ho'.
  pose proof (world_shapes_evolves _ _ _ _ _ _ _ _ Hsh Ho Hinv' Hev) as (Hall' & _).
  pose proof Hsh as (Hall & Hdisj).
  destruct (Hall b' o' Ho') as [Hinvb _].
  pose proof Hev as ([o2 Hobjs] & _ & _ & _ & Hvals & _).
  assert (Ho1 : objs w' !! b' = Some o') by (by rewrite Hobjs, lookup_insert_ne).
  destruct (Hall' b' o' Ho1) as [Hinvb' _].
  rewrite fn_lookup_insert_ne in Hinvb' by done.
  split_and!; [done..| |].
  - apply omap_agree. intros a Ha.
    destruct (store_left_elem _ _ _ _ _ _ Hinvb Ha) as (i & l & r & -> & Hv & Hlt).
    cbn. apply Hvals; [done|].
    intros Hin. apply Hne. by eapply (Hdisj b' b (Sub i SLeft)).
  - apply omap_agree. intros a Ha.
    destruct (store_right_elem _ _ _ _ _ _ Hinvb Ha) as (i & l & r & -> & Hv & Hlt).
    cbn. apply Hvals; [done|].
    pose proof Hinvb as (_ & _ & _ & _ & _ & Hpair & _).
    apply Hpair in Ha.
    intros Hin. apply Hne. by eapply (Hdisj b' b (Sub i SLeft)).
Qed.

(** The calls on one object leave the others be. *)
Lemma same_elsewhere w w' b' o' tl tr :
  store_inv w b' o' tl tr → store_inv w' b' o' tl tr →
  records w' tl = records w tl → records w' tr = records w tr →
  objs w' !! b' = Some o'
  ∧ bimap.size w' b' = bimap.size w b'
  ∧ left_nodes w' b' = left_nodes w b'
  ∧ right_nodes w' b' = right_nodes w b'
  ∧ contents w' b' = contents w b'
  ∧ contents_right w' b' = contents_right w b'.
Proof.
  intros Hinvb Hinvb' Hrl Hrr. split_and!.
  - by destruct Hinvb'.
  - by rewrite (size_spec _ _ _ _ _ Hinvb'), (size_spec _ _ _ _ _ Hinvb).
  - by rewrite (left_nodes_spec _ _ _ _ _ Hinvb'), (left_nodes_spec _ _ _ _ _ Hinvb).
  - by rewrite (right_nodes_spec _ _ _ _ _ Hinvb'), (right_nodes_spec _ _ _ _ _ Hinvb).
  - by rewrite (contents_spec _ _ _ _ _ Hinvb'), (contents_spec _ _ _ _ _ Hinvb), Hrl.
  - by rewrite (contents_right_spec _ _ _ _ _ Hinvb'),
      (contents_right_spec _ _ _ _ _ Hinvb), Hrr.
Qed.

(** X8: a call of [insert], of an [erase_left] or [erase_right] overload,
    or of [at_left_or_default] or [at_right_or_default] on one bimap
    leaves every other bimap as it was: its size and comparators, the
    nodes of both its sides in their order, and the pairs they carry. *)
Theorem other_bimaps_untouched w b w' b' o' :
  reach w → is_Some (objs w !! b) → mutates w b w' →
  b' ≠ b → objs w !! b' = Some o' →
  objs w' !! b' = Some o'
  ∧ bimap.size w' b' = bimap.size w b'
  ∧ left_nodes w' b' = left_nodes w b'
  ∧ right_nodes w' b' = right_nodes w b'
  ∧ contents w' b' = contents w b'
  ∧ contents_right w' b' = contents_right w b'.
Proof.
  intros [sh Hsh]%reachable_inv [o Ho] Hm Hne Ho'.
  destruct (mutates_evolves _ _ _ _ _ Hsh Ho Hm) as (o1 & tl' & tr' & Hinv' & Hev).
  destruct (evolves_others _ _ _ _ _ _ _ _ _ _ Hsh Ho Hinv' Hev Hne Ho')
    as (Hinvb & Hinvb' & Hrl & Hrr).
  by eapply same_elsewhere.
Qed.
End frame.

(** ** [swap] and move assignment *)

Section swapping.
Context {L R : Type}.
Variable default_left : L.
Variable default_right : R.
Implicit Types (w : world L R) (o : bimap_obj L R).

Local Notation reach := (reachable default_left default_right).

Lemma records_values w w' t : values w' = values w → records w' t = records w t.
Proof.
  intros Hv. apply omap_agree. intros [|i s] _; [done|]. cbn. by rewrite Hv.
Qed.

(** What a bimap shows of itself, from its [store_inv]. *)
Lemma moved_here w w' b b' o tl tr :
  store_inv w b o tl tr → store_inv w' b' o tl tr → values w' = values w →
  bimap.size w' b' = bimap.size w b
  ∧ left_nodes w' b' = left_nodes w b
  ∧ right_nodes w' b' = right_nodes w b
  ∧ contents w' b' = contents w b
  ∧ contents_right w' b' = contents_right w b.
Proof.
  intros Hinv Hinv' Hv. split_and!.
  - by rewrite (size_spec _ _ _ _ _ Hinv'), (size_spec _ _ _ _ _ Hinv).
  - by rewrite (left_nodes_spec _ _ _ _ _ Hinv'), (left_nodes_spec _ _ _ _ _ Hinv).
  - by rewrite (right_nodes_spec _ _ _ _ _ Hinv'), (right_nodes_spec _ _ _ _ _ Hinv).
  - by rewrite (contents_spec _ _ _ _ _ Hinv'), (contents_spec _ _ _ _ _ Hinv),
      (records_values _ _ _ Hv).
  - by rewrite (contents_right_spec _ _ _ _ _ Hinv'),
      (contents_right_spec _ _ _ _ _ Hinv), (records_values _ _ _ Hv).
Qed.

Lemma contents_nonempty w b o tl tr ps :
  store_inv w b o tl tr → contents w b = Ret ps → ps ≠ [] → tl ≠ Leaf.
Proof.
  intros Hinv Hc Hne ->. rewrite (contents_spec _ _ _ _ _ Hinv) in Hc.
  by injection Hc as <-.
Qed.

(** X9: [swap] of two different bimaps that both hold pairs, and so the
    move assignment [this = std::move(other)], exchanges their sizes and
    comparators and their nodes: each bimap then walks over the nodes,
    and shows the pairs, the other one had, so that iterators stay with
    their elements.  Every third bimap is as it was. *)
Theorem swap_exchanges w b1 b2 o1 o2 ps1 ps2 :
  reach w → b1 ≠ b2 → objs w !! b1 = Some o1 → objs w !! b2 = Some o2 →
  contents w b1 = Ret ps1 → contents w b2 = Ret ps2 → ps1 ≠ [] → ps2 ≠ [] →
  ∃ w', bimap.swap w b1 b2 = Ret w'
    ∧ bimap.assign_move w b1 b2 = Ret w'
    ∧ objs w' !! b1 = Some o2 ∧ objs w' !! b2 = Some o1
    ∧ contents w' b1 = Ret ps2 ∧ contents w' b2 = Ret ps1
    ∧ left_nodes w' b1 = left_nodes w b2 ∧ left_nodes w' b2 = left_nodes w b1
    ∧ right_nodes w' b1 = right_nodes w b2 ∧ right_nodes w' b2 = right_nodes w b1
    ∧ contents_right w' b1 = contents_right w b2
    ∧ contents_right w' b2 = contents_right w b1
    ∧ (∀ b3 o3, b3 ≠ b1 → b3 ≠ b2 → objs w !! b3 = Some o3 →
         objs w' !! b3 = Some o3
         ∧ left_nodes w' b3 = left_nodes w b3
         ∧ right_nodes w' b3 = right_nodes w b3
         ∧ contents w' b3 = contents w b3
         ∧ contents_right w' b3 = contents_right w b3).
Proof.
  intros [sh Hsh]%reachable_inv Hne Ho1 Ho2 Hc1 Hc2 Hn1 Hn2.
  pose proof Hsh as (Hall & _).
  destruct (Hall b1 o1 Ho1) as [Hinv1 _]. destruct (Hall b2 o2 Ho2) as [Hinv2 _].
  pose proof (contents_nonempty _ _ _ _ _ _ Hinv1 Hc1 Hn1) as Hl1.
  pose proof (contents_nonempty _ _ _ _ _ _ Hinv2 Hc2 Hn2) as Hl2.
  destruct (swap_spec w sh b1 b2 o1 o2 Hsh Ho1 Ho2 Hne Hl1 Hl2)
    as (w' & Hs & (Hall' & _) & Hobjs & Hvals).
  assert (Ho1' : objs w' !! b1 = Some o2).
  { by rewrite Hobjs, lookup_insert_ne, lookup_insert_eq. }
  assert (Ho2' : objs w' !! b2 = Some o1).
  { by rewrite Hobjs, lookup_insert_eq. }
  destruct (Hall' b1 o2 Ho1') as [Hinv1' _].
  rewrite fn_lookup_insert_ne, fn_lookup_insert in Hinv1' by done.
  destruct (Hall' b2 o1 Ho2') as [Hinv2' _].
  rewrite fn_lookup_insert in Hinv2'.
  destruct (moved_here _ _ _ _ _ _ _ Hinv2 Hinv1' Hvals) as (_ & Hln1 & Hrn1 & Hcl1 & Hcr1).
  destruct (moved_here _ _ _ _ _ _ _ Hinv1 Hinv2' Hvals) as (_ & Hln2 & Hrn2 & Hcl2 & Hcr2).
  exists w'. split_and!; try done.
  - unfold bimap.assign_move. by rewrite decide_False.
  - by rewrite Hcl1.
  - by rewrite Hcl2.
  - intros b3 o3 H31 H32 Ho3.
    assert (Ho3' : objs w' !! b3 = Some o3).
    { by rewrite Hobjs, !lookup_insert_ne. }
    destruct (Hall b3 o3 Ho3) as [Hinv3 _].
    destruct (Hall' b3 o3 Ho3') as [Hinv3' _].
    rewrite !fn_lookup_insert_ne in Hinv3' by done.
    destruct (moved_here _ _ _ _ _ _ _ Hinv3 Hinv3' Hvals) as (_ & ? & ? & ? & ?).
    done.
Qed.
End swapping.

(** ** The copy constructor, once more *)

(** Two lists without repeated keys, sorted by key, that have the same
    elements are the same list. *)
Lemma sorted_same {P K} (lt : K → K → bool) (key : P → K) (l1 l2 : list P) :
  strict_total lt →
  StronglySorted (λ x y, lt x y = true) (key <$> l1) →
  StronglySorted (λ x y, lt x y = true) (key <$> l2) →
  (∀ p, p ∈ l1 ↔ p ∈ l2) → l1 = l2.
Proof.
  intros [Hirr Htr _]. revert l2.
  induction l1 as [|p l1 IH]; intros l2 Hs1 Hs2 Heq.
  - destruct l2 as [|q l2]; [done|]. exfalso.
    apply (not_elem_of_nil q), Heq. by left.
  - destruct l2 as [|q l2].
    { exfalso. apply (not_elem_of_nil p), Heq. by left. }
    cbn [fmap list_fmap] in Hs1, Hs2.
    apply StronglySorted_inv in Hs1 as [Hs1 Hp]. apply StronglySorted_inv in Hs2 as [Hs2 Hq].
    rewrite Forall_forall in Hp, Hq.
    assert (Hlt1 : ∀ x, x ∈ l1 → lt (key p) (key x) = true).
    { intros x Hx. apply Hp, list_elem_of_fmap. by exists x. }
    assert (Hlt2 : ∀ x, x ∈ l2 → lt (key q) (key x) = true).
    { intros x Hx. apply Hq, list_elem_of_fmap. by exists x. }
    assert (Hpq : p = q).
    { assert (Hp2 : p ∈ q :: l2) by (apply Heq; by left).
      assert (Hq1 : q ∈ p :: l1) by (apply Heq; by left).
      apply elem_of_cons in Hp2 as [?|Hp2]; [done|].
      apply elem_of_cons in Hq1 as [?|Hq1]; [done|].
      pose proof (Htr _ _ _ (Hlt1 _ Hq1) (Hlt2 _ Hp2)) as Hpp.
      by rewrite Hirr in Hpp. }
    subst q. f_equal. apply IH; [done..|].
    intros x. split; intros Hx.
    + assert (Hx' : x ∈ p :: l2) by (apply Heq; by right).
      apply elem_of_cons in Hx' as [->|?]; [|done].
      pose proof (Hlt1 _ Hx) as Hpp. by rewrite Hirr in Hpp.
    + assert (Hx' : x ∈ p :: l1) by (apply Heq; by right).
      apply elem_of_cons in Hx' as [->|?]; [|done].
      pose proof (Hlt2 _ Hx) as Hpp. by rewrite Hirr in Hpp.
Qed.

Section copying.
Context {L R : Type}.
Variable default_left : L.
Variable default_right : R.
Implicit Types (w : world L R) (o : bimap_obj L R).

Local Notation reach := (reachable default_left default_right).

Lemma copy_loop_evolves other_ b tl_o tr_o oo :
  b ≠ other_ →
  ∀ post pre fuel w sh ob,
    world_shapes w sh →
    objs w !! other_ = Some oo → sh other_ = (tl_o, tr_o) →
    objs w !! b = Some ob →
    inorder tl_o = pre ++ post → length post ≤ fuel →
    (∀ p, p ∈ records w (sh b).1 ↔ ∃ a, a ∈ pre ∧ record_of w a = Some p) →
    ∃ w' ob' tl' tr',
      bimap.copy_loop fuel w b other_
        (Some (hd (Sentinel other_ SLeft) post)) = Ret w'
      ∧ store_inv w' b ob' tl' tr'
      ∧ evolves w w' b (sh b).1 (sh b).2 tl' tr'
      ∧ cmp_left ob' = cmp_left ob ∧ cmp_right ob' = cmp_right ob
      ∧ (∀ p, p ∈ records w' tl' ↔ p ∈ records w tl_o).
Proof.
  intros Hne. induction post as [|x post IH];
    intros pre fuel w sh ob Hsh Hoo Hsho Hob Heq Hlen Hrec.
  - pose proof Hsh as (Hall & _). destruct (Hall b ob Hob) as [Hinvb _].
    exists w, ob, (sh b).1, (sh b).2. split_and!; try done.
    + destruct fuel; cbn [bimap.copy_loop hd]; by rewrite bool_decide_true.
    + by eapply evolves_refl.
    + intros p. rewrite Hrec. rewrite app_nil_r in Heq.
      by rewrite records_elem, Heq.
  - cbn [length] in Hlen. destruct fuel as [|fuel]; [lia|].
    pose proof Hsh as (Hall & Hdisj).
    destruct (Hall other_ oo Hoo) as [Hinvo _]. rewrite Hsho in Hinvo. cbn in Hinvo.
    destruct (Hall b ob Hob) as [Hinvb _].
    pose proof Hinvo as (_ & Hl & Hr & Hel & Her & Hpair & _).
    pose proof Hel as (_ & _ & Hbl & _). pose proof Her as (_ & _ & Hbr & _).
    pose proof (bst_NoDup _ _ Hl _ Hbl) as Hnd. rewrite Heq in Hnd.
    apply NoDup_app in Hnd as (_ & Hd1 & Hnd2).
    apply NoDup_cons in Hnd2 as [Hx2 _].
    assert (Hxin : x ∈ inorder tl_o) by (rewrite Heq; set_solver).
    assert (Hxpre : x ∉ pre) by (intros ?; eapply Hd1; [done|set_solver]).
    destruct (store_left_elem _ _ _ _ _ _ Hinvo Hxin) as (j & l & r & -> & Hv & Hj).
    cbn [bimap.copy_loop hd].
    rewrite bool_decide_false by done.
    unfold bimap.deref_left at 1. cbn [tree.value_of bimap.value_left].
    rewrite Hv. cbn [fmap option_fmap option_map fst]. osimpl.
    rewrite (flip_left_node _ _ _ _ _ _ Hinvo Hxin). osimpl.
    unfold bimap.deref_right at 1. cbn [tree.value_of bimap.value_right].
    rewrite Hv. cbn [fmap option_fmap option_map snd]. osimpl.
    assert (Hpre : ∀ a p, a ∈ pre → record_of w a = Some p →
              ∃ i, a = Sub i SLeft ∧ i ≠ j ∧ values w !! i = Some p
                   ∧ Sub i SLeft ∈ inorder tl_o).
    { intros a p Ha Hp.
      assert (Hain : a ∈ inorder tl_o) by (rewrite Heq; set_solver).
      destruct (store_left_elem _ _ _ _ _ _ Hinvo Hain) as (i & ? & ? & -> & _ & _).
      exists i. split_and!; try done. intros ->. done. }
    destruct (insert_fresh_evolves w b ob (sh b).1 (sh b).2 l r Hinvb)
      as (w1 & tl1 & tr1 & Hins & Hinv1 & Hev1 & Hin1 & Hv1 & Hrec1).
    { intros r' (a & Ha & Hp)%Hrec.
      destruct (Hpre a _ Ha Hp) as (i & -> & Hij & Hvi & Hi).
      apply Hij. assert (Sub i SLeft = Sub j SLeft) as [= ->]; [|done].
      apply (bst_inj _ _ Hl _ _ _ l Hbl Hi Hxin); cbn; by rewrite ?Hvi, ?Hv. }
    { intros l' (a & Ha & Hp)%Hrec.
      destruct (Hpre a _ Ha Hp) as (i & -> & Hij & Hvi & Hi).
      apply Hij. assert (Sub i SRight = Sub j SRight) as [= ->]; [|done].
      apply (bst_inj _ _ Hr _ _ _ r Hbr); cbn; rewrite ?Hvi, ?Hv; try done;
        by apply Hpair. }
    cbn zeta in *. rewrite Hins. osimpl.
    pose proof (world_shapes_evolves w w1 sh b ob _ tl1 tr1 Hsh Hob Hinv1 Hev1) as Hsh1.
    pose proof Hev1 as ([o1 Ho1] & _ & _ & _ & Hvals1 & _).
    assert (Hoo1 : objs w1 !! other_ = Some oo).
    { by rewrite Ho1, lookup_insert_ne. }
    pose proof Hinv1 as (Hob1 & _).
    assert (Hsho1 : (<[b:=(tl1, tr1)]> sh) other_ = (tl_o, tr_o)).
    { by rewrite fn_lookup_insert_ne. }
    pose proof Hsh1 as (Hall1 & Hdisj1).
    destruct (Hall1 other_ oo Hoo1) as [Hinvo1 _].
    rewrite Hsho1 in Hinvo1. cbn in Hinvo1.
    pose proof Hinvo1 as (_ & _ & _ & Hel1 & _).
    unfold bimap.incr. rewrite (next_spec _ _ Hl _ _ _ _ _ Hel1 Hxin). osimpl.
    rewrite Heq, succ_in_split by done.
    assert (Hsame : ∀ a, a ∈ inorder tl_o → record_of w1 a = record_of w a).
    { intros a Ha.
      destruct (store_left_elem _ _ _ _ _ _ Hinvo Ha) as (i & ? & ? & -> & _ & Hi).
      cbn. apply Hvals1; [done|]. intros Hib.
      apply Hne. apply (Hdisj b other_ (Sub i SLeft)); [by eexists..|done|].
      by rewrite Hsho. }
    destruct (IH (pre ++ [Sub j SLeft]) fuel w1 (<[b:=(tl1, tr1)]> sh) _ Hsh1 Hoo1 Hsho1 Hob1)
      as (w' & ob' & tl' & tr' & Hloop & Hinv' & Hev' & Hcl & Hcr & Hrec').
    { by rewrite <-app_assoc. }
    { lia. }
    { intros p. rewrite fn_lookup_insert. cbn. rewrite Hrec1, Hrec. split.
      - intros [->|(a & Ha & Hp)].
        + exists (Sub j SLeft). split; [clear; set_solver|].
          rewrite Hsame by done. done.
        + exists a. split; [clear -Ha; set_solver|]. rewrite Hsame; [done|].
          rewrite Heq. clear -Ha. set_solver.
      - intros (a & [Ha|Ha]%elem_of_app & Hp).
        + right. exists a. split; [done|]. rewrite <-Hsame; [done|].
          rewrite Heq. clear -Ha. set_solver.
        + apply list_elem_of_singleton in Ha as ->. left.
          rewrite Hsame in Hp by done. cbn in Hp. congruence. }
    rewrite fn_lookup_insert in Hev'. cbn [fst snd] in Hev'.
    exists w', ob', tl', tr'. split_and!; try done.
    + by eapply evolves_trans.
    + intros p. rewrite Hrec'. unfold records.
      by rewrite (omap_agree _ _ _ Hsame).
Qed.

(** X10: the copy constructor [bimap(other)] returns; the new bimap has
    the pairs of [other] in the same order on both sides, its size and
    its comparators, in nodes of its own that did not exist before;
    [other] and every other bimap are as they were. *)
Theorem copy_construct_copies w other_ oo ps psr :
  reach w → objs w !! other_ = Some oo →
  contents w other_ = Ret ps → contents_right w other_ = Ret psr →
  ∃ w' ns,
    let b := next_obj w in
    bimap.copy_construct w other_ = Ret (w', b)
    ∧ objs w !! b = None
    ∧ objs w' !! b = Some (BimapObj (m_size oo) (cmp_left oo) (cmp_right oo))
    ∧ m_size oo = length ps
    ∧ contents w' b = Ret ps ∧ contents_right w' b = Ret psr
    ∧ left_nodes w' b = Ret ns
    ∧ (∀ a, a ∈ ns → ∃ i, a = Sub i SLeft ∧ next_record w ≤ i)
    ∧ (∀ b' o', objs w !! b' = Some o' →
         objs w' !! b' = Some o'
         ∧ bimap.size w' b' = bimap.size w b'
         ∧ left_nodes w' b' = left_nodes w b'
         ∧ right_nodes w' b' = right_nodes w b'
         ∧ contents w' b' = contents w b'
         ∧ contents_right w' b' = contents_right w b').
Proof.
  intros [sh Hsh]%reachable_inv Hoo Hps Hpsr. pose proof Hsh as (Hall & _).
  destruct (Hall other_ oo Hoo) as [Hinvo Hlt].
  pose proof Hinvo as (_ & Hl & Hr & _).
  rewrite (contents_spec _ _ _ _ _ Hinvo) in Hps. injection Hps as <-.
  rewrite (contents_right_spec _ _ _ _ _ Hinvo) in Hpsr. injection Hpsr as <-.
  unfold bimap.copy_construct, bimap.obj. rewrite Hoo. osimpl.
  destruct (construct_spec w sh (cmp_left oo) (cmp_right oo) Hsh Hl Hr)
    as (w1 & Hc & Hsh1 & Hinv1 & Hobj1 & Hnew & Hval1 & Hnr1 & Hno1 & Hfr1).
  cbn zeta in *. rewrite Hc. osimpl.
  set (b := next_obj w) in *.
  assert (Hne : b ≠ other_) by (unfold b; lia).
  assert (Hoo1 : objs w1 !! other_ = Some oo).
  { by rewrite Hobj1, lookup_insert_ne. }
  pose proof Hsh1 as (Hall1 & _).
  destruct (Hall1 other_ oo Hoo1) as [Hinvo1 _].
  rewrite fn_lookup_insert_ne in Hinvo1 by done.
  pose proof Hinvo1 as (_ & _ & _ & Hel1 & _).
  unfold bimap.begin_left. rewrite (begin_spec _ _ Hl _ _ _ _ Hel1). osimpl.
  assert (Hob1 : objs w1 !! b = Some (BimapObj 0 (cmp_left oo) (cmp_right oo))).
  { by rewrite Hobj1, lookup_insert_eq. }
  destruct (copy_loop_evolves other_ b (sh other_).1 (sh other_).2 oo Hne
              (inorder (sh other_).1) [] (walk_bound (links w1)) w1
              (<[b:=(Leaf, Leaf)]> sh) (BimapObj 0 (cmp_left oo) (cmp_right oo))
              Hsh1 Hoo1)
    as (w' & ob' & tl' & tr' & Hloop & Hinv' & Hev & Hcl & Hcr & Hrec); try done.
  { rewrite fn_lookup_insert_ne by done. by destruct (sh other_). }
  { pose proof (store_length_bound _ _ _ _ _ Hinvo1). lia. }
  { intros p. rewrite fn_lookup_insert. cbn. split; [by intros ?%not_elem_of_nil|].
    by intros (a & ?%not_elem_of_nil & _). }
  rewrite Hloop. osimpl. cbn [bimap.end_left tree.end_] in *.
  rewrite fn_lookup_insert in Hev. cbn [fst snd] in Hev, Hcl, Hcr.
  assert (Hrec0 : records w1 (sh other_).1 = records w (sh other_).1)
    by (by apply records_values).
  rewrite Hrec0 in Hrec.
  assert (Hleft : records w' tl' = records w (sh other_).1).
  { apply (sorted_same (cmp_left oo) fst); [done| | |done].
    - destruct (contents_sorted _ _ _ _ _ Hinv') as [Hs _]. by rewrite Hcl in Hs.
    - by destruct (contents_sorted _ _ _ _ _ Hinvo) as [Hs _]. }
  assert (Hright : records w' tr' = records w (sh other_).2).
  { apply (sorted_same (cmp_right oo) snd); [done| | |].
    - destruct (contents_sorted _ _ _ _ _ Hinv') as [_ Hs]. by rewrite Hcr in Hs.
    - by destruct (contents_sorted _ _ _ _ _ Hinvo) as [_ Hs].
    - intros p. rewrite <-(records_sides _ _ _ _ _ p Hinv'), Hrec.
      by apply (records_sides _ _ _ _ _ p Hinvo). }
  pose proof (records_length _ _ _ _ _ Hinv') as Hlen'.
  pose proof (records_length _ _ _ _ _ Hinvo) as Hleno.
  exists w', (inorder tl'). split_and!; try done.
  - destruct Hinv' as (-> & _). f_equal. destruct ob' as [s cl cr].
    cbn in Hcl, Hcr, Hlen'. rewrite Hcl, Hcr. f_equal.
    by rewrite <-Hlen', Hleft.
  - by rewrite (contents_spec _ _ _ _ _ Hinv'), Hleft.
  - by rewrite (contents_right_spec _ _ _ _ _ Hinv'), Hright.
  - by eapply left_nodes_spec.
  - intros a Ha. destruct Hev as (_ & Hsub & _).
    destruct (Hsub a Ha) as [?%not_elem_of_nil|(i & -> & Hi)]; [done|].
    exists i. split; [done|lia].
  - intros b' o' Ho'.
    assert (Hb' : b' ≠ b) by (intros ->; congruence).
    assert (Ho1' : objs w1 !! b' = Some o') by (by rewrite Hobj1, lookup_insert_ne).
    destruct (evolves_others w1 w' _ b _ _ _ _ b' o' Hsh1 Hob1 Hinv')
      as (Hinvb1 & Hinvb' & Hrl & Hrr); [|done..|].
    { by rewrite fn_lookup_insert. }
    rewrite fn_lookup_insert_ne in Hinvb1, Hinvb', Hrl, Hrr by done.
    destruct (Hall b' o' Ho') as [Hinvb _].
    apply (same_elsewhere _ _ _ _ _ _ Hinvb Hinvb').
    + by rewrite Hrl, (records_values _ _ _ Hval1).
    + by rewrite Hrr, (records_values _ _ _ Hval1).
Qed.
End copying.

(** ** [operator==] *)

Section comparing.
Context {L R : Type}.
Variable default_left : L.
Variable default_right : R.
Implicit Types (w : world L R) (o : bimap_obj L R).

Local Notation reach := (reachable default_left default_right).

Lemma equal_loop_spec w a oa ta tra b ob tb trb :
  store_inv w a oa ta tra → store_inv w b ob tb trb →
  ∀ posta prea postb preb fuel,
    inorder ta = prea ++ posta → inorder tb = preb ++ postb →
    length posta = length postb → length posta ≤ fuel →
    ∃ res,
      bimap.equal_loop fuel w a oa (Some (hd (Sentinel a SLeft) posta))
        (Some (hd (Sentinel b SLeft) postb)) = Ret res
      ∧ (res = true ↔ omap (record_of w) posta = omap (record_of w) postb).
Proof.
  intros Hinva Hinvb.
  pose proof Hinva as (_ & Hla & Hra & Hela & _).
  pose proof Hinvb as (_ & Hlb & Hrb & Helb & _).
  pose proof Hela as (_ & _ & Hba & _). pose proof Helb as (_ & _ & Hbb & _).
  induction posta as [|x posta IH]; intros prea postb preb fuel Heqa Heqb Hlen Hfuel.
  - destruct postb; [|done]. exists true. split; [|done].
    destruct fuel; cbn [bimap.equal_loop hd]; by rewrite bool_decide_true.
  - destruct postb as [|y postb]; [done|]. cbn [length] in Hlen, Hfuel.
    destruct fuel as [|fuel]; [lia|].
    assert (Hxin : x ∈ inorder ta) by (rewrite Heqa; set_solver).
    assert (Hyin : y ∈ inorder tb) by (rewrite Heqb; set_solver).
    pose proof (bst_NoDup _ _ Hla _ Hba) as Hnda. rewrite Heqa in Hnda.
    apply NoDup_app in Hnda as (_ & Hda & _).
    pose proof (bst_NoDup _ _ Hlb _ Hbb) as Hndb. rewrite Heqb in Hndb.
    apply NoDup_app in Hndb as (_ & Hdb & _).
    assert (Hxpre : x ∉ prea) by (intros ?; eapply Hda; [done|set_solver]).
    assert (Hypre : y ∉ preb) by (intros ?; eapply Hdb; [done|set_solver]).
    destruct (store_left_elem _ _ _ _ _ _ Hinva Hxin) as (i & la & ra & -> & Hvi & _).
    destruct (store_left_elem _ _ _ _ _ _ Hinvb Hyin) as (j & lb & rb & -> & Hvj & _).
    cbn [bimap.equal_loop hd]. rewrite bool_decide_false by done.
    unfold bimap.deref_left. cbn [tree.value_of bimap.value_left].
    rewrite Hvi, Hvj. cbn [fmap option_fmap option_map fst]. osimpl.
    cbn [omap list_omap record_of]. rewrite Hvi, Hvj.
    destruct (tree.equal (cmp_left oa) la lb) eqn:Hel; cbn [negb].
    2:{ exists false. split; [done|]. split; [done|]. intros [= -> _].
        by rewrite (proj2 (equal_true _ Hla lb lb)) in Hel. }
    apply (equal_true _ Hla) in Hel as ->.
    rewrite (flip_left_node _ _ _ _ _ _ Hinva Hxin). osimpl.
    unfold bimap.deref_right. cbn [tree.value_of bimap.value_right].
    rewrite Hvi. cbn [fmap option_fmap option_map snd]. osimpl.
    rewrite (flip_left_node _ _ _ _ _ _ Hinvb Hyin). osimpl.
    cbn [tree.value_of bimap.value_right].
    rewrite Hvj. cbn [fmap option_fmap option_map snd]. osimpl.
    destruct (tree.equal (cmp_right oa) ra rb) eqn:Her; cbn [negb].
    2:{ exists false. split; [done|]. split; [done|]. intros [= -> _].
        by rewrite (proj2 (equal_true _ Hra rb rb)) in Her. }
    apply (equal_true _ Hra) in Her as ->.
    unfold bimap.incr.
    rewrite (next_spec _ _ Hla _ _ _ _ _ Hela Hxin). osimpl.
    rewrite (next_spec _ _ Hlb _ _ _ _ _ Helb Hyin). osimpl.
    rewrite Heqa, Heqb, !succ_in_split by done.
    destruct (IH (prea ++ [Sub i SLeft]) postb (preb ++ [Sub j SLeft]) fuel)
      as (res & Hloop & Hres).
    { by rewrite <-app_assoc. }
    { by rewrite <-app_assoc. }
    { lia. }
    { lia. }
    exists res. split; [done|]. rewrite Hres. split; [by intros ->|].
    by intros [= ->].
Qed.

Lemma equal_spec w a b oa ob ta tra tb trb :
  store_inv w a oa ta tra → store_inv w b ob tb trb →
  ∃ res, bimap.equal w a b = Ret res
    ∧ (res = true ↔ records w ta = records w tb).
Proof.
  intros Hinva Hinvb.
  pose proof (records_length _ _ _ _ _ Hinva) as Hlena.
  pose proof (records_length _ _ _ _ _ Hinvb) as Hlenb.
  pose proof Hinva as (Hoa & Hla & _ & Hela & _ & _ & Hsa & _).
  pose proof Hinvb as (_ & Hlb & _ & Helb & _ & _ & Hsb & _).
  unfold bimap.equal.
  rewrite (size_spec _ _ _ _ _ Hinva), (size_spec _ _ _ _ _ Hinvb). osimpl.
  destruct (decide (m_size oa = m_size ob)) as [Hsz|Hsz].
  - rewrite bool_decide_true by done. cbn [negb].
    unfold bimap.obj. rewrite Hoa. osimpl. unfold bimap.begin_left.
    rewrite (begin_spec _ _ Hla _ _ _ _ Hela), (begin_spec _ _ Hlb _ _ _ _ Helb).
    osimpl.
    apply (equal_loop_spec w a oa ta tra b ob tb trb Hinva Hinvb
             (inorder ta) [] (inorder tb) []); [done..|lia|].
    pose proof (store_length_bound _ _ _ _ _ Hinva). lia.
  - rewrite bool_decide_false by done. cbn [negb]. exists false.
    split; [done|]. split; [done|]. intros Heq. exfalso. apply Hsz.
    by rewrite <-Hlena, <-Hlenb, Heq.
Qed.

(** X11: [a == b] returns for any two bimaps, and is true exactly when
    they hold the same pairs in the same order, read from the left
    sides; the keys are compared with the comparators of [a] only.
    [a != b] is the opposite. *)
Theorem equal_compares_contents w a b oa ob psa psb :
  reach w → objs w !! a = Some oa → objs w !! b = Some ob →
  contents w a = Ret psa → contents w b = Ret psb →
  ∃ res, bimap.equal w a b = Ret res
    ∧ bimap.not_equal w a b = Ret (negb res)
    ∧ (res = true ↔ psa = psb).
Proof.
  intros Hw Hoa Hob Hpa Hpb.
  destruct (reachable_store _ _ _ _ _ Hw Hoa) as (ta & tra & Hinva).
  destruct (reachable_store _ _ _ _ _ Hw Hob) as (tb & trb & Hinvb).
  rewrite (contents_spec _ _ _ _ _ Hinva) in Hpa. injection Hpa as <-.
  rewrite (contents_spec _ _ _ _ _ Hinvb) in Hpb. injection Hpb as <-.
  destruct (equal_spec _ _ _ _ _ _ _ _ _ Hinva Hinvb) as (res & He & Hres).
  exists res. split_and!; [done| |done].
  unfold bimap.not_equal. by rewrite He.
Qed.
End comparing.

(** ** Predecessors *)

Lemma pred_in_app_l l1 l2 x d :
  x ∈ l1 → pred_in (l1 ++ l2) x d = pred_in l1 x d.
Proof.
  revert d. induction l1 as [|y l1 IH]; intros d; [by intros ?%elem_of_nil|].
  intros Hin. simpl. case_decide as Hxy; [done|].
  apply IH. apply elem_of_cons in Hin as [?|?]; done.
Qed.

Lemma pred_in_split l1 l2 x d :
  x ∉ l1 → pred_in (l1 ++ x :: l2) x d = from_option Some d (last l1).
Proof.
  revert d. induction l1 as [|y l1 IH]; intros d Hx; simpl.
  - by rewrite decide_True.
  - rewrite decide_False by set_solver. rewrite IH by set_solver.
    destruct l1 as [|z l1]; [done|]. change (last (y :: z :: l1)) with (last (z :: l1)).
    destruct (last (z :: l1)) eqn:E; [done|]. by apply last_None in E.
Qed.

Lemma pred_in_app_r l1 y l2 x d :
  x ∉ l1 → x ≠ y → pred_in (l1 ++ y :: l2) x d = pred_in l2 x (Some y).
Proof.
  revert d. induction l1 as [|z l1 IH]; intros d Hx Hxy; simpl.
  - by rewrite decide_False.
  - rewrite decide_False by set_solver. apply IH; [set_solver|done].
Qed.

Lemma last_of_last t d : Some (last_of t d) = from_option Some (Some d) (last (inorder t)).
Proof.
  revert d. induction t as [|l _ a r IHr]; intros d; [done|].
  cbn [last_of inorder]. rewrite IHr, last_app.
  destruct (inorder r) as [|z zs] eqn:Hr; [done|].
  change (last (a :: z :: zs)) with (last (z :: zs)).
  destruct (last (z :: zs)) eqn:E; [done|]. by apply last_None in E.
Qed.

Lemma exits_left_right_child h a na ra nra :
  h !! ra = Some nra → parent nra = Some a →
  h !! a = Some na → left na ≠ Some ra →
  exits_left h 0 ra (Some a).
Proof.
  intros Hra Hpar Ha Hne. exists ra, nra. split_and!; [done..|].
  intros [|fuel] ?; [lia|]. simpl. unfold tree.is_left.
  rewrite (load_Some _ _ _ Hra). osimpl. rewrite Hpar.
  rewrite (load_Some _ _ _ Ha). osimpl. by rewrite bool_decide_false.
Qed.

Lemma exits_left_left_child h n a na la nla prv :
  h !! la = Some nla → parent nla = Some a →
  h !! a = Some na → left na = Some la →
  exits_left h n a prv → exits_left h (S n) la prv.
Proof.
  intros Hla Hpar Ha Hl (top & tn & Htop & Hp & Hclimb).
  exists top, tn. split_and!; [done..|].
  intros [|fuel] ?; [lia|]. simpl. unfold tree.is_left.
  rewrite (load_Some _ _ _ Hla). osimpl. rewrite Hpar.
  rewrite (load_Some _ _ _ Ha). osimpl. rewrite bool_decide_true by done.
  apply Hclimb. lia.
Qed.

Lemma prev_in_shape h par t n prv x :
  repr h par t → NoDup (inorder t) → x ∈ inorder t →
  (∀ a, root t = Some a → exits_left h n a prv) →
  n + length (inorder t) ≤ size h →
  tree.prev h (Some x) = Ret (pred_in (inorder t) x prv).
Proof.
  revert par n prv. induction t as [|l IHl a r IHr]; intros par n prv;
    [by intros _ _ ?%elem_of_nil|].
  cbn [repr inorder root]. intros (Ha & Hl & Hr) Hnd Hx Hexit Hlen.
  rewrite length_app in Hlen. cbn [length] in Hlen.
  apply NoDup_app in Hnd as (Hndl & Hdisj & Hndr).
  apply NoDup_cons in Hndr as [Har Hndr].
  apply elem_of_app in Hx as [Hx|Hx].
  - (* in the left subtree *)
    rewrite pred_in_app_l by done.
    apply (IHl a (S n)); [done..| |lia].
    intros la Hla. destruct l as [|ll la' lr]; [done|].
    injection Hla as ->. destruct Hl as (Hla & _).
    eapply exits_left_left_child; [done..|]. by apply Hexit.
  - apply elem_of_cons in Hx as [->|Hx].
    + (* the root *)
      rewrite pred_in_split by (intros ?; eapply Hdisj; [done|set_solver]).
      unfold tree.prev. rewrite (load_Some _ _ _ Ha). osimpl.
      destruct l as [|ll la lr]; osimpl.
      * destruct (Hexit a eq_refl) as (top & tn & Htop & Hp & Hclimb).
        rewrite Hclimb by (rewrite walk_bound_eq; lia). osimpl.
        rewrite (load_Some _ _ _ Htop). osimpl. by rewrite Hp.
      * rewrite (rightmost_spec h a (Node ll la lr) la); [|done..|].
        -- osimpl. f_equal. rewrite last_of_last.
           destruct (last (inorder (Node ll la lr))) eqn:Hlast; [done|].
           apply last_None in Hlast. cbn [inorder] in Hlast.
           by destruct (inorder ll).
        -- rewrite walk_bound_eq. lia.
    + (* in the right subtree *)
      assert (Hxa : x ≠ a) by (intros ->; done).
      rewrite pred_in_app_r; [|intros ?; eapply Hdisj; [done|set_solver]|done].
      apply (IHr a 0); [done..| |lia].
      intros ra Hra. destruct r as [|rl ra' rr]; [done|].
      injection Hra as ->. destruct Hr as (Hra & _).
      eapply exits_left_right_child; [done..|]. cbn [left].
      intros Heq. apply root_elem in Heq.
      apply (Hdisj ra); [done|set_solver].
Qed.

Section engine_walks_back.
Context {T : Type}.
Variable value : addr → option T.
Variable lt : T → T → bool.
Hypothesis Hlt : strict_total lt.

Lemma prev_spec h this t link x :
  engine_inv value lt h this t link → x ∈ inorder t →
  tree.prev h (Some x) = Ret (pred_in (inorder t) x None).
Proof.
  intros Hinv Hx. pose proof (engine_inv_length _ _ Hlt _ _ _ _ Hinv) as Hlen.
  destruct Hinv as (Hs & Hr & Hb & Hv & Hlk).
  apply (prev_in_shape h this t 1); [done|by eapply bst_NoDup|done| |lia].
  intros a Ha. destruct t as [|l a' r]; [done|]. injection Ha as ->.
  destruct Hr as (Ha & _).
  apply (exits_left_left_child h 0 this _ a _ None Ha eq_refl Hs eq_refl).
  exists this, (NodeBase None (root (Node l a r)) link). split_and!; [done..|].
  intros [|fuel] ?; [lia|]. simpl. unfold tree.is_left.
  rewrite (load_Some _ _ _ Hs). by osimpl.
Qed.

Lemma prev_end h this t link :
  engine_inv value lt h this t link →
  tree.prev h (Some this) = Ret (last (inorder t)).
Proof.
  intros Hinv. pose proof (engine_inv_length _ _ Hlt _ _ _ _ Hinv) as Hlen.
  destruct Hinv as (Hs & Hr & Hb & Hv & Hlk).
  unfold tree.prev. rewrite (load_Some _ _ _ Hs). osimpl.
  destruct t as [|l a r]; osimpl.
  - rewrite walk_bound_eq. cbn [tree.climb_while_left]. unfold tree.is_left.
    rewrite (load_Some _ _ _ Hs). osimpl. by rewrite (load_Some _ _ _ Hs).
  - rewrite (rightmost_spec h this (Node l a r) a); [|done..|].
    + osimpl. f_equal. rewrite last_of_last.
      destruct (last (inorder (Node l a r))) eqn:Hlast; [done|].
      apply last_None in Hlast. cbn [inorder] in Hlast.
      by destruct (inorder l).
    + rewrite walk_bound_eq. lia.
Qed.
End engine_walks_back.

(** ** Iterators *)

Section iterators.
Context {L R : Type}.
Variable default_left : L.
Variable default_right : R.
Implicit Types (w : world L R) (o : bimap_obj L R).

Local Notation reach := (reachable default_left default_right).

Lemma engine_steps {T} (value : addr → option T) lt h this t link pre x post :
  strict_total lt → engine_inv value lt h this t link →
  inorder t = pre ++ x :: post →
  tree.next h (Some x) = Ret (Some (hd this post))
  ∧ tree.prev h (Some x) = Ret (last pre).
Proof.
  intros Hlt Hinv Heq. pose proof Hinv as (_ & _ & Hb & _).
  pose proof (bst_NoDup _ _ Hlt _ Hb) as Hnd. rewrite Heq in Hnd.
  apply NoDup_app in Hnd as (_ & Hd & _).
  assert (Hx : x ∉ pre) by (intros ?; eapply Hd; [done|by left]).
  assert (Hin : x ∈ inorder t) by (rewrite Heq; set_solver).
  rewrite (next_spec _ _ Hlt _ _ _ _ _ Hinv Hin),
    (prev_spec _ _ Hlt _ _ _ _ _ Hinv Hin), Heq.
  rewrite succ_in_split, pred_in_split by done.
  by destruct (last pre).
Qed.

(** X12: [++] on an iterator to a node gives the next node of its side,
    from the last one the end iterator; [--] gives the node before, from
    the end iterator the last node, and from the first node (and from
    the end of an empty side) the null iterator.  [begin_left()] is the
    first node, or [end_left()] in an empty bimap. *)
Theorem iterators_step w b o nsl nsr :
  reach w → objs w !! b = Some o →
  left_nodes w b = Ret nsl → right_nodes w b = Ret nsr →
  bimap.begin_left w b = Ret (Some (hd (Sentinel b SLeft) nsl))
  ∧ bimap.begin_right w b = Ret (Some (hd (Sentinel b SRight) nsr))
  ∧ bimap.decr w (bimap.end_left b) = Ret (last nsl)
  ∧ bimap.decr w (bimap.end_right b) = Ret (last nsr)
  ∧ (∀ pre x post, nsl = pre ++ x :: post →
       bimap.incr w (Some x) = Ret (Some (hd (Sentinel b SLeft) post))
       ∧ bimap.decr w (Some x) = Ret (last pre))
  ∧ (∀ pre x post, nsr = pre ++ x :: post →
       bimap.incr w (Some x) = Ret (Some (hd (Sentinel b SRight) post))
       ∧ bimap.decr w (Some x) = Ret (last pre)).
Proof.
  intros Hw Ho Hl Hr. destruct (reachable_store _ _ _ _ _ Hw Ho) as (tl & tr & Hinv).
  rewrite (left_nodes_spec _ _ _ _ _ Hinv) in Hl. injection Hl as <-.
  rewrite (right_nodes_spec _ _ _ _ _ Hinv) in Hr. injection Hr as <-.
  pose proof Hinv as (_ & Hlt & Hrt & Hel & Her & _).
  unfold bimap.begin_left, bimap.begin_right, bimap.decr, bimap.incr,
    bimap.end_left, bimap.end_right, tree.end_, tree.get_sentinel_ptr.
  split_and!.
  - apply (begin_spec _ _ Hlt _ _ _ _ Hel).
  - apply (begin_spec _ _ Hrt _ _ _ _ Her).
  - apply (prev_end _ _ Hlt _ _ _ _ Hel).
  - apply (prev_end _ _ Hrt _ _ _ _ Her).
  - intros pre x post Heq. apply (engine_steps _ _ _ _ _ _ _ _ _ Hlt Hel Heq).
  - intros pre x post Heq. apply (engine_steps _ _ _ _ _ _ _ _ _ Hrt Her Heq).
Qed.
End iterators.

(** ** The bounds and [find] *)

Section bounds_and_find.
Context {T : Type}.
Variable value : addr → option T.
Variable lt : T → T → bool.
Hypothesis Hlt : strict_total lt.

Lemma sorted_split (l : list addr) v :
  StronglySorted (key_lt value lt) l → (∀ a, a ∈ l → is_Some (value a)) →
  ∃ pre mid post, l = pre ++ mid ++ post ∧ length mid ≤ 1
    ∧ (∀ a, a ∈ pre → ∃ va, value a = Some va ∧ lt va v = true)
    ∧ (∀ a, a ∈ mid → value a = Some v)
    ∧ (∀ a, a ∈ post → ∃ va, value a = Some va ∧ lt v va = true).
Proof.
  induction 1 as [|a l Hs IH Hall]; intros Hval.
  { exists [], [], []. split_and!; try done; try (cbn; lia); by intros ? ?%elem_of_nil. }
  rewrite Forall_forall in Hall.
  destruct (Hval a) as [va Hva]; [by left|].
  destruct (lt va v) eqn:H1.
  - destruct IH as (pre & mid & post & -> & Hlen & Hpre & Hmid & Hpost).
    { intros y Hy. apply Hval. by right. }
    exists (a :: pre), mid, post. split_and!; try done.
    intros y [->|Hy]%elem_of_cons; [by exists va|by apply Hpre].
  - destruct (lt v va) eqn:H2.
    + exists [], [], (a :: l). split_and!; try done; try (cbn; lia);
        try by intros ? ?%elem_of_nil.
      intros y [->|Hy]%elem_of_cons; [by exists va|].
      destruct (Hall y Hy) as (va' & vy & Hva' & Hvy & Hlty).
      rewrite Hva in Hva'. injection Hva' as <-.
      exists vy. split; [done|]. by eapply (lt_trans _ Hlt).
    + pose proof (lt_total _ Hlt _ _ H1 H2) as ->.
      exists [], [a], l. split_and!; try done; try (cbn; lia);
        try by intros ? ?%elem_of_nil.
      * by intros y ->%list_elem_of_singleton.
      * intros y Hy. destruct (Hall y Hy) as (va' & vy & Hva' & Hvy & Hlty).
        rewrite Hva in Hva'. injection Hva' as <-. by exists vy.
Qed.

Lemma bounds_split h this t link v :
  engine_inv value lt h this t link →
  ∃ pre mid post, inorder t = pre ++ mid ++ post ∧ length mid ≤ 1
    ∧ tree.lower_bound value lt h this v = Ret (Some (hd this (mid ++ post)))
    ∧ tree.upper_bound value lt h this v = Ret (Some (hd this post))
    ∧ tree.find value lt h this v = Ret (Some (hd this mid))
    ∧ (∀ a, a ∈ pre → ∃ va, value a = Some va ∧ lt va v = true)
    ∧ (∀ a, a ∈ mid → value a = Some v)
    ∧ (∀ a, a ∈ post → ∃ va, value a = Some va ∧ lt v va = true).
Proof.
  intros Hinv. pose proof Hinv as (_ & _ & Hb & _).
  destruct (sorted_split (inorder t) v (bst_sorted _ _ Hlt _ Hb))
    as (pre & mid & post & Heq & Hlen & Hpre & Hmid & Hpost).
  { intros a Ha. by eapply bst_values. }
  exists pre, mid, post. split_and!; try done.
  - rewrite (lower_bound_spec _ _ Hlt _ _ _ _ _ Hinv), Heq. do 2 f_equal.
    assert (Hp : ∀ y, y ∈ pre → not_less value lt v y = false).
    { intros y (vy & Hvy & Hl)%Hpre. unfold not_less. by rewrite Hvy, Hl. }
    destruct mid as [|m mid]; [destruct post as [|p post]|].
    + rewrite app_nil_r. by apply first_with_none.
    + cbn [app hd]. apply first_with_split; [done|].
      destruct (Hpost p) as (vp & Hvp & Hl); [by left|].
      unfold not_less. by rewrite Hvp, (lt_asym _ Hlt _ _ Hl).
    + cbn [app hd]. apply first_with_split; [done|].
      unfold not_less. rewrite (Hmid m) by (by left).
      by rewrite (lt_irrefl _ Hlt).
  - rewrite (upper_bound_spec _ _ Hlt _ _ _ _ _ Hinv), Heq. do 2 f_equal.
    assert (Hp : ∀ y, y ∈ pre ++ mid → greater_than value lt v y = false).
    { intros y [(vy & Hvy & Hl)%Hpre|Hy%Hmid]%elem_of_app; unfold greater_than.
      - by rewrite Hvy, (lt_asym _ Hlt _ _ Hl).
      - by rewrite Hy, (lt_irrefl _ Hlt). }
    rewrite app_assoc. destruct post as [|p post].
    + rewrite app_nil_r. by apply first_with_none.
    + cbn [hd]. apply first_with_split; [done|].
      destruct (Hpost p) as (vp & Hvp & Hl); [by left|].
      unfold greater_than. by rewrite Hvp.
  - destruct mid as [|m mid].
    + apply (find_missing _ _ Hlt _ _ _ _ _ Hinv). intros x [Hx Hvx].
      rewrite Heq in Hx. cbn [app] in Hx.
      apply elem_of_app in Hx as [(vx & Hvx' & Hl)%Hpre|(vx & Hvx' & Hl)%Hpost];
        rewrite Hvx in Hvx'; injection Hvx' as <-;
        by rewrite (lt_irrefl _ Hlt) in Hl.
    + cbn [hd]. apply (find_found _ _ Hlt _ _ _ _ _ _ Hinv). split.
      * rewrite Heq. set_solver.
      * apply Hmid. by left.
Qed.
End bounds_and_find.

Section bimap_bounds.
Context {L R : Type}.
Variable default_left : L.
Variable default_right : R.
Implicit Types (w : world L R) (o : bimap_obj L R).

Local Notation reach := (reachable default_left default_right).

(** X13: the nodes of the left side are, in order, those with a key less
    than [K], at most one node with the key [K], and those with a greater
    key; [lower_bound_left(K)] is the first node that is not of the first
    group, [upper_bound_left(K)] the first node of the last group,
    [end_left()] where there is none, and [find_left(K)] the node with
    the key [K], or [end_left()].  The right side likewise. *)
Theorem bounds_enclose_key w b o kl kr :
  reach w → objs w !! b = Some o →
  (∃ pre mid post,
     left_nodes w b = Ret (pre ++ mid ++ post) ∧ length mid ≤ 1
     ∧ bimap.lower_bound_left w b kl = Ret (Some (hd (Sentinel b SLeft) (mid ++ post)))
     ∧ bimap.upper_bound_left w b kl = Ret (Some (hd (Sentinel b SLeft) post))
     ∧ bimap.find_left w b kl = Ret (Some (hd (Sentinel b SLeft) mid))
     ∧ (∀ a, a ∈ pre → ∃ v, bimap.deref_left w (Some a) = Ret v
                            ∧ cmp_left o v kl = true)
     ∧ (∀ a, a ∈ mid → bimap.deref_left w (Some a) = Ret kl)
     ∧ (∀ a, a ∈ post → ∃ v, bimap.deref_left w (Some a) = Ret v
                             ∧ cmp_left o kl v = true))
  ∧ (∃ pre mid post,
     right_nodes w b = Ret (pre ++ mid ++ post) ∧ length mid ≤ 1
     ∧ bimap.lower_bound_right w b kr = Ret (Some (hd (Sentinel b SRight) (mid ++ post)))
     ∧ bimap.upper_bound_right w b kr = Ret (Some (hd (Sentinel b SRight) post))
     ∧ bimap.find_right w b kr = Ret (Some (hd (Sentinel b SRight) mid))
     ∧ (∀ a, a ∈ pre → ∃ v, bimap.deref_right w (Some a) = Ret v
                            ∧ cmp_right o v kr = true)
     ∧ (∀ a, a ∈ mid → bimap.deref_right w (Some a) = Ret kr)
     ∧ (∀ a, a ∈ post → ∃ v, bimap.deref_right w (Some a) = Ret v
                             ∧ cmp_right o kr v = true)).
Proof.
  intros Hw Ho. destruct (reachable_store _ _ _ _ _ Hw Ho) as (tl & tr & Hinv).
  pose proof Hinv as (_ & Hlt & Hrt & Hel & Her & _).
  unfold bimap.lower_bound_left, bimap.upper_bound_left, bimap.find_left,
    bimap.lower_bound_right, bimap.upper_bound_right, bimap.find_right,
    bimap.obj, bimap.deref_left, bimap.deref_right.
  rewrite Ho. osimpl.
  rewrite (left_nodes_spec _ _ _ _ _ Hinv), (right_nodes_spec _ _ _ _ _ Hinv).
  split.
  - destruct (bounds_split _ _ Hlt _ _ _ _ kl Hel)
      as (pre & mid & post & Heq & Hlen & Hlb & Hub & Hf & Hpre & Hmid & Hpost).
    exists pre, mid, post. split_and!; try done; [by rewrite Heq|..].
    + intros a (v & Hv & Hc)%Hpre. exists v. cbn. by rewrite Hv.
    + intros a Hv%Hmid. cbn. by rewrite Hv.
    + intros a (v & Hv & Hc)%Hpost. exists v. cbn. by rewrite Hv.
  - destruct (bounds_split _ _ Hrt _ _ _ _ kr Her)
      as (pre & mid & post & Heq & Hlen & Hlb & Hub & Hf & Hpre & Hmid & Hpost).
    exists pre, mid, post. split_and!; try done; [by rewrite Heq|..].
    + intros a (v & Hv & Hc)%Hpre. exists v. cbn. by rewrite Hv.
    + intros a Hv%Hmid. cbn. by rewrite Hv.
    + intros a (v & Hv & Hc)%Hpost. exists v. cbn. by rewrite Hv.
Qed.
End bimap_bounds.

(** ** Erasing a range *)

Section erase_ranges.
Context {L R : Type}.
Variable default_left : L.
Variable default_right : R.
Implicit Types (w : world L R) (o : bimap_obj L R).

Local Notation reach := (reachable default_left default_right).

Lemma erase_left_step w b o tl tr i :
  store_inv w b o tl tr → Sub i SLeft ∈ inorder tl →
  ∃ w',
    let o' := BimapObj (pred (m_size o)) (cmp_left o) (cmp_right o) in
    bimap.erase_left w b (Some (Sub i SLeft))
    = Ret (w', Some (succ_in (inorder tl) (Sub i SLeft) (Sentinel b SLeft)))
    ∧ store_inv w' b o' (del (Sub i SLeft) tl) (del (Sub i SRight) tr)
    ∧ evolves w w' b tl tr (del (Sub i SLeft) tl) (del (Sub i SRight) tr)
    ∧ values w' = delete i (values w).
Proof.
  intros Hinv Hi.
  destruct (erase_left_spec w b o tl tr i Hinv Hi)
    as (w' & He & Hinv' & Hval & Hobj & Hnrec & Hnobj & Hfr).
  exists w'. cbn zeta in *. split_and!; try done.
  split_and!; try done.
  - by eexists.
  - intros a Ha%del_elem. by left.
  - intros a Ha%del_elem. by left.
  - intros y Hy _. by apply Hfr.
  - intros j _ Hj. rewrite Hval, lookup_delete_ne; [done|].
    intros ->. done.
  - lia.
Qed.

Lemma erase_right_step w b o tl tr i :
  store_inv w b o tl tr → Sub i SRight ∈ inorder tr →
  ∃ w',
    let o' := BimapObj (pred (m_size o)) (cmp_left o) (cmp_right o) in
    bimap.erase_right w b (Some (Sub i SRight))
    = Ret (w', Some (succ_in (inorder tr) (Sub i SRight) (Sentinel b SRight)))
    ∧ store_inv w' b o' (del (Sub i SLeft) tl) (del (Sub i SRight) tr)
    ∧ evolves w w' b tl tr (del (Sub i SLeft) tl) (del (Sub i SRight) tr)
    ∧ values w' = delete i (values w).
Proof.
  intros Hinv Hi.
  destruct (erase_right_spec w b o tl tr i Hinv Hi)
    as (w' & He & Hinv' & Hval & Hobj & Hnrec & Hnobj & Hfr).
  pose proof Hinv as (_ & _ & _ & _ & _ & Hpair & _).
  exists w'. cbn zeta in *. split_and!; try done.
  split_and!; try done.
  - by eexists.
  - intros a Ha%del_elem. by left.
  - intros a Ha%del_elem. by left.
  - intros y Hy _. by apply Hfr.
  - intros j _ Hj. rewrite Hval, lookup_delete_ne; [done|].
    intros ->. by apply Hj, Hpair.
  - lia.
Qed.

Lemma erase_left_loop_exact b mid :
  ∀ pre post fuel w o tl tr,
    store_inv w b o tl tr → inorder tl = pre ++ mid ++ post →
    length mid ≤ fuel →
    ∃ w' o' tl' tr',
      bimap.erase_left_loop fuel w b
        (Some (hd (Sentinel b SLeft) (mid ++ post)))
        (Some (hd (Sentinel b SLeft) post))
      = Ret (w', Some (hd (Sentinel b SLeft) post))
      ∧ store_inv w' b o' tl' tr'
      ∧ evolves w w' b tl tr tl' tr'
      ∧ inorder tl' = pre ++ post
      ∧ (∀ a, a ∈ inorder tl' → a ∈ inorder tl)
      ∧ (∀ j, Sub j SLeft ∉ mid → values w' !! j = values w !! j)
      ∧ (∀ j, Sub j SLeft ∈ mid → values w' !! j = None).
Proof.
  induction mid as [|x mid IH]; intros pre post fuel w o tl tr Hinv Heq Hlen.
  - exists w, o, tl, tr. cbn [app] in *. split_and!; try done.
    + destruct fuel; cbn [bimap.erase_left_loop]; by rewrite bool_decide_true.
    + destruct Hinv as (Ho & _). by eapply evolves_refl.
    + by intros j ?%elem_of_nil.
  - cbn [length] in Hlen. destruct fuel as [|fuel]; [lia|].
    pose proof Hinv as (_ & Hl & _ & Hel & _).
    pose proof Hel as (_ & _ & Hb & _).
    pose proof (bst_NoDup _ _ Hl _ Hb) as Hnd. rewrite Heq in Hnd.
    apply NoDup_app in Hnd as (_ & Hd1 & Hnd2).
    cbn [app] in Hnd2. apply NoDup_cons in Hnd2 as [Hx2 _].
    assert (Hxin : x ∈ inorder tl) by (rewrite Heq; set_solver).
    assert (Hxpre : x ∉ pre) by (intros ?; eapply Hd1; [done|set_solver]).
    destruct (store_left_elem _ _ _ _ _ _ Hinv Hxin) as (i & l & r & -> & Hv & _).
    cbn [bimap.erase_left_loop app hd].
    rewrite bool_decide_false.
    2:{ intros [= Hhd]. destruct post as [|y post]; cbn in Hhd; [done|].
        apply Hx2. rewrite Hhd. set_solver. }
    unfold bimap.incr. rewrite (next_spec _ _ Hl _ _ _ _ _ Hel Hxin). osimpl.
    destruct (erase_left_step w b o tl tr i Hinv Hxin)
      as (w1 & He & Hinv1 & Hev1 & Hvals).
    cbn zeta in *. rewrite He. osimpl.
    assert (Hin1' : inorder (del (Sub i SLeft) tl) = pre ++ mid ++ post).
    { rewrite del_inorder by exact (bst_NoDup _ _ Hl _ Hb).
      rewrite Heq. cbn [app]. by rewrite without_split. }
    rewrite Heq. cbn [app]. rewrite succ_in_split by done.
    destruct (IH pre post fuel w1 _ _ _ Hinv1 Hin1')
      as (w' & o' & tl' & tr' & Hloop & Hinv' & Hev' & Hin' & Hsub & Hkeep & Hgone);
      [lia|].
    exists w', o', tl', tr'. split_and!; try done.
    + by eapply evolves_trans.
    + intros a Ha%Hsub%del_elem. try rewrite Heq in Ha. exact Ha.
    + intros j Hj. rewrite Hkeep by (intros ?; apply Hj; by right).
      rewrite Hvals. apply lookup_delete_ne. intros ->. apply Hj. by left.
    + intros j Hj. destruct (decide (Sub j SLeft ∈ mid)) as [Hm|Hm]; [by apply Hgone|].
      apply elem_of_cons in Hj as [[= ->]|?]; [|done].
      rewrite Hkeep by done. rewrite Hvals. apply lookup_delete_eq.
Qed.

Lemma erase_right_loop_exact b mid :
  ∀ pre post fuel w o tl tr,
    store_inv w b o tl tr → inorder tr = pre ++ mid ++ post →
    length mid ≤ fuel →
    ∃ w' o' tl' tr',
      bimap.erase_right_loop fuel w b
        (Some (hd (Sentinel b SRight) (mid ++ post)))
        (Some (hd (Sentinel b SRight) post))
      = Ret (w', Some (hd (Sentinel b SRight) post))
      ∧ store_inv w' b o' tl' tr'
      ∧ evolves w w' b tl tr tl' tr'
      ∧ inorder tr' = pre ++ post
      ∧ (∀ a, a ∈ inorder tl' → a ∈ inorder tl)
      ∧ (∀ j, Sub j SRight ∉ mid → values w' !! j = values w !! j)
      ∧ (∀ j, Sub j SRight ∈ mid → values w' !! j = None).
Proof.
  induction mid as [|x mid IH]; intros pre post fuel w o tl tr Hinv Heq Hlen.
  - exists w, o, tl, tr. cbn [app] in *. split_and!; try done.
    + destruct fuel; cbn [bimap.erase_right_loop]; by rewrite bool_decide_true.
    + destruct Hinv as (Ho & _). by eapply evolves_refl.
    + by intros j ?%elem_of_nil.
  - cbn [length] in Hlen. destruct fuel as [|fuel]; [lia|].
    pose proof Hinv as (_ & _ & Hr & _ & Her & _).
    pose proof Her as (_ & _ & Hb & _).
    pose proof (bst_NoDup _ _ Hr _ Hb) as Hnd. rewrite Heq in Hnd.
    apply NoDup_app in Hnd as (_ & Hd1 & Hnd2).
    cbn [app] in Hnd2. apply NoDup_cons in Hnd2 as [Hx2 _].
    assert (Hxin : x ∈ inorder tr) by (rewrite Heq; set_solver).
    assert (Hxpre : x ∉ pre) by (intros ?; eapply Hd1; [done|set_solver]).
    destruct (store_right_elem _ _ _ _ _ _ Hinv Hxin) as (i & l & r & -> & Hv & _).
    cbn [bimap.erase_right_loop app hd].
    rewrite bool_decide_false.
    2:{ intros [= Hhd]. destruct post as [|y post]; cbn in Hhd; [done|].
        apply Hx2. rewrite Hhd. set_solver. }
    unfold bimap.incr. rewrite (next_spec _ _ Hr _ _ _ _ _ Her Hxin). osimpl.
    destruct (erase_right_step w b o tl tr i Hinv Hxin)
      as (w1 & He & Hinv1 & Hev1 & Hvals).
    cbn zeta in *. rewrite He. osimpl.
    assert (Hin1' : inorder (del (Sub i SRight) tr) = pre ++ mid ++ post).
    { rewrite del_inorder by exact (bst_NoDup _ _ Hr _ Hb).
      rewrite Heq. cbn [app]. by rewrite without_split. }
    rewrite Heq. cbn [app]. rewrite succ_in_split by done.
    destruct (IH pre post fuel w1 _ _ _ Hinv1 Hin1')
      as (w' & o' & tl' & tr' & Hloop & Hinv' & Hev' & Hin' & Hsub & Hkeep & Hgone);
      [lia|].
    exists w', o', tl', tr'. split_and!; try done.
    + by eapply evolves_trans.
    + intros a Ha%Hsub%del_elem. try rewrite Heq in Ha. exact Ha.
    + intros j Hj. rewrite Hkeep by (intros ?; apply Hj; by right).
      rewrite Hvals. apply lookup_delete_ne. intros ->. apply Hj. by left.
    + intros j Hj. destruct (decide (Sub j SRight ∈ mid)) as [Hm|Hm]; [by apply Hgone|].
      apply elem_of_cons in Hj as [[= ->]|?]; [|done].
      rewrite Hkeep by done. rewrite Hvals. apply lookup_delete_eq.
Qed.

Lemma erased_not_found w w' b o o' tl tr tl' tr' (E : nat → Prop) j p :
  store_inv w b o tl tr → store_inv w' b o' tl' tr' →
  (∀ a, a ∈ inorder tl' → a ∈ inorder tl) →
  (∀ i, ¬ E i → values w' !! i = values w !! i) →
  (∀ i, E i → values w' !! i = None) →
  E j → Sub j SLeft ∈ inorder tl → values w !! j = Some p →
  bimap.find_left w' b p.1 = Ret (bimap.end_left b)
  ∧ bimap.find_right w' b p.2 = Ret (bimap.end_right b).
Proof.
  intros Hinv Hinv' Hsub Hkeep Hgone Hj Hjin Hvj.
  pose proof Hinv as (_ & Hl & Hr & (_ & _ & Hbl & _) & (_ & _ & Hbr & _) & Hpair & _).
  assert (Hold : ∀ q, q ∈ records w' tl' →
            ∃ i, ¬ E i ∧ Sub i SLeft ∈ inorder tl ∧ values w !! i = Some q).
  { intros [l r] (i & Hi & Hv)%(records_left _ _ _ _ _ _ _ Hinv').
    assert (HE : ¬ E i) by (intros HE; by rewrite (Hgone i HE) in Hv).
    exists i. split_and!; [done|by apply Hsub|by rewrite <-Hkeep]. }
  split.
  - apply (find_left_gone _ _ _ _ _ _ Hinv'). intros r (i & HE & Hi & Hv)%Hold.
    apply HE. assert (Sub i SLeft = Sub j SLeft) as [= ->]; [|done].
    apply (bst_inj _ _ Hl _ _ _ p.1 Hbl Hi Hjin); cbn; by rewrite ?Hv, ?Hvj.
  - apply (find_right_gone _ _ _ _ _ _ Hinv'). intros l (i & HE & Hi & Hv)%Hold.
    apply HE. assert (Sub i SRight = Sub j SRight) as [= ->]; [|done].
    apply (bst_inj _ _ Hr _ _ _ p.2 Hbr); cbn; rewrite ?Hv, ?Hvj; try done;
      by apply Hpair.
Qed.

(** X14: [erase_left(first, last)] for a range of the left side returns
    [last]; the nodes of the range are gone with their pair records, of
    which neither value is found any more; the nodes before and after it
    are the left side afterwards, in their order and with their pairs,
    and [size()] is their number. *)
Theorem erase_left_range_removes w b o pre mid post :
  reach w → objs w !! b = Some o →
  left_nodes w b = Ret (pre ++ mid ++ post) →
  ∃ ps1 ps2 ps3 w',
    collect (pair_at_left w) pre = Ret ps1
    ∧ collect (pair_at_left w) mid = Ret ps2
    ∧ collect (pair_at_left w) post = Ret ps3
    ∧ contents w b = Ret (ps1 ++ ps2 ++ ps3)
    ∧ bimap.erase_left_range w b (Some (hd (Sentinel b SLeft) (mid ++ post)))
        (Some (hd (Sentinel b SLeft) post))
      = Ret (w', Some (hd (Sentinel b SLeft) post))
    ∧ left_nodes w' b = Ret (pre ++ post)
    ∧ contents w' b = Ret (ps1 ++ ps3)
    ∧ bimap.size w' b = Ret (length (ps1 ++ ps3))
    ∧ (∀ a, a ∈ mid → record_of w' a = None)
    ∧ (∀ p, p ∈ ps2 →
         bimap.find_left w' b p.1 = Ret (bimap.end_left b)
         ∧ bimap.find_right w' b p.2 = Ret (bimap.end_right b)).
Proof.
  intros Hw Ho Hns. destruct (reachable_store _ _ _ _ _ Hw Ho) as (tl & tr & Hinv).
  rewrite (left_nodes_spec _ _ _ _ _ Hinv) in Hns. injection Hns as Hns.
  pose proof Hinv as (_ & Hl & _ & (_ & _ & Hb & _) & _).
  pose proof (bst_NoDup _ _ Hl _ Hb) as Hnd. rewrite Hns in Hnd.
  destruct (erase_left_loop_exact b mid pre post (walk_bound (links w)) w o tl tr Hinv Hns)
    as (w' & o' & tl' & tr' & Hloop & Hinv' & _ & Hin' & Hsub' & Hkeep & Hgone).
  { pose proof (store_length_bound _ _ _ _ _ Hinv) as Hlen.
    rewrite Hns, !length_app in Hlen. lia. }
  assert (Hsub : ∀ a, a ∈ pre ++ mid ++ post → ∃ j, a = Sub j SLeft).
  { intros a Ha. rewrite <-Hns in Ha.
    destruct (store_left_elem _ _ _ _ _ _ Hinv Ha) as (j & ? & ? & -> & _). by exists j. }
  assert (Hrec' : records w' tl' = omap (record_of w) (pre ++ post)).
  { unfold records. rewrite Hin'. apply omap_agree. intros a Ha.
    destruct (Hsub a) as [j ->]; [clear -Ha; set_solver|]. cbn. apply Hkeep.
    intros Hm. apply NoDup_app in Hnd as (_ & Hd1 & Hnd2).
    apply NoDup_app in Hnd2 as (_ & Hd2 & _).
    apply elem_of_app in Ha as [Ha|Ha].
    - apply (Hd1 _ Ha). clear -Hm. set_solver.
    - by apply (Hd2 _ Hm). }
  exists (omap (record_of w) pre), (omap (record_of w) mid),
    (omap (record_of w) post), w'.
  split_and!.
  - apply (left_pairs _ _ _ _ _ _ Hinv). intros a Ha. rewrite Hns.
    clear -Ha. set_solver.
  - apply (left_pairs _ _ _ _ _ _ Hinv). intros a Ha. rewrite Hns.
    clear -Ha. set_solver.
  - apply (left_pairs _ _ _ _ _ _ Hinv). intros a Ha. rewrite Hns.
    clear -Ha. set_solver.
  - rewrite (contents_spec _ _ _ _ _ Hinv). unfold records.
    by rewrite Hns, !omap_app.
  - done.
  - by rewrite (left_nodes_spec _ _ _ _ _ Hinv'), Hin'.
  - by rewrite (contents_spec _ _ _ _ _ Hinv'), Hrec', omap_app.
  - rewrite (size_spec _ _ _ _ _ Hinv'), <-omap_app, <-Hrec'.
    f_equal. symmetry. by eapply records_length.
  - intros a Ha. destruct (Hsub a) as [j ->]; [clear -Ha; set_solver|].
    cbn. by apply Hgone.
  - intros p (a & Ha & Hp)%list_elem_of_omap.
    destruct (Hsub a) as [j ->]; [clear -Ha; set_solver|]. cbn in Hp.
    apply (erased_not_found w w' b o o' tl tr tl' tr' (λ i, Sub i SLeft ∈ mid) j p);
      try done.
    + rewrite Hns. clear -Ha. set_solver.
Qed.

(** X15: [erase_right(first, last)] for a range of the right side
    returns [last]; the nodes of the range are gone with their pair
    records, of which neither value is found any more; the nodes before
    and after it are the right side afterwards, in their order and with
    their pairs, and [size()] is their number. *)
Theorem erase_right_range_removes w b o pre mid post :
  reach w → objs w !! b = Some o →
  right_nodes w b = Ret (pre ++ mid ++ post) →
  ∃ ps1 ps2 ps3 w',
    collect (pair_at_right w) pre = Ret ps1
    ∧ collect (pair_at_right w) mid = Ret ps2
    ∧ collect (pair_at_right w) post = Ret ps3
    ∧ contents_right w b = Ret (ps1 ++ ps2 ++ ps3)
    ∧ bimap.erase_right_range w b (Some (hd (Sentinel b SRight) (mid ++ post)))
        (Some (hd (Sentinel b SRight) post))
      = Ret (w', Some (hd (Sentinel b SRight) post))
    ∧ right_nodes w' b = Ret (pre ++ post)
    ∧ contents_right w' b = Ret (ps1 ++ ps3)
    ∧ bimap.size w' b = Ret (length (ps1 ++ ps3))
    ∧ (∀ a, a ∈ mid → record_of w' a = None)
    ∧ (∀ p, p ∈ ps2 →
         bimap.find_left w' b p.1 = Ret (bimap.end_left b)
         ∧ bimap.find_right w' b p.2 = Ret (bimap.end_right b)).
Proof.
  intros Hw Ho Hns. destruct (reachable_store _ _ _ _ _ Hw Ho) as (tl & tr & Hinv).
  rewrite (right_nodes_spec _ _ _ _ _ Hinv) in Hns. injection Hns as Hns.
  pose proof Hinv as (_ & _ & Hr & _ & (_ & _ & Hb & _) & Hpair & _).
  pose proof (bst_NoDup _ _ Hr _ Hb) as Hnd. rewrite Hns in Hnd.
  destruct (erase_right_loop_exact b mid pre post (walk_bound (links w)) w o tl tr Hinv Hns)
    as (w' & o' & tl' & tr' & Hloop & Hinv' & Hev & Hin' & Hsub' & Hkeep & Hgone).
  { pose proof (store_lengths _ _ _ _ _ Hinv) as Hll.
    pose proof (store_length_bound _ _ _ _ _ Hinv) as Hlen.
    rewrite <-Hll, Hns, !length_app in Hlen. lia. }
  assert (Hsub : ∀ a, a ∈ pre ++ mid ++ post → ∃ j, a = Sub j SRight).
  { intros a Ha. rewrite <-Hns in Ha.
    destruct (store_right_elem _ _ _ _ _ _ Hinv Ha) as (j & ? & ? & -> & _). by exists j. }
  assert (Hrec' : records w' tr' = omap (record_of w) (pre ++ post)).
  { unfold records. rewrite Hin'. apply omap_agree. intros a Ha.
    destruct (Hsub a) as [j ->]; [clear -Ha; set_solver|]. cbn. apply Hkeep.
    intros Hm. apply NoDup_app in Hnd as (_ & Hd1 & Hnd2).
    apply NoDup_app in Hnd2 as (_ & Hd2 & _).
    apply elem_of_app in Ha as [Ha|Ha].
    - apply (Hd1 _ Ha). clear -Hm. set_solver.
    - by apply (Hd2 _ Hm). }
  exists (omap (record_of w) pre), (omap (record_of w) mid),
    (omap (record_of w) post), w'.
  split_and!.
  - apply (right_pairs _ _ _ _ _ _ Hinv). intros a Ha. rewrite Hns.
    clear -Ha. set_solver.
  - apply (right_pairs _ _ _ _ _ _ Hinv). intros a Ha. rewrite Hns.
    clear -Ha. set_solver.
  - apply (right_pairs _ _ _ _ _ _ Hinv). intros a Ha. rewrite Hns.
    clear -Ha. set_solver.
  - rewrite (contents_right_spec _ _ _ _ _ Hinv). unfold records.
    by rewrite Hns, !omap_app.
  - done.
  - by rewrite (right_nodes_spec _ _ _ _ _ Hinv'), Hin'.
  - by rewrite (contents_right_spec _ _ _ _ _ Hinv'), Hrec', omap_app.
  - rewrite (size_spec _ _ _ _ _ Hinv'), <-omap_app, <-Hrec'.
    f_equal. rewrite <-(records_length _ _ _ _ _ Hinv').
    apply Permutation_length, NoDup_Permutation.
    + by eapply records_NoDup.
    + by eapply records_right_NoDup.
    + intros q. by apply (records_sides _ _ _ _ _ _ Hinv').
  - intros a Ha. destruct (Hsub a) as [j ->]; [clear -Ha; set_solver|].
    cbn. by apply Hgone.
  - intros p (a & Ha & Hp)%list_elem_of_omap.
    destruct (Hsub a) as [j ->]; [clear -Ha; set_solver|]. cbn in Hp.
    apply (erased_not_found w w' b o o' tl tr tl' tr' (λ i, Sub i SRight ∈ mid) j p);
      try done.
    + apply Hpair. rewrite Hns. clear -Ha. set_solver.
Qed.
End erase_ranges.

(** ** The destructor *)

Section destruction.
Context {L R : Type}.
Variable default_left : L.
Variable default_right : R.
Implicit Types (w : world L R) (o : bimap_obj L R).

Local Notation reach := (reachable default_left default_right).

Lemma destroy_spec w sh b o :
  world_shapes w sh → objs w !! b = Some o →
  ∃ w',
    bimap.destroy w b = Ret w'
    ∧ objs w' = delete b (objs w)
    ∧ world_shapes w' sh
    ∧ links w' !! Sentinel b SLeft = None
    ∧ links w' !! Sentinel b SRight = None
    ∧ (∀ a, a ∈ inorder (sh b).1 → record_of w' a = None)
    ∧ (∀ j, Sub j SLeft ∉ inorder (sh b).1 → values w' !! j = values w !! j)
    ∧ (∀ b' o', b' ≠ b → objs w !! b' = Some o' →
         store_inv w b' o' (sh b').1 (sh b').2
         ∧ store_inv w' b' o' (sh b').1 (sh b').2
         ∧ records w' (sh b').1 = records w (sh b').1
         ∧ records w' (sh b').2 = records w (sh b').2).
Proof.
  intros Hsh Ho. pose proof Hsh as (Hall & Hdisj).
  destruct (Hall b o Ho) as [Hinv Hlt].
  pose proof Hinv as (_ & Hl & _ & Hel & _).
  unfold bimap.destroy, bimap.begin_left.
  rewrite (begin_spec _ _ Hl _ _ _ _ Hel). osimpl.
  destruct (erase_left_loop_exact b (inorder (sh b).1) [] [] (walk_bound (links w))
              w o _ _ Hinv)
    as (w1 & o1 & tl1 & tr1 & Hloop & Hinv1 & Hev & Hin1 & _ & Hkeep & Hgone).
  { by rewrite app_nil_r. }
  { pose proof (store_length_bound _ _ _ _ _ Hinv). lia. }
  rewrite app_nil_r in Hloop. cbn [hd] in Hloop.
  change (bimap.end_left b) with (Some (Sentinel b SLeft)).
  rewrite Hloop. osimpl.
  pose proof Hinv1 as (Ho1 & _). unfold bimap.obj. rewrite Ho1. osimpl.
  pose proof Hev as ([o2 Hobjs] & _ & _ & _ & _ & Hnr & Hno).
  pose proof (world_shapes_evolves _ _ _ _ _ _ _ _ Hsh Ho Hinv1 Hev) as (Hall1 & _).
  assert (Hothers : ∀ b' o', b' ≠ b → objs w !! b' = Some o' →
            store_inv w b' o' (sh b').1 (sh b').2
            ∧ store_inv
                (World (delete (Sentinel b SRight) (delete (Sentinel b SLeft) (links w1)))
                   (values w1) (delete b (objs w1)) (next_record w1) (next_obj w1))
                b' o' (sh b').1 (sh b').2
            ∧ records w1 (sh b').1 = records w (sh b').1
            ∧ records w1 (sh b').2 = records w (sh b').2).
  { intros b' o' Hne Ho'.
    destruct (evolves_others _ _ _ _ _ _ _ _ _ _ Hsh Ho Hinv1 Hev Hne Ho')
      as (Hinvb & Hinvb1 & Hrl & Hrr).
    split_and!; try done.
    apply (store_inv_frame _ _ _ _ _ _ Hinvb1); cbn [objs links values next_record];
      [|intros a Ha|done|done].
    - rewrite lookup_delete_ne by done. by destruct Hinvb1.
    - assert (Ha' : a ≠ Sentinel b SLeft ∧ a ≠ Sentinel b SRight).
      { unfold footprint in Ha. rewrite !elem_of_cons, elem_of_app in Ha.
        destruct Ha as [->|[->|[Ha|Ha]]]; [split; congruence..| |].
        - destruct (store_left_elem _ _ _ _ _ _ Hinvb Ha) as (? & ? & ? & -> & _).
          done.
        - destruct (store_right_elem _ _ _ _ _ _ Hinvb Ha) as (? & ? & ? & -> & _).
          done. }
      destruct Ha'. by rewrite !lookup_delete_ne. }
  eexists. split; [reflexivity|]. cbn [objs links values].
  split_and!.
  - rewrite Hobjs. apply map_eq. intros k. destruct (decide (k = b)) as [->|Hk].
    + by rewrite !lookup_delete_eq.
    + by rewrite !lookup_delete_ne, lookup_insert_ne.
  - split.
    + intros b' o' Hb'. cbn [objs next_obj] in *.
      assert (Hne : b' ≠ b) by (intros ->; by rewrite lookup_delete_eq in Hb').
      rewrite lookup_delete_ne, Hobjs, lookup_insert_ne in Hb' by done.
      destruct (Hothers b' o' Hne Hb') as (_ & Hinvb' & _).
      split; [done|]. destruct (Hall b' o' Hb') as [_ ?]. lia.
    + intros b1 b2 a [x1 H1] [x2 H2]. cbn [objs] in H1, H2.
      assert (b1 ≠ b) by (intros ->; by rewrite lookup_delete_eq in H1).
      assert (b2 ≠ b) by (intros ->; by rewrite lookup_delete_eq in H2).
      rewrite lookup_delete_ne, Hobjs, lookup_insert_ne in H1, H2 by done.
      apply Hdisj; by eexists.
  - rewrite lookup_delete_ne by done. apply lookup_delete_eq.
  - apply lookup_delete_eq.
  - intros a Ha.
    destruct (store_left_elem _ _ _ _ _ _ Hinv Ha) as (j & ? & ? & -> & _).
    cbn. by apply Hgone.
  - intros j Hj. by apply Hkeep.
  - intros b' o' Hne Ho'. destruct (Hothers b' o' Hne Ho') as (? & ? & Hrl & Hrr).
    split_and!; try done.
Qed.

(** X16: the destructor [~bimap()] returns; it deletes the pair record
    of every node of the bimap, and the object with its two sentinels is
    gone.  What is left is a well-formed world in which every other
    bimap is as it was. *)
Theorem destroy_frees w b o ns :
  reach w → objs w !! b = Some o → left_nodes w b = Ret ns →
  ∃ w', bimap.destroy w b = Ret w'
    ∧ objs w' = delete b (objs w)
    ∧ world_inv w'
    ∧ links w' !! Sentinel b SLeft = None
    ∧ links w' !! Sentinel b SRight = None
    ∧ (∀ a, a ∈ ns → record_of w' a = None)
    ∧ (∀ b' o', b' ≠ b → objs w !! b' = Some o' →
         objs w' !! b' = Some o'
         ∧ bimap.size w' b' = bimap.size w b'
         ∧ left_nodes w' b' = left_nodes w b'
         ∧ right_nodes w' b' = right_nodes w b'
         ∧ contents w' b' = contents w b'
         ∧ contents_right w' b' = contents_right w b').
Proof.
  intros [sh Hsh]%reachable_inv Ho Hns.
  pose proof Hsh as (Hall & _). destruct (Hall b o Ho) as [Hinv _].
  rewrite (left_nodes_spec _ _ _ _ _ Hinv) in Hns. injection Hns as <-.
  destruct (destroy_spec w sh b o Hsh Ho)
    as (w' & Hd & Hobjs & Hsh' & HsL & HsR & Hgone & _ & Hothers).
  exists w'. split_and!; try done.
  - by exists sh.
  - intros b' o' Hne Ho'. destruct (Hothers b' o' Hne Ho') as (Hi & Hi' & Hrl & Hrr).
    by eapply same_elsewhere.
Qed.
End destruction.

(** ** Copy assignment *)

Lemma inorder_nil t : inorder t = [] → t = Leaf.
Proof. destruct t as [|l a r]; [done|]. cbn. by destruct (inorder l). Qed.

Section assignment.
Context {L R : Type}.
Variable default_left : L.
Variable default_right : R.
Implicit Types (w : world L R) (o : bimap_obj L R).

Local Notation reach := (reachable default_left default_right).

Lemma copy_construct_shapes w sh other_ oo :
  world_shapes w sh → objs w !! other_ = Some oo →
  ∃ w' sh',
    let b := next_obj w in
    bimap.copy_construct w other_ = Ret (w', b)
    ∧ objs w !! b = None
    ∧ world_shapes w' sh'
    ∧ (∀ b', b' ≠ b → sh' b' = sh b')
    ∧ objs w' = <[b := oo]> (objs w)
    ∧ records w' (sh' b).1 = records w (sh other_).1
    ∧ records w' (sh' b).2 = records w (sh other_).2
    ∧ (∀ a, a ∈ inorder (sh' b).1 → ∃ i, a = Sub i SLeft ∧ next_record w ≤ i)
    ∧ (∀ j, j < next_record w → values w' !! j = values w !! j).
Proof.
  intros Hsh Hoo. pose proof Hsh as (Hall & _).
  destruct (Hall other_ oo Hoo) as [Hinvo Hlt].
  pose proof Hinvo as (_ & Hl & Hr & _).
  unfold bimap.copy_construct, bimap.obj. rewrite Hoo. osimpl.
  destruct (construct_spec w sh (cmp_left oo) (cmp_right oo) Hsh Hl Hr)
    as (w1 & Hc & Hsh1 & Hinv1 & Hobj1 & Hnew & Hval1 & Hnr1 & Hno1 & Hfr1).
  cbn zeta in *. rewrite Hc. osimpl.
  set (b := next_obj w) in *.
  assert (Hne : b ≠ other_) by (unfold b; lia).
  assert (Hoo1 : objs w1 !! other_ = Some oo).
  { by rewrite Hobj1, lookup_insert_ne. }
  pose proof Hsh1 as (Hall1 & _).
  destruct (Hall1 other_ oo Hoo1) as [Hinvo1 _].
  rewrite fn_lookup_insert_ne in Hinvo1 by done.
  pose proof Hinvo1 as (_ & _ & _ & Hel1 & _).
  unfold bimap.begin_left. rewrite (begin_spec _ _ Hl _ _ _ _ Hel1). osimpl.
  assert (Hob1 : objs w1 !! b = Some (BimapObj 0 (cmp_left oo) (cmp_right oo))).
  { by rewrite Hobj1, lookup_insert_eq. }
  destruct (copy_loop_evolves other_ b (sh other_).1 (sh other_).2 oo Hne
              (inorder (sh other_).1) [] (walk_bound (links w1)) w1
              (<[b:=(Leaf, Leaf)]> sh) (BimapObj 0 (cmp_left oo) (cmp_right oo))
              Hsh1 Hoo1)
    as (w' & ob' & tl' & tr' & Hloop & Hinv' & Hev & Hcl & Hcr & Hrec); try done.
  { rewrite fn_lookup_insert_ne by done. by destruct (sh other_). }
  { pose proof (store_length_bound _ _ _ _ _ Hinvo1). lia. }
  { intros p. rewrite fn_lookup_insert. cbn. split; [by intros ?%not_elem_of_nil|].
    by intros (a & ?%not_elem_of_nil & _). }
  rewrite Hloop. osimpl. cbn [bimap.end_left tree.end_] in *.
  pose proof (world_shapes_evolves _ _ _ _ _ _ _ _ Hsh1 Hob1 Hinv' Hev) as Hsh'.
  rewrite fn_lookup_insert in Hev. cbn [fst snd] in Hev, Hcl, Hcr.
  assert (Hrec0 : records w1 (sh other_).1 = records w (sh other_).1)
    by (by apply records_values).
  rewrite Hrec0 in Hrec.
  assert (Hleft : records w' tl' = records w (sh other_).1).
  { apply (sorted_same (cmp_left oo) fst); [done| | |done].
    - destruct (contents_sorted _ _ _ _ _ Hinv') as [Hs _]. by rewrite Hcl in Hs.
    - by destruct (contents_sorted _ _ _ _ _ Hinvo) as [Hs _]. }
  assert (Hright : records w' tr' = records w (sh other_).2).
  { apply (sorted_same (cmp_right oo) snd); [done| | |].
    - destruct (contents_sorted _ _ _ _ _ Hinv') as [_ Hs]. by rewrite Hcr in Hs.
    - by destruct (contents_sorted _ _ _ _ _ Hinvo) as [_ Hs].
    - intros p. rewrite <-(records_sides _ _ _ _ _ p Hinv'), Hrec.
      by apply (records_sides _ _ _ _ _ p Hinvo). }
  pose proof (records_length _ _ _ _ _ Hinv') as Hlen'.
  pose proof (records_length _ _ _ _ _ Hinvo) as Hleno.
  exists w', (<[b:=(tl', tr')]> (<[b:=(Leaf, Leaf)]> sh)).
  rewrite !fn_lookup_insert. cbn [fst snd].
  split_and!; try done.
  - intros b' Hb'. by rewrite !fn_lookup_insert_ne.
  - pose proof Hev as ([o2 Ho2] & _). rewrite Ho2, Hobj1, insert_insert_eq.
    f_equal. destruct Hinv' as (Hob' & _).
    rewrite Ho2, lookup_insert_eq in Hob'. injection Hob' as ->.
    destruct ob' as [s cl cr], oo as [so clo cro].
    cbn in Hcl, Hcr, Hlen', Hleno. rewrite Hcl, Hcr. f_equal.
    by rewrite <-Hlen', Hleft.
  - intros a Ha. destruct Hev as (_ & Hsub & _).
    destruct (Hsub a Ha) as [?%not_elem_of_nil|(i & -> & Hi)]; [done|].
    exists i. split; [done|lia].
  - intros j Hj. destruct Hev as (_ & _ & _ & _ & Hvals & _).
    rewrite Hvals, Hval1; [done|lia|]. by intros ?%not_elem_of_nil.
Qed.

Lemma records_nonempty w t ps :
  records w t = ps → ps ≠ [] → t ≠ Leaf.
Proof. intros <- Hne ->. done. Qed.

Lemma records_old w w' b o tl tr :
  store_inv w b o tl tr →
  (∀ j, j < next_record w → values w' !! j = values w !! j) →
  records w' tl = records w tl ∧ records w' tr = records w tr.
Proof.
  intros Hinv Hv. pose proof Hinv as (_ & _ & _ & _ & _ & Hpair & _ & Hfr).
  split; apply omap_agree; intros a Ha.
  - destruct (store_left_elem _ _ _ _ _ _ Hinv Ha) as (i & ? & ? & -> & _ & Hi).
    cbn. by apply Hv.
  - destruct (store_right_elem _ _ _ _ _ _ Hinv Ha) as (i & ? & ? & -> & _ & Hi).
    cbn. apply Hv, Hfr. by apply Hpair.
Qed.

(** X17: the copy assignment [this = other] of two different bimaps that
    both hold pairs returns; [this] then has the size, the comparators
    and the pairs of [other], in the same order on both sides; the pair
    records [this] had are deleted; [other] and every third bimap are as
    they were, and no temporary object is left.  Assigning a bimap to
    itself changes nothing. *)
Theorem assign_copy_replaces w this other_ ot oo ns pst pso :
  reach w → this ≠ other_ →
  objs w !! this = Some ot → objs w !! other_ = Some oo →
  left_nodes w this = Ret ns →
  contents w this = Ret pst → contents w other_ = Ret pso →
  pst ≠ [] → pso ≠ [] →
  ∃ w', bimap.assign_copy w this other_ = Ret w'
    ∧ bimap.assign_copy w this this = Ret w
    ∧ objs w' = <[this := oo]> (objs w)
    ∧ contents w' this = Ret pso
    ∧ contents_right w' this = contents_right w other_
    ∧ (∀ a, a ∈ ns → record_of w' a = None)
    ∧ world_inv w'
    ∧ (∀ b' o', b' ≠ this → objs w !! b' = Some o' →
         objs w' !! b' = Some o'
         ∧ bimap.size w' b' = bimap.size w b'
         ∧ left_nodes w' b' = left_nodes w b'
         ∧ right_nodes w' b' = right_nodes w b'
         ∧ contents w' b' = contents w b'
         ∧ contents_right w' b' = contents_right w b').
Proof.
  intros [sh Hsh]%reachable_inv Hne Hot Hoo Hns Hpt Hpo Hnt Hno.
  pose proof Hsh as (Hall & _).
  destruct (Hall this ot Hot) as [Hinvt _]. destruct (Hall other_ oo Hoo) as [Hinvo _].
  rewrite (left_nodes_spec _ _ _ _ _ Hinvt) in Hns. injection Hns as <-.
  rewrite (contents_spec _ _ _ _ _ Hinvt) in Hpt. injection Hpt as Hpt.
  rewrite (contents_spec _ _ _ _ _ Hinvo) in Hpo. injection Hpo as Hpo.
  pose proof (records_nonempty _ _ _ Hpt Hnt) as Htl.
  unfold bimap.assign_copy. rewrite decide_False by done. rewrite decide_True by done.
  (* the copy *)
  destruct (copy_construct_shapes w sh other_ oo Hsh Hoo)
    as (w1 & sh1 & Hc & Hnew & Hsh1 & Hsame1 & Hobj1 & Hrl1 & Hrr1 & Hfresh & Hval1).
  cbn zeta in *. set (tmp := next_obj w) in *.
  rewrite Hc. osimpl.
  assert (Htt : this ≠ tmp) by (intros ->; congruence).
  assert (Hto : other_ ≠ tmp) by (intros ->; congruence).
  assert (Hot1 : objs w1 !! this = Some ot) by (by rewrite Hobj1, lookup_insert_ne).
  assert (Htmp1 : objs w1 !! tmp = Some oo) by (by rewrite Hobj1, lookup_insert_eq).
  assert (Htl1 : (sh1 this).1 ≠ Leaf) by (by rewrite Hsame1).
  assert (Htmpl : (sh1 tmp).1 ≠ Leaf).
  { apply (records_nonempty w1 _ pso); [by rewrite Hrl1|done]. }
  (* the swap *)
  destruct (swap_spec w1 sh1 this tmp ot oo Hsh1 Hot1 Htmp1 Htt Htl1 Htmpl)
    as (w2 & Hs & Hsh2 & Hobj2 & Hval2).
  rewrite Hs. osimpl.
  assert (Htmp2 : objs w2 !! tmp = Some ot) by (by rewrite Hobj2, lookup_insert_eq).
  (* the end of [tmp] *)
  destruct (destroy_spec w2 _ tmp ot Hsh2 Htmp2)
    as (w3 & Hd & Hobj3 & Hsh3 & _ & _ & Hgone & _ & Hothers).
  rewrite Hd. exists w3.
  rewrite fn_lookup_insert in Hgone. rewrite (Hsame1 this) in Hgone by done.
  assert (Hobjs : objs w3 = <[this := oo]> (objs w)).
  { rewrite Hobj3, Hobj2, Hobj1. apply map_eq. intros k.
    destruct (decide (k = tmp)) as [->|Hk].
    - by rewrite lookup_delete_eq, lookup_insert_ne.
    - rewrite lookup_delete_ne, lookup_insert_ne by done.
      destruct (decide (k = this)) as [->|Hk'].
      + by rewrite !lookup_insert_eq.
      + by rewrite !lookup_insert_ne. }
  assert (Hthis2 : objs w2 !! this = Some oo).
  { by rewrite Hobj2, lookup_insert_ne, lookup_insert_eq. }
  destruct (Hothers this oo Htt Hthis2) as (Hinv2 & Hinv3 & Hr3l & Hr3r).
  rewrite fn_lookup_insert_ne, fn_lookup_insert in Hinv2, Hinv3, Hr3l, Hr3r by done.
  split_and!; try done.
  - rewrite (contents_spec _ _ _ _ _ Hinv3), Hr3l, (records_values _ _ _ Hval2), Hrl1.
    by rewrite Hpo.
  - rewrite (contents_right_spec _ _ _ _ _ Hinv3), Hr3r, (records_values _ _ _ Hval2),
      Hrr1. by rewrite (contents_right_spec _ _ _ _ _ Hinvo).
  - by eexists.
  - intros b' o' Hb' Ho'.
    assert (Hbt : b' ≠ tmp) by (intros ->; congruence).
    assert (Ho2' : objs w2 !! b' = Some o').
    { by rewrite Hobj2, !lookup_insert_ne, Hobj1, lookup_insert_ne. }
    destruct (Hothers b' o' Hbt Ho2') as (_ & Hinvb3 & Hrl & Hrr).
    rewrite !fn_lookup_insert_ne, Hsame1 in Hinvb3, Hrl, Hrr by done.
    destruct (Hall b' o' Ho') as [Hinvb _].
    destruct (records_old w w1 b' o' _ _ Hinvb Hval1) as [Hol Hor].
    apply (same_elsewhere _ _ _ _ _ _ Hinvb Hinvb3).
    + by rewrite Hrl, (records_values _ _ _ Hval2).
    + by rewrite Hrr, (records_values _ _ _ Hval2).
Qed.

(** X18: the copy assignment and the move assignment of two different
    live bimaps of which one holds no pair are undefined: [swap]
    dereferences the null [left] of the empty bimap's sentinel. *)
Theorem assign_with_empty_undefined w this other_ ot oo pst pso :
  reach w → this ≠ other_ →
  objs w !! this = Some ot → objs w !! other_ = Some oo →
  contents w this = Ret pst → contents w other_ = Ret pso →
  pst = [] ∨ pso = [] →
  bimap.assign_copy w this other_ = Undefined
  ∧ bimap.assign_move w this other_ = Undefined.
Proof.
  intros [sh Hsh]%reachable_inv Hne Hot Hoo Hpt Hpo Hempty.
  pose proof Hsh as (Hall & _).
  destruct (Hall this ot Hot) as [Hinvt _]. destruct (Hall other_ oo Hoo) as [Hinvo _].
  rewrite (contents_spec _ _ _ _ _ Hinvt) in Hpt. injection Hpt as Hpt.
  rewrite (contents_spec _ _ _ _ _ Hinvo) in Hpo. injection Hpo as Hpo.
  assert (Hleaf : ∀ w' b o tl tr, store_inv w' b o tl tr → records w' tl = [] → tl = Leaf).
  { intros w' b o tl tr Hinv Hrec. apply inorder_nil, length_zero_iff_nil.
    pose proof (records_length _ _ _ _ _ Hinv) as Hlen. rewrite Hrec in Hlen.
    destruct Hinv as (_ & _ & _ & _ & _ & _ & Hsz & _). cbn in Hlen. lia. }
  split.
  - unfold bimap.assign_copy. rewrite decide_False by done.
    destruct (copy_construct_shapes w sh other_ oo Hsh Hoo)
      as (w1 & sh1 & Hc & Hnew & Hsh1 & Hsame1 & Hobj1 & Hrl1 & Hrr1 & Hfresh & Hval1).
    cbn zeta in *. set (tmp := next_obj w) in *.
    rewrite Hc. osimpl.
    assert (Htt : this ≠ tmp) by (intros ->; congruence).
    assert (Hot1 : objs w1 !! this = Some ot) by (by rewrite Hobj1, lookup_insert_ne).
    assert (Htmp1 : objs w1 !! tmp = Some oo) by (by rewrite Hobj1, lookup_insert_eq).
    rewrite (swap_empty w1 sh1 this tmp Hsh1); [done|by eexists|by eexists|].
    destruct Hempty as [->| ->].
    + left. rewrite Hsame1 by done. by eapply Hleaf.
    + right. pose proof Hsh1 as (Hall1 & _). destruct (Hall1 tmp oo Htmp1) as [Hinv1 _].
      apply (Hleaf _ _ _ _ _ Hinv1). by rewrite Hrl1.
  - unfold bimap.assign_move. rewrite decide_False by done.
    apply (swap_empty w sh this other_ Hsh); [by eexists|by eexists|].
    destruct Hempty as [->| ->]; [left|right]; by eapply Hleaf.
Qed.
End assignment.

(** ** The move constructor *)

Lemma tree_move_construct_spec h this that s :
  h !! that = Some s →
  (∀ l, left s = Some l → l ≠ this ∧ is_Some (h !! l)) →
  ∃ h', tree.move_construct h this that = Ret h'
    ∧ h' !! this = Some s
    ∧ (∀ l n, left s = Some l → h !! l = Some n →
         h' !! l = Some (set_parent (Some this) n))
    ∧ (∀ x, x ≠ this → left s ≠ Some x → h' !! x = h !! x).
Proof.
  intros Hs Hl. unfold tree.move_construct. rewrite (load_Some _ _ _ Hs). osimpl.
  destruct (left s) as [l|] eqn:Hleft.
  - destruct (Hl l eq_refl) as [Hne [n Hn]].
    rewrite (store_Some _ _ n) by (by rewrite lookup_insert_ne).
    eexists. split; [reflexivity|]. split_and!.
    + by rewrite lookup_insert_ne, lookup_insert_eq.
    + intros l' n' [= <-] Hn'. rewrite Hn in Hn'. injection Hn' as <-.
      by rewrite lookup_insert_eq.
    + intros x Hx Hxl. rewrite !lookup_insert_ne; [done|done|congruence].
  - eexists. split; [reflexivity|]. split_and!.
    + by rewrite lookup_insert_eq.
    + done.
    + intros x Hx _. by rewrite lookup_insert_ne.
Qed.

Section moving.
Context {L R : Type}.
Variable default_left : L.
Variable default_right : R.
Implicit Types (w : world L R) (o : bimap_obj L R).

Local Notation reach := (reachable default_left default_right).

Lemma move_construct_spec w other_ oo tl tr :
  store_inv w other_ oo tl tr → other_ < next_obj w →
  ∃ w',
    let b := next_obj w in
    bimap.move_construct w other_ = Ret (w', b)
    ∧ objs w' = <[b := BimapObj 0 (cmp_left oo) (cmp_right oo)]> (objs w)
    ∧ values w' = values w
    ∧ links w' !! Sentinel other_ SLeft = links w !! Sentinel other_ SLeft
    ∧ links w' !! Sentinel other_ SRight = links w !! Sentinel other_ SRight
    ∧ store_inv (bimap.with_obj w' b oo) b oo tl tr.
Proof.
  intros Hinv Hlt. set (b := next_obj w).
  assert (Hne : b ≠ other_) by (unfold b; lia).
  pose proof Hinv as (Ho & Hl & Hr & Hel & Her & Hpair & Hsz & Hfr).
  pose proof Hel as (HsL & HreprL & _). pose proof Her as (HsR & HreprR & _).
  assert (HrootL : ∀ a, root tl = Some a → a ∈ inorder tl ∧ ∃ i, a = Sub i SLeft).
  { intros a Ha%root_elem. split; [done|].
    destruct (store_left_elem _ _ _ _ _ _ Hinv Ha) as (i & ? & ? & -> & _). by exists i. }
  assert (HrootR : ∀ a, root tr = Some a → a ∈ inorder tr ∧ ∃ i, a = Sub i SRight).
  { intros a Ha%root_elem. split; [done|].
    destruct (store_right_elem _ _ _ _ _ _ Hinv Ha) as (i & ? & ? & -> & _). by exists i. }
  unfold bimap.move_construct. rewrite (obj_Some _ _ _ Ho). osimpl. fold b.
  destruct (tree_move_construct_spec (links w) (Sentinel b SLeft) (Sentinel other_ SLeft)
              _ HsL) as (hl & -> & HlS & HlR & HlF).
  { cbn [left]. intros l [Hin [i ->]]%HrootL. split; [done|].
    exact (repr_live _ _ _ _ HreprL Hin). }
  osimpl.
  assert (HsR1 : hl !! Sentinel other_ SRight
                 = Some (NodeBase None (root tr) (Some (Sentinel other_ SLeft)))).
  { rewrite HlF; [done|done|]. cbn [left]. intros [_ [i ?]]%HrootL. done. }
  destruct (tree_move_construct_spec hl (Sentinel b SRight) (Sentinel other_ SRight)
              _ HsR1) as (hr & -> & HrS & HrR & HrF).
  { cbn [left]. intros l [Hin [i ->]]%HrootR. split; [done|].
    rewrite HlF; [exact (repr_live _ _ _ _ HreprR Hin)|done|].
    cbn [left]. intros [_ [j ?]]%HrootL. done. }
  osimpl. cbn [left] in *.
  assert (HbL : hr !! Sentinel b SLeft
                = Some (NodeBase None (root tl) (Some (Sentinel other_ SRight)))).
  { rewrite HrF; [done|done|]. intros [_ [i ?]]%HrootR. done. }
  unfold bimap.link_trees, tree.set_link_to_other_tree, tree.get_sentinel_ptr.
  cbn [links]. rewrite (store_Some _ _ _ _ HbL). osimpl.
  rewrite (store_Some _ _ (NodeBase None (root tr) (Some (Sentinel other_ SLeft))))
    by (by rewrite lookup_insert_ne).
  osimpl. eexists. split; [reflexivity|].
  unfold bimap.with_links; cbn [objs values links next_record next_obj].
  split_and!; try done.
  - rewrite !lookup_insert_ne by congruence.
    rewrite HrF; [|done|by intros [_ [i ?]]%HrootR].
    apply HlF; [congruence|]. by intros [_ [i ?]]%HrootL.
  - rewrite !lookup_insert_ne by congruence.
    rewrite HrF; [|congruence|by intros [_ [i ?]]%HrootR].
    apply HlF; [done|]. by intros [_ [i ?]]%HrootL.
  - apply (store_inv_move w _ other_ b oo tl tr Hinv);
      unfold bimap.with_obj, bimap.with_links; cbn [objs links values next_record];
      try done.
    + by rewrite lookup_insert_eq.
    + by rewrite lookup_insert_ne, lookup_insert_eq.
    + by rewrite lookup_insert_eq.
    + intros a n Ha Hn. destruct (HrootL a Ha) as [Hin [i ->]].
      rewrite !lookup_insert_ne by done.
      rewrite HrF; [by eapply HlR|done|]. intros [_ [j ?]]%HrootR. done.
    + intros a n Ha Hn. destruct (HrootR a Ha) as [Hin [i ->]].
      rewrite !lookup_insert_ne by done.
      apply HrR; [done|]. rewrite HlF; [done|done|].
      intros [_ [j ?]]%HrootL. done.
    + intros x Hx HxL HxR.
      assert (Hxs : ∃ i s, x = Sub i s).
      { apply elem_of_app in Hx as [Hx|Hx].
        - destruct (store_left_elem _ _ _ _ _ _ Hinv Hx) as (i & ? & ? & -> & _).
          by eexists _, _.
        - destruct (store_right_elem _ _ _ _ _ _ Hinv Hx) as (i & ? & ? & -> & _).
          by eexists _, _. }
      destruct Hxs as (i & s & ->).
      rewrite !lookup_insert_ne by done.
      rewrite HrF; [|done|done]. by apply HlF.
Qed.

(** X19: the move constructor [bimap(std::move(other))] returns a bimap
    that walks over the nodes of [other] and shows its pairs on both
    sides, with the comparators [other] has; its [size()] is [0] and its
    [empty()] is true whatever it holds.  [other] keeps its size, and its
    two sentinels are left as they were, still pointing to the roots. *)
Theorem move_construct_shares_nodes w other_ oo nsl nsr ps psr :
  reach w → objs w !! other_ = Some oo →
  left_nodes w other_ = Ret nsl → right_nodes w other_ = Ret nsr →
  contents w other_ = Ret ps → contents_right w other_ = Ret psr →
  ∃ w',
    let b := next_obj w in
    bimap.move_construct w other_ = Ret (w', b)
    ∧ objs w' = <[b := BimapObj 0 (cmp_left oo) (cmp_right oo)]> (objs w)
    ∧ bimap.size w' b = Ret 0 ∧ bimap.empty w' b = Ret true
    ∧ left_nodes w' b = Ret nsl ∧ right_nodes w' b = Ret nsr
    ∧ contents w' b = Ret ps ∧ contents_right w' b = Ret psr
    ∧ bimap.size w' other_ = Ret (length ps)
    ∧ links w' !! Sentinel other_ SLeft = links w !! Sentinel other_ SLeft
    ∧ links w' !! Sentinel other_ SRight = links w !! Sentinel other_ SRight
    ∧ values w' = values w.
Proof.
  intros [sh Hsh]%reachable_inv Ho Hnl Hnr Hps Hpsr.
  pose proof Hsh as (Hall & _). destruct (Hall other_ oo Ho) as [Hinv Hlt].
  destruct (move_construct_spec w other_ oo _ _ Hinv Hlt)
    as (w' & Hm & Hobjs & Hvals & HsL & HsR & Hinv').
  cbn zeta in *. set (b := next_obj w) in *. exists w'.
  assert (Hne : b ≠ other_) by (unfold b; lia).
  rewrite <-Hnl, <-Hnr, <-Hps, <-Hpsr.
  split_and!; try done.
  - unfold bimap.size, bimap.obj. by rewrite Hobjs, lookup_insert_eq.
  - unfold bimap.empty, bimap.obj. by rewrite Hobjs, lookup_insert_eq.
  - rewrite (left_nodes_spec _ _ _ _ _ Hinv).
    exact (left_nodes_spec _ _ _ _ _ Hinv').
  - rewrite (right_nodes_spec _ _ _ _ _ Hinv).
    exact (right_nodes_spec _ _ _ _ _ Hinv').
  - rewrite (contents_spec _ _ _ _ _ Hinv), <-(records_values w w' _ Hvals).
    exact (contents_spec _ _ _ _ _ Hinv').
  - rewrite (contents_right_spec _ _ _ _ _ Hinv), <-(records_values w w' _ Hvals).
    exact (contents_right_spec _ _ _ _ _ Hinv').
  - unfold bimap.size, bimap.obj. rewrite Hobjs, lookup_insert_ne, Ho by done.
    osimpl. f_equal. rewrite (contents_spec _ _ _ _ _ Hinv) in Hps.
    injection Hps as <-. symmetry. by eapply records_length.
Qed.
End moving.

(** * Further properties of the engine *)

Section engine_more.
Context {T : Type}.
Variable value : addr → option T.
Variable lt : T → T → bool.
Hypothesis Hlt : strict_total lt.

Lemma ins_inorder n v t :
  bst value lt t → (∀ x, ¬ holds value t v x) →
  ∃ pre post, inorder t = pre ++ post
    ∧ inorder (ins value lt n v t) = pre ++ n :: post
    ∧ (∀ a, a ∈ pre → below value lt a v)
    ∧ (∀ a, a ∈ post → above value lt a v).
Proof.
  induction t as [|l IHl a r IHr]; cbn [bst inorder ins].
  - intros _ _. exists [], []. split_and!; try done; by intros ? ?%elem_of_nil.
  - intros ([va Hva] & Hla & Har & Hbl & Hbr) Hno. rewrite Hva.
    rewrite Forall_forall in Hla, Har.
    destruct (lt va v) eqn:H1; [|destruct (lt v va) eqn:H2].
    + destruct (IHr Hbr) as (pre & post & Heq & Hins & Hpre & Hpost).
      { intros x [Hx Hv]. apply (Hno x). split; [set_solver|done]. }
      exists (inorder l ++ a :: pre), post. cbn [inorder]. rewrite Hins, Heq.
      split_and!; [by rewrite <-app_assoc|by rewrite <-app_assoc| |done].
      intros y [Hy|[->|Hy]%elem_of_cons]%elem_of_app.
      * destruct (Hla y Hy) as (vy & va' & Hvy & Hva' & Hc).
        rewrite Hva in Hva'. injection Hva' as <-.
        exists vy. split; [done|]. by eapply (lt_trans _ Hlt).
      * by exists va.
      * by apply Hpre.
    + destruct (IHl Hbl) as (pre & post & Heq & Hins & Hpre & Hpost).
      { intros x [Hx Hv]. apply (Hno x). split; [set_solver|done]. }
      exists pre, (post ++ a :: inorder r). cbn [inorder]. rewrite Hins, Heq.
      split_and!; [by rewrite <-app_assoc|by rewrite <-app_assoc|done|].
      intros y [Hy|[->|Hy]%elem_of_cons]%elem_of_app.
      * by apply Hpost.
      * by exists va.
      * destruct (Har y Hy) as (va' & vy & Hva' & Hvy & Hc).
        rewrite Hva in Hva'. injection Hva' as <-.
        exists vy. split; [done|]. by eapply (lt_trans _ Hlt).
    + exfalso. apply (Hno a). split; [set_solver|].
      by rewrite Hva, (lt_total _ Hlt _ _ H1 H2).
Qed.

(** X22: [intrusive_tree::insert(node)] for a node that is in no engine.
    If a node of the engine has its key, the call returns [end()] and
    writes nothing.  Otherwise it returns the node, which is then found
    by its key, and the walk over the engine visits it between the nodes
    with smaller keys and the nodes with greater keys, which keep their
    order; no memory outside the engine and the node is written. *)
Theorem insert_places_node h this t link n nn v :
  engine_inv value lt h this t link →
  value n = Some v → n ∉ inorder t → link ≠ Some n →
  h !! n = Some nn → left nn = None → right nn = None →
  (∀ x, holds value t v x →
     tree.insert value lt h this (Some n) = Ret (h, tree.end_ this))
  ∧ ((∀ x, ¬ holds value t v x) →
     ∃ h' pre post,
       nodes h this = Ret (pre ++ post)
       ∧ tree.insert value lt h this (Some n) = Ret (h', Some n)
       ∧ nodes h' this = Ret (pre ++ n :: post)
       ∧ (∀ a, a ∈ pre → below value lt a v)
       ∧ (∀ a, a ∈ post → above value lt a v)
       ∧ tree.find value lt h' this v = Ret (Some n)
       ∧ (∀ y, y ∉ inorder t → y ≠ n → y ≠ this → h' !! y = h !! y)).
Proof.
  intros Hinv Hvn Hnin Hlink Hn Hnl Hnr. split.
  - intros x Hx. by eapply insert_key_taken.
  - intros Hno. pose proof Hinv as (_ & _ & Hb & _).
    destruct (insert_spec value lt Hlt h this t link n nn v Hinv Hvn Hno Hnin Hlink Hn Hnl Hnr)
      as (h' & Hins & Hinv' & _ & Hframe).
    destruct (ins_inorder n v t Hb Hno) as (pre & post & Heq & Heq' & Hpre & Hpost).
    exists h', pre, post. split_and!; try done.
    + by rewrite (nodes_spec _ _ Hlt _ _ _ _ Hinv), Heq.
    + by rewrite (nodes_spec _ _ Hlt _ _ _ _ Hinv'), Heq'.
    + apply (find_found _ _ Hlt _ _ _ _ _ _ Hinv'). split; [|done].
      rewrite Heq'. set_solver.
Qed.
End engine_more.

(** ** Move construction and move assignment of an engine *)

Lemma fix_root_spec h s (r : ptr) :
  (∀ a, r = Some a → is_Some (h !! a)) →
  ∃ h', match r with
        | Some l => store h (Some l) (set_parent (Some s))
        | None => Ret h
        end = Ret h'
    ∧ (∀ a n, r = Some a → h !! a = Some n → h' !! a = Some (set_parent (Some s) n))
    ∧ (∀ x, r ≠ Some x → h' !! x = h !! x).
Proof.
  intros Hlive. destruct r as [l|].
  - destruct (Hlive l eq_refl) as [n Hn]. rewrite (store_Some _ _ _ _ Hn).
    eexists. split; [reflexivity|]. split.
    + intros a n' [= <-] Hn'. rewrite Hn in Hn'. injection Hn' as <-.
      by rewrite lookup_insert_eq.
    + intros x Hx. rewrite lookup_insert_ne; [done|congruence].
  - exists h. by split_and!.
Qed.

Section engine_moves.
Context {T : Type}.
Variable value : addr → option T.
Variables lt1 lt2 : T → T → bool.
Hypothesis Hlt1 : strict_total lt1.
Hypothesis Hlt2 : strict_total lt2.

(** X21: the move assignment [this = std::move(other)] of an engine
    returns for any two engines, empty ones too: the two sentinels are
    exchanged with their links to the other side, and each engine then
    holds the nodes the other one had, in the order they had.  No other
    memory than the two sentinels and the two roots is written. *)
Theorem move_assign_exchanges h s1 s2 t1 t2 k1 k2 :
  engine_inv value lt1 h s1 t1 k1 → engine_inv value lt2 h s2 t2 k2 →
  s1 ≠ s2 → (∀ a, a ∈ inorder t1 → a ∉ inorder t2) →
  ∃ h', tree.move_assign h s1 s2 = Ret h'
    ∧ engine_inv value lt2 h' s1 t2 k2
    ∧ engine_inv value lt1 h' s2 t1 k1
    ∧ nodes h' s1 = nodes h s2 ∧ nodes h' s2 = nodes h s1
    ∧ (∀ y, y ≠ s1 → y ≠ s2 → root t1 ≠ Some y → root t2 ≠ Some y →
         h' !! y = h !! y).
Proof.
  intros Hinv1 Hinv2 Hne Hdisj.
  pose proof Hinv1 as (Hs1 & Hr1 & Hb1 & Hv1 & Hk1).
  pose proof Hinv2 as (Hs2 & Hr2 & Hb2 & Hv2 & Hk2).
  assert (Hnode1 : ∀ a, a ∈ inorder t1 → a ≠ s1 ∧ a ≠ s2 ∧ is_Some (h !! a)).
  { intros a Ha. destruct (bst_values _ _ _ _ Hb1 Ha) as [va Hva].
    split_and!; [congruence..|exact (repr_live _ _ _ _ Hr1 Ha)]. }
  assert (Hnode2 : ∀ a, a ∈ inorder t2 → a ≠ s1 ∧ a ≠ s2 ∧ is_Some (h !! a)).
  { intros a Ha. destruct (bst_values _ _ _ _ Hb2 Ha) as [va Hva].
    split_and!; [congruence..|exact (repr_live _ _ _ _ Hr2 Ha)]. }
  unfold tree.move_assign.
  rewrite (load_Some _ _ _ Hs1), (load_Some _ _ _ Hs2). osimpl.
  rewrite (store_Some _ _ _ _ Hs1). osimpl.
  rewrite (store_Some _ _ (NodeBase None (root t2) k2)) by (by rewrite lookup_insert_ne).
  osimpl.
  set (h2 := <[s2 := NodeBase None (root t1) k1]>
               (<[s1 := NodeBase None (root t2) k2]> h)).
  assert (Hh2 : ∀ x, x ≠ s1 → x ≠ s2 → h2 !! x = h !! x).
  { intros x ? ?. unfold h2. by rewrite !lookup_insert_ne. }
  rewrite (load_Some h2 s1 (NodeBase None (root t2) k2))
    by (unfold h2; by rewrite lookup_insert_ne, lookup_insert_eq).
  osimpl.
  destruct (fix_root_spec h2 s1 (root t2)) as (h3 & -> & H3r & H3f).
  { intros a Ha%root_elem. destruct (Hnode2 a Ha) as (? & ? & ?).
    by rewrite Hh2. }
  osimpl.
  assert (Hs2' : h3 !! s2 = Some (NodeBase None (root t1) k1)).
  { rewrite H3f; [unfold h2; by rewrite lookup_insert_eq|].
    intros Ha%root_elem. by destruct (Hnode2 s2 Ha) as (_ & ? & _). }
  rewrite (load_Some _ _ _ Hs2'). osimpl.
  destruct (fix_root_spec h3 s2 (root t1)) as (h4 & -> & H4r & H4f).
  { intros a Ha%root_elem. destruct (Hnode1 a Ha) as (? & ? & ?).
    rewrite H3f, Hh2; [done..|]. intros Ha'%root_elem. by apply (Hdisj a). }
  assert (Hfr : ∀ y, y ≠ s1 → y ≠ s2 → root t1 ≠ Some y → root t2 ≠ Some y →
            h4 !! y = h !! y).
  { intros y ? ? ? ?. by rewrite H4f, H3f, Hh2. }
  assert (Hi1 : engine_inv value lt2 h4 s1 t2 k2).
  { apply (engine_inv_move value lt2 Hlt2 h h4 s2 s1 t2 k2 k2 Hinv2); try done.
    - rewrite H4f, H3f.
      + unfold h2. by rewrite lookup_insert_ne, lookup_insert_eq.
      + intros Ha%root_elem. by destruct (Hnode2 s1 Ha) as (? & _).
      + intros Ha%root_elem. by destruct (Hnode1 s1 Ha) as (? & _).
    - intros a n Ha Hn. pose proof (root_elem _ _ Ha) as Hin.
      destruct (Hnode2 a Hin) as (? & ? & _).
      rewrite H4f.
      + apply H3r; [done|]. by rewrite Hh2.
      + intros Ha'%root_elem. by apply (Hdisj a).
    - intros x Hx Hrx. destruct (Hnode2 x Hx) as (? & ? & _).
      apply Hfr; try done. intros Ha'%root_elem. by apply (Hdisj x). }
  assert (Hi2 : engine_inv value lt1 h4 s2 t1 k1).
  { apply (engine_inv_move value lt1 Hlt1 h h4 s1 s2 t1 k1 k1 Hinv1); try done.
    - rewrite H4f; [done|]. intros Ha%root_elem. by destruct (Hnode1 s2 Ha) as (_ & ? & _).
    - intros a n Ha Hn. pose proof (root_elem _ _ Ha) as Hin.
      destruct (Hnode1 a Hin) as (? & ? & _).
      apply H4r; [done|]. rewrite H3f, Hh2; [done..|].
      intros Ha'%root_elem. by apply (Hdisj a).
    - intros x Hx Hrx. destruct (Hnode1 x Hx) as (? & ? & _).
      apply Hfr; try done. intros Ha'%root_elem. by apply (Hdisj x). }
  exists h4. split_and!; try done.
  - by rewrite (nodes_spec _ _ Hlt2 _ _ _ _ Hi1), (nodes_spec _ _ Hlt2 _ _ _ _ Hinv2).
  - by rewrite (nodes_spec _ _ Hlt1 _ _ _ _ Hi2), (nodes_spec _ _ Hlt1 _ _ _ _ Hinv1).
Qed.
End engine_moves.

Lemma demo1_reachable : reachable 0 0 demo1.
Proof.
  eapply (reach_insert 0 0 demo0 0 5 0 _ (Some (Sub 0 SLeft)));
    [|by vm_compute; eexists|by vm_compute].
  eapply (reach_construct 0 0 empty_world Nat.ltb Nat.ltb _ 0);
    [apply reach_start|apply ltb_strict_total..|by vm_compute].
Defined.

Lemma demo4_reachable : reachable 0 0 demo4.
Proof.
  eapply (reach_insert 0 0 demo3 1 2 9 _ (Some (Sub 2 SLeft)));
    [apply demo3_reachable|by vm_compute; eexists|by vm_compute].
Defined.

Lemma demo5_mutates : mutates 0 0 demo4 0 demo5.
Proof.
  apply (mut_insert 0 0 demo4 0 1 1 demo5 (Some (Sub 3 SLeft))). by vm_compute.
Defined.

Lemma spare_node_engine :
  engine_inv four_keys Nat.ltb spare_node (Sentinel 0 SLeft) three_shape None.
Proof.
  split_and!.
  - by vm_compute.
  - cbn [repr root three_shape]. split_and!; by vm_compute.
  - cbn [bst inorder three_shape app]. split_and!; try done; try (by eexists);
      repeat constructor; eexists _, _; split_and!; reflexivity.
  - done.
  - done.
Defined.

Lemma two_engines_first :
  engine_inv four_keys Nat.ltb two_engines (Sentinel 0 SLeft) three_shape None.
Proof.
  split_and!.
  - by vm_compute.
  - cbn [repr root three_shape]. split_and!; by vm_compute.
  - cbn [bst inorder three_shape app]. split_and!; try done; try (by eexists);
      repeat constructor; eexists _, _; split_and!; reflexivity.
  - done.
  - done.
Defined.

Lemma two_engines_second :
  engine_inv four_keys Nat.ltb two_engines (Sentinel 1 SLeft) four_shape None.
Proof.
  split_and!.
  - by vm_compute.
  - cbn [repr root four_shape]. split_and!; by vm_compute.
  - cbn [bst inorder four_shape]. split_and!; try done; try (by eexists); constructor.
  - done.
  - done.
Defined.

Lemma two_engines_apart a : a ∈ inorder three_shape → a ∉ inorder four_shape.
Proof.
  cbn. rewrite !elem_of_cons. intros [->|[->|[->|?%elem_of_nil]]] [?|?%elem_of_nil];
    done.
Defined.

(** * How the operations compose *)

Section nearest_node.
Context {T : Type}.
Variable value : addr → option T.
Variable lt : T → T → bool.
Hypothesis Hlt : strict_total lt.

(** X23: [find_nearest(v)] returns [end()] exactly when the engine is
    empty.  Otherwise it returns a node next to the place of [v] in the
    order: every node the walk visits before it has a key less than [v],
    and every node the walk visits after it a key greater than [v]. *)
Theorem find_nearest_adjacent h this t link v :
  engine_inv value lt h this t link →
  ∃ res ns,
    tree.find_nearest value lt h this v = Ret (Some res)
    ∧ nodes h this = Ret ns
    ∧ (res = this ↔ ns = [])
    ∧ (res ≠ this →
       ∃ pre post, ns = pre ++ res :: post
         ∧ (∀ y, y ∈ pre → below value lt y v)
         ∧ (∀ y, y ∈ post → above value lt y v)).
Proof.
  intros Hinv. pose proof Hinv as (Hs & Hr & Hb & Hv & Hlk).
  rewrite (find_nearest_spec _ _ Hlt _ _ _ _ v Hinv), (nodes_spec _ _ Hlt _ _ _ _ Hinv).
  destruct (nearest value lt t v) as [x|] eqn:Hn.
  - pose proof (nearest_elem _ _ Hlt _ _ _ Hn) as Hin.
    destruct (bst_values _ _ _ _ Hb Hin) as [vx Hvx].
    assert (Hx : x ≠ this) by (intros ->; congruence).
    exists x, (inorder t). split_and!; [done..| |].
    + split; [done|]. intros Hnil. rewrite Hnil in Hin. by apply elem_of_nil in Hin.
    + intros _. destruct (list_elem_of_split _ _ Hin) as (pre & post & Heq).
      exists pre, post. split; [done|].
      pose proof (bst_sorted _ _ Hlt _ Hb) as Hsort. rewrite Heq in Hsort.
      apply StronglySorted_app in Hsort as (Hpx & _ & Hxp).
      apply StronglySorted_inv in Hxp as [_ Hxp]. rewrite Forall_forall in Hxp.
      split.
      * intros y Hy. apply (nearest_spec _ _ Hlt _ _ _ Hb Hn y).
        -- rewrite Heq. clear -Hy. set_solver.
        -- apply Hpx; [done|by left].
      * intros y Hy. apply (nearest_spec _ _ Hlt _ _ _ Hb Hn y).
        -- rewrite Heq. clear -Hy. set_solver.
        -- by apply Hxp.
  - exists this, (inorder t).
    assert (Ht : t = Leaf).
    { destruct t as [|l a r]; [done|].
      destruct (nearest_Node _ _ l a r v Hb) as [x Hx]. congruence. }
    subst t. by split_and!.
Qed.
End nearest_node.

Section round_trips.
Context {L R : Type}.
Variable default_left : L.
Variable default_right : R.
Implicit Types (w : world L R) (o : bimap_obj L R).

Local Notation reach := (reachable default_left default_right).

(** X24: an [insert] that did not return [end_left()], followed by
    [erase_left] of the iterator it returned, by [erase_left] of the left
    value or by [erase_right] of the right value, gives back the bimap as
    it was: the same pairs in the same order on both sides, the same size
    and comparators. *)
Theorem insert_then_erase_restores w b o l r w1 it ps psr :
  reach w → objs w !! b = Some o →
  contents w b = Ret ps → contents_right w b = Ret psr →
  bimap.insert w b l r = Ret (w1, it) → it ≠ bimap.end_left b →
  ∃ w2 res,
    bimap.erase_left w1 b it = Ret (w2, res)
    ∧ bimap.erase_left_key w1 b l = Ret (w2, true)
    ∧ (∃ w3, bimap.erase_right_key w1 b r = Ret (w3, true)
         ∧ objs w3 !! b = Some o
         ∧ contents w3 b = Ret ps ∧ contents_right w3 b = Ret psr)
    ∧ objs w2 !! b = Some o
    ∧ bimap.size w2 b = bimap.size w b
    ∧ contents w2 b = Ret ps ∧ contents_right w2 b = Ret psr.
Proof.
  intros Hw Ho Hps Hpsr Hins Hit.
  destruct (reachable_store _ _ _ _ _ Hw Ho) as (tl & tr & Hinv).
  rewrite (contents_spec _ _ _ _ _ Hinv) in Hps. injection Hps as <-.
  rewrite (contents_right_spec _ _ _ _ _ Hinv) in Hpsr. injection Hpsr as <-.
  destruct (left_key_dec _ _ _ _ _ l Hinv) as [Hl|Hl].
  { rewrite (insert_dup _ _ _ _ _ l r Hinv) in Hins by (by left).
    by injection Hins as _ <-. }
  destruct (right_key_dec _ _ _ _ _ r Hinv) as [Hr|Hr].
  { rewrite (insert_dup _ _ _ _ _ l r Hinv) in Hins by (by right).
    by injection Hins as _ <-. }
  destruct (insert_fresh_evolves _ _ _ _ _ l r Hinv Hl Hr)
    as (w1' & tl1 & tr1 & Hins' & Hinv1 & _ & Hin1 & Hv1 & Hrec1).
  cbn zeta in *. rewrite Hins' in Hins. injection Hins as <- <-.
  pose proof Hinv as (_ & Hlt & Hrt & _).
  pose proof Hinv1 as (_ & _ & _ & _ & _ & Hpair1 & _).
  assert (Hin1r : Sub (next_record w) SRight ∈ inorder tr1) by (by apply Hpair1).
  assert (Hp1 : (l, r) ∈ records w1' tl1) by (apply Hrec1; by left).
  (* what is left when the new pair is taken out again *)
  assert (Hback : ∀ w2 o2,
            store_inv w2 b o2 (del (Sub (next_record w) SLeft) tl1)
              (del (Sub (next_record w) SRight) tr1) →
            o2 = BimapObj (pred (S (m_size o))) (cmp_left o) (cmp_right o) →
            values w2 = delete (next_record w) (values w1') →
            objs w2 !! b = Some o
            ∧ contents w2 b = Ret (records w tl)
            ∧ contents_right w2 b = Ret (records w tr)).
  { intros w2 o2 Hinv2 -> Hvals2.
    pose proof (records_after_erase _ _ _ _ _ _ _ _ _ Hinv1 Hinv2 Hvals2 Hin1 Hv1) as Hrec2.
    assert (Hsame : ∀ p, p ∈ records w2 (del (Sub (next_record w) SLeft) tl1)
                       ↔ p ∈ records w tl).
    { intros p. rewrite Hrec2, Hrec1. split.
      - by intros [[?|?] ?].
      - intros Hp. split; [by right|]. intros ->. by apply (Hl r). }
    destruct (contents_sorted _ _ _ _ _ Hinv2) as [Hs2l Hs2r].
    destruct (contents_sorted _ _ _ _ _ Hinv) as [Hsl Hsr].
    cbn [cmp_left cmp_right] in Hs2l, Hs2r.
    split_and!.
    - destruct Hinv2 as (-> & _). f_equal. by destruct o.
    - rewrite (contents_spec _ _ _ _ _ Hinv2). f_equal.
      by apply (sorted_same (cmp_left o) fst).
    - rewrite (contents_right_spec _ _ _ _ _ Hinv2). f_equal.
      apply (sorted_same (cmp_right o) snd); [done..|].
      intros p. rewrite <-(records_sides _ _ _ _ _ p Hinv2), Hsame.
      by apply (records_sides _ _ _ _ _ p Hinv). }
  destruct (erase_left_spec _ _ _ _ _ _ Hinv1 Hin1)
    as (w2 & He & Hinv2 & Hvals2 & _).
  destruct (erase_right_spec _ _ _ _ _ _ Hinv1 Hin1r)
    as (w3 & He3 & Hinv3 & Hvals3 & _).
  cbn zeta in *.
  destruct (Hback w2 _ Hinv2 eq_refl Hvals2) as (Ho2 & Hc2 & Hcr2).
  destruct (Hback w3 _ Hinv3 eq_refl Hvals3) as (Ho3 & Hc3 & Hcr3).
  exists w2, (Some (succ_in (inorder tl1) (Sub (next_record w) SLeft) (Sentinel b SLeft))).
  split_and!; try done.
  - unfold bimap.erase_left_key.
    rewrite (find_left_found _ _ _ _ _ l (Sub (next_record w) SLeft) Hinv1).
    + osimpl. by rewrite He.
    + split; [done|]. cbn. by rewrite Hv1.
  - exists w3. split_and!; try done.
    unfold bimap.erase_right_key.
    rewrite (find_right_found _ _ _ _ _ r (Sub (next_record w) SRight) Hinv1).
    + osimpl. by rewrite He3.
    + split; [done|]. cbn. by rewrite Hv1.
  - unfold bimap.size, bimap.obj. by rewrite Ho2, Ho.
Qed.

(** X25: a bimap made by the copy constructor compares equal to its
    source, either way round. *)
Theorem copy_equals_source w other_ oo w' b :
  reach w → objs w !! other_ = Some oo →
  bimap.copy_construct w other_ = Ret (w', b) →
  bimap.equal w' b other_ = Ret true
  ∧ bimap.equal w' other_ b = Ret true
  ∧ bimap.not_equal w' b other_ = Ret false
  ∧ bimap.not_equal w' other_ b = Ret false.
Proof.
  intros [sh Hsh]%reachable_inv Hoo Hc. pose proof Hsh as (Hall & _).
  destruct (Hall other_ oo Hoo) as [Hinvo _].
  destruct (copy_construct_shapes w sh other_ oo Hsh Hoo)
    as (w1 & sh1 & Hc' & Hnew & Hsh1 & Hsame1 & Hobj1 & Hrl1 & Hrr1 & _ & Hval1).
  cbn zeta in *. rewrite Hc' in Hc. injection Hc as <- <-.
  set (b := next_obj w) in *.
  assert (Hne : other_ ≠ b) by (intros ->; congruence).
  pose proof Hsh1 as (Hall1 & _).
  destruct (Hall1 b oo) as [Hinvb _]; [by rewrite Hobj1, lookup_insert_eq|].
  destruct (Hall1 other_ oo) as [Hinvo1 _]; [by rewrite Hobj1, lookup_insert_ne|].
  rewrite (Hsame1 other_) in Hinvo1 by done.
  destruct (records_old w w1 other_ oo _ _ Hinvo Hval1) as [Hol _].
  destruct (equal_spec _ _ _ _ _ _ _ _ _ Hinvb Hinvo1) as (r1 & He1 & Hr1).
  destruct (equal_spec _ _ _ _ _ _ _ _ _ Hinvo1 Hinvb) as (r2 & He2 & Hr2).
  assert (r1 = true) as -> by (apply Hr1; by rewrite Hrl1, Hol).
  assert (r2 = true) as -> by (apply Hr2; by rewrite Hrl1, Hol).
  unfold bimap.not_equal. by rewrite He1, He2.
Qed.
End round_trips.

(** ** The further properties on the examples *)

Ltac example_hyp :=
  first [ exact demo1_reachable | exact demo2_reachable | exact demo3_reachable
        | exact demo4_reachable | exact demo5_mutates | exact ltb_strict_total
        | exact three_nodes_engine | exact spare_node_engine
        | exact two_engines_first | exact two_engines_second
        | exact two_engines_apart
        | by vm_compute | by (vm_compute; eexists) | by right
        | by apply (bool_decide_unpack _); vm_compute ].

Lemma find_positions_demo :
  reachable 0 0 demo2
  ∧ objs demo2 !! 0 = Some demo_obj
  ∧ contents demo2 0 = Ret demo_pairs
  ∧ ((bimap.find_left demo2 0 5 = Ret (bimap.end_left 0) ↔ ∀ r : nat, (5, r) ∉ demo_pairs)
     ∧ (∀ r : nat,
          (5, r) ∈ demo_pairs
          → ∃ (a : addr) (ns : list addr),
              bimap.find_left demo2 0 5 = Ret (Some a)
              ∧ left_nodes demo2 0 = Ret ns ∧ a ∈ ns ∧ pair_at_left demo2 a = Ret (5, r))
       ∧ (bimap.find_right demo2 0 3 = Ret (bimap.end_right 0)
          ↔ ∀ l : nat, (l, 3) ∉ demo_pairs)
         ∧ ∀ l : nat,
             (l, 3) ∈ demo_pairs
             → ∃ (a : addr) (ns : list addr),
                 bimap.find_right demo2 0 3 = Ret (Some a)
                 ∧ right_nodes demo2 0 = Ret ns
                   ∧ a ∈ ns ∧ pair_at_right demo2 a = Ret (l, 3)).
Proof.
  do 3 (split; [example_hyp|]).
  apply (find_positions 0 0 demo2 0 demo_obj 5 3 demo_pairs);
    example_hyp.
Defined.

Lemma insert_then_lookup_demo :
  reachable 0 0 demo1
  ∧ objs demo1 !! 0 = Some demo_obj1
  ∧ bimap.insert demo1 0 7 3 = Ret (demo2, Some (Sub 1 SLeft))
  ∧ Some (Sub 1 SLeft) ≠ bimap.end_left 0
  ∧ (bimap.find_left demo2 0 7 = Ret (Some (Sub 1 SLeft))
     ∧ bimap.deref_left demo2 (Some (Sub 1 SLeft)) = Ret 7
       ∧ (∃ fit : ptr,
            bimap.flip SLeft demo2 (Some (Sub 1 SLeft)) = Ret fit
            ∧ bimap.find_right demo2 0 3 = Ret fit
              ∧ bimap.deref_right demo2 fit = Ret 3)
         ∧ bimap.at_left demo2 0 7 = Ret 3 ∧ bimap.at_right demo2 0 3 = Ret 7).
Proof.
  do 4 (split; [example_hyp|]).
  apply (insert_then_lookup 0 0 demo1 0 demo_obj1 7 3 demo2 (Some (Sub 1 SLeft)));
    example_hyp.
Defined.

Lemma empty_and_begin_demo :
  reachable 0 0 demo2
  ∧ objs demo2 !! 0 = Some demo_obj
  ∧ contents demo2 0 = Ret demo_pairs
  ∧ contents_right demo2 0 = Ret demo_pairs
  ∧ (bimap.empty demo2 0 = Ret (bool_decide (length demo_pairs = 0))
     ∧ tree.empty (links demo2) (Sentinel 0 SLeft) =
       Ret (bool_decide (length demo_pairs = 0))
       ∧ tree.empty (links demo2) (Sentinel 0 SRight) =
         Ret (bool_decide (length demo_pairs = 0))
         ∧ (bimap.begin_left demo2 0 = Ret (bimap.end_left 0) ↔ demo_pairs = [])
           ∧ (bimap.begin_right demo2 0 = Ret (bimap.end_right 0) ↔ demo_pairs = [])
             ∧ (∀ (p : nat * nat) (ps' : list (nat * nat)),
                  demo_pairs = p :: ps'
                  → ∃ a : addr,
                      bimap.begin_left demo2 0 = Ret (Some a)
                      ∧ pair_at_left demo2 a = Ret p)
               ∧ ∀ (p : nat * nat) (ps' : list (nat * nat)),
                   demo_pairs = p :: ps'
                   → ∃ a : addr,
                       bimap.begin_right demo2 0 = Ret (Some a)
                       ∧ pair_at_right demo2 a = Ret p).
Proof.
  do 4 (split; [example_hyp|]).
  apply (empty_and_begin 0 0 demo2 0 demo_obj demo_pairs demo_pairs);
    example_hyp.
Defined.

Lemma erase_key_removes_demo :
  reachable 0 0 demo2
  ∧ objs demo2 !! 0 = Some demo_obj
  ∧ contents demo2 0 = Ret demo_pairs
  ∧ ((∀ r : nat,
        (5, r) ∈ demo_pairs
        → ∃ (w' : world nat nat) (ps' : list (nat * nat)),
            bimap.erase_left_key demo2 0 5 = Ret (w', true)
            ∧ contents w' 0 = Ret ps'
              ∧ (∀ q : nat * nat, q ∈ ps' ↔ q ∈ demo_pairs ∧ q ≠ (5, r))
                ∧ bimap.size w' 0 = Ret (Init.Nat.pred (length demo_pairs))
                  ∧ bimap.find_left w' 0 5 = Ret (bimap.end_left 0)
                    ∧ bimap.find_right w' 0 r = Ret (bimap.end_right 0))
     ∧ (∀ l : nat,
          (l, 3) ∈ demo_pairs
          → ∃ (w' : world nat nat) (ps' : list (nat * nat)),
              bimap.erase_right_key demo2 0 3 = Ret (w', true)
              ∧ contents w' 0 = Ret ps'
                ∧ (∀ q : nat * nat, q ∈ ps' ↔ q ∈ demo_pairs ∧ q ≠ (l, 3))
                  ∧ bimap.size w' 0 = Ret (Init.Nat.pred (length demo_pairs))
                    ∧ bimap.find_left w' 0 l = Ret (bimap.end_left 0)
                      ∧ bimap.find_right w' 0 3 = Ret (bimap.end_right 0))
       ∧ ((∀ l : nat, (l, 3) ∉ demo_pairs)
          → bimap.erase_right_key demo2 0 3 = Ret (demo2, false))).
Proof.
  do 3 (split; [example_hyp|]).
  apply (erase_key_removes 0 0 demo2 0 demo_obj 5 3 demo_pairs);
    example_hyp.
Defined.

Lemma at_right_or_default_evicts_demo :
  reachable 0 0 demo2
  ∧ objs demo2 !! 0 = Some demo_obj
  ∧ contents demo2 0 = Ret demo_pairs
  ∧ ((∀ l : nat,
        (l, 9) ∈ demo_pairs → bimap.at_right_or_default 0 demo2 0 9 = Ret (demo2, l))
     ∧ ((∀ l : nat, (l, 9) ∉ demo_pairs)
        → ∃ (w' : world nat nat) (ps' : list (nat * nat)),
            bimap.at_right_or_default 0 demo2 0 9 = Ret (w', 0)
            ∧ contents w' 0 = Ret ps'
              ∧ (∀ p : nat * nat, p ∈ ps' ↔ p = (0, 9) ∨ p ∈ demo_pairs ∧ p.1 ≠ 0)
                ∧ (∀ r : nat,
                     (0, r) ∈ demo_pairs
                     → bimap.find_right w' 0 r = Ret (bimap.end_right 0))
                  ∧ bimap.at_right w' 0 9 = Ret 0 ∧ bimap.at_left w' 0 0 = Ret 9)).
Proof.
  do 3 (split; [example_hyp|]).
  apply (at_right_or_default_evicts 0 0 demo2 0 demo_obj 9 demo_pairs);
    example_hyp.
Defined.

Lemma erase_left_removes_demo :
  reachable 0 0 demo2
  ∧ objs demo2 !! 0 = Some demo_obj
  ∧ left_nodes demo2 0 = Ret ([] ++ [Sub 0 SLeft; Sub 1 SLeft])
  ∧ (∃ (p : nat * nat) (ps1 ps2 psr' : list (nat * nat)) (w' : world nat nat),
     pair_at_left demo2 (Sub 0 SLeft) = Ret p
     ∧ collect (pair_at_left demo2) [] = Ret ps1
       ∧ collect (pair_at_left demo2) [Sub 1 SLeft] = Ret ps2
         ∧ contents demo2 0 = Ret (ps1 ++ p :: ps2)
           ∧ bimap.erase_left demo2 0 (Some (Sub 0 SLeft)) =
             Ret (w', Some (hd (Sentinel 0 SLeft) [Sub 1 SLeft]))
             ∧ left_nodes w' 0 = Ret ([] ++ [Sub 1 SLeft])
               ∧ contents w' 0 = Ret (ps1 ++ ps2)
                 ∧ contents_right w' 0 = Ret psr'
                   ∧ psr' ≡ₚ ps1 ++ ps2
                     ∧ bimap.size w' 0 = Ret (length (ps1 ++ ps2))
                       ∧ record_of w' (Sub 0 SLeft) = None
                         ∧ bimap.find_left w' 0 p.1 = Ret (bimap.end_left 0)
                           ∧ bimap.find_right w' 0 p.2 = Ret (bimap.end_right 0)).
Proof.
  do 3 (split; [example_hyp|]).
  apply (erase_left_removes 0 0 demo2 0 demo_obj [] (Sub 0 SLeft) [Sub 1 SLeft]);
    example_hyp.
Defined.

Lemma erase_right_removes_demo :
  reachable 0 0 demo2
  ∧ objs demo2 !! 0 = Some demo_obj
  ∧ right_nodes demo2 0 = Ret ([] ++ [Sub 0 SRight; Sub 1 SRight])
  ∧ (∃ (p : nat * nat) (ps1 ps2 psl' : list (nat * nat)) (w' : world nat nat),
     pair_at_right demo2 (Sub 0 SRight) = Ret p
     ∧ collect (pair_at_right demo2) [] = Ret ps1
       ∧ collect (pair_at_right demo2) [Sub 1 SRight] = Ret ps2
         ∧ contents_right demo2 0 = Ret (ps1 ++ p :: ps2)
           ∧ bimap.erase_right demo2 0 (Some (Sub 0 SRight)) =
             Ret (w', Some (hd (Sentinel 0 SRight) [Sub 1 SRight]))
             ∧ right_nodes w' 0 = Ret ([] ++ [Sub 1 SRight])
               ∧ contents_right w' 0 = Ret (ps1 ++ ps2)
                 ∧ contents w' 0 = Ret psl'
                   ∧ psl' ≡ₚ ps1 ++ ps2
                     ∧ bimap.size w' 0 = Ret (length (ps1 ++ ps2))
                       ∧ record_of w' (Sub 0 SRight) = None
                         ∧ bimap.find_left w' 0 p.1 = Ret (bimap.end_left 0)
                           ∧ bimap.find_right w' 0 p.2 = Ret (bimap.end_right 0)).
Proof.
  do 3 (split; [example_hyp|]).
  apply (erase_right_removes 0 0 demo2 0 demo_obj [] (Sub 0 SRight) [Sub 1 SRight]);
    example_hyp.
Defined.

Lemma other_bimaps_untouched_demo :
  reachable 0 0 demo4
  ∧ is_Some (objs demo4 !! 0)
  ∧ mutates 0 0 demo4 0 demo5
  ∧ 1 ≠ 0
  ∧ objs demo4 !! 1 = Some demo_obj1
  ∧ (objs demo5 !! 1 = Some demo_obj1
     ∧ bimap.size demo5 1 = bimap.size demo4 1
       ∧ left_nodes demo5 1 = left_nodes demo4 1
         ∧ right_nodes demo5 1 = right_nodes demo4 1
           ∧ contents demo5 1 = contents demo4 1
             ∧ contents_right demo5 1 = contents_right demo4 1).
Proof.
  do 5 (split; [example_hyp|]).
  apply (other_bimaps_untouched 0 0 demo4 0 demo5 1 demo_obj1);
    example_hyp.
Defined.

Lemma swap_exchanges_demo :
  reachable 0 0 demo4
  ∧ 0 ≠ 1
  ∧ objs demo4 !! 0 = Some demo_obj
  ∧ objs demo4 !! 1 = Some demo_obj1
  ∧ contents demo4 0 = Ret demo_pairs
  ∧ contents demo4 1 = Ret [(2, 9)]
  ∧ demo_pairs ≠ []
  ∧ [(2, 9)] ≠ []
  ∧ (∃ w' : world nat nat,
     bimap.swap demo4 0 1 = Ret w'
     ∧ bimap.assign_move demo4 0 1 = Ret w'
       ∧ objs w' !! 0 = Some demo_obj1
         ∧ objs w' !! 1 = Some demo_obj
           ∧ contents w' 0 = Ret [(2, 9)]
             ∧ contents w' 1 = Ret demo_pairs
               ∧ left_nodes w' 0 = left_nodes demo4 1
                 ∧ left_nodes w' 1 = left_nodes demo4 0
                   ∧ right_nodes w' 0 = right_nodes demo4 1
                     ∧ right_nodes w' 1 = right_nodes demo4 0
                       ∧ contents_right w' 0 = contents_right demo4 1
                         ∧ contents_right w' 1 = contents_right demo4 0
                           ∧ ∀ (b3 : nat) (o3 : bimap_obj nat nat),
                               b3 ≠ 0
                               → b3 ≠ 1
                                 → objs demo4 !! b3 = Some o3
                                   → objs w' !! b3 = Some o3
                                     ∧ left_nodes w' b3 = left_nodes demo4 b3
                                       ∧ right_nodes w' b3 =
                                         right_nodes demo4 b3
                                         ∧ contents w' b3 = contents demo4 b3
                                           ∧ contents_right w' b3 =
                                             contents_right demo4 b3).
Proof.
  do 8 (split; [example_hyp|]).
  apply (swap_exchanges 0 0 demo4 0 1 demo_obj demo_obj1 demo_pairs [(2, 9)]);
    example_hyp.
Defined.

Lemma copy_construct_copies_demo :
  reachable 0 0 demo2
  ∧ objs demo2 !! 0 = Some demo_obj
  ∧ contents demo2 0 = Ret demo_pairs
  ∧ contents_right demo2 0 = Ret demo_pairs
  ∧ (∃ (w' : world nat nat) (ns : list addr),
     let b := next_obj demo2 in
     bimap.copy_construct demo2 0 = Ret (w', b)
     ∧ objs demo2 !! b = None
       ∧ objs w' !! b =
         Some
           {|
             m_size := m_size demo_obj;
             cmp_left := cmp_left demo_obj;
             cmp_right := cmp_right demo_obj
           |}
         ∧ m_size demo_obj = length demo_pairs
           ∧ contents w' b = Ret demo_pairs
             ∧ contents_right w' b = Ret demo_pairs
               ∧ left_nodes w' b = Ret ns
                 ∧ (∀ a : addr,
                      a ∈ ns → ∃ i : nat, a = Sub i SLeft ∧ next_record demo2 ≤ i)
                   ∧ ∀ (b' : nat) (o' : bimap_obj nat nat),
                       objs demo2 !! b' = Some o'
                       → objs w' !! b' = Some o'
                         ∧ bimap.size w' b' = bimap.size demo2 b'
                           ∧ left_nodes w' b' = left_nodes demo2 b'
                             ∧ right_nodes w' b' = right_nodes demo2 b'
                               ∧ contents w' b' = contents demo2 b'
                                 ∧ contents_right w' b' = contents_right demo2 b').
Proof.
  do 4 (split; [example_hyp|]).
  apply (copy_construct_copies 0 0 demo2 0 demo_obj demo_pairs demo_pairs);
    example_hyp.
Defined.

Lemma equal_compares_contents_demo :
  reachable 0 0 demo4
  ∧ objs demo4 !! 0 = Some demo_obj
  ∧ objs demo4 !! 1 = Some demo_obj1
  ∧ contents demo4 0 = Ret demo_pairs
  ∧ contents demo4 1 = Ret [(2, 9)]
  ∧ (∃ res : bool,
     bimap.equal demo4 0 1 = Ret res
     ∧ bimap.not_equal demo4 0 1 = Ret (negb res)
       ∧ (res = true ↔ demo_pairs = [(2, 9)])).
Proof.
  do 5 (split; [example_hyp|]).
  apply (equal_compares_contents 0 0 demo4 0 1 demo_obj demo_obj1 demo_pairs [(2,
           9)]);
    example_hyp.
Defined.

Lemma iterators_step_demo :
  reachable 0 0 demo2
  ∧ objs demo2 !! 0 = Some demo_obj
  ∧ left_nodes demo2 0 = Ret [Sub 0 SLeft; Sub 1 SLeft]
  ∧ right_nodes demo2 0 = Ret [Sub 0 SRight; Sub 1 SRight]
  ∧ (bimap.begin_left demo2 0 =
     Ret (Some (hd (Sentinel 0 SLeft) [Sub 0 SLeft; Sub 1 SLeft]))
     ∧ bimap.begin_right demo2 0 =
       Ret (Some (hd (Sentinel 0 SRight) [Sub 0 SRight; Sub 1 SRight]))
       ∧ bimap.decr demo2 (bimap.end_left 0) = Ret (last [Sub 0 SLeft; Sub 1 SLeft])
         ∧ bimap.decr demo2 (bimap.end_right 0) =
           Ret (last [Sub 0 SRight; Sub 1 SRight])
           ∧ (∀ (pre : list addr) (x : addr) (post : list addr),
                [Sub 0 SLeft; Sub 1 SLeft] = pre ++ x :: post
                → bimap.incr demo2 (Some x) = Ret (Some (hd (Sentinel 0 SLeft) post))
                  ∧ bimap.decr demo2 (Some x) = Ret (last pre))
             ∧ ∀ (pre : list addr) (x : addr) (post : list addr),
                 [Sub 0 SRight; Sub 1 SRight] = pre ++ x :: post
                 → bimap.incr demo2 (Some x) = Ret (Some (hd (Sentinel 0 SRight) post))
                   ∧ bimap.decr demo2 (Some x) = Ret (last pre)).
Proof.
  do 4 (split; [example_hyp|]).
  apply (iterators_step 0 0 demo2 0 demo_obj [Sub 0 SLeft; Sub 1 SLeft] [Sub 0
           SRight; Sub 1 SRight]);
    example_hyp.
Defined.

Lemma bounds_enclose_key_demo :
  reachable 0 0 demo2
  ∧ objs demo2 !! 0 = Some demo_obj
  ∧ ((∃ pre mid post : list addr,
        left_nodes demo2 0 = Ret (pre ++ mid ++ post)
        ∧ length mid ≤ 1
          ∧ bimap.lower_bound_left demo2 0 6 =
            Ret (Some (hd (Sentinel 0 SLeft) (mid ++ post)))
            ∧ bimap.upper_bound_left demo2 0 6 = Ret (Some (hd (Sentinel 0 SLeft) post))
              ∧ bimap.find_left demo2 0 6 = Ret (Some (hd (Sentinel 0 SLeft) mid))
                ∧ (∀ a : addr,
                     a ∈ pre
                     → ∃ v : nat,
                         bimap.deref_left demo2 (Some a) = Ret v
                         ∧ cmp_left demo_obj v 6 = true)
                  ∧ (∀ a : addr, a ∈ mid → bimap.deref_left demo2 (Some a) = Ret 6)
                    ∧ ∀ a : addr,
                        a ∈ post
                        → ∃ v : nat,
                            bimap.deref_left demo2 (Some a) = Ret v
                            ∧ cmp_left demo_obj 6 v = true)
     ∧ ∃ pre mid post : list addr,
         right_nodes demo2 0 = Ret (pre ++ mid ++ post)
         ∧ length mid ≤ 1
           ∧ bimap.lower_bound_right demo2 0 1 =
             Ret (Some (hd (Sentinel 0 SRight) (mid ++ post)))
             ∧ bimap.upper_bound_right demo2 0 1 = Ret (Some (hd (Sentinel 0 SRight) post))
               ∧ bimap.find_right demo2 0 1 = Ret (Some (hd (Sentinel 0 SRight) mid))
                 ∧ (∀ a : addr,
                      a ∈ pre
                      → ∃ v : nat,
                          bimap.deref_right demo2 (Some a) = Ret v
                          ∧ cmp_right demo_obj v 1 = true)
                   ∧ (∀ a : addr, a ∈ mid → bimap.deref_right demo2 (Some a) = Ret 1)
                     ∧ ∀ a : addr,
                         a ∈ post
                         → ∃ v : nat,
                             bimap.deref_right demo2 (Some a) = Ret v
                             ∧ cmp_right demo_obj 1 v = true).
Proof.
  do 2 (split; [example_hyp|]).
  apply (bounds_enclose_key 0 0 demo2 0 demo_obj 6 1);
    example_hyp.
Defined.

Lemma erase_left_range_removes_demo :
  reachable 0 0 demo2
  ∧ objs demo2 !! 0 = Some demo_obj
  ∧ left_nodes demo2 0 = Ret ([] ++ [Sub 0 SLeft] ++ [Sub 1 SLeft])
  ∧ (∃ (ps1 ps2 ps3 : list (nat * nat)) (w' : world nat nat),
     collect (pair_at_left demo2) [] = Ret ps1
     ∧ collect (pair_at_left demo2) [Sub 0 SLeft] = Ret ps2
       ∧ collect (pair_at_left demo2) [Sub 1 SLeft] = Ret ps3
         ∧ contents demo2 0 = Ret (ps1 ++ ps2 ++ ps3)
           ∧ bimap.erase_left_range demo2 0
               (Some (hd (Sentinel 0 SLeft) ([Sub 0 SLeft] ++ [Sub 1 SLeft])))
               (Some (hd (Sentinel 0 SLeft) [Sub 1 SLeft])) =
             Ret (w', Some (hd (Sentinel 0 SLeft) [Sub 1 SLeft]))
             ∧ left_nodes w' 0 = Ret ([] ++ [Sub 1 SLeft])
               ∧ contents w' 0 = Ret (ps1 ++ ps3)
                 ∧ bimap.size w' 0 = Ret (length (ps1 ++ ps3))
                   ∧ (∀ a : addr, a ∈ [Sub 0 SLeft] → record_of w' a = None)
                     ∧ ∀ p : nat * nat,
                         p ∈ ps2
                         → bimap.find_left w' 0 p.1 = Ret (bimap.end_left 0)
                           ∧ bimap.find_right w' 0 p.2 = Ret (bimap.end_right 0)).
Proof.
  do 3 (split; [example_hyp|]).
  apply (erase_left_range_removes 0 0 demo2 0 demo_obj [] [Sub 0 SLeft] [Sub 1
           SLeft]);
    example_hyp.
Defined.

Lemma erase_right_range_removes_demo :
  reachable 0 0 demo2
  ∧ objs demo2 !! 0 = Some demo_obj
  ∧ right_nodes demo2 0 = Ret ([] ++ [Sub 0 SRight] ++ [Sub 1 SRight])
  ∧ (∃ (ps1 ps2 ps3 : list (nat * nat)) (w' : world nat nat),
     collect (pair_at_right demo2) [] = Ret ps1
     ∧ collect (pair_at_right demo2) [Sub 0 SRight] = Ret ps2
       ∧ collect (pair_at_right demo2) [Sub 1 SRight] = Ret ps3
         ∧ contents_right demo2 0 = Ret (ps1 ++ ps2 ++ ps3)
           ∧ bimap.erase_right_range demo2 0
               (Some (hd (Sentinel 0 SRight) ([Sub 0 SRight] ++ [Sub 1 SRight])))
               (Some (hd (Sentinel 0 SRight) [Sub 1 SRight])) =
             Ret (w', Some (hd (Sentinel 0 SRight) [Sub 1 SRight]))
             ∧ right_nodes w' 0 = Ret ([] ++ [Sub 1 SRight])
               ∧ contents_right w' 0 = Ret (ps1 ++ ps3)
                 ∧ bimap.size w' 0 = Ret (length (ps1 ++ ps3))
                   ∧ (∀ a : addr, a ∈ [Sub 0 SRight] → record_of w' a = None)
                     ∧ ∀ p : nat * nat,
                         p ∈ ps2
                         → bimap.find_left w' 0 p.1 = Ret (bimap.end_left 0)
                           ∧ bimap.find_right w' 0 p.2 = Ret (bimap.end_right 0)).
Proof.
  do 3 (split; [example_hyp|]).
  apply (erase_right_range_removes 0 0 demo2 0 demo_obj [] [Sub 0 SRight] [Sub 1
           SRight]);
    example_hyp.
Defined.

Lemma destroy_frees_demo :
  reachable 0 0 demo2
  ∧ objs demo2 !! 0 = Some demo_obj
  ∧ left_nodes demo2 0 = Ret [Sub 0 SLeft; Sub 1 SLeft]
  ∧ (∃ w' : world nat nat,
     bimap.destroy demo2 0 = Ret w'
     ∧ objs w' = delete 0 (objs demo2)
       ∧ world_inv w'
         ∧ links w' !! Sentinel 0 SLeft = None
           ∧ links w' !! Sentinel 0 SRight = None
             ∧ (∀ a : addr, a ∈ [Sub 0 SLeft; Sub 1 SLeft] → record_of w' a = None)
               ∧ ∀ (b' : nat) (o' : bimap_obj nat nat),
                   b' ≠ 0
                   → objs demo2 !! b' = Some o'
                     → objs w' !! b' = Some o'
                       ∧ bimap.size w' b' = bimap.size demo2 b'
                         ∧ left_nodes w' b' = left_nodes demo2 b'
                           ∧ right_nodes w' b' = right_nodes demo2 b'
                             ∧ contents w' b' = contents demo2 b'
                               ∧ contents_right w' b' = contents_right demo2 b').
Proof.
  do 3 (split; [example_hyp|]).
  apply (destroy_frees 0 0 demo2 0 demo_obj [Sub 0 SLeft; Sub 1 SLeft]);
    example_hyp.
Defined.

Lemma assign_copy_replaces_demo :
  reachable 0 0 demo4
  ∧ 1 ≠ 0
  ∧ objs demo4 !! 1 = Some demo_obj1
  ∧ objs demo4 !! 0 = Some demo_obj
  ∧ left_nodes demo4 1 = Ret [Sub 2 SLeft]
  ∧ contents demo4 1 = Ret [(2, 9)]
  ∧ contents demo4 0 = Ret demo_pairs
  ∧ [(2, 9)] ≠ []
  ∧ demo_pairs ≠ []
  ∧ (∃ w' : world nat nat,
     bimap.assign_copy demo4 1 0 = Ret w'
     ∧ bimap.assign_copy demo4 1 1 = Ret demo4
       ∧ objs w' = <[1:=demo_obj]> (objs demo4)
         ∧ contents w' 1 = Ret demo_pairs
           ∧ contents_right w' 1 = contents_right demo4 0
             ∧ (∀ a : addr, a ∈ [Sub 2 SLeft] → record_of w' a = None)
               ∧ world_inv w'
                 ∧ ∀ (b' : nat) (o' : bimap_obj nat nat),
                     b' ≠ 1
                     → objs demo4 !! b' = Some o'
                       → objs w' !! b' = Some o'
                         ∧ bimap.size w' b' = bimap.size demo4 b'
                           ∧ left_nodes w' b' = left_nodes demo4 b'
                             ∧ right_nodes w' b' = right_nodes demo4 b'
                               ∧ contents w' b' = contents demo4 b'
                                 ∧ contents_right w' b' =
                                   contents_right demo4 b').
Proof.
  do 9 (split; [example_hyp|]).
  apply (assign_copy_replaces 0 0 demo4 1 0 demo_obj1 demo_obj [Sub 2 SLeft] [(2,
           9)] demo_pairs);
    example_hyp.
Defined.

Lemma assign_with_empty_undefined_demo :
  reachable 0 0 demo3
  ∧ 0 ≠ 1
  ∧ objs demo3 !! 0 = Some demo_obj
  ∧ objs demo3 !! 1 = Some demo_obj0
  ∧ contents demo3 0 = Ret demo_pairs
  ∧ contents demo3 1 = Ret no_pairs
  ∧ (demo_pairs = [] ∨ no_pairs = [])
  ∧ (bimap.assign_copy demo3 0 1 = Undefined
     ∧ bimap.assign_move demo3 0 1 = Undefined).
Proof.
  do 7 (split; [example_hyp|]).
  apply (assign_with_empty_undefined 0 0 demo3 0 1 demo_obj demo_obj0 demo_pairs
           no_pairs);
    example_hyp.
Defined.

Lemma move_construct_shares_nodes_demo :
  reachable 0 0 demo2
  ∧ objs demo2 !! 0 = Some demo_obj
  ∧ left_nodes demo2 0 = Ret [Sub 0 SLeft; Sub 1 SLeft]
  ∧ right_nodes demo2 0 = Ret [Sub 0 SRight; Sub 1 SRight]
  ∧ contents demo2 0 = Ret demo_pairs
  ∧ contents_right demo2 0 = Ret demo_pairs
  ∧ (∃ w' : world nat nat,
     let b := next_obj demo2 in
     bimap.move_construct demo2 0 = Ret (w', b)
     ∧ objs w' =
       <[b:={|
              m_size := 0;
              cmp_left := cmp_left demo_obj;
              cmp_right := cmp_right demo_obj
            |}]>
         (objs demo2)
       ∧ bimap.size w' b = Ret 0
         ∧ bimap.empty w' b = Ret true
           ∧ left_nodes w' b = Ret [Sub 0 SLeft; Sub 1 SLeft]
             ∧ right_nodes w' b = Ret [Sub 0 SRight; Sub 1 SRight]
               ∧ contents w' b = Ret demo_pairs
                 ∧ contents_right w' b = Ret demo_pairs
                   ∧ bimap.size w' 0 = Ret (length demo_pairs)
                     ∧ links w' !! Sentinel 0 SLeft =
                       links demo2 !! Sentinel 0 SLeft
                       ∧ links w' !! Sentinel 0 SRight =
                         links demo2 !! Sentinel 0 SRight
                         ∧ values w' = values demo2).
Proof.
  do 6 (split; [example_hyp|]).
  apply (move_construct_shares_nodes 0 0 demo2 0 demo_obj [Sub 0 SLeft; Sub 1 SLeft]
           [Sub 0 SRight; Sub 1 SRight] demo_pairs demo_pairs);
    example_hyp.
Defined.

Lemma move_assign_exchanges_demo :
  strict_total Nat.ltb
  ∧ engine_inv four_keys Nat.ltb two_engines (Sentinel 0 SLeft) three_shape None
  ∧ engine_inv four_keys Nat.ltb two_engines (Sentinel 1 SLeft) four_shape None
  ∧ Sentinel 0 SLeft ≠ Sentinel 1 SLeft
  ∧ (∀ a : addr, a ∈ inorder three_shape → a ∉ inorder four_shape)
  ∧ (∃ h' : heap,
     tree.move_assign two_engines (Sentinel 0 SLeft) (Sentinel 1 SLeft) = Ret h'
     ∧ engine_inv four_keys Nat.ltb h' (Sentinel 0 SLeft) four_shape None
       ∧ engine_inv four_keys Nat.ltb h' (Sentinel 1 SLeft) three_shape None
         ∧ nodes h' (Sentinel 0 SLeft) = nodes two_engines (Sentinel 1 SLeft)
           ∧ nodes h' (Sentinel 1 SLeft) = nodes two_engines (Sentinel 0 SLeft)
             ∧ ∀ y : addr,
                 y ≠ Sentinel 0 SLeft
                 → y ≠ Sentinel 1 SLeft
                   → root three_shape ≠ Some y
                     → root four_shape ≠ Some y → h' !! y = two_engines !! y).
Proof.
  do 5 (split; [example_hyp|]).
  apply (move_assign_exchanges four_keys Nat.ltb Nat.ltb ltb_strict_total
           ltb_strict_total two_engines (Sentinel 0 SLeft) (Sentinel 1 SLeft)
           three_shape four_shape None None);
    example_hyp.
Defined.

Lemma insert_places_node_demo :
  strict_total Nat.ltb
  ∧ engine_inv four_keys Nat.ltb spare_node (Sentinel 0 SLeft) three_shape None
  ∧ four_keys (Sub 3 SLeft) = Some 4
  ∧ (Sub 3 SLeft ∉ inorder three_shape)
  ∧ None ≠ Some (Sub 3 SLeft)
  ∧ spare_node !! Sub 3 SLeft = Some fresh_node
  ∧ left fresh_node = None
  ∧ right fresh_node = None
  ∧ ((∀ x : addr,
        holds four_keys three_shape 4 x
        → tree.insert four_keys Nat.ltb spare_node 
            (Sentinel 0 SLeft) (Some (Sub 3 SLeft)) =
          Ret (spare_node, tree.end_ (Sentinel 0 SLeft)))
     ∧ ((∀ x : addr, ¬ holds four_keys three_shape 4 x)
        → ∃ (h' : heap) (pre post : list addr),
            nodes spare_node (Sentinel 0 SLeft) = Ret (pre ++ post)
            ∧ tree.insert four_keys Nat.ltb spare_node 
                (Sentinel 0 SLeft) (Some (Sub 3 SLeft)) =
              Ret (h', Some (Sub 3 SLeft))
              ∧ nodes h' (Sentinel 0 SLeft) = Ret (pre ++ Sub 3 SLeft :: post)
                ∧ (∀ a : addr, a ∈ pre → below four_keys Nat.ltb a 4)
                  ∧ (∀ a : addr, a ∈ post → above four_keys Nat.ltb a 4)
                    ∧ tree.find four_keys Nat.ltb h' (Sentinel 0 SLeft) 4 =
                      Ret (Some (Sub 3 SLeft))
                      ∧ ∀ y : addr,
                          y ∉ inorder three_shape
                          → y ≠ Sub 3 SLeft
                            → y ≠ Sentinel 0 SLeft → h' !! y = spare_node !! y)).
Proof.
  do 8 (split; [example_hyp|]).
  apply (insert_places_node four_keys Nat.ltb ltb_strict_total spare_node (Sentinel
           0 SLeft) three_shape None (Sub 3 SLeft) fresh_node 4);
    example_hyp.
Defined.

Lemma find_nearest_adjacent_demo :
  strict_total Nat.ltb
  ∧ engine_inv three_keys Nat.ltb three_nodes (Sentinel 0 SLeft) three_shape None
  ∧ (∃ (res : addr) (ns : list addr),
     tree.find_nearest three_keys Nat.ltb three_nodes (Sentinel 0 SLeft) 4 =
     Ret (Some res)
     ∧ nodes three_nodes (Sentinel 0 SLeft) = Ret ns
       ∧ (res = Sentinel 0 SLeft ↔ ns = [])
         ∧ (res ≠ Sentinel 0 SLeft
            → ∃ pre post : list addr,
                ns = pre ++ res :: post
                ∧ (∀ y : addr, y ∈ pre → below three_keys Nat.ltb y 4)
                  ∧ ∀ y : addr, y ∈ post → above three_keys Nat.ltb y 4)).
Proof.
  do 2 (split; [example_hyp|]).
  apply (find_nearest_adjacent three_keys Nat.ltb ltb_strict_total three_nodes
           (Sentinel 0 SLeft) three_shape None 4);
    example_hyp.
Defined.

Lemma insert_then_erase_restores_demo :
  reachable 0 0 demo1
  ∧ objs demo1 !! 0 = Some demo_obj1
  ∧ contents demo1 0 = Ret [(5, 0)]
  ∧ contents_right demo1 0 = Ret [(5, 0)]
  ∧ bimap.insert demo1 0 7 3 = Ret (demo2, Some (Sub 1 SLeft))
  ∧ Some (Sub 1 SLeft) ≠ bimap.end_left 0
  ∧ (∃ (w2 : world nat nat) (res : ptr),
     bimap.erase_left demo2 0 (Some (Sub 1 SLeft)) = Ret (w2, res)
     ∧ bimap.erase_left_key demo2 0 7 = Ret (w2, true)
       ∧ (∃ w3 : world nat nat,
            bimap.erase_right_key demo2 0 3 = Ret (w3, true)
            ∧ objs w3 !! 0 = Some demo_obj1
              ∧ contents w3 0 = Ret [(5, 0)] ∧ contents_right w3 0 = Ret [(5, 0)])
         ∧ objs w2 !! 0 = Some demo_obj1
           ∧ bimap.size w2 0 = bimap.size demo1 0
             ∧ contents w2 0 = Ret [(5, 0)] ∧ contents_right w2 0 = Ret [(5, 0)]).
Proof.
  do 6 (split; [example_hyp|]).
  apply (insert_then_erase_restores 0 0 demo1 0 demo_obj1 7 3 demo2 (Some (Sub 1
           SLeft)) [(5, 0)] [(5, 0)]);
    example_hyp.
Defined.

Lemma copy_equals_source_demo :
  reachable 0 0 demo2
  ∧ objs demo2 !! 0 = Some demo_obj
  ∧ bimap.copy_construct demo2 0 = Ret (demo6, 1)
  ∧ (bimap.equal demo6 1 0 = Ret true
     ∧ bimap.equal demo6 0 1 = Ret true
       ∧ bimap.not_equal demo6 1 0 = Ret false ∧ bimap.not_equal demo6 0 1 = Ret false).
Proof.
  do 3 (split; [example_hyp|]).
  apply (copy_equals_source 0 0 demo2 0 demo_obj demo6 1);
    example_hyp.
Defined.

(** * The bimap a move constructor leaves behind *)

Section moved_from.
Context {L R : Type}.
Variable default_left : L.
Variable default_right : R.
Implicit Types (w : world L R) (o : bimap_obj L R).

Local Notation reach := (reachable default_left default_right).

(** [bimap b(std::move(a))] for an [a] that holds pairs: the root of each
    side still hangs under [a]'s sentinel, while its [parent] is [b]'s
    sentinel.  No shape describes an engine of [a] any more, and the
    world is not well formed. *)
Lemma move_construct_breaks_inv w other_ oo ps :
  reach w → objs w !! other_ = Some oo →
  contents w other_ = Ret ps → ps ≠ [] →
  ∃ w',
    bimap.move_construct w other_ = Ret (w', next_obj w)
    ∧ objs w' !! other_ = Some oo
    ∧ (∀ t link, ¬ engine_inv (bimap.value_left w') (cmp_left oo) (links w')
                     (Sentinel other_ SLeft) t link)
    ∧ ¬ world_inv w'.
Proof.
  intros [sh Hsh]%reachable_inv Ho Hps Hne.
  pose proof Hsh as (Hall & _). destruct (Hall other_ oo Ho) as [Hinv Hlt].
  destruct (move_construct_spec w other_ oo _ _ Hinv Hlt)
    as (w' & Hm & Hobjs & Hvals & HsL & HsR & Hinv').
  cbn zeta in *. set (b := next_obj w) in *.
  assert (Hb : b ≠ other_) by (unfold b; lia).
  assert (Ho' : objs w' !! other_ = Some oo) by by rewrite Hobjs, lookup_insert_ne.
  pose proof (contents_nonempty _ _ _ _ _ _ Hinv Hps Hne) as Htl.
  destruct (sh other_).1 as [|l a r] eqn:Hshape; [done|].
  pose proof Hinv as (_ & _ & _ & (Hs & _) & _).
  pose proof Hinv' as (_ & _ & _ & (_ & (Ha & _) & _) & _).
  cbn [bimap.with_obj links root] in Ha, Hs.
  assert (Hno : ∀ t link, ¬ engine_inv (bimap.value_left w') (cmp_left oo) (links w')
                            (Sentinel other_ SLeft) t link).
  { intros t link (Hs' & Hrepr & _). rewrite HsL, Hs in Hs'.
    destruct t as [|l' a' r']; [done|]. cbn [root] in Hs'.
    injection Hs' as <- _. destruct Hrepr as (Ha' & _).
    rewrite Ha in Ha'. congruence. }
  exists w'. split_and!; try done.
  intros (sh' & Hall' & _). destruct (Hall' other_ oo Ho') as [(_ & _ & _ & Hel & _) _].
  by eapply Hno.
Qed.
End moved_from.

(** C6, where the code breaks it.  [bimap<nat, nat> a; a.insert(5, 0);
    a.insert(7, 3); bimap<nat, nat> b(std::move(a));] leaves [a] and [b]
    on the same nodes, which [b] shows in order.  The walk from
    [a.begin_left()] never arrives at [a.end_left()], and the same on the
    right side; the world is not well formed.  After [b.erase_left(5)] the
    left sentinel of [a] points to a deleted node, so that walking [a] or
    looking up a key in it is undefined; and destroying [b] and then [a],
    as the end of their scope does, is undefined. *)
Theorem move_construct_breaks_order :
  reachable 0 0 demo2
  ∧ contents demo2 0 = Ret demo_pairs
  ∧ bimap.move_construct demo2 0 = Ret (demo7, 1)
  ∧ contents demo7 1 = Ret demo_pairs
  ∧ left_nodes demo7 0 = Diverge
  ∧ right_nodes demo7 0 = Diverge
  ∧ ¬ world_inv demo7
  ∧ (∃ w', bimap.erase_left_key demo7 1 5 = Ret (w', true)
           ∧ left_nodes w' 0 = Undefined
           ∧ bimap.find_left w' 0 7 = Undefined)
  ∧ (∃ w', bimap.destroy demo7 1 = Ret w'
           ∧ bimap.destroy w' 0 = Undefined).
Proof.
  split; [exact demo2_reachable|].
  do 5 (split; [by vm_compute|]).
  split.
  { destruct (move_construct_breaks_inv 0 0 demo2 0 demo_obj demo_pairs)
      as (w' & Hm & _ & _ & Hno); [exact demo2_reachable|by vm_compute..|].
    unfold demo7. rewrite Hm. exact Hno. }
  split.
  - exists (after demo7 (bimap.erase_left_key demo7 1 5)). by vm_compute.
  - exists (match bimap.destroy demo7 1 with Ret w => w | _ => demo7 end).
    by vm_compute.
Qed.
